(** * Rerex: a shallow embedding of [rerex.c] and its verification

    The source is the text of [rerex.c], which this tree holds in
    [src/test/meson.build] (from its line 139 on).  The development follows
    it top-down: status strings, NFA states and the state array, the
    automata combinators, the parser input, the recursive-descent parser
    that builds the NFA on the fly, [rerex_compile], and finally the matcher
    ([rerex_new_matcher], [enter_state], [rerex_match]).  The definitions
    that the theorems are stated with come next, and then the proofs.

    Conventions.
    - A C [char] is a [Z] (its integer value after promotion); a C string is
      the [list Z] of the bytes before the terminating NUL, and reading at
      its length gives the NUL.  A zero inside the list acts as terminator,
      as it does in C.
    - [size_t] values used as indices are [nat]; the step counters of the
      matcher are [N], with [SIZE_MAX] a parameter.
    - Whether plain [char] is signed is implementation-defined; it is a
      parameter ([char_signed]) of the only conversion the source performs.
    - Allocation ([realloc], [malloc], [calloc]) is assumed to succeed. *)

From Stdlib Require Import ZArith NArith List String Ascii Lia Bool.
From stdpp Require Import prelude.

(** ** Status codes *)

(** Modelled from the spec: the header under [include/] stops at
    [REREX_UNORDERED_RANGE]; [REREX_NO_MEMORY] is the tenth status, used by
    [rerex_strerror] and [rerex_compile] and listed in the error taxonomy
    ("Out of memory"), placed after [REREX_UNORDERED_RANGE] as the tenth
    entry of [status_strings]. *)
Inductive RerexStatus : Set :=
| REREX_SUCCESS
| REREX_EXPECTED_CHAR
| REREX_EXPECTED_ELEMENT
| REREX_EXPECTED_RBRACKET
| REREX_EXPECTED_RPAREN
| REREX_EXPECTED_SPECIAL
| REREX_UNEXPECTED_SPECIAL
| REREX_UNEXPECTED_END
| REREX_UNORDERED_RANGE
| REREX_NO_MEMORY.

Global Instance RerexStatus_eq_dec : EqDecision RerexStatus.
Proof. solve_decision. Defined.

(** The integer value of an enumerator. *)
Definition status_code (st : RerexStatus) : Z :=
  match st with
  | REREX_SUCCESS => 0
  | REREX_EXPECTED_CHAR => 1
  | REREX_EXPECTED_ELEMENT => 2
  | REREX_EXPECTED_RBRACKET => 3
  | REREX_EXPECTED_RPAREN => 4
  | REREX_EXPECTED_SPECIAL => 5
  | REREX_UNEXPECTED_SPECIAL => 6
  | REREX_UNEXPECTED_END => 7
  | REREX_UNORDERED_RANGE => 8
  | REREX_NO_MEMORY => 9
  end.

Definition all_statuses : list RerexStatus :=
  [REREX_SUCCESS; REREX_EXPECTED_CHAR; REREX_EXPECTED_ELEMENT;
   REREX_EXPECTED_RBRACKET; REREX_EXPECTED_RPAREN; REREX_EXPECTED_SPECIAL;
   REREX_UNEXPECTED_SPECIAL; REREX_UNEXPECTED_END; REREX_UNORDERED_RANGE;
   REREX_NO_MEMORY].

(** The one-character string holding a double quote (0x22). *)
Definition dquote : string := String (ascii_of_nat 34) EmptyString.

Definition status_strings : list string :=
  ["Success";
   "Expected a regular character";
   "Expected a character in a set";
   "Expected ']'";
   "Expected ')'";
   String.append "Expected a special character (one of "
     (String.append dquote (String.append "()*+-?[]^|" (String.append dquote ")")));
   "Unexpected special character";
   "Unexpected end of input";
   "Range is out of order";
   "Failed to allocate memory"]%string.

(** [(unsigned)x] for a 32-bit [int]/[unsigned] value. *)
Definition to_unsigned (z : Z) : Z := (z mod 2 ^ 32)%Z.

(** [rerex_strerror]: the argument is the integer value of the status, which
    a caller may obtain by a cast from any [int] or [unsigned]. *)
Definition rerex_strerror (status : Z) : string :=
  if (to_unsigned status <=? to_unsigned (status_code REREX_NO_MEMORY))%Z
  then nth (Z.to_nat status) status_strings "Unknown error"%string
  else "Unknown error"%string.

(** ** Characters *)

(** The integer value of an ASCII character constant such as ['('] . *)
Definition ch (a : ascii) : Z := Z.of_N (N_of_ascii a).

(** A C string literal with ASCII content, as the bytes before its NUL. *)
Definition c_str (s : string) : list Z := map ch (list_ascii_of_string s).

Definition cmin : Z := 0x20. (* Inclusive minimum normal character *)
Definition cmax : Z := 0x7E. (* Inclusive maximum normal character *)

(** ** State *)

(** The ID for a state, which is an index into the state array. *)
Abbreviation StateIndex := nat (only parsing).

(** A code point ([int] in the source). *)
Abbreviation Codepoint := Z (only parsing).

(** Special type for states with only epsilon out arcs. *)
Definition REREX_MATCH : Codepoint := 0xE000%Z. (* Matching state, no out arcs *)
Definition REREX_SPLIT : Codepoint := 0xE001%Z. (* Splitting state, one or two out arcs *)

(** A state in an NFA: either [min] and [max] are characters labelling an
    arc to [next1], or [min] is a special state type. *)
Record State : Set := mkState {
  next1 : StateIndex; (* Head of first out arc (or NO_STATE) *)
  next2 : StateIndex; (* Head of second out arc (or NO_STATE) *)
  min : Codepoint;    (* Special type, or inclusive min label for next1 *)
  max : Codepoint;    (* Inclusive max label *)
}.

(** Sentinel value for an unset state index. *)
Definition NO_STATE : StateIndex := 0.

(** Create a match (end) state with no successors. *)
Definition match_state : State := mkState NO_STATE NO_STATE REREX_MATCH 0%Z.

(** Create a split state with at most two successors. *)
Definition split_state (next1 next2 : StateIndex) : State :=
  mkState next1 next2 REREX_SPLIT 0%Z.

(** Create a labeled state with one successor reached by a character arc. *)
Definition range_state (min max : Z) (next : StateIndex) : State :=
  mkState next NO_STATE min max.

(** ** Array of states *)

(** The flat array of states; [n_states] is its length. *)
Abbreviation StateArray := (list State) (only parsing).

Definition n_states (array : StateArray) : nat := length array.

(** [states->states[i]].  Every index the builder uses was returned by
    [add_state] (see [build_wf] below); outside the array the model reads a
    null split state. *)
Definition state_at (array : StateArray) (i : StateIndex) : State :=
  default (split_state NO_STATE NO_STATE) (array !! i).

(** [states->states[i] = s]. *)
Definition set_state (array : StateArray) (i : StateIndex) (s : State)
  : StateArray :=
  <[i := s]> array.

(** Append a new state to the end of the state array. *)
Definition add_state (array : StateArray) (state : State)
  : StateIndex * StateArray :=
  (n_states array, array ++ [state]).

(** ** Automata *)

(** A lightweight description of an NFA fragment. *)
Record Automata : Set := make_automata {
  start : StateIndex;
  end_ : StateIndex;
}.

(** Return whether [nfa] has only two simple states. *)
Definition is_trivial (states : StateArray) (nfa : Automata) : bool :=
  (min (state_at states (start nfa)) <? REREX_MATCH)%Z
  && (next1 (state_at states (start nfa)) =? end_ nfa).

(** Kleene's Star of an NFA. *)
Definition star (states : StateArray) (nfa : Automata)
  : Automata * StateArray :=
  let '(e, states) := add_state states match_state in
  let '(s, states) := add_state states (split_state (start nfa) e) in
  let states := set_state states (end_ nfa) (split_state (start nfa) e) in
  (make_automata s e, states).

(** Zero-or-one of an NFA. *)
Definition question (states : StateArray) (nfa : Automata)
  : Automata * StateArray :=
  let '(s, states) :=
    add_state states (split_state (start nfa) (end_ nfa)) in
  (make_automata s (end_ nfa), states).

(** One-or-more of an NFA. *)
Definition plus (states : StateArray) (nfa : Automata)
  : Automata * StateArray :=
  let '(e, states) := add_state states match_state in
  let states := set_state states (end_ nfa) (split_state (start nfa) e) in
  (make_automata (start nfa) e, states).

(** [states->states[i].next1 = n]. *)
Definition set_next1 (states : StateArray) (i n : StateIndex) : StateArray :=
  let s := state_at states i in
  set_state states i (mkState n (next2 s) (min s) (max s)).

(** Concatenation of two NFAs. *)
Definition concatenate (states : StateArray) (a b : Automata)
  : Automata * StateArray :=
  let states :=
    if is_trivial states a
    then (* Optimization: link a's start directly to b's start *)
      set_next1 states (start a) (start b)
    else set_state states (end_ a) (split_state (start b) NO_STATE) in
  (make_automata (start a) (end_ b), states).

(** Alternation (OR) of two NFAs. *)
Definition alternate (states : StateArray) (a b : Automata)
  : Automata * StateArray :=
  let '(split, states) :=
    add_state states (split_state (start a) (start b)) in
  if is_trivial states a then
    (* Optimization: link a's start directly to b's end *)
    (make_automata split (end_ b), set_next1 states (start a) (end_ b))
  else if is_trivial states b then
    (* Optimization: link b's start directly to a's end *)
    (make_automata split (end_ a), set_next1 states (start b) (end_ a))
  else
    let '(e, states) := add_state states match_state in
    let states := set_state states (end_ a) (split_state e NO_STATE) in
    let states := set_state states (end_ b) (split_state e NO_STATE) in
    (make_automata split e, states).

(** ** Parser input *)

Record Input : Set := mkInput {
  str : list Z;
  offset : nat;
}.

(** Return the next character in the input without consuming it. *)
Definition peek (input : Input) : Z :=
  default 0%Z (str input !! offset input).

(** Return the next-next character in the input without consuming any. *)
Definition peekahead (input : Input) : Z :=
  default 0%Z (str input !! (offset input + 1)).

(** Consume and return the next character in the input. *)
Definition eat (input : Input) : Z * Input :=
  (peek input, mkInput (str input) (offset input + 1)).

(** [SPECIAL ::= DOT | OPERATOR | '(' | ')' | '[' | ']' | '^' | '{' | '|' | '}'] *)
Definition is_special (c : Z) : bool :=
  (c =? ch "(")%Z || (c =? ch ")")%Z || (c =? ch "*")%Z || (c =? ch "+")%Z
  || (c =? ch ".")%Z || (c =? ch "?")%Z || (c =? ch "[")%Z || (c =? ch "]")%Z
  || (c =? ch "^")%Z || (c =? ch "{")%Z || (c =? ch "|")%Z || (c =? ch "}")%Z.

(** ** Parser *)

(** A parsing function returns a status and, through pointers, a character
    or an automaton; it advances the input and appends to the state array.
    On an error the input stays where the parser stopped.  The last argument
    of an error is an annotation that the source does not compute: the
    position in the pattern of the byte tested by the check that failed
    (the byte under the cursor when the check follows a [peek], the byte
    before the cursor when it follows an [eat]). *)
Inductive char_result : Set :=
| COk (c : Z) (input : Input)
| CErr (st : RerexStatus) (input : Input) (tested : nat).

Inductive outcome : Set :=
| POk (nfa : Automata) (input : Input) (states : StateArray)
| PErr (st : RerexStatus) (input : Input) (tested : nat)
| PFuel.

(** [DOT ::= '.'] *)
Definition read_dot (input : Input) (states : StateArray) : outcome :=
  let '(_, input) := eat input in
  let '(e, states) := add_state states match_state in
  let '(s, states) := add_state states (range_state cmin cmax e) in
  POk (make_automata s e) input states.

(** [ESCAPE ::= '\' SPECIAL] *)
Definition read_escape (input : Input) : char_result :=
  let '(_, input) := eat input in
  let c := peek input in
  if is_special c || (c =? ch "-")%Z then
    let '(c, input) := eat input in
    COk c input
  else CErr REREX_EXPECTED_SPECIAL input (offset input).

(** [CHAR ::= ESCAPE | [#x20-#x7E] - SPECIAL] *)
Definition read_char (input : Input) : char_result :=
  let c := peek input in
  if (c =? 0)%Z then CErr REREX_UNEXPECTED_END input (offset input)
  else if (c =? ch "\")%Z then read_escape input
  else if is_special c then
    CErr REREX_UNEXPECTED_SPECIAL input (offset input)
  else if (cmin <=? c)%Z && (c <=? cmax)%Z then
    let '(c, input) := eat input in
    COk c input
  else CErr REREX_EXPECTED_CHAR input (offset input).

(** [ELEMENT ::= ([#x20-#x7E] - ']') | ('\' ']')] *)
Definition read_element (input : Input) : char_result :=
  let c := peek input in
  if (c =? 0)%Z then CErr REREX_UNEXPECTED_END input (offset input)
  else if (c =? ch "]")%Z then
    CErr REREX_UNEXPECTED_SPECIAL input (offset input)
  else if (c =? ch "\")%Z then
    let '(_, input) := eat input in
    if negb (peek input =? ch "]")%Z then
      CErr REREX_EXPECTED_RBRACKET input (offset input)
    else
      let '(c, input) := eat input in
      COk c input
  else if (cmin <=? c)%Z && (c <=? cmax)%Z then
    let '(c, input) := eat input in
    COk c input
  else CErr REREX_EXPECTED_ELEMENT input (offset input).

Section Parser.

(** Whether plain [char] is a signed type on the platform. *)
Variable char_signed : bool.

(** The conversion [(char)x] of an [int] to [char]. *)
Definition char_cast (x : Z) : Z :=
  if char_signed then ((x + 128) mod 256 - 128)%Z else (x mod 256)%Z.

(** The automaton of one range of a set: the part of [read_range] that
    follows the reading of the two endpoints. *)
Definition range_automata (states : StateArray) (negated : bool)
    (min max : Z) : Automata * StateArray :=
  let '(e, states) := add_state states match_state in
  if negated then
    let emin := char_cast (min - 1) in
    let emax := char_cast (max + 1) in
    let '(low, states) := add_state states (range_state cmin emin e) in
    let '(high, states) := add_state states (range_state emax cmax e) in
    let '(fork, states) := add_state states (split_state low high) in
    (make_automata fork e, states)
  else
    let '(s, states) := add_state states (range_state min max e) in
    (make_automata s e, states).

(** [Range ::= ELEMENT | ELEMENT '-' ELEMENT] *)
Definition read_range (input : Input) (states : StateArray) (negated : bool)
  : outcome :=
  (* Read the first (or only) character *)
  match read_element input with
  | CErr st input t => PErr st input t
  | COk min input =>
    let second :=
      (* The '-' is only special if there's a following element *)
      if (peek input =? ch "-")%Z && negb (peekahead input =? ch "]")%Z
      then let '(_, input) := eat input in read_element input
      else COk min input in
    match second with
    | CErr st input t => PErr st input t
    | COk max input =>
      if (max <? min)%Z then
        PErr REREX_UNORDERED_RANGE input (offset input - 1)
      else
        let '(nfa, states) := range_automata states negated min max in
        POk nfa input states
    end
  end.

(** The [while (peek(input) != ']')] loop of [read_set]; [fuel] bounds the
    number of iterations. *)
Fixpoint read_set_loop (fuel : nat) (input : Input) (states : StateArray)
    (negated : bool) (nfa : Automata) : outcome :=
  if (peek input =? ch "]")%Z then POk nfa input states
  else
    match fuel with
    | 0 => PFuel
    | S fuel =>
      match read_range input states negated with
      | POk range_nfa input states =>
        let '(nfa, states) := alternate states nfa range_nfa in
        read_set_loop fuel input states negated nfa
      | e => e
      end
    end.

(** [Set ::= Range | Range Set], after an optional ['^']. *)
Definition read_set (fuel : nat) (input : Input) (states : StateArray)
  : outcome :=
  let '(negated, input) :=
    if (peek input =? ch "^")%Z then (true, snd (eat input))
    else (false, input) in
  match read_range input states negated with
  | POk nfa input states => read_set_loop fuel input states negated nfa
  | e => e
  end.

(** The automaton of a single character: the end of [read_atom]. *)
Definition char_automata (states : StateArray) (c : Z)
  : Automata * StateArray :=
  let '(e, states) := add_state states match_state in
  let '(s, states) := add_state states (range_state c c e) in
  (make_automata s e, states).

(** The four mutually recursive productions.  [fuel] bounds the depth of
    the recursion; [compile_fuel] below is always enough
    ([rerex_compile_total]).

    [Atom ::= CHAR | DOT | '(' Expr ')' | '[' Set ']']
    [Factor ::= Atom | Atom OPERATOR]
    [Term ::= Factor | Factor Term]
    [Expr ::= Term | Term '|' Expr] *)
Fixpoint read_atom (fuel : nat) (input : Input) (states : StateArray)
    {struct fuel} : outcome :=
  match fuel with
  | 0 => PFuel
  | S fuel =>
    let c := peek input in
    if (c =? ch "(")%Z then
      let '(_, input) := eat input in
      match read_expr fuel input states with
      | POk nfa input states =>
        if negb (peek input =? ch ")")%Z then
          PErr REREX_EXPECTED_RPAREN input (offset input)
        else
          let '(_, input) := eat input in
          POk nfa input states
      | e => e
      end
    else if (c =? ch ".")%Z then read_dot input states
    else if (c =? ch "[")%Z then
      let '(_, input) := eat input in
      match read_set fuel input states with
      | POk nfa input states =>
        let '(_, input) := eat input in
        POk nfa input states
      | e => e
      end
    else
      match read_char input with
      | CErr st input t => PErr st input t
      | COk c input =>
        let '(nfa, states) := char_automata states c in
        POk nfa input states
      end
  end

with read_factor (fuel : nat) (input : Input) (states : StateArray)
    {struct fuel} : outcome :=
  match fuel with
  | 0 => PFuel
  | S fuel =>
    match read_atom fuel input states with
    | POk atom_nfa input states =>
      let c := peek input in
      if (c =? ch "*")%Z then
        let '(_, input) := eat input in
        let '(nfa, states) := star states atom_nfa in
        POk nfa input states
      else if (c =? ch "+")%Z then
        let '(_, input) := eat input in
        let '(nfa, states) := plus states atom_nfa in
        POk nfa input states
      else if (c =? ch "?")%Z then
        let '(_, input) := eat input in
        let '(nfa, states) := question states atom_nfa in
        POk nfa input states
      else POk atom_nfa input states
    | e => e
    end
  end

with read_term (fuel : nat) (input : Input) (states : StateArray)
    {struct fuel} : outcome :=
  match fuel with
  | 0 => PFuel
  | S fuel =>
    match read_factor fuel input states with
    | POk factor_nfa input states =>
      let c := peek input in
      if (c =? 0)%Z || (c =? ch ")")%Z || (c =? ch "|")%Z then
        POk factor_nfa input states
      else
        match read_term fuel input states with
        | POk term_nfa input states =>
          let '(nfa, states) := concatenate states factor_nfa term_nfa in
          POk nfa input states
        | e => e
        end
    | e => e
    end
  end

with read_expr (fuel : nat) (input : Input) (states : StateArray)
    {struct fuel} : outcome :=
  match fuel with
  | 0 => PFuel
  | S fuel =>
    match read_term fuel input states with
    | POk term_nfa input states =>
      if (peek input =? ch "|")%Z then
        let '(_, input) := eat input in
        match read_expr fuel input states with
        | POk expr_nfa input states =>
          let '(nfa, states) := alternate states term_nfa expr_nfa in
          POk nfa input states
        | e => e
        end
      else POk term_nfa input states
    | e => e
    end
  end.

(** ** Pattern *)

(** A pattern is simply an array of states and an index to the start
    state (fields [states] and [start] of [struct RerexPatternImpl]). *)
Record RerexPattern : Set := mkPattern {
  p_states : StateArray;
  p_start : StateIndex;
}.

(** Recursion depth that suffices for a pattern. *)
Definition compile_fuel (pattern : list Z) : nat := 4 * length pattern + 4.

(** The state array after the first lines of [rerex_compile]: the null
    state is added so that no actual state has [NO_STATE] as an ID. *)
Definition null_array : StateArray :=
  snd (add_state [] (split_state NO_STATE NO_STATE)).

(** The body of [rerex_compile] up to the call of [read_expr]. *)
Definition parse_pattern (pattern : list Z) : outcome :=
  let input := mkInput pattern 0 in
  read_expr (compile_fuel pattern) input null_array.

(** [rerex_compile]: the status, [*end] and [*out] ([None] when [*out] is
    left unchanged).  The result is [None] only if the recursion bound of
    the model were exceeded, which never happens ([rerex_compile_total]). *)
Definition rerex_compile (pattern : list Z)
  : option (RerexStatus * nat * option RerexPattern) :=
  match parse_pattern pattern with
  | POk nfa input states =>
    Some (REREX_SUCCESS, offset input, Some (mkPattern states (start nfa)))
  | PErr st input _ => Some (st, offset input, None)
  | PFuel => None
  end.

(** Whether the whole of [pattern] is a term of the grammar: [read_term],
    called as [rerex_compile] calls [read_expr], succeeds and stops at the
    end of the pattern. *)
Definition is_term (pattern : list Z) : bool :=
  match
    read_term (compile_fuel pattern) (mkInput pattern 0) null_array
  with
  | POk _ input _ => offset input =? length pattern
  | _ => false
  end.

(** Whether the whole of [pattern] is an atom of the grammar, by
    [read_atom] in the same way. *)
Definition is_atom (pattern : list Z) : bool :=
  match
    read_atom (compile_fuel pattern) (mkInput pattern 0) null_array
  with
  | POk _ input _ => offset input =? length pattern
  | _ => false
  end.

End Parser.

(** ** Matcher *)

Record IndexList : Set := mkIndexList {
  indices : list StateIndex; (* Array of state indices *)
  n_indices : nat;           (* Number of elements in indices *)
}.

(** The matcher: the pattern, the two lists of active states ([active[0]]
    and [active[1]]) and, per state, the last iteration it was entered in. *)
Record RerexMatcher : Set := mkMatcher {
  regexp : RerexPattern;
  active0 : IndexList;
  active1 : IndexList;
  last_active : list N;
}.

(** [matcher->active[phase]] *)
Definition active (matcher : RerexMatcher) (phase : bool) : IndexList :=
  if phase then active1 matcher else active0 matcher.

Definition set_active (matcher : RerexMatcher) (phase : bool)
    (l : IndexList) : RerexMatcher :=
  if phase
  then mkMatcher (regexp matcher) (active0 matcher) l (last_active matcher)
  else mkMatcher (regexp matcher) l (active1 matcher) (last_active matcher).

Definition set_last_active (matcher : RerexMatcher) (la : list N)
  : RerexMatcher :=
  mkMatcher (regexp matcher) (active0 matcher) (active1 matcher) la.

(** [rerex_new_matcher]: the three buffers are [calloc]ed with [n_states]
    elements each. *)
Definition rerex_new_matcher (regexp : RerexPattern) : RerexMatcher :=
  let n := n_states (p_states regexp) in
  mkMatcher regexp
            (mkIndexList (replicate n NO_STATE) 0)
            (mkIndexList (replicate n NO_STATE) 0)
            (replicate n 0%N).

(** Results of the matcher's code: every array access is checked against
    the length of the buffer it goes to, and an access outside it ends the
    run with [MBounds]. [MFuel] is the recursion bound of the model. *)
Inductive mresult (A : Type) : Type :=
| MOk (a : A)
| MBounds
| MFuel.
Arguments MOk {A} a.
Arguments MBounds {A}.
Arguments MFuel {A}.

Section Matcher.

(** The largest value of [size_t]. *)
Variable SIZE_MAX : N.

(** Add [s] and any epsilon successors to the active list
    [matcher->active[list]]. *)
Fixpoint enter_state (fuel : nat) (matcher : RerexMatcher) (step : N)
    (list : bool) (s : StateIndex) {struct fuel} : mresult RerexMatcher :=
  match fuel with
  | 0 => MFuel
  | S fuel =>
    if s =? NO_STATE then MOk matcher
    else
      match last_active matcher !! s with
      | None => MBounds
      | Some la =>
        if (la =? step)%N then MOk matcher
        else
          let matcher :=
            set_last_active matcher (<[s := step]> (last_active matcher)) in
          match p_states (regexp matcher) !! s with
          | None => MBounds
          | Some state =>
            if (min state =? REREX_SPLIT)%Z then
              match enter_state fuel matcher step list (next1 state) with
              | MOk matcher =>
                enter_state fuel matcher step list (next2 state)
              | e => e
              end
            else
              (* list->indices[list->n_indices++] = s *)
              let l := active matcher list in
              if n_indices l <? length (indices l) then
                MOk (set_active matcher list
                       (mkIndexList (<[n_indices l := s]> (indices l))
                                    (n_indices l + 1)))
              else MBounds
          end
      end
  end.

(** [for (i = 0; i < n_states; ++i) last_active[i] = SIZE_MAX], from
    index [i] for [count] iterations. *)
Fixpoint reset_last_active (la : list N) (i count : nat)
  : mresult (list N) :=
  match count with
  | 0 => MOk la
  | S count =>
    if i <? length la
    then reset_last_active (<[i := SIZE_MAX]> la) (i + 1) count
    else MBounds
  end.

(** The inner loop of [rerex_match]: for the [count] entries of
    [active[phase]] from index [j] on, add the successor states for the
    character [c] to the next iteration's list [active[!phase]].
    [enter_state] appends to the other list only, so the bound
    [list->n_indices] of the loop is the one read on entry. *)
Fixpoint tick_loop (fuel : nat) (matcher : RerexMatcher) (step : N)
    (phase : bool) (c : Z) (j count : nat) : mresult RerexMatcher :=
  match count with
  | 0 => MOk matcher
  | S count =>
    match indices (active matcher phase) !! j with
    | None => MBounds
    | Some idx =>
      match p_states (regexp matcher) !! idx with
      | None => MBounds
      | Some state =>
        let entered :=
          if (min state <=? c)%Z && (c <=? max state)%Z
          then enter_state fuel matcher step (negb phase) (next1 state)
          else MOk matcher in
        match entered with
        | MOk matcher => tick_loop fuel matcher step phase c (j + 1) count
        | e => e
        end
      end
    end
  end.

(** One iteration of the outer loop: tick the matcher for the character
    [c], which is the [i]th of the string. *)
Definition tick (fuel : nat) (matcher : RerexMatcher) (phase : bool)
    (i : N) (c : Z) : mresult RerexMatcher :=
  let next_list := active matcher (negb phase) in
  let matcher :=
    set_active matcher (negb phase) (mkIndexList (indices next_list) 0) in
  tick_loop fuel matcher (i + 1)%N phase c
            0 (n_indices (active matcher phase)).

(** The outer loop [for (i = 0; string[i]; ++i)]; returns the final phase. *)
Fixpoint match_loop (fuel : nat) (matcher : RerexMatcher) (phase : bool)
    (i : N) (string : list Z) : mresult (bool * RerexMatcher) :=
  match string with
  | [] => MOk (phase, matcher)
  | c :: string =>
    if (c =? 0)%Z then MOk (phase, matcher)
    else
      match tick fuel matcher phase i c with
      | MOk matcher => match_loop fuel matcher (negb phase) (i + 1)%N string
      | MBounds => MBounds
      | MFuel => MFuel
      end
  end.

(** The last loop: whether a match state is among the [count] entries of
    the list from index [i] on. *)
Fixpoint match_entered (states : StateArray) (l : IndexList) (i count : nat)
  : mresult bool :=
  match count with
  | 0 => MOk false
  | S count =>
    match indices l !! i with
    | None => MBounds
    | Some idx =>
      match states !! idx with
      | None => MBounds
      | Some state =>
        if (min state =? REREX_MATCH)%Z then MOk true
        else match_entered states l (i + 1) count
      end
    end
  end.

(** Depth of recursion that suffices for [enter_state]: each nested call
    marks a state in [last_active]. *)
Definition enter_fuel (matcher : RerexMatcher) : nat :=
  S (n_states (p_states (regexp matcher))).

(** [rerex_match]: the verdict and the matcher as the call leaves it. *)
Definition rerex_match (matcher : RerexMatcher) (string : list Z)
  : mresult (bool * RerexMatcher) :=
  let states := p_states (regexp matcher) in
  let fuel := enter_fuel matcher in
  (* Reset matcher to a consistent initial state *)
  let matcher :=
    set_active matcher false (mkIndexList (indices (active0 matcher)) 0) in
  let matcher :=
    set_active matcher true (mkIndexList (indices (active1 matcher)) 0) in
  match reset_last_active (last_active matcher) 0 (n_states states) with
  | MOk la =>
    let matcher := set_last_active matcher la in
    (* Enter start state *)
    match enter_state fuel matcher 0%N false (p_start (regexp matcher)) with
    | MOk matcher =>
      (* Tick the matcher for every input character *)
      match match_loop fuel matcher false 0%N string with
      | MOk (phase, matcher) =>
        (* Check if match state is entered in the end *)
        let l := active matcher phase in
        match match_entered states l 0 (n_indices l) with
        | MOk b => MOk (b, matcher)
        | MBounds => MBounds
        | MFuel => MFuel
        end
      | MBounds => MBounds
      | MFuel => MFuel
      end
    | MBounds => MBounds
    | MFuel => MFuel
    end
  | MBounds => MBounds
  | MFuel => MFuel
  end.

(** The verdict of [rerex_match] on a new matcher for the pattern. *)
Definition verdict (pat : RerexPattern) (s : list Z) : option bool :=
  match rerex_match (rerex_new_matcher pat) s with
  | MOk (b, _) => Some b
  | _ => None
  end.

End Matcher.

(** ** The function [matches] of the README *)

(** Compile [pattern], make a matcher and match [text] (64-bit
    [size_t]). *)
Definition matches (char_signed : bool) (pattern text : list Z)
  : option bool :=
  match rerex_compile char_signed pattern with
  | Some (REREX_SUCCESS, _, Some p) =>
    match rerex_match (2 ^ 64 - 1) (rerex_new_matcher p) text with
    | MOk (b, _) => Some b
    | _ => None
    end
  | _ => None
  end.

(** * Specification *)

(** The definitions that the theorems are stated with: the paths of an
    automaton and the language that it accepts, the invariants of the
    matcher and of the builders, the tree of a pattern with its language,
    and the parser as a function to trees, which the parser of the source
    is proved to refine ([read_parse]). *)

(** ** The state array as an NFA *)

(** [path arr q w r]: reading the word [w] leads from the state [q] to the
    state [r].  A split state has unlabelled arcs to its successors that are
    set; any other state has an arc to [next1], labelled with the characters
    from [min] to [max] (no character is, for a match state). *)
Inductive path (arr : StateArray) : StateIndex → list Z → StateIndex → Prop :=
| path_nil q : path arr q [] q
| path_eps q t w r st :
    arr !! q = Some st → min st = REREX_SPLIT →
    t = next1 st ∨ t = next2 st → t ≠ NO_STATE →
    path arr t w r → path arr q w r
| path_chr q c w r st :
    arr !! q = Some st → min st ≠ REREX_SPLIT →
    (min st <= c <= max st)%Z → next1 st ≠ NO_STATE →
    path arr (next1 st) w r → path arr q (c :: w) r.

(** The kinds of states. *)
Definition is_match (arr : StateArray) (q : StateIndex) : Prop :=
  ∃ st, arr !! q = Some st ∧ min st = REREX_MATCH.

Definition nonsplit (arr : StateArray) (q : StateIndex) : Prop :=
  ∃ st, arr !! q = Some st ∧ min st ≠ REREX_SPLIT.

(** The automaton that starts at [s] accepts [w]. *)
Definition accepts (arr : StateArray) (s : StateIndex) (w : list Z) : Prop :=
  s ≠ NO_STATE ∧ ∃ t, path arr s w t ∧ is_match arr t.

(** The arcs of the array lead to states of the array. *)
Definition wf_arena (arr : StateArray) : Prop :=
  ∀ q st, arr !! q = Some st →
          next1 st < length arr ∧ next2 st < length arr.

(** The characters of a C string: those before the terminator. *)
Fixpoint until_nul (string : list Z) : list Z :=
  match string with
  | [] => []
  | c :: string => if (c =? 0)%Z then [] else c :: until_nul string
  end.

(** ** Invariants of the matcher *)

(** The entries of an active list: the first [n_indices] of the buffer. *)
Definition entries (l : IndexList) : list StateIndex :=
  take (n_indices l) (indices l).

(** The state [q] has been entered in the iteration [step]. *)
Definition marked (m : RerexMatcher) (step : N) (q : StateIndex) : Prop :=
  last_active m !! q = Some step.

Global Instance marked_dec m step q : Decision (marked m step q).
Proof. unfold marked. apply _. Defined.

(** The number of states not entered in the iteration [step], which bounds
    the depth of the recursion of [enter_state]. *)
Definition unmarked_count (m : RerexMatcher) (step : N) : nat :=
  length (filter (λ v, v ≠ step) (last_active m)).

(** The three buffers have one element per state. *)
Definition buffers_ok (m : RerexMatcher) : Prop :=
  length (indices (active0 m)) = length (p_states (regexp m))
  ∧ length (indices (active1 m)) = length (p_states (regexp m))
  ∧ length (last_active m) = length (p_states (regexp m)).

(** The list [which] holds, once each, the states entered in the iteration
    [step] that are not split states. *)
Definition list_inv (m : RerexMatcher) (step : N) (which : bool) : Prop :=
  n_indices (active m which) ≤ length (indices (active m which))
  ∧ NoDup (entries (active m which))
  ∧ ∀ q, q ∈ entries (active m which)
         ↔ marked m step q ∧ nonsplit (p_states (regexp m)) q.

(** What [enter_state matcher step which s] does to the matcher [m],
    giving [m']: the states it enters are those reached from [s] by
    unlabelled arcs that were not entered before. *)
Record enter_post (m : RerexMatcher) (step : N) (which : bool)
    (s : StateIndex) (m' : RerexMatcher) : Prop := {
  ep_regexp : regexp m' = regexp m;
  ep_buffers : buffers_ok m';
  ep_inv : list_inv m' step which;
  ep_other : active m' (negb which) = active m (negb which);
  ep_mono : ∀ q, marked m step q → marked m' step q;
  ep_frame : ∀ q, ¬ marked m' step q →
                  last_active m' !! q = last_active m !! q;
  ep_count : unmarked_count m' step ≤ unmarked_count m step;
  ep_root : s ≠ NO_STATE → marked m' step s;
  ep_sound : ∀ q, marked m' step q → ¬ marked m step q →
                  s ≠ NO_STATE ∧ path (p_states (regexp m)) s [] q;
  ep_closed : ∀ q st, marked m' step q → ¬ marked m step q →
      p_states (regexp m) !! q = Some st → min st = REREX_SPLIT →
      (next1 st ≠ NO_STATE → marked m' step (next1 st))
      ∧ (next2 st ≠ NO_STATE → marked m' step (next2 st));
}.

Arguments ep_regexp {_ _ _ _ _} _.
Arguments ep_buffers {_ _ _ _ _} _.
Arguments ep_inv {_ _ _ _ _} _.
Arguments ep_other {_ _ _ _ _} _.
Arguments ep_mono {_ _ _ _ _} _ _ _.
Arguments ep_frame {_ _ _ _ _} _ _ _.
Arguments ep_count {_ _ _ _ _} _.
Arguments ep_root {_ _ _ _ _} _ _.
Arguments ep_sound {_ _ _ _ _} _ _ _ _.
Arguments ep_closed {_ _ _ _ _} _ _ _ _ _ _ _.

(** The invariant of the inner loop of [rerex_match] before the entry [j]
    of the current list, for the character [c]. *)
Record tick_inv (m0 : RerexMatcher) (step : N) (phase : bool) (c : Z)
    (j : nat) (m : RerexMatcher) : Prop := {
  ti_regexp : regexp m = regexp m0;
  ti_buffers : buffers_ok m;
  ti_list : active m phase = active m0 phase;
  ti_inv : list_inv m step (negb phase);
  ti_roots : ∀ k p st,
      k < j → entries (active m0 phase) !! k = Some p →
      p_states (regexp m0) !! p = Some st →
      (min st <= c <= max st)%Z → next1 st ≠ NO_STATE →
      marked m step (next1 st);
  ti_closed : ∀ q st,
      marked m step q → p_states (regexp m0) !! q = Some st →
      min st = REREX_SPLIT →
      (next1 st ≠ NO_STATE → marked m step (next1 st))
      ∧ (next2 st ≠ NO_STATE → marked m step (next2 st));
  ti_sound : ∀ q,
      marked m step q →
      ∃ k p st, k < j ∧ entries (active m0 phase) !! k = Some p
                ∧ p_states (regexp m0) !! p = Some st
                ∧ (min st <= c <= max st)%Z ∧ next1 st ≠ NO_STATE
                ∧ path (p_states (regexp m0)) (next1 st) [] q;
  ti_frame : ∀ q, ¬ marked m step q →
                  last_active m !! q = last_active m0 !! q;
}.
Arguments ti_regexp {_ _ _ _ _ _} _.
Arguments ti_buffers {_ _ _ _ _ _} _.
Arguments ti_list {_ _ _ _ _ _} _.
Arguments ti_inv {_ _ _ _ _ _} _.
Arguments ti_roots {_ _ _ _ _ _} _ _ _ _ _ _ _ _ _.
Arguments ti_closed {_ _ _ _ _ _} _ _ _ _ _ _.
Arguments ti_sound {_ _ _ _ _ _} _ _ _.
Arguments ti_frame {_ _ _ _ _ _} _ _ _.

(** What [rerex_match] requires of the matcher. *)
Definition matcher_ok (m : RerexMatcher) : Prop :=
  wf_arena (p_states (regexp m)) ∧ buffers_ok m
  ∧ p_start (regexp m) < length (p_states (regexp m)).

Section MatcherInvariants.

Variable SIZE_MAX : N.

(** The invariant of the outer loop of [rerex_match] after the text [w]:
    the states entered in the last iteration are those that [w] leads to
    from the start. *)
Record match_inv (m : RerexMatcher) (phase : bool) (w : list Z) : Prop := {
  mi_buffers : buffers_ok m;
  mi_inv : list_inv m (N.of_nat (length w)) phase;
  mi_other :
    n_indices (active m (negb phase))
      ≤ length (indices (active m (negb phase)))
    ∧ NoDup (entries (active m (negb phase)));
  mi_marked : ∀ q,
      marked m (N.of_nat (length w)) q
      ↔ p_start (regexp m) ≠ NO_STATE
        ∧ path (p_states (regexp m)) (p_start (regexp m)) w q;
  mi_steps : ∀ q v, last_active m !! q = Some v →
                    v = SIZE_MAX ∨ (v <= N.of_nat (length w))%N;
}.

(** The matchers of a pattern: a new one, and one that [rerex_match] has
    been called on. *)
Inductive matcher_of (pat : RerexPattern) : RerexMatcher → Prop :=
| matcher_new : matcher_of pat (rerex_new_matcher pat)
| matcher_used m s b m' :
    matcher_of pat m → (N.of_nat (length s) < SIZE_MAX)%N →
    rerex_match SIZE_MAX m s = MOk (b, m') → matcher_of pat m'.

End MatcherInvariants.

(** ** Fragments of the state array *)

(** The states with indices from [lo] to [hi - 1]. *)
Definition in_region (lo hi q : nat) : Prop := lo ≤ q < hi.

(** What every state of a region satisfies: its arcs stay in the region
    and its label bounds are in the interval of normal characters. *)
Definition state_ok (lo hi : nat) (st : State) : Prop :=
  (next1 st = NO_STATE ∨ in_region lo hi (next1 st))
  ∧ (next2 st = NO_STATE ∨ in_region lo hi (next2 st))
  ∧ (cmin <= min st)%Z ∧ (max st <= cmax)%Z.

(** Every state of the region satisfies [state_ok]. *)
Definition region_ok (arr : StateArray) (lo hi : nat) : Prop :=
  ∀ q st, in_region lo hi q → arr !! q = Some st → state_ok lo hi st.

(** The two arrays hold the same states in the region. *)
Definition agree (arr arr' : StateArray) (lo hi : nat) : Prop :=
  ∀ q, in_region lo hi q → arr' !! q = arr !! q.

(** Languages: sets of words. *)
Definition lang : Type := list Z → Prop.

Definition lang_range (lo hi : Z) : lang :=
  λ w, ∃ c, w = [c] ∧ (lo <= c <= hi)%Z.

Definition lang_union (A B : lang) : lang := λ w, A w ∨ B w.

Definition lang_concat (A B : lang) : lang :=
  λ w, ∃ w1 w2, w = w1 ++ w2 ∧ A w1 ∧ B w2.

Inductive lang_star (A : lang) : lang :=
| star_nil : lang_star A []
| star_cons w1 w2 : A w1 → lang_star A w2 → lang_star A (w1 ++ w2).

Definition lang_plus (A : lang) : lang := lang_concat A (lang_star A).

Definition lang_opt (A : lang) : lang := λ w, w = [] ∨ A w.

(** [frag arr lo hi f L]: the states of [arr] with indices from [lo] to
    [hi - 1] hold an automaton with entry [start f] and a single exit
    [end_ f], a match state, which accepts the language [L]. *)
Record frag (arr : StateArray) (lo hi : nat) (f : Automata) (L : lang)
  : Prop := {
  fr_lo : 1 ≤ lo;
  fr_hi : hi ≤ length arr;
  fr_start_in : in_region lo hi (start f);
  fr_end_in : in_region lo hi (end_ f);
  fr_end : arr !! end_ f = Some match_state;
  fr_start : ∃ st, arr !! start f = Some st ∧ min st ≠ REREX_MATCH;
  fr_region : region_ok arr lo hi;
  fr_lang : ∀ w, path arr (start f) w (end_ f) ↔ L w;
  fr_unique : ∀ w q, path arr (start f) w q → is_match arr q → q = end_ f;
}.
Arguments fr_lo {_ _ _ _ _} _.
Arguments fr_hi {_ _ _ _ _} _.
Arguments fr_start_in {_ _ _ _ _} _.
Arguments fr_end_in {_ _ _ _ _} _.
Arguments fr_end {_ _ _ _ _} _.
Arguments fr_start {_ _ _ _ _} _.
Arguments fr_region {_ _ _ _ _} _.
Arguments fr_lang {_ _ _ _ _} _ _.
Arguments fr_unique {_ _ _ _ _} _ _ _ _ _.

(** ** The syntax tree of a pattern *)

(** What the parser recognises.  A group [( Expr )] is the tree of its
    expression; a set keeps its ranges in the order of the pattern. *)
Inductive regex : Set :=
| RChar (c : Z)
| RDot
| RSet (negated : bool) (first : Z * Z) (rest : list (Z * Z))
| RStar (r : regex)
| RPlus (r : regex)
| RQuestion (r : regex)
| RConcat (a b : regex)
| RAlternate (a b : regex).

Section Build.

Variable char_signed : bool.

(** The calls of the builder that the parser makes for the ranges after
    the first of a set. *)
Fixpoint set_automata (states : list State) (negated : bool)
    (nfa : Automata) (rest : list (Z * Z)) : Automata * list State :=
  match rest with
  | [] => (nfa, states)
  | r :: rest =>
    let '(range_nfa, states) :=
      range_automata char_signed states negated r.1 r.2 in
    let '(nfa, states) := alternate states nfa range_nfa in
    set_automata states negated nfa rest
  end.

(** The calls of the builder that the parser makes for a pattern with the
    tree [r], in the order it makes them. *)
Fixpoint build (r : regex) (states : list State) : Automata * list State :=
  match r with
  | RChar c => char_automata states c
  | RDot =>
    let '(e, states) := add_state states match_state in
    let '(s, states) := add_state states (range_state cmin cmax e) in
    (make_automata s e, states)
  | RSet negated first rest =>
    let '(nfa, states) :=
      range_automata char_signed states negated first.1 first.2 in
    set_automata states negated nfa rest
  | RStar r => let '(nfa, states) := build r states in star states nfa
  | RPlus r => let '(nfa, states) := build r states in plus states nfa
  | RQuestion r =>
    let '(nfa, states) := build r states in question states nfa
  | RConcat a b =>
    let '(fa, states) := build a states in
    let '(fb, states) := build b states in
    concatenate states fa fb
  | RAlternate a b =>
    let '(fa, states) := build a states in
    let '(fb, states) := build b states in
    alternate states fa fb
  end.

End Build.

(** A normal character: one of the printable interval. *)
Definition normal (c : Z) : Prop := (cmin <= c <= cmax)%Z.

(** The trees that the parser returns: their characters are normal and
    their ranges in order. *)
Definition range_wf (r : Z * Z) : Prop :=
  normal r.1 ∧ normal r.2 ∧ (r.1 <= r.2)%Z.

Fixpoint regex_wf (r : regex) : Prop :=
  match r with
  | RChar c => normal c
  | RDot => True
  | RSet _ first rest => Forall range_wf (first :: rest)
  | RStar r | RPlus r | RQuestion r => regex_wf r
  | RConcat a b | RAlternate a b => regex_wf a ∧ regex_wf b
  end.

(** The language of one range of a set, as the builder encodes it: the
    range itself, or the normal characters below and above it. *)
Definition lang_class (negated : bool) (r : Z * Z) : lang :=
  if negated
  then λ w, ∃ c, w = [c]
                 ∧ ((cmin <= c <= r.1 - 1)%Z ∨ (r.2 + 1 <= c <= cmax)%Z)
  else lang_range r.1 r.2.

(** The language of a tree.  A set is the union of the languages of its
    ranges, negated or not, since the builder alternates them. *)
Fixpoint denote (r : regex) : lang :=
  match r with
  | RChar c => lang_range c c
  | RDot => lang_range cmin cmax
  | RSet negated first rest =>
    λ w, ∃ r, r ∈ first :: rest ∧ lang_class negated r w
  | RStar r => lang_star (denote r)
  | RPlus r => lang_plus (denote r)
  | RQuestion r => lang_opt (denote r)
  | RConcat a b => lang_concat (denote a) (denote b)
  | RAlternate a b => lang_union (denote a) (denote b)
  end.

(** What every call of the builder guarantees: the automaton sits on top
    of the old array, which is unchanged below. *)
Definition built (arr : list State) (lo : nat) (res : Automata * list State)
    (L : lang) : Prop :=
  frag res.2 lo (length res.2) res.1 L
  ∧ agree arr res.2 0 lo
  ∧ length arr ≤ length res.2.

(** ** The parser as a function from the rest of the pattern to a tree *)

(** The parsing functions read the input only through the characters from
    the cursor on, and build the automaton by calls that depend on the
    tree alone.  [parse_X] below is [read_X] on the rest of the pattern,
    returning the tree instead of building; [read_X_parse] relate them.
    [back] in an error is the distance from the cursor back to the byte
    tested by the failing check. *)
Inductive presult (A : Type) : Type :=
| ROk (a : A) (rest : list Z)
| RErr (st : RerexStatus) (rest : list Z) (back : nat)
| RFuel.
Arguments ROk {A} a rest.
Arguments RErr {A} st rest back.
Arguments RFuel {A}.

Inductive pchar : Set :=
| CROk (c : Z) (rest : list Z)
| CRErr (st : RerexStatus) (rest : list Z) (back : nat).

(** The character under the cursor and the one after it. *)
Definition hd0 (l : list Z) : Z := default 0%Z (l !! 0).
Definition hd1 (l : list Z) : Z := default 0%Z (l !! 1).

(** [read_escape], [read_char] and [read_element] on the rest [l] of the
    pattern. *)
Definition parse_escape (l : list Z) : pchar :=
  let l := tail l in
  let c := hd0 l in
  if is_special c || (c =? ch "-")%Z then CROk c (tail l)
  else CRErr REREX_EXPECTED_SPECIAL l 0.

Definition parse_char (l : list Z) : pchar :=
  let c := hd0 l in
  if (c =? 0)%Z then CRErr REREX_UNEXPECTED_END l 0
  else if (c =? ch "\")%Z then parse_escape l
  else if is_special c then CRErr REREX_UNEXPECTED_SPECIAL l 0
  else if (cmin <=? c)%Z && (c <=? cmax)%Z then CROk c (tail l)
  else CRErr REREX_EXPECTED_CHAR l 0.

Definition parse_element (l : list Z) : pchar :=
  let c := hd0 l in
  if (c =? 0)%Z then CRErr REREX_UNEXPECTED_END l 0
  else if (c =? ch "]")%Z then CRErr REREX_UNEXPECTED_SPECIAL l 0
  else if (c =? ch "\")%Z then
    let l := tail l in
    if negb (hd0 l =? ch "]")%Z then CRErr REREX_EXPECTED_RBRACKET l 0
    else CROk (hd0 l) (tail l)
  else if (cmin <=? c)%Z && (c <=? cmax)%Z then CROk c (tail l)
  else CRErr REREX_EXPECTED_ELEMENT l 0.

(** [read_range]: the two ends of the range. *)
Definition parse_range (l : list Z) : presult (Z * Z) :=
  match parse_element l with
  | CRErr st l b => RErr st l b
  | CROk min l =>
    let second :=
      if (hd0 l =? ch "-")%Z && negb (hd1 l =? ch "]")%Z
      then parse_element (tail l)
      else CROk min l in
    match second with
    | CRErr st l b => RErr st l b
    | CROk max l =>
      if (max <? min)%Z then RErr REREX_UNORDERED_RANGE l 1
      else ROk (min, max) l
    end
  end.

(** [read_set]: the ranges after the first, and the set. *)
Fixpoint parse_set_loop (fuel : nat) (l : list Z)
  : presult (list (Z * Z)) :=
  if (hd0 l =? ch "]")%Z then ROk [] l
  else
    match fuel with
    | 0 => RFuel
    | S fuel =>
      match parse_range l with
      | ROk r l =>
        match parse_set_loop fuel l with
        | ROk rest l => ROk (r :: rest) l
        | e => e
        end
      | RErr st l b => RErr st l b
      | RFuel => RFuel
      end
    end.

Definition parse_set (fuel : nat) (l : list Z) : presult regex :=
  let '(negated, l) :=
    if (hd0 l =? ch "^")%Z then (true, tail l) else (false, l) in
  match parse_range l with
  | ROk first l =>
    match parse_set_loop fuel l with
    | ROk rest l => ROk (RSet negated first rest) l
    | RErr st l b => RErr st l b
    | RFuel => RFuel
    end
  | RErr st l b => RErr st l b
  | RFuel => RFuel
  end.

(** [read_atom], [read_factor], [read_term] and [read_expr]. *)
Fixpoint parse_atom (fuel : nat) (l : list Z) {struct fuel}
  : presult regex :=
  match fuel with
  | 0 => RFuel
  | S fuel =>
    let c := hd0 l in
    if (c =? ch "(")%Z then
      match parse_expr fuel (tail l) with
      | ROk r l =>
        if negb (hd0 l =? ch ")")%Z then RErr REREX_EXPECTED_RPAREN l 0
        else ROk r (tail l)
      | e => e
      end
    else if (c =? ch ".")%Z then ROk RDot (tail l)
    else if (c =? ch "[")%Z then
      match parse_set fuel (tail l) with
      | ROk r l => ROk r (tail l)
      | e => e
      end
    else
      match parse_char l with
      | CROk c l => ROk (RChar c) l
      | CRErr st l b => RErr st l b
      end
  end

with parse_factor (fuel : nat) (l : list Z) {struct fuel}
  : presult regex :=
  match fuel with
  | 0 => RFuel
  | S fuel =>
    match parse_atom fuel l with
    | ROk r l =>
      let c := hd0 l in
      if (c =? ch "*")%Z then ROk (RStar r) (tail l)
      else if (c =? ch "+")%Z then ROk (RPlus r) (tail l)
      else if (c =? ch "?")%Z then ROk (RQuestion r) (tail l)
      else ROk r l
    | e => e
    end
  end

with parse_term (fuel : nat) (l : list Z) {struct fuel}
  : presult regex :=
  match fuel with
  | 0 => RFuel
  | S fuel =>
    match parse_factor fuel l with
    | ROk a l =>
      let c := hd0 l in
      if (c =? 0)%Z || (c =? ch ")")%Z || (c =? ch "|")%Z then ROk a l
      else
        match parse_term fuel l with
        | ROk b l => ROk (RConcat a b) l
        | e => e
        end
    | e => e
    end
  end

with parse_expr (fuel : nat) (l : list Z) {struct fuel}
  : presult regex :=
  match fuel with
  | 0 => RFuel
  | S fuel =>
    match parse_term fuel l with
    | ROk a l =>
      if (hd0 l =? ch "|")%Z then
        match parse_expr fuel (tail l) with
        | ROk b l => ROk (RAlternate a b) l
        | e => e
        end
      else ROk a l
    | e => e
    end
  end.

(** The input of the source when [l] is what is left of the pattern
    [str], and the results of the source for the results above. *)
Definition input_at (str l : list Z) : Input :=
  mkInput str (length str - length l).

Definition lift_char (str : list Z) (p : pchar) : char_result :=
  match p with
  | CROk c l => COk c (input_at str l)
  | CRErr st l b =>
    CErr st (input_at str l) (offset (input_at str l) - b)
  end.

Definition lift {A : Type}
    (mk : A → list State → Automata * list State)
    (str : list Z) (arr : list State) (p : presult A) : outcome :=
  match p with
  | ROk a l => let '(nfa, arr) := mk a arr in POk nfa (input_at str l) arr
  | RErr st l b => PErr st (input_at str l) (offset (input_at str l) - b)
  | RFuel => PFuel
  end.

(** Properties of a result for the input [l]: what is left is a suffix of
    [l]; the recursion bound was not met; a success has consumed input; the
    tree is well formed. *)
Definition pchar_rest (p : pchar) : list Z :=
  match p with CROk _ l | CRErr _ l _ => l end.

Definition presult_suffix {A : Type} (p : presult A) (l : list Z) : Prop :=
  match p with
  | ROk _ l' | RErr _ l' _ => l' `suffix_of` l
  | RFuel => True
  end.

Definition settled {A : Type} (p : presult A) : Prop := p ≠ RFuel.

Definition shorter {A : Type} (p : presult A) (l : list Z) : Prop :=
  match p with
  | ROk _ l' => length l' < length l
  | _ => True
  end.

Definition presult_wf (p : presult regex) : Prop :=
  match p with ROk r _ => regex_wf r | _ => True end.

(** The characters that the productions test after what they consumed. *)
Definition is_postfix (c : Z) : bool :=
  (c =? ch "*")%Z || (c =? ch "+")%Z || (c =? ch "?")%Z.

Definition ends_term (c : Z) : bool :=
  (c =? 0)%Z || (c =? ch ")")%Z || (c =? ch "|")%Z.

Definition ends_expr (c : Z) : bool :=
  (c =? 0)%Z || (c =? ch ")")%Z.

(** What the check that returns the status [st] has found of the
    character [c] that it tested.  No check returns the other statuses
    for a character. *)
Definition blamed (st : RerexStatus) (c : Z) : bool :=
  match st with
  | REREX_EXPECTED_CHAR | REREX_EXPECTED_ELEMENT =>
    negb ((cmin <=? c)%Z && (c <=? cmax)%Z)
  | REREX_EXPECTED_RBRACKET => negb (c =? ch "]")%Z
  | REREX_EXPECTED_RPAREN => negb (c =? ch ")")%Z
  | REREX_EXPECTED_SPECIAL => negb (is_special c || (c =? ch "-")%Z)
  | REREX_UNEXPECTED_SPECIAL => is_special c
  | REREX_UNEXPECTED_END => (c =? 0)%Z
  | _ => false
  end.

(** An error other than an unordered range stops at the character that
    the failing check tested. *)
Definition plain_err (st : RerexStatus) (l' : list Z) (back : nat) : Prop :=
  st ≠ REREX_UNORDERED_RANGE ∧ back = 0 ∧ blamed st (hd0 l') = true.

(** An unordered range is found after its upper end has been consumed. *)
Definition err_ok (l : list Z) (st : RerexStatus) (l' : list Z) (back : nat)
  : Prop :=
  (st = REREX_UNORDERED_RANGE ∧ back = 1 ∧ length l' < length l)
  ∨ plain_err st l' back.

(** The error of a result for the input [l] is one of these. *)
Definition presult_err {A : Type} (p : presult A) (l : list Z) : Prop :=
  match p with RErr st l' b => err_ok l st l' b | _ => True end.

(** The pattern that [rerex_compile] returns for a tree. *)
Definition pattern_of (cs : bool) (r : regex) : RerexPattern :=
  mkPattern (build cs r null_array).2 (start (build cs r null_array).1).

(** The pattern compiled for [ab]. *)
Definition pattern_ab : RerexPattern :=
  Eval vm_compute in pattern_of false (RConcat (RChar 97) (RChar 98)).


(** A character that stands for itself as the first element of a set. *)
Definition plain_element (c : Z) : bool :=
  (cmin <=? c)%Z && (c <=? cmax)%Z && negb (c =? ch "]")%Z
  && negb (c =? ch "\")%Z && negb (c =? ch "^")%Z.

(** ** The text of a set *)

(** An item of a set: a single character, two with a dash between, or
    the closing bracket after a backslash. *)
Inductive set_item : Set :=
| Single (c : Z)
| Span (lo hi : Z)
| Bracket.

Definition item_text (i : set_item) : list Z :=
  match i with
  | Single c => [c]
  | Span lo hi => [lo; ch "-"; hi]
  | Bracket => [ch "\"; ch "]"]
  end.

(** The range that [read_range] reads from the text of an item. *)
Definition item_range (i : set_item) : Z * Z :=
  match i with
  | Single c => (c, c)
  | Span lo hi => (lo, hi)
  | Bracket => (ch "]", ch "]")
  end.

(** The items whose text is read as them wherever they stand in a set:
    the characters stand for themselves, the first is not a dash, and the
    ends of a span are in order. *)
Definition item_ok (i : set_item) : bool :=
  match i with
  | Single c => plain_element c && negb (c =? ch "-")%Z
  | Span lo hi =>
    plain_element lo && negb (lo =? ch "-")%Z && plain_element hi
    && (lo <=? hi)%Z
  | Bracket => true
  end.

Fixpoint items_text (items : list set_item) : list Z :=
  match items with
  | [] => []
  | i :: items => item_text i ++ items_text items
  end.

(** The pattern of a set with the given items. *)
Definition set_text (negated : bool) (items : list set_item) : list Z :=
  ch "[" :: (if negated then [ch "^"] else [])
  ++ items_text items ++ [ch "]"].

(** A character that stands for itself outside a set. *)
Definition plain_char (c : Z) : bool :=
  (cmin <=? c)%Z && (c <=? cmax)%Z && negb (is_special c)
  && negb (c =? ch "\")%Z.

(** The first character of the text of an item. *)
Definition item_head (i : set_item) : Z :=
  match i with Single c => c | Span lo _ => lo | Bracket => ch "\" end.

(** ** The grammar of patterns *)

(** The texts that the grammar of the pattern language derives from
    [Atom], [Factor], [Term] and [Expr]; a set is one of items that are
    read as they stand ([item_ok]). *)
Inductive wf_atom : list Z → Prop :=
| wf_char c : plain_char c = true → wf_atom [c]
| wf_escape c :
    is_special c || (c =? ch "-")%Z = true → wf_atom [ch "\"; c]
| wf_dot : wf_atom [ch "."]
| wf_group e : wf_expr e → wf_atom (ch "(" :: e ++ [ch ")"])
| wf_set (negated : bool) i items :
    forallb item_ok (i :: items) = true →
    wf_atom (set_text negated (i :: items))
with wf_factor : list Z → Prop :=
| wf_factor_atom a : wf_atom a → wf_factor a
| wf_factor_op a c : wf_atom a → is_postfix c = true → wf_factor (a ++ [c])
with wf_term : list Z → Prop :=
| wf_term_factor f : wf_factor f → wf_term f
| wf_term_cons f t : wf_factor f → wf_term t → wf_term (f ++ t)
with wf_expr : list Z → Prop :=
| wf_expr_term t : wf_term t → wf_expr t
| wf_expr_bar t e : wf_term t → wf_expr e → wf_expr (t ++ ch "|" :: e).

Scheme wf_atom_ind' := Minimality for wf_atom Sort Prop
  with wf_factor_ind' := Minimality for wf_factor Sort Prop
  with wf_term_ind' := Minimality for wf_term Sort Prop
  with wf_expr_ind' := Minimality for wf_expr Sort Prop.

Combined Scheme wf_mutind
  from wf_atom_ind', wf_factor_ind', wf_term_ind', wf_expr_ind'.

(** ** The places of a set in a pattern *)




(** ** The place of an error *)

(** The text [l] ends, before [l'], with a range whose upper end is less
    than its lower end; the upper end is the character before [l'], after
    a backslash if it is the closing bracket. *)
Definition unordered_at (l l' : list Z) : Prop :=
  ∃ pre lo mid hi,
    l = pre ++ lo :: ch "-" :: mid ++ hi :: l'
    ∧ (mid = [] ∨ mid = [ch "\"]) ∧ (hi < lo)%Z.

Definition presult_unordered {A : Type} (p : presult A) (l : list Z)
  : Prop :=
  match p with
  | RErr st l' b => st = REREX_UNORDERED_RANGE → unordered_at l l'
  | _ => True
  end.

(** ** Characters that are read alike *)

(** The parser and the matcher tell a character from another only if one
    of them is the terminator or a normal character: every other
    character is read as [-1] is. *)
Definition canon (c : Z) : Z :=
  if (c =? 0)%Z || ((cmin <=? c)%Z && (c <=? cmax)%Z) then c else (-1)%Z.

Definition pchar_canon (p : pchar) : pchar :=
  match p with
  | CROk c l => CROk c (map canon l)
  | CRErr st l b => CRErr st (map canon l) b
  end.

Definition presult_canon {A : Type} (p : presult A) : presult A :=
  match p with
  | ROk a l => ROk a (map canon l)
  | RErr st l b => RErr st (map canon l) b
  | RFuel => RFuel
  end.

(** ** The size of the state array *)

(** The states that the builder adds for a tree, at most. *)
Fixpoint count_states (r : regex) : nat :=
  match r with
  | RChar _ | RDot => 2
  | RSet negated _ rest =>
    (if negated then 4 else 2) * S (length rest) + 2 * length rest
  | RStar r => count_states r + 2
  | RPlus r | RQuestion r => count_states r + 1
  | RConcat a b => count_states a + count_states b
  | RAlternate a b => count_states a + count_states b + 2
  end.

(** A result whose tree counts no more than six states for each
    character consumed. *)
Definition counted (p : presult regex) (l : list Z) : Prop :=
  match p with
  | ROk r l' => count_states r + 6 * length l' ≤ 6 * length l
  | _ => True
  end.

(** * Verification *)

(** ** Status strings *)

Lemma to_unsigned_small (z : Z) :
  (0 <= z < 2 ^ 32)%Z → to_unsigned z = z.
Proof. intros H. unfold to_unsigned. apply Z.mod_small. exact H. Qed.

Lemma to_unsigned_negative (z : Z) :
  (- 2 ^ 31 <= z < 0)%Z → to_unsigned z = (z + 2 ^ 32)%Z.
Proof.
  intros H. unfold to_unsigned.
  rewrite <- (Z.mod_add z 1 (2 ^ 32)) by lia.
  rewrite Z.mul_1_l. apply Z.mod_small. lia.
Qed.

(** C8. [rerex_strerror] returns, for every status of the enumeration,
    the short English description that the source gives it ("Success" for
    [REREX_SUCCESS]), which is the entry of the table at its code (0 to 9),
    is not empty and is never the text of an unknown error; for every other
    value of a 32-bit [int] or [unsigned] it returns exactly
    "Unknown error". *)
Theorem rerex_strerror_spec (z : Z) :
  (- 2 ^ 31 <= z < 2 ^ 32)%Z →
  (∀ st,
      rerex_strerror (status_code st)
      = match st with
        | REREX_SUCCESS => "Success"
        | REREX_EXPECTED_CHAR => "Expected a regular character"
        | REREX_EXPECTED_ELEMENT => "Expected a character in a set"
        | REREX_EXPECTED_RBRACKET => "Expected ']'"
        | REREX_EXPECTED_RPAREN => "Expected ')'"
        | REREX_EXPECTED_SPECIAL =>
          String.append "Expected a special character (one of "
            (String.append dquote
               (String.append "()*+-?[]^|" (String.append dquote ")")))
        | REREX_UNEXPECTED_SPECIAL => "Unexpected special character"
        | REREX_UNEXPECTED_END => "Unexpected end of input"
        | REREX_UNORDERED_RANGE => "Range is out of order"
        | REREX_NO_MEMORY => "Failed to allocate memory"
        end%string)
  ∧ (∀ st, (0 <= status_code st <= 9)%Z)
  ∧ rerex_strerror (status_code REREX_SUCCESS) = "Success"%string
  ∧ ((0 <= z <= 9)%Z →
     (∃ st, z = status_code st)
     ∧ status_strings !! Z.to_nat z = Some (rerex_strerror z)
     ∧ rerex_strerror z ≠ "Unknown error"%string
     ∧ rerex_strerror z ≠ EmptyString)
  ∧ (¬ (0 <= z <= 9)%Z → rerex_strerror z = "Unknown error"%string).
Proof.
  intros Hz. split; [|split; [|split; [|split]]].
  - intros []; reflexivity.
  - intros []; simpl; lia.
  - reflexivity.
  - intros Hr.
    assert (z = 0 ∨ z = 1 ∨ z = 2 ∨ z = 3 ∨ z = 4 ∨ z = 5 ∨ z = 6 ∨ z = 7
            ∨ z = 8 ∨ z = 9)%Z as Hc by lia.
    split.
    { destruct Hc as [-> | [-> | [-> | [-> | [-> | [-> | [-> | [-> | [-> | ->]]]]]]]]];
        [exists REREX_SUCCESS | exists REREX_EXPECTED_CHAR
         | exists REREX_EXPECTED_ELEMENT | exists REREX_EXPECTED_RBRACKET
         | exists REREX_EXPECTED_RPAREN | exists REREX_EXPECTED_SPECIAL
         | exists REREX_UNEXPECTED_SPECIAL | exists REREX_UNEXPECTED_END
         | exists REREX_UNORDERED_RANGE | exists REREX_NO_MEMORY];
        reflexivity. }
    repeat (destruct Hc as [-> | Hc]); try subst z;
      (split; [reflexivity | split; discriminate]).
  - intros Hr. unfold rerex_strerror.
    replace (to_unsigned (status_code REREX_NO_MEMORY)) with 9%Z
      by reflexivity.
    destruct (Z_lt_le_dec z 0) as [Hneg | Hpos].
    + rewrite to_unsigned_negative by lia.
      destruct (Z.leb_spec (z + 2 ^ 32) 9); [lia | reflexivity].
    + rewrite to_unsigned_small by lia.
      destruct (Z.leb_spec z 9); [lia | reflexivity].
Qed.

Lemma rerex_strerror_spec_witness :
  rerex_strerror (status_code REREX_NO_MEMORY + 1) = "Unknown error"%string.
Proof.
  apply (rerex_strerror_spec (status_code REREX_NO_MEMORY + 1)).
  - simpl. lia.
  - simpl. lia.
Defined.

(** ** The state array as an NFA *)

Lemma path_app arr q w1 t w2 r :
  path arr q w1 t → path arr t w2 r → path arr q (w1 ++ w2) r.
Proof.
  induction 1 as [q | q t w r' st Hq Hm Ht Hz Hp IH
                    | q c w r' st Hq Hm Hc Hz Hp IH]; intros H2; simpl.
  - exact H2.
  - eapply path_eps; eauto.
  - eapply path_chr; eauto.
Qed.

Lemma path_snoc_inv arr q w c r :
  path arr q (w ++ [c]) r →
  ∃ p st, path arr q w p ∧ arr !! p = Some st ∧ min st ≠ REREX_SPLIT
          ∧ (min st <= c <= max st)%Z ∧ next1 st ≠ NO_STATE
          ∧ path arr (next1 st) [] r.
Proof.
  intros H. remember (w ++ [c]) as u eqn:Hu. revert w Hu.
  induction H as [q | q t u r st Hq Hm Ht Hz Hp IH
                    | q c0 u r st Hq Hm Hc Hz Hp IH]; intros w Hu.
  - destruct w; discriminate.
  - destruct (IH w Hu) as (p & st' & Hp' & Hrest).
    exists p, st'. split; [|exact Hrest]. eapply path_eps; eauto.
  - destruct w as [|c1 w]; simpl in Hu.
    + injection Hu as -> ->. exists q, st.
      split; [constructor|]. split; [exact Hq|]. split; [exact Hm|].
      split; [exact Hc|]. split; [exact Hz|exact Hp].
    + injection Hu as -> ->.
      destruct (IH w eq_refl) as (p & st' & Hp' & Hrest).
      exists p, st'. split; [|exact Hrest]. eapply path_chr; eauto.
Qed.

(** ** The matcher *)

(** *** [enter_state] *)

Lemma unmarked_count_insert (la : list N) (i : nat) (v step : N) :
  la !! i = Some v → v ≠ step →
  S (length (filter (λ v, v ≠ step) (<[i := step]> la)))
  = length (filter (λ v, v ≠ step) la).
Proof.
  intros Hi Hv.
  assert (i < length la) as Hlt by (eapply lookup_lt_Some; eauto).
  rewrite insert_take_drop by exact Hlt.
  rewrite <- (take_drop_middle la i v Hi) at 3.
  rewrite !filter_app, !length_app.
  rewrite filter_cons_False by (intros H; apply H; reflexivity).
  rewrite filter_cons_True by exact Hv. simpl. lia.
Qed.

Lemma NoDup_bounded_length (l : list nat) (n : nat) :
  NoDup l → (∀ x, x ∈ l → x < n) → length l ≤ n.
Proof.
  intros Hnd Hb.
  assert (l ⊆+ seq 0 n) as Hsub.
  { apply NoDup_submseteq; [exact Hnd|].
    intros x Hx. apply elem_of_seq. specialize (Hb x Hx). lia. }
  apply submseteq_length in Hsub. rewrite length_seq in Hsub. exact Hsub.
Qed.

Lemma enter_post_refl m step which :
  buffers_ok m → list_inv m step which →
  enter_post m step which NO_STATE m.
Proof.
  intros Hb Hi. constructor; auto; try done.
Qed.

Lemma enter_post_marked m step which s :
  buffers_ok m → list_inv m step which → marked m step s →
  enter_post m step which s m.
Proof.
  intros Hb Hi Hm. constructor; auto; try done.
Qed.

Lemma marked_insert m s step q :
  s < length (last_active m) →
  marked (set_last_active m (<[s := step]> (last_active m))) step q
  ↔ q = s ∨ marked m step q.
Proof.
  intros Hs. unfold marked. simpl.
  destruct (decide (q = s)) as [-> | Hne].
  - rewrite list_lookup_insert_eq by exact Hs. split; auto.
  - rewrite list_lookup_insert_ne by auto. split; [auto | intros [? | ?]; done].
Qed.

Lemma active_set_last_active m la which :
  active (set_last_active m la) which = active m which.
Proof. destruct which; reflexivity. Qed.

Lemma active_set_active_eq m which l :
  active (set_active m which l) which = l.
Proof. destruct which; reflexivity. Qed.

Lemma active_set_active_ne m which l :
  active (set_active m which l) (negb which) = active m (negb which).
Proof. destruct which; reflexivity. Qed.

Lemma regexp_set_active m which l :
  regexp (set_active m which l) = regexp m.
Proof. destruct which; reflexivity. Qed.

Lemma last_active_set_active m which l :
  last_active (set_active m which l) = last_active m.
Proof. destruct which; reflexivity. Qed.

Lemma buffers_ok_length_active m which :
  buffers_ok m →
  length (indices (active m which)) = length (p_states (regexp m)).
Proof. intros (H0 & H1 & _). destruct which; assumption. Qed.

Lemma buffers_ok_set_active m which l :
  buffers_ok m → length (indices l) = length (p_states (regexp m)) →
  buffers_ok (set_active m which l).
Proof.
  intros (H0 & H1 & H2) Hl. destruct which; repeat split; simpl; auto.
Qed.

Lemma marked_lt m step q :
  buffers_ok m → marked m step q → q < length (p_states (regexp m)).
Proof.
  intros (_ & _ & Hl) Hm. rewrite <- Hl. eapply lookup_lt_Some. exact Hm.
Qed.

Lemma entries_append (idx : list nat) (n s : nat) :
  n < length idx →
  entries (mkIndexList (<[n := s]> idx) (n + 1)) = take n idx ++ [s].
Proof.
  intros Hn. unfold entries. simpl. rewrite Nat.add_1_r.
  rewrite (take_S_r _ n s) by (apply list_lookup_insert_eq; exact Hn).
  rewrite take_insert_ge by lia. reflexivity.
Qed.

Lemma entries_room m step which s :
  buffers_ok m → list_inv m step which → ¬ marked m step s →
  s < length (p_states (regexp m)) →
  n_indices (active m which) < length (indices (active m which)).
Proof.
  intros Hb (_ & Hnd & Hin) Hs Hlt.
  pose proof (buffers_ok_length_active m which Hb) as Hlen.
  assert (length (s :: entries (active m which))
          ≤ length (p_states (regexp m))) as Hle.
  { apply NoDup_bounded_length.
    - constructor; [|exact Hnd]. intros Hs'. apply Hin in Hs'. tauto.
    - intros x [-> | Hx]%elem_of_cons; [exact Hlt|].
      apply Hin in Hx. eapply marked_lt; [exact Hb | apply Hx]. }
  simpl in Hle. unfold entries in Hle. rewrite length_take in Hle. lia.
Qed.

(** [enter_state] returns, without an access outside the buffers, when
    the recursion bound exceeds the number of states not entered yet, and
    what it does is [enter_post]. *)
Lemma enter_state_ok fuel :
  ∀ m step which s,
    wf_arena (p_states (regexp m)) → buffers_ok m →
    s < length (p_states (regexp m)) → list_inv m step which →
    unmarked_count m step < fuel →
    ∃ m', enter_state fuel m step which s = MOk m'
          ∧ enter_post m step which s m'.
Proof.
  induction fuel as [|fuel IH]; intros m step which s Hwf Hb Hs Hinv Hfuel;
    [lia|].
  cbn [enter_state]. destruct (Nat.eqb_spec s NO_STATE) as [-> | Hs0].
  { exists m. split; [reflexivity|]. apply enter_post_refl; assumption. }
  pose proof Hb as (Hb0 & Hb1 & Hbl).
  destruct (lookup_lt_is_Some_2 (last_active m) s) as [la Hla]; [lia|].
  rewrite Hla. destruct (N.eqb_spec la step) as [-> | Hne].
  { exists m. split; [reflexivity|]. apply enter_post_marked; assumption. }
  set (m1 := set_last_active m (<[s := step]> (last_active m))).
  assert (regexp m1 = regexp m) as Hr1 by reflexivity.
  assert (∀ q, marked m1 step q ↔ q = s ∨ marked m step q) as Hm1.
  { intros q. apply marked_insert. lia. }
  assert (S (unmarked_count m1 step) = unmarked_count m step) as Hc1.
  { unfold unmarked_count, m1. simpl.
    eapply unmarked_count_insert; eauto. }
  assert (buffers_ok m1) as Hbm1.
  { unfold buffers_ok, m1. simpl. rewrite length_insert. auto. }
  assert (¬ marked m step s) as Hnm.
  { unfold marked. rewrite Hla. intros [= ?]. done. }
  destruct (lookup_lt_is_Some_2 (p_states (regexp m)) s Hs)
    as [state Hstate].
  fold m1. rewrite Hr1, Hstate.
  destruct (Z.eqb_spec (min state) REREX_SPLIT) as [Hsplit | Hnsplit].
  - (* split state: enter both successors *)
    assert (list_inv m1 step which) as Hinv1.
    { destruct Hinv as (Hle & Hnd & Hin). split; [|split].
      - unfold m1. rewrite active_set_last_active. exact Hle.
      - unfold m1. rewrite active_set_last_active. exact Hnd.
      - intros q. unfold m1 at 1. rewrite active_set_last_active.
        rewrite Hin, Hm1, Hr1. split.
        + intros [? ?]; auto.
        + intros [[-> | ?] Hns]; [|auto].
          destruct Hns as (st & Hst & Hns). congruence. }
    destruct (Hwf s state Hstate) as [Hn1 Hn2].
    destruct (IH m1 step which (next1 state)) as (m2 & -> & P1);
      [rewrite Hr1; auto | auto | rewrite Hr1; auto | auto | lia |].
    pose proof (ep_regexp P1) as Hr2.
    destruct (IH m2 step which (next2 state)) as (m3 & -> & P2);
      [rewrite Hr2, Hr1; auto | apply P1 | rewrite Hr2, Hr1; auto
       | apply P1 | pose proof (ep_count P1); lia |].
    pose proof (ep_regexp P2) as Hr3.
    assert (∀ q, marked m1 step q → marked m3 step q) as Hmono13.
    { intros q Hq. apply (ep_mono P2), (ep_mono P1), Hq. }
    exists m3. split; [reflexivity|]. constructor.
    + congruence.
    + apply P2.
    + apply P2.
    + rewrite (ep_other P2), (ep_other P1).
      apply active_set_last_active.
    + intros q Hq. apply Hmono13, Hm1. auto.
    + intros q Hq.
      assert (¬ marked m2 step q) as Hq2
          by (intros ?; apply Hq; apply (ep_mono P2); auto).
      assert (¬ marked m1 step q) as Hq1
          by (intros ?; apply Hq2; apply (ep_mono P1); auto).
      rewrite (ep_frame P2 q Hq), (ep_frame P1 q Hq2).
      unfold m1. simpl. apply list_lookup_insert_ne.
      intros ->. apply Hq1, Hm1. auto.
    + pose proof (ep_count P1). pose proof (ep_count P2). lia.
    + intros _. apply Hmono13, Hm1. auto.
    + intros q Hq3 Hq0.
      destruct (decide (q = s)) as [-> | Hqs]; [split; [done|constructor]|].
      split; [done|].
      assert (¬ marked m1 step q) as Hq1.
      { rewrite Hm1. intros [? | ?]; done. }
      destruct (decide (marked m2 step q)) as [Hq2 | Hq2].
      * destruct (ep_sound P1 q Hq2 Hq1) as [Hz Hp].
        rewrite Hr1 in Hp.
        apply (path_eps _ s (next1 state) [] q state); auto.
      * destruct (ep_sound P2 q Hq3 Hq2) as [Hz Hp].
        rewrite Hr2, Hr1 in Hp.
        apply (path_eps _ s (next2 state) [] q state); auto.
    + intros q st Hq3 Hq0 Hst Hsp.
      destruct (decide (q = s)) as [-> | Hqs].
      { assert (st = state) as -> by congruence. split; intros Hz.
        - apply (ep_mono P2). apply (ep_root P1). exact Hz.
        - apply (ep_root P2). exact Hz. }
      assert (¬ marked m1 step q) as Hq1.
      { rewrite Hm1. intros [? | ?]; done. }
      destruct (decide (marked m2 step q)) as [Hq2 | Hq2].
      * destruct (ep_closed P1 q st Hq2 Hq1) as [Ha Hb'];
          [rewrite Hr1; auto | auto |].
        split; intros Hz; apply (ep_mono P2); auto.
      * apply (ep_closed P2 q st Hq3 Hq2);
          [rewrite Hr2, Hr1; auto | auto].
  - (* labelled or match state: append it to the list *)
    replace (active m1 which) with (active m which)
      by (symmetry; apply active_set_last_active).
    assert (n_indices (active m which) < length (indices (active m which)))
      as Hroom by (eapply entries_room; eauto).
    destruct (Nat.ltb_spec (n_indices (active m which))
                (length (indices (active m which)))) as [_ | ?]; [|lia].
    eexists. split; [reflexivity|].
    set (l2 := mkIndexList _ _).
    assert (∀ q, marked (set_active m1 which l2) step q
                 ↔ q = s ∨ marked m step q) as Hm2.
    { intros q. unfold marked. rewrite last_active_set_active. apply Hm1. }
    destruct Hinv as (Hle & Hnd & Hin).
    constructor.
    + rewrite regexp_set_active. exact Hr1.
    + apply buffers_ok_set_active; [exact Hbm1|].
      unfold l2. simpl. rewrite length_insert.
      apply buffers_ok_length_active. exact Hb.
    + unfold list_inv.
      rewrite regexp_set_active, Hr1, active_set_active_eq.
      assert (entries l2 = entries (active m which) ++ [s]) as ->
          by (apply entries_append; exact Hroom).
      split; [unfold l2; simpl; rewrite length_insert; lia|].
      split.
      * apply NoDup_app. split; [exact Hnd|]. split; [|apply NoDup_singleton].
        intros x Hx ->%list_elem_of_singleton. apply Hin in Hx. tauto.
      * intros q. rewrite elem_of_app, list_elem_of_singleton, Hin, Hm2.
        split.
        -- intros [[? ?] | ->]; [auto|]. split; [auto|]. exists state. auto.
        -- intros [[-> | ?] ?]; auto.
    + rewrite active_set_active_ne. apply active_set_last_active.
    + intros q Hq. apply Hm2. auto.
    + intros q Hq. rewrite last_active_set_active. unfold m1. simpl.
      apply list_lookup_insert_ne. intros ->. apply Hq, Hm2. auto.
    + unfold unmarked_count in *. rewrite last_active_set_active. lia.
    + intros _. apply Hm2. auto.
    + intros q [-> | Hq]%Hm2 Hq0; [|done]. split; [done|constructor].
    + intros q st [-> | Hq]%Hm2 Hq0 Hst Hsp; [|done]. congruence.
Qed.

(** *** The inner loop of [rerex_match] *)

Lemma unmarked_count_le m step :
  unmarked_count m step ≤ length (last_active m).
Proof. unfold unmarked_count. apply length_filter. Qed.

Lemma tick_inv_skip m0 step phase c j m idx st :
  tick_inv m0 step phase c j m →
  entries (active m0 phase) !! j = Some idx →
  p_states (regexp m0) !! idx = Some st →
  ¬ ((min st <= c <= max st)%Z) →
  tick_inv m0 step phase c (j + 1) m.
Proof.
  intros T Hj Hst Hc. constructor; try apply T.
  - intros k p st' Hk Hp Hst' Hc' Hz.
    destruct (decide (k = j)) as [-> | Hne].
    + assert (p = idx) as -> by congruence.
      assert (st' = st) as -> by congruence. done.
    + apply (ti_roots T k p st'); auto. lia.
  - intros q Hq. destruct (ti_sound T q Hq) as (k & p & st' & Hk & Hrest).
    exists k, p, st'. split; [lia | exact Hrest].
Qed.

Lemma tick_inv_enter m0 step phase c j m idx st m2 :
  tick_inv m0 step phase c j m →
  entries (active m0 phase) !! j = Some idx →
  p_states (regexp m0) !! idx = Some st →
  (min st <= c <= max st)%Z →
  enter_post m step (negb phase) (next1 st) m2 →
  tick_inv m0 step phase c (j + 1) m2.
Proof.
  intros T Hj Hst Hc P.
  pose proof (ti_regexp T) as Hr.
  constructor.
  - rewrite (ep_regexp P). exact Hr.
  - apply P.
  - pose proof (ep_other P) as Ho. rewrite negb_involutive in Ho.
    rewrite Ho. apply T.
  - apply P.
  - intros k p st' Hk Hp Hst' Hc' Hz.
    destruct (decide (k = j)) as [-> | Hne].
    + assert (p = idx) as -> by congruence.
      assert (st' = st) as -> by congruence.
      apply (ep_root P). exact Hz.
    + apply (ep_mono P). apply (ti_roots T k p st'); auto. lia.
  - intros q st' Hq Hst' Hsp.
    destruct (decide (marked m step q)) as [Hqm | Hqm].
    + destruct (ti_closed T q st' Hqm Hst' Hsp) as [H1 H2].
      split; intros Hz; apply (ep_mono P); auto.
    + apply (ep_closed P q st' Hq Hqm); [rewrite Hr; exact Hst' | exact Hsp].
  - intros q Hq.
    destruct (decide (marked m step q)) as [Hqm | Hqm].
    + destruct (ti_sound T q Hqm) as (k & p & st' & Hk & Hrest).
      exists k, p, st'. split; [lia | exact Hrest].
    + destruct (ep_sound P q Hq Hqm) as [Hz Hp]. rewrite Hr in Hp.
      exists j, idx, st. split; [lia|]. auto.
  - intros q Hq.
    rewrite (ep_frame P q Hq). apply (ti_frame T).
    intros Hqm. apply Hq. apply (ep_mono P). exact Hqm.
Qed.

(** The inner loop keeps [tick_inv], and returns. *)
Lemma tick_loop_ok m0 step phase c fuel :
  wf_arena (p_states (regexp m0)) →
  (∀ p, p ∈ entries (active m0 phase) → nonsplit (p_states (regexp m0)) p) →
  n_indices (active m0 phase) ≤ length (indices (active m0 phase)) →
  length (p_states (regexp m0)) < fuel →
  ∀ count j m,
    tick_inv m0 step phase c j m →
    j + count = n_indices (active m0 phase) →
    ∃ m', tick_loop fuel m step phase c j count = MOk m'
          ∧ tick_inv m0 step phase c (j + count) m'.
Proof.
  intros Hwf Hns Hle Hfuel count.
  induction count as [|count IH]; intros j m T Hj.
  - exists m. split; [reflexivity|]. rewrite Nat.add_0_r. exact T.
  - cbn [tick_loop]. rewrite (ti_list T).
    assert (is_Some (entries (active m0 phase) !! j)) as [idx Hidx].
    { apply lookup_lt_is_Some_2. unfold entries. rewrite length_take. lia. }
    assert (indices (active m0 phase) !! j = Some idx) as Hidx'.
    { unfold entries in Hidx. rewrite lookup_take_lt in Hidx by lia.
      exact Hidx. }
    rewrite Hidx', (ti_regexp T).
    destruct (Hns idx) as (st & Hst & Hnsp).
    { apply list_elem_of_lookup. eauto. }
    rewrite Hst.
    replace (j + S count) with ((j + 1) + count) by lia.
    destruct (Z.leb_spec (min st) c) as [H1 | H1]; simpl;
      [destruct (Z.leb_spec c (max st)) as [H2 | H2]; simpl|].
    + pose proof (ti_buffers T) as Hb.
      destruct (Hwf idx st Hst) as [Hn1 _].
      destruct (enter_state_ok fuel m step (negb phase) (next1 st))
        as (m2 & -> & P).
      * rewrite (ti_regexp T). exact Hwf.
      * exact Hb.
      * rewrite (ti_regexp T). exact Hn1.
      * apply T.
      * pose proof (unmarked_count_le m step) as Hc.
        destruct Hb as (_ & _ & Hl). rewrite Hl, (ti_regexp T) in Hc. lia.
      * apply IH; [|lia]. eapply tick_inv_enter; eauto.
    + apply IH; [|lia]. eapply tick_inv_skip; eauto. lia.
    + apply IH; [|lia]. eapply tick_inv_skip; eauto. lia.
Qed.

(** *** The outer loop of [rerex_match] *)

(** A set of entered states that holds the successors by unlabelled arcs
    of its split states holds all that such arcs lead to. *)
Lemma closed_marks_path m step arr :
  (∀ q st, marked m step q → arr !! q = Some st → min st = REREX_SPLIT →
           (next1 st ≠ NO_STATE → marked m step (next1 st))
           ∧ (next2 st ≠ NO_STATE → marked m step (next2 st))) →
  ∀ x w q, path arr x w q → w = [] → marked m step x → marked m step q.
Proof.
  intros Hc x w q Hp.
  induction Hp as [q | q t w r st Hq Hm Ht Hz Hp IH
                     | q c w r st Hq Hm Hcr Hz Hp IH]; intros Hw Hx.
  - exact Hx.
  - apply IH; [exact Hw|]. destruct (Hc q st Hx Hq Hm) as [H1 H2].
    destruct Ht as [-> | ->]; auto.
  - discriminate.
Qed.

Section MatchLoop.

Variable SIZE_MAX : N.

Lemma step_snoc (w : list Z) (c : Z) :
  (N.of_nat (length w) + 1)%N = N.of_nat (length (w ++ [c])).
Proof. rewrite length_app. simpl. lia. Qed.

Lemma tick_ok fuel m phase w c :
  wf_arena (p_states (regexp m)) →
  length (p_states (regexp m)) < fuel →
  match_inv SIZE_MAX m phase w →
  (N.of_nat (length (w ++ [c])) < SIZE_MAX)%N →
  ∃ m', tick fuel m phase (N.of_nat (length w)) c = MOk m'
        ∧ regexp m' = regexp m
        ∧ match_inv SIZE_MAX m' (negb phase) (w ++ [c]).
Proof.
  intros Hwf Hfuel I Hmax. unfold tick.
  set (m0 := set_active m (negb phase) _).
  assert (regexp m0 = regexp m) as Hr0 by apply regexp_set_active.
  assert (active m0 phase = active m phase) as Ha0.
  { unfold m0. destruct phase; reflexivity. }
  assert (last_active m0 = last_active m) as Hl0
      by apply last_active_set_active.
  rewrite Ha0, step_snoc with (c := c).
  set (step := N.of_nat (length (w ++ [c]))) in *.
  assert (∀ q, ¬ marked m0 step q) as Hnone.
  { intros q Hq. unfold marked in Hq. rewrite Hl0 in Hq.
    destruct (mi_steps SIZE_MAX m phase w I q step Hq) as [? | Hle]; [lia|].
    unfold step in Hle. rewrite length_app in Hle. simpl in Hle. lia. }
  destruct (mi_inv SIZE_MAX m phase w I) as (Hle & Hnd & Hin).
  assert (buffers_ok m0) as Hb0.
  { apply buffers_ok_set_active; [apply I|]. simpl.
    apply buffers_ok_length_active. apply I. }
  assert (tick_inv m0 step phase c 0 m0) as T0.
  { constructor; auto.
    - unfold list_inv, m0. rewrite active_set_active_eq.
      unfold entries. simpl. split; [lia|]. split; [constructor|].
      intros q. split; [intros []%elem_of_nil|].
      intros [Hq _]. exfalso. eapply Hnone, Hq.
    - intros; lia.
    - intros q st Hq. exfalso. eapply Hnone, Hq.
    - intros q Hq. exfalso. eapply Hnone, Hq. }
  destruct (tick_loop_ok m0 step phase c fuel) with
      (count := n_indices (active m phase)) (j := 0) (m := m0)
    as (m' & Hrun & T).
  - rewrite Hr0. exact Hwf.
  - intros p Hp. rewrite Ha0 in Hp. rewrite Hr0. apply Hin in Hp. tauto.
  - rewrite Ha0. exact Hle.
  - rewrite Hr0. exact Hfuel.
  - exact T0.
  - rewrite Ha0. reflexivity.
  - simpl in T. exists m'. split; [exact Hrun|].
    pose proof (ti_regexp T) as Hr. rewrite Hr0 in Hr.
    split; [exact Hr|].
    assert (∀ q, marked m' step q
                 ↔ p_start (regexp m') ≠ NO_STATE
                   ∧ path (p_states (regexp m')) (p_start (regexp m'))
                          (w ++ [c]) q) as Hmk.
    { intros q. rewrite Hr. split.
      - intros Hq.
        destruct (ti_sound T q Hq)
          as (k & p & st & Hk & Hp & Hst & Hc & Hz & Hpath).
        rewrite Hr0 in Hst, Hpath. rewrite Ha0 in Hp.
        assert (p ∈ entries (active m phase)) as Hpin
            by (apply list_elem_of_lookup; eauto).
        apply Hin in Hpin. destruct Hpin as [Hpm (st' & Hst' & Hns)].
        assert (st' = st) as -> by congruence.
        apply (mi_marked SIZE_MAX m phase w I) in Hpm. destruct Hpm as [Hs0 Hpw].
        split; [exact Hs0|].
        eapply path_app; [exact Hpw|].
        eapply path_chr; eauto.
      - intros [Hs0 Hpath].
        destruct (path_snoc_inv _ _ _ _ _ Hpath)
          as (p & st & Hpw & Hst & Hns & Hc & Hz & Hpe).
        assert (p ∈ entries (active m phase)) as Hpin.
        { apply Hin. split.
          - apply (mi_marked SIZE_MAX m phase w I). auto.
          - exists st. auto. }
        apply list_elem_of_lookup in Hpin. destruct Hpin as [k Hk].
        assert (k < n_indices (active m phase)) as Hklt.
        { apply lookup_lt_Some in Hk. unfold entries in Hk.
          rewrite length_take in Hk. lia. }
        eapply closed_marks_path; [|exact Hpe|reflexivity|].
        + intros q' st' Hq' Hst'. apply (ti_closed T q' st' Hq').
          rewrite Hr0. exact Hst'.
        + apply (ti_roots T k p st); auto.
          * rewrite Ha0. exact Hk.
          * rewrite Hr0. exact Hst. }
    constructor.
    + apply T.
    + apply T.
    + rewrite negb_involutive, (ti_list T), Ha0. auto.
    + exact Hmk.
    + intros q v Hv. fold step.
      destruct (decide (marked m' step q)) as [Hq | Hq].
      * unfold marked in Hq. right. assert (v = step) as -> by congruence.
        lia.
      * rewrite (ti_frame T q Hq), Hl0 in Hv.
        destruct (mi_steps SIZE_MAX m phase w I q v Hv) as [? | Hv']; [auto|].
        right. unfold step. rewrite length_app. lia.
Qed.

(** The outer loop returns, and the list of the final phase holds the
    states reached by the text read. *)
Lemma match_loop_ok fuel :
  ∀ string m phase w,
    wf_arena (p_states (regexp m)) →
    length (p_states (regexp m)) < fuel →
    match_inv SIZE_MAX m phase w →
    (N.of_nat (length (w ++ string)) < SIZE_MAX)%N →
    ∃ phase' m',
      match_loop fuel m phase (N.of_nat (length w)) string
      = MOk (phase', m')
      ∧ regexp m' = regexp m
      ∧ match_inv SIZE_MAX m' phase' (w ++ until_nul string).
Proof.
  induction string as [|c string IH]; intros m phase w Hwf Hfuel I Hmax.
  - exists phase, m. simpl. rewrite app_nil_r. auto.
  - cbn [match_loop until_nul]. destruct (Z.eqb_spec c 0) as [-> | Hc].
    { exists phase, m. rewrite app_nil_r. auto. }
    destruct (tick_ok fuel m phase w c Hwf Hfuel I) as (m1 & -> & Hr1 & I1).
    { rewrite !length_app in *. simpl in *. lia. }
    rewrite step_snoc with (c := c).
    destruct (IH m1 (negb phase) (w ++ [c])) as (phase' & m' & -> & Hr & I').
    + rewrite Hr1. exact Hwf.
    + rewrite Hr1. exact Hfuel.
    + exact I1.
    + rewrite <- app_assoc. exact Hmax.
    + exists phase', m'. split; [reflexivity|]. split; [congruence|].
      rewrite <- app_assoc in I'. exact I'.
Qed.

End MatchLoop.

(** *** [rerex_match] *)

Section MatchProofs.

Variable SIZE_MAX : N.

Lemma reset_last_active_ok count :
  ∀ i la, i + count ≤ length la →
    ∃ la', reset_last_active SIZE_MAX la i count = MOk la'
           ∧ length la' = length la
           ∧ (∀ q, i ≤ q < i + count → la' !! q = Some SIZE_MAX)
           ∧ (∀ q, q < i → la' !! q = la !! q).
Proof.
  induction count as [|count IH]; intros i la Hle.
  - exists la. split; [reflexivity|]. split; [reflexivity|].
    split; [intros; lia | auto].
  - cbn [reset_last_active].
    destruct (Nat.ltb_spec i (length la)) as [Hi | ?]; [|lia].
    destruct (IH (i + 1) (<[i := SIZE_MAX]> la))
      as (la' & -> & Hlen & Hnew & Hold).
    { rewrite length_insert. lia. }
    exists la'. split; [reflexivity|]. rewrite length_insert in Hlen.
    split; [exact Hlen|]. split.
    + intros q Hq. destruct (decide (q = i)) as [-> | Hne].
      * rewrite Hold by lia. apply list_lookup_insert_eq. exact Hi.
      * apply Hnew. lia.
    + intros q Hq. rewrite Hold by lia. apply list_lookup_insert_ne. lia.
Qed.

Lemma match_entered_ok arr l :
  (∀ p, p ∈ entries l → is_Some (arr !! p)) →
  n_indices l ≤ length (indices l) →
  ∀ count i, i + count = n_indices l →
    ∃ b, match_entered arr l i count = MOk b
         ∧ (b = true ↔ ∃ k p, i ≤ k ∧ entries l !! k = Some p
                              ∧ is_match arr p).
Proof.
  intros Hs Hle count. induction count as [|count IH]; intros i Hi.
  - exists false. split; [reflexivity|]. split; [discriminate|].
    intros (k & p & Hk & Hp & _). apply lookup_lt_Some in Hp.
    unfold entries in Hp. rewrite length_take in Hp. lia.
  - cbn [match_entered].
    assert (is_Some (entries l !! i)) as [idx Hidx].
    { apply lookup_lt_is_Some_2. unfold entries. rewrite length_take. lia. }
    assert (indices l !! i = Some idx) as ->.
    { unfold entries in Hidx. rewrite lookup_take_lt in Hidx by lia.
      exact Hidx. }
    destruct (Hs idx) as [st Hst]; [apply list_elem_of_lookup; eauto|].
    rewrite Hst. destruct (Z.eqb_spec (min st) REREX_MATCH) as [Hm | Hm].
    + exists true. split; [reflexivity|]. split; [|reflexivity].
      intros _. exists i, idx. split; [lia|]. split; [exact Hidx|].
      exists st. auto.
    + destruct (IH (i + 1)) as (b & -> & Hb); [lia|].
      exists b. split; [reflexivity|]. rewrite Hb. split.
      * intros (k & p & Hk & Hrest). exists k, p. split; [lia|exact Hrest].
      * intros (k & p & Hk & Hp & Hmatch).
        destruct (decide (k = i)) as [-> | Hne].
        -- assert (p = idx) as -> by congruence.
           destruct Hmatch as (st' & Hst' & Hm'). congruence.
        -- exists k, p. split; [lia|]. auto.
Qed.

(** [rerex_match] returns, without an access outside the buffers; its
    verdict is whether the automaton accepts the text; it leaves a matcher
    that can be used again, with lists that hold no state twice. *)
Lemma rerex_match_ok m string :
  matcher_ok m →
  (N.of_nat (length string) < SIZE_MAX)%N →
  ∃ b m',
    rerex_match SIZE_MAX m string = MOk (b, m')
    ∧ (b = true ↔ accepts (p_states (regexp m)) (p_start (regexp m))
                          (until_nul string))
    ∧ regexp m' = regexp m
    ∧ buffers_ok m'
    ∧ ∀ which, n_indices (active m' which) ≤ length (indices (active m' which))
               ∧ NoDup (entries (active m' which)).
Proof.
  intros (Hwf & Hb & Hstart) Hmax. unfold rerex_match, enter_fuel.
  set (fuel := S (n_states (p_states (regexp m)))).
  set (ma := set_active (set_active m false _) true _).
  assert (regexp ma = regexp m) as Hra by reflexivity.
  assert (last_active ma = last_active m) as Hla by reflexivity.
  destruct Hb as (Hb0 & Hb1 & Hbl).
  destruct (reset_last_active_ok (n_states (p_states (regexp m))) 0
              (last_active ma)) as (la & -> & Hlen & Hnew & _).
  { rewrite Hla, Hbl. unfold n_states. lia. }
  set (mr := set_last_active ma la).
  assert (buffers_ok mr) as Hbr.
  { repeat split; simpl; auto. rewrite Hlen; auto. }
  assert (∀ q, ¬ marked mr 0%N q) as Hnone.
  { intros q Hq. unfold marked in Hq. simpl in Hq.
    assert (q < length la) as Hq' by (eapply lookup_lt_Some; eauto).
    rewrite Hnew in Hq; [|rewrite Hlen, Hla, Hbl in Hq'; unfold n_states; lia].
    injection Hq as Hq. lia. }
  assert (list_inv mr 0%N false) as Hinv.
  { unfold list_inv, entries. simpl. split; [lia|]. split; [constructor|].
    intros q. split; [intros []%elem_of_nil|].
    intros [Hq _]. exfalso. eapply Hnone, Hq. }
  destruct (enter_state_ok fuel mr 0%N false (p_start (regexp mr)))
    as (m1 & Hrun & P); auto.
  { pose proof (unmarked_count_le mr 0%N) as Hc. simpl in Hc.
    rewrite Hlen, Hla, Hbl in Hc. unfold fuel, n_states. simpl. lia. }
  rewrite Hrun.
  pose proof (ep_regexp P) as Hr1. simpl in Hr1.
  assert (match_inv SIZE_MAX m1 false []) as I1.
  { constructor.
    - apply P.
    - apply P.
    - rewrite (ep_other P).
      simpl. unfold entries. simpl. split; [lia | constructor].
    - intros q. simpl. rewrite Hr1. split.
      + intros Hq. apply (ep_sound P q Hq). apply Hnone.
      + intros [Hs0 Hp].
        eapply closed_marks_path; [|exact Hp|reflexivity|].
        * intros q' st' Hq' Hst'. apply (ep_closed P q' st' Hq').
          -- apply Hnone.
          -- exact Hst'.
        * apply (ep_root P). exact Hs0.
    - intros q v Hv. simpl.
      destruct (decide (marked m1 0%N q)) as [Hq | Hq].
      + unfold marked in Hq. right. assert (v = 0%N) as -> by congruence.
        lia.
      + rewrite (ep_frame P q Hq) in Hv. simpl in Hv. left.
        assert (q < length la) as Hq' by (eapply lookup_lt_Some; eauto).
        rewrite Hnew in Hv;
          [|rewrite Hlen, Hla, Hbl in Hq'; unfold n_states; lia].
        congruence. }
  destruct (match_loop_ok SIZE_MAX fuel string m1 false [])
    as (phase & m2 & Hloop & Hr2 & I2).
  { rewrite Hr1. exact Hwf. }
  { rewrite Hr1. unfold fuel, n_states. lia. }
  { exact I1. }
  { exact Hmax. }
  change (N.of_nat (length (@nil Z))) with 0%N in Hloop.
  rewrite Hloop. simpl in I2.
  destruct (mi_inv _ _ _ _ I2) as (Hle & Hnd & Hin).
  destruct (match_entered_ok (p_states (regexp m)) (active m2 phase))
    with (count := n_indices (active m2 phase)) (i := 0)
    as (b & -> & Hbspec); auto.
  { intros p Hp. apply Hin in Hp. destruct Hp as [_ (st & Hst & _)].
    rewrite Hr2, Hr1 in Hst. eauto. }
  exists b, m2. split; [reflexivity|]. split; [|split; [|split]].
  - rewrite Hbspec. unfold accepts. split.
    + intros (k & p & _ & Hp & Hm).
      assert (p ∈ entries (active m2 phase)) as Hpin
          by (apply list_elem_of_lookup; eauto).
      apply Hin in Hpin. destruct Hpin as [Hpm _].
      apply (mi_marked _ _ _ _ I2) in Hpm. rewrite Hr2, Hr1 in Hpm.
      destruct Hpm as [Hs0 Hpath]. split; [exact Hs0|]. eauto.
    + intros (Hs0 & t & Hpath & Hm).
      assert (t ∈ entries (active m2 phase)) as Hpin.
      { apply Hin. split.
        - apply (mi_marked _ _ _ _ I2). rewrite Hr2, Hr1. auto.
        - rewrite Hr2, Hr1. destruct Hm as (st & Hst & Hm).
          exists st. split; [exact Hst|]. rewrite Hm. discriminate. }
      apply list_elem_of_lookup in Hpin. destruct Hpin as [k Hk].
      exists k, t. split; [lia|]. auto.
  - congruence.
  - apply I2.
  - intros which. destruct (mi_other _ _ _ _ I2) as [Hle' Hnd'].
    destruct which, phase; simpl in *; auto.
Qed.

End MatchProofs.

(** ** Fragments of the state array *)

Lemma state_ok_widen lo hi lo' hi' st :
  state_ok lo hi st → lo' ≤ lo → hi ≤ hi' → state_ok lo' hi' st.
Proof.
  unfold state_ok, in_region. intros (H1 & H2 & H3 & H4) Hlo Hhi.
  repeat split; try assumption.
  - destruct H1; [left; assumption | right; lia].
  - destruct H2; [left; assumption | right; lia].
Qed.

Lemma state_ok_match lo hi : state_ok lo hi match_state.
Proof. repeat split; simpl; auto; unfold cmin, cmax, REREX_MATCH; lia. Qed.

Lemma state_ok_split lo hi a b :
  a = NO_STATE ∨ in_region lo hi a → b = NO_STATE ∨ in_region lo hi b →
  state_ok lo hi (split_state a b).
Proof.
  intros Ha Hb. repeat split; simpl; auto;
    unfold cmin, cmax, REREX_SPLIT; lia.
Qed.

Lemma region_ok_agree arr arr' lo hi :
  region_ok arr lo hi → agree arr arr' lo hi → region_ok arr' lo hi.
Proof.
  intros Hok Hag q st Hq Hst. rewrite Hag in Hst by exact Hq. eauto.
Qed.

Lemma agree_sym arr arr' lo hi : agree arr arr' lo hi → agree arr' arr lo hi.
Proof. intros H q Hq. symmetry. auto. Qed.

(** A path that starts in a region never leaves it. *)
Lemma path_stay arr lo hi q w t :
  region_ok arr lo hi → path arr q w t → in_region lo hi q →
  in_region lo hi t.
Proof.
  intros Hok Hp.
  induction Hp as [q | q t w r st Hq Hm Ht Hz Hp IH
                     | q c w r st Hq Hm Hc Hz Hp IH]; intros Hin.
  - exact Hin.
  - apply IH. destruct (Hok q st Hin Hq) as (H1 & H2 & _).
    destruct Ht as [-> | ->]; [destruct H1 | destruct H2]; done.
  - apply IH. destruct (Hok q st Hin Hq) as (H1 & _). destruct H1; done.
Qed.

(** Paths inside a region depend on the states of the region only. *)
Lemma path_agree arr arr' lo hi q w t :
  region_ok arr lo hi → agree arr arr' lo hi →
  path arr q w t → in_region lo hi q → path arr' q w t.
Proof.
  intros Hok Hag Hp.
  induction Hp as [q | q t w r st Hq Hm Ht Hz Hp IH
                     | q c w r st Hq Hm Hc Hz Hp IH]; intros Hin.
  - constructor.
  - destruct (Hok q st Hin Hq) as (H1 & H2 & _).
    eapply (path_eps _ q t); eauto.
    + rewrite Hag by exact Hin. exact Hq.
    + apply IH. destruct Ht as [-> | ->]; [destruct H1 | destruct H2]; done.
  - destruct (Hok q st Hin Hq) as (H1 & _).
    eapply path_chr; eauto.
    + rewrite Hag by exact Hin. exact Hq.
    + apply IH. destruct H1; done.
Qed.

(** A match state is a dead end. *)
Lemma path_from_match arr e w t :
  arr !! e = Some match_state → path arr e w t → w = [] ∧ t = e.
Proof.
  intros He Hp. inversion Hp as [| ? ? ? ? st Hq Hm | ? ? ? ? st Hq Hm Hc];
    subst; [auto | |];
    rewrite He in Hq; injection Hq as <-; simpl in *.
  - discriminate.
  - unfold REREX_MATCH in Hc. lia.
Qed.

(** Paths from a split state other than the empty one start with one of
    its two arcs. *)
Lemma path_from_split arr q a b w t :
  arr !! q = Some (split_state a b) → path arr q w t →
  (w = [] ∧ t = q)
  ∨ (a ≠ NO_STATE ∧ path arr a w t) ∨ (b ≠ NO_STATE ∧ path arr b w t).
Proof.
  intros Hq Hp. inversion Hp as [| ? x ? ? st Hq' Hm Hx Hz Hp'
                                 | ? ? ? ? st Hq' Hm]; subst.
  - left. auto.
  - rewrite Hq in Hq'. injection Hq' as <-. simpl in Hx.
    right. destruct Hx as [-> | ->]; auto.
  - rewrite Hq in Hq'. injection Hq' as <-. simpl in Hm. done.
Qed.

(** Paths from a labelled state other than the empty one start with its
    arc. *)
Lemma path_from_range arr q st w t :
  arr !! q = Some st → min st ≠ REREX_SPLIT → path arr q w t →
  (w = [] ∧ t = q)
  ∨ ∃ c w', w = c :: w' ∧ (min st <= c <= max st)%Z
            ∧ next1 st ≠ NO_STATE ∧ path arr (next1 st) w' t.
Proof.
  intros Hq Hns Hp. inversion Hp as [| ? x ? ? st' Hq' Hm Hx Hz Hp'
                                     | ? c w' ? st' Hq' Hm Hc Hz Hp']; subst.
  - left. auto.
  - rewrite Hq in Hq'. injection Hq' as <-. done.
  - rewrite Hq in Hq'. injection Hq' as <-. right. eauto 10.
Qed.

(** Rewriting the end [e] of a region: the new paths from a state of the
    region either stay inside and avoid the arcs of [e], or reach [e] by
    an old path and continue from it. *)
Lemma path_exit arr arr' lo hi e q w t :
  region_ok arr lo hi →
  (∀ p, in_region lo hi p → p ≠ e → arr' !! p = arr !! p) →
  path arr' q w t → in_region lo hi q →
  (in_region lo hi t ∧ path arr q w t)
  ∨ ∃ w1 w2, w = w1 ++ w2 ∧ path arr q w1 e ∧ path arr' e w2 t.
Proof.
  intros Hok Hag Hp.
  induction Hp as [q | q t w r st Hq Hm Ht Hz Hp IH
                     | q c w r st Hq Hm Hc Hz Hp IH]; intros Hin.
  - left. split; [exact Hin | constructor].
  - destruct (decide (q = e)) as [-> | Hne].
    { right. exists [], w. split; [reflexivity|]. split; [constructor|].
      eapply path_eps; eauto. }
    rewrite Hag in Hq by auto.
    destruct (Hok q st Hin Hq) as (H1 & H2 & _).
    assert (in_region lo hi t) as Hint
        by (destruct Ht as [-> | ->]; [destruct H1 | destruct H2]; done).
    destruct (IH Hint) as [[Hr Hp'] | (w1 & w2 & -> & Hp1 & Hp2)].
    + left. split; [exact Hr|]. eapply path_eps; eauto.
    + right. exists w1, w2. split; [reflexivity|]. split; [|exact Hp2].
      eapply path_eps; eauto.
  - destruct (decide (q = e)) as [-> | Hne].
    { right. exists [], (c :: w). split; [reflexivity|]. split; [constructor|].
      eapply path_chr; eauto. }
    rewrite Hag in Hq by auto.
    destruct (Hok q st Hin Hq) as (H1 & _).
    assert (in_region lo hi (next1 st)) as Hint by (destruct H1; done).
    destruct (IH Hint) as [[Hr Hp'] | (w1 & w2 & -> & Hp1 & Hp2)].
    + left. split; [exact Hr|]. eapply path_chr; eauto.
    + right. exists (c :: w1), w2. split; [reflexivity|]. split; [|exact Hp2].
      eapply path_chr; eauto.
Qed.

(** Old paths of the region survive the rewriting of a match state. *)
Lemma path_keep arr arr' lo hi e q w t :
  region_ok arr lo hi →
  (∀ p, in_region lo hi p → p ≠ e → arr' !! p = arr !! p) →
  arr !! e = Some match_state →
  path arr q w t → in_region lo hi q → path arr' q w t.
Proof.
  intros Hok Hag He Hp.
  induction Hp as [q | q t w r st Hq Hm Ht Hz Hp IH
                     | q c w r st Hq Hm Hc Hz Hp IH]; intros Hin.
  - constructor.
  - assert (q ≠ e) as Hne.
    { intros ->. rewrite He in Hq. injection Hq as <-. discriminate. }
    destruct (Hok q st Hin Hq) as (H1 & H2 & _).
    eapply (path_eps _ q t); eauto.
    + rewrite Hag by auto. exact Hq.
    + apply IH. destruct Ht as [-> | ->]; [destruct H1 | destruct H2]; done.
  - assert (q ≠ e) as Hne.
    { intros ->. rewrite He in Hq. injection Hq as <-. simpl in Hc.
      unfold REREX_MATCH in Hc. lia. }
    destruct (Hok q st Hin Hq) as (H1 & _).
    eapply path_chr; eauto.
    + rewrite Hag by auto. exact Hq.
    + apply IH. destruct H1; done.
Qed.

(** *** Fragments of arrays that agree *)

Lemma frag_agree arr arr' lo hi f L :
  frag arr lo hi f L → agree arr arr' lo hi → hi ≤ length arr' →
  frag arr' lo hi f L.
Proof.
  intros F Hag Hhi.
  pose proof (region_ok_agree _ _ _ _ (fr_region F) Hag) as Hok'.
  pose proof (agree_sym _ _ _ _ Hag) as Hag'.
  constructor; try apply F; auto.
  - rewrite Hag by apply F. apply F.
  - rewrite Hag by apply F. apply F.
  - intros w. rewrite <- (fr_lang F). split; intros Hp.
    + apply (path_agree arr' arr lo hi); auto. apply F.
    + apply (path_agree arr arr' lo hi); auto; apply F.
  - intros w q Hp Hm.
    assert (path arr (start f) w q) as Hp'
        by (apply (path_agree arr' arr lo hi); auto; apply F).
    apply (fr_unique F w q Hp').
    destruct Hm as (st & Hst & Hm). exists st. split; [|exact Hm].
    rewrite <- Hag; [exact Hst|].
    eapply path_stay; [apply F | exact Hp' | apply F].
Qed.

Lemma frag_ext arr lo hi f L L' :
  frag arr lo hi f L → (∀ w, L w ↔ L' w) → frag arr lo hi f L'.
Proof.
  intros F HL. constructor; try apply F.
  intros w. rewrite <- HL. apply F.
Qed.

(** The start and the end of a fragment differ. *)
Lemma frag_start_ne_end arr lo hi f L :
  frag arr lo hi f L → start f ≠ end_ f.
Proof.
  intros F Heq. destruct (fr_start F) as (st & Hst & Hm).
  rewrite Heq, (fr_end F) in Hst. injection Hst as <-. done.
Qed.

(** *** Reading the array after [add_state] and [set_state] *)

Lemma lookup_snoc_lt (arr : list State) st q :
  q < length arr → (arr ++ [st]) !! q = arr !! q.
Proof. apply lookup_app_l. Qed.

Lemma lookup_snoc_eq (arr : list State) st :
  (arr ++ [st]) !! length arr = Some st.
Proof. rewrite lookup_app_r by lia. rewrite Nat.sub_diag. reflexivity. Qed.

Lemma length_snoc (arr : list State) st :
  length (arr ++ [st]) = S (length arr).
Proof. rewrite length_app. simpl. lia. Qed.

(** A region of fresh states on top of the array. *)
Lemma region_ok_fresh (arr : list State) lo hi :
  length arr ≤ lo → region_ok arr lo hi.
Proof.
  intros Hle q st [Hq _] Hst. apply lookup_lt_Some in Hst. lia.
Qed.

(** *** The atoms *)

(** The automaton of a labelled state [a] pointing to a fresh match
    state: what [char_automata], [read_dot] and the positive case of
    [range_automata] build. *)
Lemma range_frag (arr : list State) (lo hi : Z) :
  1 ≤ length arr → (cmin <= lo < REREX_MATCH)%Z → (hi <= cmax)%Z →
  let n := length arr in
  frag (arr ++ [match_state] ++ [range_state lo hi n]) n (n + 2)
       (make_automata (n + 1) n) (lang_range lo hi).
Proof.
  intros Hlen Hlo Hhi n.
  set (arr' := arr ++ [match_state] ++ [range_state lo hi n]).
  assert (arr' !! n = Some match_state) as He.
  { unfold arr'. rewrite lookup_app_r by lia.
    replace (n - length arr) with 0 by (unfold n; lia). reflexivity. }
  assert (arr' !! (n + 1) = Some (range_state lo hi n)) as Hs.
  { unfold arr'. rewrite lookup_app_r by (unfold n; lia).
    replace (n + 1 - length arr) with 1 by (unfold n; lia). reflexivity. }
  assert (length arr' = n + 2) as Hl.
  { unfold arr'. rewrite !length_app. simpl. unfold n. lia. }
  assert (∀ w t, path arr' (n + 1) w t →
                 (w = [] ∧ t = n + 1)
                 ∨ ∃ c, w = [c] ∧ (lo <= c <= hi)%Z ∧ t = n) as Hpaths.
  { intros w t Hp.
    assert (min (range_state lo hi n) ≠ REREX_SPLIT) as Hns
        by (simpl; unfold REREX_MATCH, REREX_SPLIT in *; lia).
    destruct (path_from_range _ _ _ _ _ Hs Hns Hp)
      as [? | (c & w' & -> & Hc & _ & Hp')]; [auto|].
    simpl in Hp'. destruct (path_from_match _ _ _ _ He Hp') as [-> ->].
    right. exists c. auto. }
  constructor; simpl; unfold in_region; try lia; auto.
  - exists (range_state lo hi n). split; [exact Hs|]. simpl. lia.
  - intros q st [Hq1 Hq2] Hst.
    assert (q = n ∨ q = n + 1) as [-> | ->] by lia.
    + rewrite He in Hst. injection Hst as <-. apply state_ok_match.
    + rewrite Hs in Hst. injection Hst as <-.
      unfold state_ok, in_region. simpl.
      split; [right; lia|]. split; [left; reflexivity | lia].
  - intros w. split.
    + intros Hp. destruct (Hpaths w n Hp) as [[_ ?] | (c & -> & Hc & _)];
        [lia|]. exists c. auto.
    + intros (c & -> & Hc). eapply path_chr; eauto.
      * simpl. unfold REREX_MATCH, REREX_SPLIT in *. lia.
      * simpl. unfold NO_STATE, n. lia.
      * simpl. constructor.
  - intros w q Hp (st & Hst & Hm).
    destruct (Hpaths w q Hp) as [[_ ->] | (c & _ & _ & ->)]; [|reflexivity].
    rewrite Hs in Hst. injection Hst as <-. simpl in Hm. lia.
Qed.

Lemma is_match_split arr q a b :
  arr !! q = Some (split_state a b) → ¬ is_match arr q.
Proof. intros Hq (st & Hst & Hm). rewrite Hq in Hst. by injection Hst as <-. Qed.

Lemma is_match_agree arr arr' q :
  arr' !! q = arr !! q → is_match arr' q → is_match arr q.
Proof. intros Heq (st & Hst & Hm). exists st. by rewrite <- Heq. Qed.

Lemma agree_snoc (arr : list State) st lo :
  agree arr (arr ++ [st]) lo (length arr).
Proof. intros q [_ Hq]. apply lookup_snoc_lt. exact Hq. Qed.

Lemma agree_narrow arr arr' lo hi lo' hi' :
  agree arr arr' lo hi → lo ≤ lo' → hi' ≤ hi → agree arr arr' lo' hi'.
Proof. intros H ? ? q [? ?]. apply H. unfold in_region. lia. Qed.

Lemma agree_trans a b c lo hi :
  agree a b lo hi → agree b c lo hi → agree a c lo hi.
Proof. intros H1 H2 q Hq. rewrite H2, H1; auto. Qed.

Lemma region_ok_widen_states arr arr' lo hi hi' :
  region_ok arr lo hi → hi ≤ hi' →
  (∀ q st, in_region lo hi' q → arr' !! q = Some st →
           (in_region lo hi q ∧ arr !! q = Some st) ∨ state_ok lo hi' st) →
  region_ok arr' lo hi'.
Proof.
  intros Hok Hhi Hcase q st Hq Hst.
  destruct (Hcase q st Hq Hst) as [[Hq' Hst'] | ?]; [|assumption].
  eapply state_ok_widen; [eapply Hok; eauto | lia | lia].
Qed.

(** *** Zero-or-one *)

Lemma question_frag arr lo f L :
  frag arr lo (length arr) f L →
  frag (question arr f).2 lo (length (question arr f).2) (question arr f).1
       (lang_opt L)
  ∧ agree arr (question arr f).2 0 (length arr).
Proof.
  intros F. unfold question, add_state, n_states. simpl.
  set (n := length arr). set (sp := split_state (start f) (end_ f)).
  set (arr' := arr ++ [sp]).
  assert (agree arr arr' 0 n) as Hag by apply agree_snoc.
  split; [|exact Hag].
  assert (frag arr' lo n f L) as F'.
  { eapply frag_agree; [exact F | eapply agree_narrow; eauto; lia |].
    unfold arr'. rewrite length_snoc. lia. }
  assert (arr' !! n = Some sp) as Hn by apply lookup_snoc_eq.
  assert (length arr' = S n) as Hl by apply length_snoc.
  pose proof (fr_start_in F) as [Hs1 Hs2]. pose proof (fr_end_in F) as [He1 He2].
  pose proof (fr_lo F) as Hlo. fold n in Hs2, He2.
  rewrite Hl.
  constructor; simpl; unfold in_region; try lia.
  - apply F'.
  - exists sp. split; [exact Hn | discriminate].
  - eapply region_ok_widen_states; [apply (fr_region F') | lia |].
    intros q st [Hq1 Hq2] Hst. destruct (decide (q = n)) as [-> | Hne].
    + right. rewrite Hn in Hst. injection Hst as <-.
      apply state_ok_split; right; unfold in_region; lia.
    + left. split; [unfold in_region; lia | exact Hst].
  - intros w. split.
    + intros Hp.
      destruct (path_from_split _ _ _ _ _ _ Hn Hp)
        as [[_ ?] | [[_ Hp'] | [_ Hp']]]; [lia | |].
      * right. apply (fr_lang F'). exact Hp'.
      * left. apply (path_from_match _ _ _ _ (fr_end F') Hp').
    + intros [-> | HL].
      * apply (path_eps _ n (end_ f) [] _ sp); auto.
        -- unfold NO_STATE. lia.
        -- constructor.
      * apply (path_eps _ n (start f) w _ sp); auto.
        -- unfold NO_STATE. lia.
        -- apply (fr_lang F'). exact HL.
  - intros w q Hp Hm.
    destruct (path_from_split _ _ _ _ _ _ Hn Hp)
      as [[_ ->] | [[_ Hp'] | [_ Hp']]].
    + exfalso. eapply is_match_split; eauto.
    + apply (fr_unique F' w q Hp' Hm).
    + apply (path_from_match _ _ _ _ (fr_end F') Hp').
Qed.

Lemma region_path_agree arr arr' lo hi q w t :
  region_ok arr lo hi → agree arr arr' lo hi → in_region lo hi q →
  (path arr' q w t ↔ path arr q w t).
Proof.
  intros Hok Hag Hq. split; intros Hp.
  - apply (path_agree arr' arr lo hi); auto.
    + eapply region_ok_agree; eauto.
    + apply agree_sym. exact Hag.
  - apply (path_agree arr arr' lo hi); auto.
Qed.

(** The language of a trivial automaton is the label of its start. *)
Lemma trivial_lang arr lo hi f L st :
  frag arr lo hi f L → arr !! start f = Some st →
  (min st < REREX_MATCH)%Z → next1 st = end_ f →
  ∀ w, L w ↔ ∃ c, w = [c] ∧ (min st <= c <= max st)%Z.
Proof.
  intros F Hst Hmin Hnext w. rewrite <- (fr_lang F).
  assert (min st ≠ REREX_SPLIT) as Hns
      by (unfold REREX_MATCH, REREX_SPLIT in *; lia).
  pose proof (frag_start_ne_end _ _ _ _ _ F) as Hne.
  split.
  - intros Hp.
    destruct (path_from_range _ _ _ _ _ Hst Hns Hp)
      as [[_ ?] | (c & w' & -> & Hc & Hz & Hp')]; [done|].
    rewrite Hnext in Hp'.
    destruct (path_from_match _ _ _ _ (fr_end F) Hp') as [-> _]. eauto.
  - intros (c & -> & Hc). eapply path_chr; eauto.
    + rewrite Hnext. pose proof (fr_end_in F) as [? _].
      pose proof (fr_lo F). unfold NO_STATE. lia.
    + rewrite Hnext. constructor.
Qed.

Lemma is_trivial_spec arr f st :
  arr !! start f = Some st →
  is_trivial arr f = true ↔ (min st < REREX_MATCH)%Z ∧ next1 st = end_ f.
Proof.
  intros Hst. unfold is_trivial, state_at. rewrite Hst. simpl.
  rewrite andb_true_iff, Z.ltb_lt, Nat.eqb_eq. reflexivity.
Qed.

(** *** Concatenation *)

Lemma concatenate_frag arr lo mid fa fb La Lb :
  frag arr lo mid fa La → frag arr mid (length arr) fb Lb →
  frag (concatenate arr fa fb).2 lo (length (concatenate arr fa fb).2)
       (concatenate arr fa fb).1 (lang_concat La Lb)
  ∧ agree arr (concatenate arr fa fb).2 0 lo
  ∧ length (concatenate arr fa fb).2 = length arr.
Proof.
  intros Fa Fb. unfold concatenate. simpl.
  set (n := length arr) in *.
  pose proof (fr_start_in Fa) as [Hsa1 Hsa2].
  pose proof (fr_end_in Fa) as [Hea1 Hea2].
  pose proof (fr_start_in Fb) as [Hsb1 Hsb2].
  pose proof (fr_end_in Fb) as [Heb1 Heb2].
  pose proof (fr_lo Fa) as Hlo. pose proof (fr_hi Fa) as Hmid. fold n in Hmid.
  destruct (fr_start Fa) as (st & Hst & Hnm).
  pose proof (frag_start_ne_end _ _ _ _ _ Fa) as Hnea.
  pose proof (frag_start_ne_end _ _ _ _ _ Fb) as Hneb.
  destruct (is_trivial arr fa) eqn:Htriv.
  - (* a's start is linked directly to b's start *)
    apply (is_trivial_spec arr fa st Hst) in Htriv as [Hmin Hnext].
    unfold set_next1, set_state, state_at. rewrite Hst. simpl.
    set (st' := mkState (start fb) (next2 st) (min st) (max st)).
    set (arr' := <[start fa := st']> arr).
    assert (length arr' = n) as Hl by apply length_insert.
    assert (arr' !! start fa = Some st') as Hsa'
        by (apply list_lookup_insert_eq; lia).
    assert (∀ q, q ≠ start fa → arr' !! q = arr !! q) as Hother
        by (intros q Hq; apply list_lookup_insert_ne; auto).
    assert (agree arr arr' mid n) as Hagb
        by (intros q [? ?]; apply Hother; lia).
    assert (min st' ≠ REREX_SPLIT) as Hns
        by (simpl; unfold REREX_MATCH, REREX_SPLIT in *; lia).
    assert (∀ w t, path arr' (start fb) w t ↔ path arr (start fb) w t)
      as Hpb.
    { intros w t. apply (region_path_agree arr arr' mid n); auto;
        [apply Fb | split; lia]. }
    pose proof (trivial_lang _ _ _ _ _ st Fa Hst Hmin Hnext) as HLa.
    rewrite Hl. split; [|split; [|reflexivity]].
    2: { intros q [_ Hq]. apply Hother. lia. }
    constructor; simpl; unfold in_region; try lia.
    + rewrite Hother by lia. apply Fb.
    + exists st'. split; [exact Hsa'|]. simpl. lia.
    + intros q sq [Hq1 Hq2] Hsq.
      destruct (decide (q = start fa)) as [-> | Hne].
      * rewrite Hsa' in Hsq. injection Hsq as <-.
        destruct (fr_region Fa (start fa) st) as (_ & H2 & H3 & H4);
          [split; lia | exact Hst |].
        unfold state_ok. simpl. split; [right; split; lia|].
        split; [|auto]. destruct H2 as [? | [? ?]]; [left; auto|].
        right. split; lia.
      * rewrite Hother in Hsq by exact Hne.
        destruct (decide (q < mid)).
        -- eapply state_ok_widen; [eapply (fr_region Fa); eauto | lia | lia].
           split; lia.
        -- eapply state_ok_widen; [eapply (fr_region Fb); eauto | lia | lia].
           split; lia.
    + intros w. split.
      * intros Hp.
        destruct (path_from_range _ _ _ _ _ Hsa' Hns Hp)
          as [[_ ?] | (c & w' & -> & Hc & Hz & Hp')]; [lia|].
        simpl in Hp', Hc. apply Hpb, (fr_lang Fb) in Hp'.
        exists [c], w'. split; [reflexivity|]. split; [|exact Hp'].
        apply HLa. eauto.
      * intros (w1 & w2 & -> & H1 & H2).
        apply HLa in H1 as (c & -> & Hc). simpl.
        eapply path_chr; eauto.
        -- simpl. unfold NO_STATE. lia.
        -- simpl. apply Hpb, (fr_lang Fb). exact H2.
    + intros w q Hp Hm.
      destruct (path_from_range _ _ _ _ _ Hsa' Hns Hp)
        as [[_ ->] | (c & w' & -> & Hc & Hz & Hp')].
      * exfalso. destruct Hm as (sq & Hsq & Hm).
        rewrite Hsa' in Hsq. injection Hsq as <-. simpl in Hm. lia.
      * simpl in Hp'. apply Hpb in Hp'.
        apply (fr_unique Fb w' q Hp').
        eapply is_match_agree; [|exact Hm]. apply Hagb.
        eapply path_stay; [apply Fb | exact Hp' | split; lia].
  - (* a's end becomes a split state leading to b's start *)
    assert (¬ ((min st < REREX_MATCH)%Z ∧ next1 st = end_ fa)) as Hnt.
    { rewrite <- (is_trivial_spec arr fa st Hst). rewrite Htriv. done. }
    unfold set_state.
    set (sp := split_state (start fb) NO_STATE).
    set (arr' := <[end_ fa := sp]> arr).
    assert (length arr' = n) as Hl by apply length_insert.
    assert (arr' !! end_ fa = Some sp) as Hea'
        by (apply list_lookup_insert_eq; lia).
    assert (∀ q, q ≠ end_ fa → arr' !! q = arr !! q) as Hother
        by (intros q Hq; apply list_lookup_insert_ne; auto).
    assert (agree arr arr' mid n) as Hagb
        by (intros q [? ?]; apply Hother; lia).
    assert (∀ w t, path arr' (start fb) w t ↔ path arr (start fb) w t)
      as Hpb.
    { intros w t. apply (region_path_agree arr arr' mid n); auto;
        [apply Fb | split; lia]. }
    assert (∀ p, in_region lo mid p → p ≠ end_ fa → arr' !! p = arr !! p)
      as Hexc by (intros p _ Hp; apply Hother; exact Hp).
    assert (∀ w t, path arr' (end_ fa) w t →
                   (w = [] ∧ t = end_ fa) ∨ path arr (start fb) w t) as Hfrom.
    { intros w t Hp.
      destruct (path_from_split _ _ _ _ _ _ Hea' Hp)
        as [? | [[_ Hp'] | [? _]]]; [auto | | done].
      right. apply Hpb. exact Hp'. }
    rewrite Hl. split; [|split; [|reflexivity]].
    2: { intros q [_ Hq]. apply Hother. lia. }
    constructor; simpl; unfold in_region; try lia.
    + rewrite Hother by lia. apply Fb.
    + exists st. split; [|exact Hnm]. rewrite Hother by auto. exact Hst.
    + intros q sq [Hq1 Hq2] Hsq.
      destruct (decide (q = end_ fa)) as [-> | Hne].
      * rewrite Hea' in Hsq. injection Hsq as <-.
        apply state_ok_split; [right; split; lia | left; reflexivity].
      * rewrite Hother in Hsq by exact Hne.
        destruct (decide (q < mid)).
        -- eapply state_ok_widen; [eapply (fr_region Fa); eauto | lia | lia].
           split; lia.
        -- eapply state_ok_widen; [eapply (fr_region Fb); eauto | lia | lia].
           split; lia.
    + intros w. split.
      * intros Hp.
        destruct (path_exit arr arr' lo mid (end_ fa) _ _ _
                    (fr_region Fa) Hexc Hp)
          as [[[_ ?] _] | (w1 & w2 & -> & Hp1 & Hp2)]; [split; lia | lia |].
        destruct (Hfrom _ _ Hp2) as [[_ ?] | Hp2']; [lia|].
        exists w1, w2. split; [reflexivity|].
        split; [apply (fr_lang Fa) | apply (fr_lang Fb)]; assumption.
      * intros (w1 & w2 & -> & H1 & H2).
        apply (fr_lang Fa) in H1. apply (fr_lang Fb) in H2.
        eapply path_app.
        -- eapply (path_keep arr arr' lo mid (end_ fa)); eauto;
             [apply Fa | apply Fa | split; lia].
        -- apply (path_eps _ _ (start fb) w2 _ sp); auto.
           ++ unfold NO_STATE. lia.
           ++ apply Hpb. exact H2.
    + intros w q Hp Hm.
      destruct (path_exit arr arr' lo mid (end_ fa) _ _ _
                  (fr_region Fa) Hexc Hp)
        as [[Hq Hp'] | (w1 & w2 & -> & Hp1 & Hp2)]; [split; lia | |].
      * exfalso. destruct (decide (q = end_ fa)) as [-> | Hne].
        -- eapply is_match_split; eauto.
        -- apply Hne. apply (fr_unique Fa w q Hp').
           eapply is_match_agree; [|exact Hm]. auto.
      * destruct (Hfrom _ _ Hp2) as [[_ ->] | Hp2'].
        -- exfalso. eapply is_match_split; eauto.
        -- apply (fr_unique Fb w2 q Hp2').
           eapply is_match_agree; [|exact Hm]. apply Hagb.
           eapply path_stay; [apply Fb | exact Hp2' | split; lia].
Qed.

(** *** Redirecting a fragment *)

(** The end of a fragment rewritten to a split state with the single arc
    [x]: a new path from the start either stays on states of the region
    that are not match states, or spells a word of the language and goes
    on from [x]. *)
Lemma redirect_end arr arr' lo hi f L x :
  frag arr lo hi f L →
  (∀ p, in_region lo hi p → p ≠ end_ f → arr' !! p = arr !! p) →
  arr' !! end_ f = Some (split_state x NO_STATE) →
  ∀ w t, path arr' (start f) w t →
    (in_region lo hi t ∧ ¬ is_match arr' t)
    ∨ ∃ w1 w2, w = w1 ++ w2 ∧ L w1 ∧ x ≠ NO_STATE ∧ path arr' x w2 t.
Proof.
  intros F Hexc He w t Hp.
  destruct (path_exit arr arr' lo hi (end_ f) _ _ _ (fr_region F) Hexc Hp)
    as [[Hq Hp'] | (w1 & w2 & -> & Hp1 & Hp2)]; [apply F | |].
  - left. split; [exact Hq|]. intros Hm.
    destruct (decide (t = end_ f)) as [-> | Hne].
    + eapply is_match_split; eauto.
    + apply Hne. apply (fr_unique F w t Hp').
      eapply is_match_agree; [|exact Hm]. auto.
  - destruct (path_from_split _ _ _ _ _ _ He Hp2)
      as [[_ ->] | [[Hx Hp'] | [? _]]]; [| |done].
    + left. split; [apply F|]. eapply is_match_split; eauto.
    + right. exists w1, w2. split; [reflexivity|].
      split; [apply (fr_lang F); exact Hp1 | auto].
Qed.

Lemma redirect_end_intro arr arr' lo hi f L x w1 w2 t :
  frag arr lo hi f L →
  (∀ p, in_region lo hi p → p ≠ end_ f → arr' !! p = arr !! p) →
  arr' !! end_ f = Some (split_state x NO_STATE) →
  L w1 → x ≠ NO_STATE → path arr' x w2 t →
  path arr' (start f) (w1 ++ w2) t.
Proof.
  intros F Hexc He H1 Hx H2. apply (fr_lang F) in H1.
  eapply path_app.
  - eapply (path_keep arr arr' lo hi (end_ f)); eauto; apply F.
  - apply (path_eps _ _ x w2 _ (split_state x NO_STATE)); auto.
Qed.

(** The start of a trivial fragment relinked to [x]. *)
Lemma redirect_start arr arr' lo hi f L st x :
  frag arr lo hi f L → arr !! start f = Some st →
  (min st < REREX_MATCH)%Z → next1 st = end_ f →
  arr' !! start f = Some (mkState x (next2 st) (min st) (max st)) →
  ∀ w t, path arr' (start f) w t →
    (w = [] ∧ t = start f ∧ ¬ is_match arr' t)
    ∨ ∃ c w', w = c :: w' ∧ L [c] ∧ x ≠ NO_STATE ∧ path arr' x w' t.
Proof.
  intros F Hst Hmin Hnext Hs' w t Hp.
  set (st' := mkState x (next2 st) (min st) (max st)) in *.
  assert (min st' ≠ REREX_SPLIT) as Hns
      by (simpl; unfold REREX_MATCH, REREX_SPLIT in *; lia).
  destruct (path_from_range _ _ _ _ _ Hs' Hns Hp)
    as [[-> ->] | (c & w' & -> & Hc & Hz & Hp')].
  - left. split; [reflexivity|]. split; [reflexivity|].
    intros (sq & Hsq & Hm). rewrite Hs' in Hsq. injection Hsq as <-.
    simpl in Hm. lia.
  - right. exists c, w'. split; [reflexivity|].
    split; [|split; [exact Hz | exact Hp']].
    apply (trivial_lang _ _ _ _ _ st F Hst Hmin Hnext). eauto.
Qed.

Lemma redirect_start_intro arr arr' lo hi f L st x w1 w2 t :
  frag arr lo hi f L → arr !! start f = Some st →
  (min st < REREX_MATCH)%Z → next1 st = end_ f →
  arr' !! start f = Some (mkState x (next2 st) (min st) (max st)) →
  L w1 → x ≠ NO_STATE → path arr' x w2 t →
  path arr' (start f) (w1 ++ w2) t.
Proof.
  intros F Hst Hmin Hnext Hs' H1 Hx H2.
  apply (trivial_lang _ _ _ _ _ st F Hst Hmin Hnext) in H1
    as (c & -> & Hc).
  simpl. eapply path_chr; eauto.
  simpl. unfold REREX_MATCH, REREX_SPLIT in *. lia.
Qed.

(** The state of a relinked trivial start is as good as the old one. *)
Lemma state_ok_relink lo hi lo' hi' st x :
  state_ok lo hi st → lo' ≤ lo → hi ≤ hi' → in_region lo' hi' x →
  state_ok lo' hi' (mkState x (next2 st) (min st) (max st)).
Proof.
  intros Hok Hlo Hhi Hx.
  apply (state_ok_widen _ _ lo' hi') in Hok; [|lia|lia].
  destruct Hok as (_ & H2 & H3 & H4). unfold state_ok. simpl. auto.
Qed.

(** The states of two adjacent regions, some of them rewritten. *)
Lemma region_ok_join arr arr' lo mid hi hi' :
  region_ok arr lo mid → region_ok arr mid hi →
  lo ≤ mid → mid ≤ hi → hi ≤ hi' →
  (∀ q st, in_region lo hi' q → arr' !! q = Some st →
           (q < hi ∧ arr !! q = Some st) ∨ state_ok lo hi' st) →
  region_ok arr' lo hi'.
Proof.
  intros Ha Hb Hlo Hmid Hhi Hcase q st Hq Hst.
  destruct (Hcase q st Hq Hst) as [[Hq' Hst'] | ?]; [|assumption].
  destruct Hq as [Hq1 Hq2]. destruct (decide (q < mid)).
  - eapply state_ok_widen; [eapply Ha; eauto | lia | lia]. split; lia.
  - eapply state_ok_widen; [eapply Hb; eauto | lia | lia]. split; lia.
Qed.

(** *** Alternation *)

Lemma alternate_frag arr lo mid fa fb La Lb :
  frag arr lo mid fa La → frag arr mid (length arr) fb Lb →
  frag (alternate arr fa fb).2 lo (length (alternate arr fa fb).2)
       (alternate arr fa fb).1 (lang_union La Lb)
  ∧ agree arr (alternate arr fa fb).2 0 lo
  ∧ length arr ≤ length (alternate arr fa fb).2.
Proof.
  intros Fa Fb. unfold alternate, add_state, n_states.
  set (n := length arr) in *.
  set (sp := split_state (start fa) (start fb)).
  set (arr1 := arr ++ [sp]).
  pose proof (fr_start_in Fa) as [Hsa1 Hsa2].
  pose proof (fr_end_in Fa) as [Hea1 Hea2].
  pose proof (fr_start_in Fb) as [Hsb1 Hsb2].
  pose proof (fr_end_in Fb) as [Heb1 Heb2].
  pose proof (fr_lo Fa) as Hlo. pose proof (fr_hi Fa) as Hmid. fold n in Hmid.
  destruct (fr_start Fa) as (sta & Hsta & Hnma).
  destruct (fr_start Fb) as (stb & Hstb & Hnmb).
  pose proof (frag_start_ne_end _ _ _ _ _ Fa) as Hnea.
  pose proof (frag_start_ne_end _ _ _ _ _ Fb) as Hneb.
  assert (length arr1 = n + 1) as Hl1
      by (unfold arr1; rewrite length_snoc; lia).
  assert (arr1 !! n = Some sp) as Hn1 by apply lookup_snoc_eq.
  assert (∀ q, q < n → arr1 !! q = arr !! q) as Hold1
      by (intros q Hq; apply lookup_snoc_lt; exact Hq).
  assert (arr1 !! start fa = Some sta) as Hsta1 by (rewrite Hold1; auto; lia).
  assert (arr1 !! start fb = Some stb) as Hstb1 by (rewrite Hold1; auto; lia).
  destruct (is_trivial arr1 fa) eqn:Htriva;
    [|destruct (is_trivial arr1 fb) eqn:Htrivb].
  - (* a is trivial: its start is linked to b's end *)
    apply (is_trivial_spec arr1 fa sta Hsta1) in Htriva as [Hmin Hnext].
    unfold set_next1, set_state, state_at. rewrite Hsta1.
    cbn [fst snd default from_option id].
    set (st' := mkState (end_ fb) (next2 sta) (min sta) (max sta)).
    set (arr' := <[start fa := st']> arr1).
    assert (length arr' = n + 1) as Hl
        by (unfold arr'; rewrite length_insert; exact Hl1).
    assert (arr' !! start fa = Some st') as Hsa'
        by (apply list_lookup_insert_eq; lia).
    assert (∀ q, q ≠ start fa → q < n → arr' !! q = arr !! q) as Hother.
    { intros q Hq Hqn. unfold arr'.
      rewrite list_lookup_insert_ne by auto. auto. }
    assert (arr' !! n = Some sp) as Hn'.
    { unfold arr'. rewrite list_lookup_insert_ne by lia. exact Hn1. }
    assert (arr' !! end_ fb = Some match_state) as Heb'
        by (rewrite Hother by lia; apply Fb).
    assert (agree arr arr' mid n) as Hagb
        by (intros q [? ?]; apply Hother; lia).
    assert (∀ w t, path arr' (start fb) w t ↔ path arr (start fb) w t)
      as Hpb.
    { intros w t. apply (region_path_agree arr arr' mid n); auto;
        [apply Fb | split; lia]. }
    pose proof (redirect_start arr arr' lo mid fa La sta (end_ fb)
                  Fa Hsta Hmin Hnext Hsa') as Hra.
    rewrite Hl. split; [|split; [|lia]].
    2: { intros q [_ Hq]. apply Hother; lia. }
    constructor; simpl; unfold in_region; try lia.
    + exact Heb'.
    + exists sp. split; [exact Hn' | discriminate].
    + eapply (region_ok_join arr arr' lo mid n);
        [apply Fa | apply Fb | lia | lia | lia |].
      intros q st [Hq1 Hq2] Hst.
      destruct (decide (q = n)) as [-> | Hqn].
      { right. rewrite Hn' in Hst. injection Hst as <-.
        apply state_ok_split; right; split; lia. }
      destruct (decide (q = start fa)) as [-> | Hqs].
      { right. rewrite Hsa' in Hst. injection Hst as <-.
        eapply state_ok_relink;
          [eapply (fr_region Fa); eauto; split; lia | lia | lia |].
        split; lia. }
      left. split; [lia|]. rewrite <- Hother by lia. exact Hst.
    + intros w. split.
      * intros Hp.
        destruct (path_from_split _ _ _ _ _ _ Hn' Hp)
          as [[_ ?] | [[_ Hp'] | [_ Hp']]]; [lia | |].
        -- left. destruct (Hra _ _ Hp')
             as [(_ & ? & _) | (c & w' & -> & Hc & _ & Hp'')]; [lia|].
           destruct (path_from_match _ _ _ _ Heb' Hp'') as [-> _]. exact Hc.
        -- right. apply (fr_lang Fb), Hpb. exact Hp'.
      * intros [H | H].
        -- apply (path_eps _ n (start fa) w _ sp); auto.
           ++ unfold NO_STATE. lia.
           ++ rewrite <- (app_nil_r w).
              eapply redirect_start_intro; eauto.
              ** unfold NO_STATE. lia.
              ** constructor.
        -- apply (path_eps _ n (start fb) w _ sp); auto.
           ++ unfold NO_STATE. lia.
           ++ apply Hpb, (fr_lang Fb). exact H.
    + intros w q Hp Hm.
      destruct (path_from_split _ _ _ _ _ _ Hn' Hp)
        as [[_ ->] | [[_ Hp'] | [_ Hp']]].
      * exfalso. eapply is_match_split; eauto.
      * destruct (Hra _ _ Hp')
          as [(_ & _ & ?) | (c & w' & -> & Hc & _ & Hp'')]; [done|].
        apply (path_from_match _ _ _ _ Heb' Hp'').
      * apply Hpb in Hp'. apply (fr_unique Fb w q Hp').
        eapply is_match_agree; [|exact Hm]. apply Hagb.
        eapply path_stay; [apply Fb | exact Hp' | split; lia].
  - (* b is trivial: its start is linked to a's end *)
    apply (is_trivial_spec arr1 fb stb Hstb1) in Htrivb as [Hmin Hnext].
    unfold set_next1, set_state, state_at. rewrite Hstb1.
    cbn [fst snd default from_option id].
    set (st' := mkState (end_ fa) (next2 stb) (min stb) (max stb)).
    set (arr' := <[start fb := st']> arr1).
    assert (length arr' = n + 1) as Hl
        by (unfold arr'; rewrite length_insert; exact Hl1).
    assert (arr' !! start fb = Some st') as Hsb'
        by (apply list_lookup_insert_eq; lia).
    assert (∀ q, q ≠ start fb → q < n → arr' !! q = arr !! q) as Hother.
    { intros q Hq Hqn. unfold arr'.
      rewrite list_lookup_insert_ne by auto. auto. }
    assert (arr' !! n = Some sp) as Hn'.
    { unfold arr'. rewrite list_lookup_insert_ne by lia. exact Hn1. }
    assert (arr' !! end_ fa = Some match_state) as Hea'
        by (rewrite Hother by lia; apply Fa).
    assert (agree arr arr' lo mid) as Haga
        by (intros q [? ?]; apply Hother; lia).
    assert (∀ w t, path arr' (start fa) w t ↔ path arr (start fa) w t)
      as Hpa.
    { intros w t. apply (region_path_agree arr arr' lo mid); auto;
        [apply Fa | split; lia]. }
    pose proof (redirect_start arr arr' mid n fb Lb stb (end_ fa)
                  Fb Hstb Hmin Hnext Hsb') as Hrb.
    rewrite Hl. split; [|split; [|lia]].
    2: { intros q [_ Hq]. apply Hother; lia. }
    constructor; simpl; unfold in_region; try lia.
    + exact Hea'.
    + exists sp. split; [exact Hn' | discriminate].
    + eapply (region_ok_join arr arr' lo mid n);
        [apply Fa | apply Fb | lia | lia | lia |].
      intros q st [Hq1 Hq2] Hst.
      destruct (decide (q = n)) as [-> | Hqn].
      { right. rewrite Hn' in Hst. injection Hst as <-.
        apply state_ok_split; right; split; lia. }
      destruct (decide (q = start fb)) as [-> | Hqs].
      { right. rewrite Hsb' in Hst. injection Hst as <-.
        eapply state_ok_relink;
          [eapply (fr_region Fb); eauto; split; lia | lia | lia |].
        split; lia. }
      left. split; [lia|]. rewrite <- Hother by lia. exact Hst.
    + intros w. split.
      * intros Hp.
        destruct (path_from_split _ _ _ _ _ _ Hn' Hp)
          as [[_ ?] | [[_ Hp'] | [_ Hp']]]; [lia | |].
        -- left. apply (fr_lang Fa), Hpa. exact Hp'.
        -- right. destruct (Hrb _ _ Hp')
             as [(_ & ? & _) | (c & w' & -> & Hc & _ & Hp'')]; [lia|].
           destruct (path_from_match _ _ _ _ Hea' Hp'') as [-> _]. exact Hc.
      * intros [H | H].
        -- apply (path_eps _ n (start fa) w _ sp); auto.
           ++ unfold NO_STATE. lia.
           ++ apply Hpa, (fr_lang Fa). exact H.
        -- apply (path_eps _ n (start fb) w _ sp); auto.
           ++ unfold NO_STATE. lia.
           ++ rewrite <- (app_nil_r w).
              eapply redirect_start_intro; eauto.
              ** unfold NO_STATE. lia.
              ** constructor.
    + intros w q Hp Hm.
      destruct (path_from_split _ _ _ _ _ _ Hn' Hp)
        as [[_ ->] | [[_ Hp'] | [_ Hp']]].
      * exfalso. eapply is_match_split; eauto.
      * apply Hpa in Hp'. apply (fr_unique Fa w q Hp').
        eapply is_match_agree; [|exact Hm]. apply Haga.
        eapply path_stay; [apply Fa | exact Hp' | split; lia].
      * destruct (Hrb _ _ Hp')
          as [(_ & _ & ?) | (c & w' & -> & Hc & _ & Hp'')]; [done|].
        apply (path_from_match _ _ _ _ Hea' Hp'').
  - (* both ends become split states leading to a new match state *)
    cbn [fst snd]. unfold set_state. rewrite Hl1.
    set (e := n + 1).
    set (se := split_state e NO_STATE).
    set (arr2 := arr1 ++ [match_state]).
    set (arr' := <[end_ fb := se]> (<[end_ fa := se]> arr2)).
    assert (length arr2 = n + 2) as Hl2
        by (unfold arr2; rewrite length_snoc; lia).
    assert (length arr' = n + 2) as Hl
        by (unfold arr'; rewrite !length_insert; exact Hl2).
    assert (arr' !! end_ fa = Some se) as Hea'.
    { unfold arr'. rewrite list_lookup_insert_ne by lia.
      apply list_lookup_insert_eq. lia. }
    assert (arr' !! end_ fb = Some se) as Heb'.
    { unfold arr'. apply list_lookup_insert_eq. rewrite length_insert. lia. }
    assert (∀ q, q ≠ end_ fa → q ≠ end_ fb → arr' !! q = arr2 !! q) as Hne2.
    { intros q H1 H2. unfold arr'. rewrite !list_lookup_insert_ne by auto.
      reflexivity. }
    assert (arr' !! n = Some sp) as Hn'.
    { rewrite Hne2 by lia. unfold arr2. rewrite lookup_snoc_lt by lia.
      exact Hn1. }
    assert (arr' !! e = Some match_state) as He'.
    { rewrite Hne2 by (unfold e; lia). unfold arr2, e.
      rewrite <- Hl1. apply lookup_snoc_eq. }
    assert (∀ q, q ≠ end_ fa → q ≠ end_ fb → q < n → arr' !! q = arr !! q)
      as Hother.
    { intros q H1 H2 Hq. rewrite Hne2 by auto. unfold arr2.
      rewrite lookup_snoc_lt by lia. auto. }
    assert (∀ p, in_region lo mid p → p ≠ end_ fa → arr' !! p = arr !! p)
      as Hexa by (intros p [? ?] Hp; apply Hother; lia).
    assert (∀ p, in_region mid n p → p ≠ end_ fb → arr' !! p = arr !! p)
      as Hexb by (intros p [? ?] Hp; apply Hother; lia).
    pose proof (redirect_end arr arr' lo mid fa La e Fa Hexa Hea') as Hra.
    pose proof (redirect_end arr arr' mid n fb Lb e Fb Hexb Heb') as Hrb.
    split; [|split; [|lia]].
    2: { intros q [_ Hq]. apply Hother; lia. }
    constructor; simpl; unfold in_region; try lia.
    + exact He'.
    + exists sp. split; [exact Hn' | discriminate].
    + eapply (region_ok_join arr arr' lo mid n);
        [apply Fa | apply Fb | lia | lia | lia |].
      intros q st [Hq1 Hq2] Hst.
      destruct (decide (q = n)) as [-> | Hqn].
      { right. rewrite Hn' in Hst. injection Hst as <-.
        apply state_ok_split; right; split; lia. }
      destruct (decide (q = e)) as [-> | Hqe].
      { right. rewrite He' in Hst. injection Hst as <-.
        apply state_ok_match. }
      destruct (decide (q = end_ fa)) as [-> | Hqa].
      { right. rewrite Hea' in Hst. injection Hst as <-.
        apply state_ok_split; [right; unfold e; split; lia | left; auto]. }
      destruct (decide (q = end_ fb)) as [-> | Hqb].
      { right. rewrite Heb' in Hst. injection Hst as <-.
        apply state_ok_split; [right; unfold e; split; lia | left; auto]. }
      left. unfold e in *. split; [lia|].
      rewrite <- Hother by lia. exact Hst.
    + intros w. split.
      * intros Hp.
        destruct (path_from_split _ _ _ _ _ _ Hn' Hp)
          as [[_ ?] | [[_ Hp'] | [_ Hp']]]; [unfold e in *; lia | |].
        -- left. destruct (Hra _ _ Hp')
             as [[[_ ?] _] | (w1 & w2 & -> & H1 & _ & Hp'')];
             [unfold e in *; lia|].
           destruct (path_from_match _ _ _ _ He' Hp'') as [-> _].
           rewrite app_nil_r. exact H1.
        -- right. destruct (Hrb _ _ Hp')
             as [[[_ ?] _] | (w1 & w2 & -> & H1 & _ & Hp'')];
             [unfold e in *; lia|].
           destruct (path_from_match _ _ _ _ He' Hp'') as [-> _].
           rewrite app_nil_r. exact H1.
      * intros [H | H].
        -- apply (path_eps _ n (start fa) w _ sp); auto.
           ++ unfold NO_STATE. lia.
           ++ rewrite <- (app_nil_r w).
              eapply (redirect_end_intro arr arr' lo mid fa La e); eauto.
              ** unfold NO_STATE, e. lia.
              ** constructor.
        -- apply (path_eps _ n (start fb) w _ sp); auto.
           ++ unfold NO_STATE. lia.
           ++ rewrite <- (app_nil_r w).
              eapply (redirect_end_intro arr arr' mid n fb Lb e); eauto.
              ** unfold NO_STATE, e. lia.
              ** constructor.
    + intros w q Hp Hm.
      destruct (path_from_split _ _ _ _ _ _ Hn' Hp)
        as [[_ ->] | [[_ Hp'] | [_ Hp']]].
      * exfalso. eapply is_match_split; eauto.
      * destruct (Hra _ _ Hp')
          as [[_ ?] | (w1 & w2 & -> & H1 & _ & Hp'')]; [done|].
        apply (path_from_match _ _ _ _ He' Hp'').
      * destruct (Hrb _ _ Hp')
          as [[_ ?] | (w1 & w2 & -> & H1 & _ & Hp'')]; [done|].
        apply (path_from_match _ _ _ _ He' Hp'').
Qed.

(** *** Loops *)

Lemma lang_star_plus (L : lang) w :
  lang_star L w ↔ w = [] ∨ lang_plus L w.
Proof.
  split.
  - intros [|w1 w2 H1 H2]; [left; reflexivity|].
    right. exists w1, w2. auto.
  - intros [-> | (w1 & w2 & -> & H1 & H2)]; [constructor|].
    constructor; assumption.
Qed.

Section Loop.

Variables (arr arr' : list State) (lo hi : nat) (f : Automata) (L : lang).
Variable e : nat.
Hypothesis F : frag arr lo hi f L.
Hypothesis Hexc :
  ∀ p, in_region lo hi p → p ≠ end_ f → arr' !! p = arr !! p.
Hypothesis Hend : arr' !! end_ f = Some (split_state (start f) e).
Hypothesis He : arr' !! e = Some match_state.
Hypothesis Hout : ¬ in_region lo hi e.
Hypothesis Hnz : e ≠ NO_STATE.

Lemma start_nonzero : start f ≠ NO_STATE.
Proof using All.
  pose proof (fr_start_in F) as [? _]. pose proof (fr_lo F).
  unfold NO_STATE. lia.
Qed.

Lemma loop_decompose_gen q w t :
  path arr' q w t → t = e → in_region lo hi q →
  ∃ w1 w2, w = w1 ++ w2 ∧ path arr q w1 (end_ f) ∧ lang_star L w2.
Proof using All.
  intros Hp.
  induction Hp as [q | q t0 w r st Hq Hm Hto Hz Hp IH
                     | q c w r st Hq Hm Hc Hz Hp IH]; intros Ht Hin.
  - subst. done.
  - destruct (decide (q = end_ f)) as [-> | Hne].
    + exists [], w. split; [reflexivity|]. split; [constructor|].
      rewrite Hend in Hq. injection Hq as <-. simpl in Hto.
      destruct Hto as [-> | ->].
      * destruct IH as (w1 & w2 & -> & Hp1 & Hs);
          [exact Ht | apply (fr_start_in F)|].
        constructor; [apply (fr_lang F); exact Hp1 | exact Hs].
      * subst r. destruct (path_from_match _ _ _ _ He Hp) as [-> _].
        constructor.
    + rewrite Hexc in Hq by auto.
      destruct (fr_region F q st Hin Hq) as (H1 & H2 & _).
      assert (in_region lo hi t0) as Hint
          by (destruct Hto as [-> | ->]; [destruct H1 | destruct H2]; done).
      destruct IH as (w1 & w2 & -> & Hp1 & Hs); [exact Ht | exact Hint|].
      exists w1, w2. split; [reflexivity|]. split; [|exact Hs].
      eapply path_eps; eauto.
  - destruct (decide (q = end_ f)) as [-> | Hne].
    { rewrite Hend in Hq. injection Hq as <-. done. }
    rewrite Hexc in Hq by auto.
    destruct (fr_region F q st Hin Hq) as (H1 & _).
    assert (in_region lo hi (next1 st)) as Hint by (destruct H1; done).
    destruct IH as (w1 & w2 & -> & Hp1 & Hs); [exact Ht | exact Hint|].
    exists (c :: w1), w2. split; [reflexivity|]. split; [|exact Hs].
    eapply path_chr; eauto.
Qed.

Lemma loop_decompose q w :
  path arr' q w e → in_region lo hi q →
  ∃ w1 w2, w = w1 ++ w2 ∧ path arr q w1 (end_ f) ∧ lang_star L w2.
Proof using All. intros Hp. eapply loop_decompose_gen; eauto. Qed.

Lemma loop_from_end w : path arr' (end_ f) w e ↔ lang_star L w.
Proof using All.
  split.
  - intros Hp.
    destruct (loop_decompose _ _ Hp) as (w1 & w2 & -> & Hp1 & Hs);
      [apply (fr_end_in F)|].
    destruct (path_from_match _ _ _ _ (fr_end F) Hp1) as [-> _]. exact Hs.
  - induction 1 as [|w1 w2 H1 H2 IH].
    + apply (path_eps _ _ e [] _ (split_state (start f) e)); auto.
      constructor.
    + apply (path_eps _ _ (start f) _ _ (split_state (start f) e)); auto.
      * apply start_nonzero.
      * eapply path_app; [|exact IH].
        eapply (path_keep arr arr' lo hi (end_ f)); eauto;
          [apply (fr_region F) | apply (fr_end F)
           | apply (fr_lang F); exact H1 | apply (fr_start_in F)].
Qed.

Lemma loop_from_start w : path arr' (start f) w e ↔ lang_plus L w.
Proof using All.
  split.
  - intros Hp.
    destruct (loop_decompose _ _ Hp) as (w1 & w2 & -> & Hp1 & Hs);
      [apply (fr_start_in F)|].
    exists w1, w2. split; [reflexivity|].
    split; [apply (fr_lang F); exact Hp1 | exact Hs].
  - intros (w1 & w2 & -> & H1 & H2).
    eapply path_app; [|apply loop_from_end; exact H2].
    eapply (path_keep arr arr' lo hi (end_ f)); eauto;
      [apply (fr_region F) | apply (fr_end F)
       | apply (fr_lang F); exact H1 | apply (fr_start_in F)].
Qed.

Lemma loop_unique_gen q w t :
  path arr' q w t → is_match arr' t → in_region lo hi q →
  (∃ w0, path arr (start f) w0 q) → t = e.
Proof using All.
  intros Hp Hm.
  induction Hp as [q | q t0 w r st Hq Hmin Hto Hz Hp IH
                     | q c w r st Hq Hmin Hc Hz Hp IH]; intros Hin [w0 Hr].
  - exfalso. destruct (decide (q = end_ f)) as [-> | Hne].
    + eapply is_match_split; eauto.
    + apply Hne. apply (fr_unique F w0 q Hr).
      eapply is_match_agree; [|exact Hm]. auto.
  - destruct (decide (q = end_ f)) as [-> | Hne].
    + rewrite Hend in Hq. injection Hq as <-. simpl in Hto.
      destruct Hto as [-> | ->].
      * apply IH; [exact Hm | apply (fr_start_in F) | exists []; constructor].
      * apply (path_from_match _ _ _ _ He Hp).
    + rewrite Hexc in Hq by auto.
      destruct (fr_region F q st Hin Hq) as (H1 & H2 & _).
      assert (in_region lo hi t0) as Hint
          by (destruct Hto as [-> | ->]; [destruct H1 | destruct H2]; done).
      apply IH; [exact Hm | exact Hint |].
      exists (w0 ++ []). eapply path_app; [exact Hr|].
      eapply path_eps; eauto. constructor.
  - destruct (decide (q = end_ f)) as [-> | Hne].
    { rewrite Hend in Hq. injection Hq as <-. done. }
    rewrite Hexc in Hq by auto.
    destruct (fr_region F q st Hin Hq) as (H1 & _).
    assert (in_region lo hi (next1 st)) as Hint by (destruct H1; done).
    apply IH; [exact Hm | exact Hint |].
    exists (w0 ++ [c]). eapply path_app; [exact Hr|].
    eapply path_chr; eauto. constructor.
Qed.

Lemma loop_unique_start w t :
  path arr' (start f) w t → is_match arr' t → t = e.
Proof using All.
  intros Hp Hm. eapply loop_unique_gen; eauto; [apply (fr_start_in F)|].
  exists []. constructor.
Qed.

Lemma loop_unique_end w t :
  path arr' (end_ f) w t → is_match arr' t → t = e.
Proof using All.
  intros Hp Hm.
  destruct (path_from_split _ _ _ _ _ _ Hend Hp)
    as [[_ ->] | [[_ Hp'] | [_ Hp']]].
  - exfalso. eapply is_match_split; eauto.
  - eapply loop_unique_start; eauto.
  - apply (path_from_match _ _ _ _ He Hp').
Qed.

End Loop.

(** *** One-or-more *)

Lemma plus_frag arr lo f L :
  frag arr lo (length arr) f L →
  frag (plus arr f).2 lo (length (plus arr f).2) (plus arr f).1 (lang_plus L)
  ∧ agree arr (plus arr f).2 0 lo
  ∧ length arr ≤ length (plus arr f).2.
Proof.
  intros F. unfold plus, add_state, n_states, set_state. cbn [fst snd].
  set (n := length arr) in *.
  set (sp := split_state (start f) n).
  set (arr1 := arr ++ [match_state]).
  set (arr' := <[end_ f := sp]> arr1).
  pose proof (fr_start_in F) as [Hs1 Hs2].
  pose proof (fr_end_in F) as [He1 He2].
  pose proof (fr_lo F) as Hlo.
  destruct (fr_start F) as (st & Hst & Hnm).
  pose proof (frag_start_ne_end _ _ _ _ _ F) as Hne.
  assert (length arr1 = n + 1) as Hl1
      by (unfold arr1; rewrite length_snoc; lia).
  assert (length arr' = n + 1) as Hl
      by (unfold arr'; rewrite length_insert; exact Hl1).
  assert (arr' !! end_ f = Some sp) as Hend
      by (apply list_lookup_insert_eq; lia).
  assert (arr' !! n = Some match_state) as He.
  { unfold arr'. rewrite list_lookup_insert_ne by lia. apply lookup_snoc_eq. }
  assert (∀ q, q ≠ end_ f → q < n → arr' !! q = arr !! q) as Hother.
  { intros q Hq Hqn. unfold arr'. rewrite list_lookup_insert_ne by auto.
    apply lookup_snoc_lt. exact Hqn. }
  assert (∀ p, in_region lo n p → p ≠ end_ f → arr' !! p = arr !! p)
    as Hexc by (intros p [? ?] Hp; apply Hother; lia).
  assert (¬ in_region lo n n) as Hout by (unfold in_region; lia).
  assert (n ≠ NO_STATE) as Hnz by (unfold NO_STATE; lia).
  rewrite Hl. split; [|split; [|lia]].
  2: { intros q [_ Hq]. apply Hother; lia. }
  constructor; simpl; unfold in_region; try lia.
  - exact He.
  - exists st. split; [|exact Hnm]. rewrite Hother by lia. exact Hst.
  - eapply region_ok_widen_states; [apply (fr_region F) | lia |].
    intros q sq [Hq1 Hq2] Hsq.
    destruct (decide (q = n)) as [-> | Hqn].
    { right. rewrite He in Hsq. injection Hsq as <-. apply state_ok_match. }
    destruct (decide (q = end_ f)) as [-> | Hqe].
    { right. rewrite Hend in Hsq. injection Hsq as <-.
      apply state_ok_split; right; split; lia. }
    left. split; [split; lia|]. rewrite <- Hother by lia. exact Hsq.
  - intros w.
    apply (loop_from_start arr arr' lo n f L n F Hexc Hend He Hout Hnz).
  - intros w q.
    apply (loop_unique_start arr arr' lo n f L n F Hexc Hend He Hout Hnz).
Qed.

(** *** Kleene's star *)

Lemma star_frag arr lo f L :
  frag arr lo (length arr) f L →
  frag (star arr f).2 lo (length (star arr f).2) (star arr f).1 (lang_star L)
  ∧ agree arr (star arr f).2 0 lo
  ∧ length arr ≤ length (star arr f).2.
Proof.
  intros F. unfold star, add_state, n_states, set_state. cbn [fst snd].
  set (n := length arr) in *.
  set (sp := split_state (start f) n).
  set (arr1 := arr ++ [match_state]).
  assert (length arr1 = n + 1) as Hl1
      by (unfold arr1; rewrite length_snoc; lia).
  rewrite Hl1.
  set (arr2 := arr1 ++ [sp]).
  set (arr' := <[end_ f := sp]> arr2).
  pose proof (fr_start_in F) as [Hs1 Hs2].
  pose proof (fr_end_in F) as [He1 He2].
  pose proof (fr_lo F) as Hlo.
  destruct (fr_start F) as (st & Hst & Hnm).
  assert (length arr2 = n + 2) as Hl2
      by (unfold arr2; rewrite length_snoc; lia).
  assert (length arr' = n + 2) as Hl
      by (unfold arr'; rewrite length_insert; exact Hl2).
  assert (arr' !! end_ f = Some sp) as Hend
      by (apply list_lookup_insert_eq; lia).
  assert (arr' !! n = Some match_state) as He.
  { unfold arr', arr2. rewrite list_lookup_insert_ne by lia.
    rewrite lookup_snoc_lt by lia. apply lookup_snoc_eq. }
  assert (arr' !! (n + 1) = Some sp) as Hs.
  { unfold arr', arr2. rewrite list_lookup_insert_ne by lia.
    rewrite <- Hl1. apply lookup_snoc_eq. }
  assert (∀ q, q ≠ end_ f → q < n → arr' !! q = arr !! q) as Hother.
  { intros q Hq Hqn. unfold arr', arr2.
    rewrite list_lookup_insert_ne by auto.
    rewrite lookup_snoc_lt by lia. apply lookup_snoc_lt. exact Hqn. }
  assert (∀ p, in_region lo n p → p ≠ end_ f → arr' !! p = arr !! p)
    as Hexc by (intros p [? ?] Hp; apply Hother; lia).
  assert (¬ in_region lo n n) as Hout by (unfold in_region; lia).
  assert (n ≠ NO_STATE) as Hnz by (unfold NO_STATE; lia).
  pose proof (loop_from_start arr arr' lo n f L n F Hexc Hend He Hout Hnz)
    as Hplus.
  rewrite Hl. split; [|split; [|lia]].
  2: { intros q [_ Hq]. apply Hother; lia. }
  constructor; simpl; unfold in_region; try lia.
  - exact He.
  - exists sp. split; [exact Hs | discriminate].
  - eapply region_ok_widen_states; [apply (fr_region F) | lia |].
    intros q sq [Hq1 Hq2] Hsq.
    destruct (decide (q = n)) as [-> | Hqn].
    { right. rewrite He in Hsq. injection Hsq as <-. apply state_ok_match. }
    destruct (decide (q = n + 1)) as [-> | Hqs].
    { right. rewrite Hs in Hsq. injection Hsq as <-.
      apply state_ok_split; right; split; lia. }
    destruct (decide (q = end_ f)) as [-> | Hqe].
    { right. rewrite Hend in Hsq. injection Hsq as <-.
      apply state_ok_split; right; split; lia. }
    left. split; [split; lia|]. rewrite <- Hother by lia. exact Hsq.
  - intros w. rewrite lang_star_plus. split.
    + intros Hp.
      destruct (path_from_split _ _ _ _ _ _ Hs Hp)
        as [[_ ?] | [[_ Hp'] | [_ Hp']]]; [lia | |].
      * right. apply Hplus. exact Hp'.
      * left. apply (path_from_match _ _ _ _ He Hp').
    + intros [-> | H].
      * apply (path_eps _ _ n [] _ sp); auto. constructor.
      * apply (path_eps _ _ (start f) w _ sp); auto.
        -- unfold NO_STATE. lia.
        -- apply Hplus. exact H.
  - intros w q Hp Hm.
    destruct (path_from_split _ _ _ _ _ _ Hs Hp)
      as [[_ ->] | [[_ Hp'] | [_ Hp']]].
    + exfalso. eapply is_match_split; eauto.
    + eapply (loop_unique_start arr arr' lo n f L n); eauto.
    + apply (path_from_match _ _ _ _ He Hp').
Qed.

(** ** The syntax tree of a pattern and the automaton built for it *)

Lemma char_cast_normal cs x : (0 <= x < 128)%Z → char_cast cs x = x.
Proof.
  intros Hx. unfold char_cast. destruct cs.
  - rewrite Z.mod_small by lia. lia.
  - apply Z.mod_small. lia.
Qed.

Lemma list_snoc2 (arr : list State) a b :
  (arr ++ [a]) ++ [b] = arr ++ [a] ++ [b].
Proof. rewrite <- app_assoc. reflexivity. Qed.

Lemma agree_app (arr : list State) l lo :
  agree arr (arr ++ l) lo (length arr).
Proof. intros q [_ Hq]. apply lookup_app_l. exact Hq. Qed.

Lemma char_automata_frag arr c :
  1 ≤ length arr → normal c →
  frag (char_automata arr c).2 (length arr) (length (char_automata arr c).2)
       (char_automata arr c).1 (lang_range c c)
  ∧ agree arr (char_automata arr c).2 0 (length arr)
  ∧ length arr ≤ length (char_automata arr c).2.
Proof.
  intros Hlen [Hc1 Hc2]. unfold char_automata, add_state, n_states.
  cbn [fst snd]. rewrite list_snoc2.
  assert (length (arr ++ [match_state]) = length arr + 1) as ->
      by (rewrite length_snoc; lia).
  assert (length (arr ++ [match_state] ++ [range_state c c (length arr)])
          = length arr + 2) as -> by (rewrite !length_app; simpl; lia).
  split; [|split; [apply agree_app | lia]].
  apply range_frag; [exact Hlen | | exact Hc2].
  unfold cmin, cmax, REREX_MATCH in *. lia.
Qed.

Lemma dot_frag (arr : list State) :
  1 ≤ length arr →
  let n := length arr in
  frag (arr ++ [match_state] ++ [range_state cmin cmax n]) n (n + 2)
       (make_automata (n + 1) n) (lang_range cmin cmax).
Proof.
  intros Hlen n. apply range_frag; auto; unfold cmin, cmax, REREX_MATCH; lia.
Qed.

Lemma lookup_app_plus (arr l : list State) k :
  (arr ++ l) !! (length arr + k) = l !! k.
Proof.
  rewrite lookup_app_r by lia. f_equal. lia.
Qed.

Lemma range_automata_frag cs arr negated r :
  1 ≤ length arr → range_wf r →
  frag (range_automata cs arr negated r.1 r.2).2 (length arr)
       (length (range_automata cs arr negated r.1 r.2).2)
       (range_automata cs arr negated r.1 r.2).1 (lang_class negated r)
  ∧ agree arr (range_automata cs arr negated r.1 r.2).2 0 (length arr)
  ∧ length arr ≤ length (range_automata cs arr negated r.1 r.2).2.
Proof.
  intros Hlen ([Hl1 Hl2] & [Hh1 Hh2] & Hle).
  destruct r as [lo hi]. simpl in *.
  unfold range_automata, add_state, n_states. destruct negated.
  - (* negated: two labelled states below a fork *)
    rewrite !char_cast_normal by (unfold cmin, cmax in *; lia).
    cbn [fst snd]. rewrite !length_snoc.
    set (n := length arr) in *.
    set (low := range_state cmin (lo - 1) n).
    set (high := range_state (hi + 1) cmax n).
    set (fork := split_state (S n) (S (S n))).
    assert ((((arr ++ [match_state]) ++ [low]) ++ [high]) ++ [fork]
            = arr ++ [match_state; low; high; fork]) as ->
        by (rewrite <- !app_assoc; reflexivity).
    set (arr' := arr ++ _).
    assert (length arr' = n + 4) as Hl
        by (unfold arr'; rewrite length_app; simpl; unfold n; lia).
    assert (arr' !! n = Some match_state) as He.
    { unfold arr', n. rewrite lookup_app_r by lia.
      rewrite Nat.sub_diag. reflexivity. }
    assert (arr' !! S n = Some low) as Hlow.
    { unfold arr', n. replace (S (length arr)) with (length arr + 1) by lia.
      apply lookup_app_plus. }
    assert (arr' !! S (S n) = Some high) as Hhigh.
    { unfold arr', n.
      replace (S (S (length arr))) with (length arr + 2) by lia.
      apply lookup_app_plus. }
    assert (arr' !! S (S (S n)) = Some fork) as Hfork.
    { unfold arr', n.
      replace (S (S (S (length arr)))) with (length arr + 3) by lia.
      apply lookup_app_plus. }
    assert (min low ≠ REREX_SPLIT ∧ min low ≠ REREX_MATCH) as [Hlow1 Hlow2]
        by (simpl; unfold cmin; split; discriminate).
    assert (min high ≠ REREX_SPLIT ∧ min high ≠ REREX_MATCH)
      as [Hhigh1 Hhigh2]
        by (simpl; unfold cmin, cmax, REREX_SPLIT, REREX_MATCH in *;
            split; lia).
    assert (∀ w t, path arr' (S n) w t →
              (w = [] ∧ t = S n)
              ∨ ∃ c, w = [c] ∧ (cmin <= c <= lo - 1)%Z ∧ t = n) as Hplow.
    { intros w t Hp.
      destruct (path_from_range _ _ _ _ _ Hlow Hlow1 Hp)
        as [? | (c & w' & -> & Hc & _ & Hp')]; [auto|].
      simpl in Hp'. destruct (path_from_match _ _ _ _ He Hp') as [-> ->].
      right. exists c. auto. }
    assert (∀ w t, path arr' (S (S n)) w t →
              (w = [] ∧ t = S (S n))
              ∨ ∃ c, w = [c] ∧ (hi + 1 <= c <= cmax)%Z ∧ t = n) as Hphigh.
    { intros w t Hp.
      destruct (path_from_range _ _ _ _ _ Hhigh Hhigh1 Hp)
        as [? | (c & w' & -> & Hc & _ & Hp')]; [auto|].
      simpl in Hp'. destruct (path_from_match _ _ _ _ He Hp') as [-> ->].
      right. exists c. auto. }
    split; [|split; [apply agree_app | lia]].
    constructor; simpl; unfold in_region; try lia.
    + exact He.
    + exists fork. split; [exact Hfork | discriminate].
    + intros q st [Hq1 Hq2] Hst.
      assert (q = n ∨ q = S n ∨ q = S (S n) ∨ q = S (S (S n)))
        as [-> | [-> | [-> | ->]]] by lia.
      * rewrite He in Hst. injection Hst as <-. apply state_ok_match.
      * rewrite Hlow in Hst. injection Hst as <-.
        unfold state_ok, in_region. simpl.
        split; [right; lia|]. split; [left; reflexivity|].
        unfold cmin, cmax in *. lia.
      * rewrite Hhigh in Hst. injection Hst as <-.
        unfold state_ok, in_region. simpl.
        split; [right; lia|]. split; [left; reflexivity|].
        unfold cmin, cmax in *. lia.
      * rewrite Hfork in Hst. injection Hst as <-.
        apply state_ok_split; right; unfold in_region; lia.
    + intros w. split.
      * intros Hp.
        destruct (path_from_split _ _ _ _ _ _ Hfork Hp)
          as [[_ ?] | [[_ Hp'] | [_ Hp']]]; [lia | |].
        -- destruct (Hplow _ _ Hp') as [[_ ?] | (c & -> & Hc & _)]; [lia|].
           exists c. auto.
        -- destruct (Hphigh _ _ Hp') as [[_ ?] | (c & -> & Hc & _)]; [lia|].
           exists c. auto.
      * intros (c & -> & [Hc | Hc]).
        -- apply (path_eps _ _ (S n) [c] _ fork); auto.
           eapply path_chr; eauto; simpl;
             [unfold NO_STATE, n; lia | constructor].
        -- apply (path_eps _ _ (S (S n)) [c] _ fork); auto.
           eapply path_chr; eauto; simpl;
             [unfold NO_STATE, n; lia | constructor].
    + intros w q Hp Hm.
      destruct (path_from_split _ _ _ _ _ _ Hfork Hp)
        as [[_ ->] | [[_ Hp'] | [_ Hp']]].
      * exfalso. eapply is_match_split; eauto.
      * destruct (Hplow _ _ Hp') as [[_ ->] | (c & _ & _ & ->)];
          [|reflexivity].
        exfalso. destruct Hm as (st & Hst & Hm). congruence.
      * destruct (Hphigh _ _ Hp') as [[_ ->] | (c & _ & _ & ->)];
          [|reflexivity].
        exfalso. destruct Hm as (st & Hst & Hm). congruence.
  - (* one labelled state *)
    cbn [fst snd]. rewrite list_snoc2.
    assert (length (arr ++ [match_state]) = length arr + 1) as ->
        by (rewrite length_snoc; lia).
    assert (length (arr ++ [match_state] ++ [range_state lo hi (length arr)])
            = length arr + 2) as -> by (rewrite !length_app; simpl; lia).
    split; [|split; [apply agree_app | lia]].
    apply range_frag; [exact Hlen | | exact Hh2].
    unfold cmin, cmax, REREX_MATCH in *. lia.
Qed.

Lemma built_frame arr lo arr1 f L :
  frag arr1 lo (length arr1) f L → agree arr arr1 0 lo →
  length arr ≤ length arr1 →
  ∀ res L', built arr1 lo res L' → built arr lo res L'.
Proof.
  intros F Hag Hlen res L' (F' & Hag' & Hlen').
  split; [exact F'|]. split; [|lia].
  eapply agree_trans; eauto.
Qed.

Lemma set_automata_frag cs negated rest :
  ∀ arr lo nfa L,
    frag arr lo (length arr) nfa L → Forall range_wf rest →
    built arr lo (set_automata cs arr negated nfa rest)
          (λ w, L w ∨ ∃ r, r ∈ rest ∧ lang_class negated r w).
Proof.
  induction rest as [|r rest IH]; intros arr lo nfa L F Hwf.
  - unfold built. cbn [set_automata fst snd].
    split; [|split; [intros q Hq; reflexivity | lia]].
    eapply frag_ext; [exact F|]. intros w. split; [auto|].
    intros [? | (r & []%elem_of_nil & _)]. assumption.
  - apply Forall_cons in Hwf as [Hr Hwf]. cbn [set_automata].
    pose proof (fr_lo F) as Hlo. pose proof (fr_start_in F) as [Hs1 Hs2].
    destruct (range_automata_frag cs arr negated r) as (Fr & Hagr & Hlenr);
      [lia | exact Hr|].
    destruct (range_automata cs arr negated r.1 r.2) as [range_nfa arr1].
    cbn [fst snd] in *.
    assert (frag arr1 lo (length arr) nfa L) as F1.
    { eapply frag_agree; [exact F | | exact Hlenr].
      eapply agree_narrow; eauto; lia. }
    destruct (alternate_frag arr1 lo (length arr) nfa range_nfa _ _ F1 Fr)
      as (Fa & Haga & Hlena).
    destruct (alternate arr1 nfa range_nfa) as [nfa2 arr2].
    cbn [fst snd] in *.
    destruct (IH arr2 lo nfa2 _ Fa Hwf) as (F' & Hag' & Hlen').
    split; [|split; [|lia]].
    + eapply frag_ext; [exact F'|]. intros w. unfold lang_union. split.
      * intros [[HL | Hr'] | (r' & Hin & Hr')]; [auto | |].
        -- right. exists r. split; [left | exact Hr'].
        -- right. exists r'. split; [right; exact Hin | exact Hr'].
      * intros [HL | (r' & Hin & Hr')]; [auto|].
        apply elem_of_cons in Hin as [-> | Hin]; [auto|].
        right. exists r'. auto.
    + eapply agree_trans; [|exact Hag'].
      eapply agree_trans; [|exact Haga].
      eapply agree_narrow; [exact Hagr | lia | lia].
Qed.

(** One operand: the operator is applied to the automaton on top. *)
Lemma built_unary arr (res1 : Automata * list State) L1
    (op : list State → Automata → Automata * list State) (Lop : lang) :
  built arr (length arr) res1 L1 →
  (∀ arr1 lo f, frag arr1 lo (length arr1) f L1 →
                built arr1 lo (op arr1 f) Lop) →
  built arr (length arr) (op res1.2 res1.1) Lop.
Proof.
  intros (F1 & Hag1 & Hlen1) Hop.
  destruct (Hop _ _ _ F1) as (F & Hag & Hlen).
  split; [exact F|]. split; [|lia]. eapply agree_trans; eauto.
Qed.

(** Two operands: the second is built on top of the first. *)
Lemma built_binary arr (res1 res2 : Automata * list State) L1 L2
    (op : list State → Automata → Automata → Automata * list State)
    (Lop : lang) :
  built arr (length arr) res1 L1 →
  built res1.2 (length res1.2) res2 L2 →
  (∀ arr2 lo mid fa fb,
      frag arr2 lo mid fa L1 → frag arr2 mid (length arr2) fb L2 →
      built arr2 lo (op arr2 fa fb) Lop) →
  built arr (length arr) (op res2.2 res1.1 res2.1) Lop.
Proof.
  intros (F1 & Hag1 & Hlen1) (F2 & Hag2 & Hlen2) Hop.
  assert (frag res2.2 (length arr) (length res1.2) res1.1 L1) as F1'.
  { eapply frag_agree; [exact F1 | | exact Hlen2].
    eapply agree_narrow; eauto; lia. }
  destruct (Hop _ _ _ _ _ F1' F2) as (F & Hag & Hlen).
  split; [exact F|]. split; [|lia].
  eapply agree_trans; [|exact Hag].
  eapply agree_trans; [exact Hag1|].
  eapply agree_narrow; [exact Hag2 | lia | lia].
Qed.

(** The automaton built for a tree accepts the language of the tree. *)
Theorem build_correct cs r :
  ∀ arr, regex_wf r → 1 ≤ length arr →
         built arr (length arr) (build cs r arr) (denote r).
Proof.
  induction r as [c | | negated first rest | r IH | r IH | r IH
                  | a IHa b IHb | a IHa b IHb]; intros arr Hwf Hlen;
    cbn [build denote regex_wf] in *.
  - apply char_automata_frag; assumption.
  - unfold add_state, n_states. cbn [fst snd]. rewrite list_snoc2.
    unfold built. cbn [fst snd].
    assert (length (arr ++ [match_state]) = length arr + 1) as ->
        by (rewrite length_snoc; lia).
    assert (length (arr ++ [match_state]
                      ++ [range_state cmin cmax (length arr)])
            = length arr + 2) as -> by (rewrite !length_app; simpl; lia).
    split; [apply dot_frag; exact Hlen|].
    split; [apply agree_app | lia].
  - apply Forall_cons in Hwf as [Hfirst Hrest].
    destruct (range_automata_frag cs arr negated first Hlen Hfirst)
      as (F1 & Hag1 & Hlen1).
    destruct (range_automata cs arr negated first.1 first.2) as [nfa arr1].
    cbn [fst snd] in *.
    destruct (set_automata_frag cs negated rest arr1 (length arr) nfa _
                F1 Hrest) as (F & Hag & Hlen').
    split; [|split; [|lia]].
    + eapply frag_ext; [exact F|]. intros w. split.
      * intros [H | (r & Hin & Hr)].
        -- exists first. split; [left | exact H].
        -- exists r. split; [right; exact Hin | exact Hr].
      * intros (r & Hin & Hr).
        apply elem_of_cons in Hin as [-> | Hin]; [auto|]. right. eauto.
    + eapply agree_trans; eauto.
  - specialize (IH arr Hwf Hlen). destruct (build cs r arr) as [f arr1] eqn:E.
    apply (built_unary arr (f, arr1) _ star _ IH).
    intros. apply star_frag. assumption.
  - specialize (IH arr Hwf Hlen). destruct (build cs r arr) as [f arr1] eqn:E.
    apply (built_unary arr (f, arr1) _ plus _ IH).
    intros. apply plus_frag. assumption.
  - specialize (IH arr Hwf Hlen). destruct (build cs r arr) as [f arr1] eqn:E.
    apply (built_unary arr (f, arr1) _ question _ IH).
    intros arr2 lo f2 F2. destruct (question_frag _ _ _ _ F2) as [F' Hag'].
    split; [exact F'|]. split.
    + pose proof (fr_start_in F2) as [? ?].
      eapply agree_narrow; [exact Hag' | lia | lia].
    + unfold question, add_state. simpl. rewrite length_snoc. lia.
  - destruct Hwf as [Hwfa Hwfb].
    specialize (IHa arr Hwfa Hlen).
    destruct (build cs a arr) as [fa arr1] eqn:Ea.
    assert (1 ≤ length arr1) as Hlen1 by (destruct IHa as (_ & _ & ?); simpl in *; lia).
    specialize (IHb arr1 Hwfb Hlen1).
    destruct (build cs b arr1) as [fb arr2] eqn:Eb.
    apply (built_binary arr (fa, arr1) (fb, arr2) _ _ concatenate _ IHa IHb).
    intros arr3 lo mid fa' fb' Fa Fb.
    destruct (concatenate_frag _ _ _ _ _ _ _ Fa Fb) as (F' & Hag' & Hlen').
    split; [exact F'|]. split; [exact Hag' | lia].
  - destruct Hwf as [Hwfa Hwfb].
    specialize (IHa arr Hwfa Hlen).
    destruct (build cs a arr) as [fa arr1] eqn:Ea.
    assert (1 ≤ length arr1) as Hlen1 by (destruct IHa as (_ & _ & ?); simpl in *; lia).
    specialize (IHb arr1 Hwfb Hlen1).
    destruct (build cs b arr1) as [fb arr2] eqn:Eb.
    apply (built_binary arr (fa, arr1) (fb, arr2) _ _ alternate _ IHa IHb).
    intros arr3 lo mid fa' fb' Fa Fb.
    exact (alternate_frag arr3 lo mid fa' fb' _ _ Fa Fb).
Qed.

(** ** The parser as a function from the rest of the pattern to a tree *)

(** One step of each production. *)
Lemma parse_atom_S fuel l :
  parse_atom (S fuel) l
  = let c := hd0 l in
    if (c =? ch "(")%Z then
      match parse_expr fuel (tail l) with
      | ROk r l =>
        if negb (hd0 l =? ch ")")%Z then RErr REREX_EXPECTED_RPAREN l 0
        else ROk r (tail l)
      | e => e
      end
    else if (c =? ch ".")%Z then ROk RDot (tail l)
    else if (c =? ch "[")%Z then
      match parse_set fuel (tail l) with
      | ROk r l => ROk r (tail l)
      | e => e
      end
    else
      match parse_char l with
      | CROk c l => ROk (RChar c) l
      | CRErr st l b => RErr st l b
      end.
Proof. reflexivity. Qed.

Lemma parse_factor_S fuel l :
  parse_factor (S fuel) l
  = match parse_atom fuel l with
    | ROk r l =>
      let c := hd0 l in
      if (c =? ch "*")%Z then ROk (RStar r) (tail l)
      else if (c =? ch "+")%Z then ROk (RPlus r) (tail l)
      else if (c =? ch "?")%Z then ROk (RQuestion r) (tail l)
      else ROk r l
    | e => e
    end.
Proof. reflexivity. Qed.

Lemma parse_term_S fuel l :
  parse_term (S fuel) l
  = match parse_factor fuel l with
    | ROk a l =>
      let c := hd0 l in
      if (c =? 0)%Z || (c =? ch ")")%Z || (c =? ch "|")%Z then ROk a l
      else
        match parse_term fuel l with
        | ROk b l => ROk (RConcat a b) l
        | e => e
        end
    | e => e
    end.
Proof. reflexivity. Qed.

Lemma parse_expr_S fuel l :
  parse_expr (S fuel) l
  = match parse_term fuel l with
    | ROk a l =>
      if (hd0 l =? ch "|")%Z then
        match parse_expr fuel (tail l) with
        | ROk b l => ROk (RAlternate a b) l
        | e => e
        end
      else ROk a l
    | e => e
    end.
Proof. reflexivity. Qed.

(** *** The input at a suffix of the pattern *)

Lemma suffix_drop (str l : list Z) :
  l `suffix_of` str → drop (length str - length l) str = l.
Proof.
  intros [k ->]. rewrite length_app.
  replace (length k + length l - length l) with (length k) by lia.
  apply drop_app_length.
Qed.

Lemma suffix_tail (str l : list Z) :
  l `suffix_of` str → tail l `suffix_of` str.
Proof.
  intros [k ->]. destruct l as [|c l]; simpl.
  - exists k. reflexivity.
  - exists (k ++ [c]). rewrite <- app_assoc. reflexivity.
Qed.

Lemma peek_input_at str l :
  l `suffix_of` str → peek (input_at str l) = hd0 l.
Proof.
  intros Hs. unfold peek, input_at, hd0. simpl.
  rewrite <- (suffix_drop str l Hs) at 2. rewrite lookup_drop.
  rewrite Nat.add_0_r. reflexivity.
Qed.

Lemma peekahead_input_at str l :
  l `suffix_of` str → peekahead (input_at str l) = hd1 l.
Proof.
  intros Hs. unfold peekahead, input_at, hd1. simpl.
  rewrite <- (suffix_drop str l Hs) at 2. rewrite lookup_drop.
  reflexivity.
Qed.

Lemma hd0_nonzero l : hd0 l ≠ 0%Z → ∃ l', l = hd0 l :: l'.
Proof.
  destruct l as [|c l']; [intros H; exfalso; apply H; reflexivity|].
  intros _. exists l'. reflexivity.
Qed.

Lemma eat_input_at str l :
  l `suffix_of` str → hd0 l ≠ 0%Z →
  eat (input_at str l) = (hd0 l, input_at str (tail l)).
Proof.
  intros Hs Hnz. unfold eat. rewrite peek_input_at by exact Hs.
  f_equal. destruct (hd0_nonzero l Hnz) as [l' Hl].
  unfold input_at. simpl. f_equal.
  apply suffix_length in Hs. rewrite Hl in *. simpl in *. lia.
Qed.

(** *** [read_X] is [parse_X] followed by [build] *)

(** A guard that holds of the character under the cursor shows that it is
    not the terminator. *)
Ltac nonzero :=
  let H := fresh in
  intros H;
  match goal with
  | G : context [hd0 _] |- _ =>
    tryif constr_eq G H then fail
    else (rewrite H in G; vm_compute in G; discriminate G)
  end.

Ltac suffix_tac :=
  solve [repeat first [assumption | apply suffix_tail]].

Ltac eat_tac :=
  rewrite eat_input_at; [ | suffix_tac | solve [nonzero] ].

Ltac peek_tac :=
  repeat first [rewrite peek_input_at by suffix_tac
               | rewrite peekahead_input_at by suffix_tac].

Ltac same := cbn [lift_char lift]; rewrite ?Nat.sub_0_r; reflexivity.

Lemma read_escape_parse str l :
  l `suffix_of` str → (hd0 l =? ch "\")%Z = true →
  read_escape (input_at str l) = lift_char str (parse_escape l).
Proof.
  intros Hs Hg. unfold read_escape, parse_escape.
  eat_tac. peek_tac.
  destruct (is_special (hd0 (tail l)) || (hd0 (tail l) =? ch "-")%Z) eqn:Hc.
  - eat_tac. same.
  - same.
Qed.

Lemma read_char_parse str l :
  l `suffix_of` str →
  read_char (input_at str l) = lift_char str (parse_char l).
Proof.
  intros Hs. unfold read_char, parse_char. peek_tac.
  destruct (hd0 l =? 0)%Z eqn:H0; [same|].
  destruct (hd0 l =? ch "\")%Z eqn:H1; [apply read_escape_parse; auto|].
  destruct (is_special (hd0 l)) eqn:H2; [same|].
  destruct ((cmin <=? hd0 l)%Z && (hd0 l <=? cmax)%Z) eqn:H3; [|same].
  eat_tac. same.
Qed.

Lemma read_element_parse str l :
  l `suffix_of` str →
  read_element (input_at str l) = lift_char str (parse_element l).
Proof.
  intros Hs. unfold read_element, parse_element. peek_tac.
  destruct (hd0 l =? 0)%Z eqn:H0; [same|].
  destruct (hd0 l =? ch "]")%Z eqn:H1; [same|].
  destruct (hd0 l =? ch "\")%Z eqn:H2.
  - eat_tac. peek_tac.
    destruct (negb (hd0 (tail l) =? ch "]")%Z) eqn:H3; [same|].
    eat_tac. same.
  - destruct ((cmin <=? hd0 l)%Z && (hd0 l <=? cmax)%Z) eqn:H3; [|same].
    eat_tac. same.
Qed.

(** *** What is left of the input is a suffix of it *)

Lemma suffix_tail_self (l : list Z) : tail l `suffix_of` l.
Proof. apply suffix_tail. reflexivity. Qed.

Lemma suffix_tail2 (l : list Z) : tail (tail l) `suffix_of` l.
Proof. apply suffix_tail, suffix_tail. reflexivity. Qed.

Lemma parse_escape_suffix l : pchar_rest (parse_escape l) `suffix_of` l.
Proof.
  unfold parse_escape. destruct (_ || _); simpl;
    auto using suffix_tail_self, suffix_tail2.
Qed.

Lemma parse_char_suffix l : pchar_rest (parse_char l) `suffix_of` l.
Proof.
  unfold parse_char.
  repeat (destruct (_ : bool); simpl;
          auto using suffix_tail_self, parse_escape_suffix).
Qed.

Lemma parse_element_suffix l : pchar_rest (parse_element l) `suffix_of` l.
Proof.
  unfold parse_element.
  repeat (destruct (_ : bool); simpl;
          auto using suffix_tail_self, suffix_tail2).
Qed.

Lemma parse_range_suffix l : presult_suffix (parse_range l) l.
Proof.
  unfold parse_range.
  pose proof (parse_element_suffix l) as H1.
  destruct (parse_element l) as [min l1 | st l1 b]; simpl in *; [|exact H1].
  destruct (_ && _).
  - pose proof (parse_element_suffix (tail l1)) as H2.
    assert (tail l1 `suffix_of` l) as H3
        by (apply suffix_tail; exact H1).
    destruct (parse_element (tail l1)) as [max l2 | st l2 b]; simpl in *.
    + destruct (max <? min)%Z; simpl; etrans; eauto.
    + etrans; eauto.
  - destruct (min <? min)%Z; simpl; exact H1.
Qed.

Lemma parse_set_loop_suffix fuel :
  ∀ l, presult_suffix (parse_set_loop fuel l) l.
Proof.
  induction fuel as [|fuel IH]; intros l; cbn [parse_set_loop];
    (destruct (hd0 l =? ch "]")%Z; [simpl; reflexivity|]); [exact I|].
  pose proof (parse_range_suffix l) as H1.
  destruct (parse_range l) as [r l1 | st l1 b |]; simpl in *; auto.
  specialize (IH l1).
  destruct (parse_set_loop fuel l1) as [rest l2 | st l2 b |]; simpl in *;
    auto; etrans; eauto.
Qed.

Lemma parse_set_suffix fuel l : presult_suffix (parse_set fuel l) l.
Proof.
  unfold parse_set.
  assert (∀ l0, l0 `suffix_of` l →
            presult_suffix
              (match parse_range l0 with
               | ROk first l1 =>
                 match parse_set_loop fuel l1 with
                 | ROk rest l2 => ROk (RSet true first rest) l2
                 | RErr st l2 b => RErr st l2 b
                 | RFuel => RFuel
                 end
               | RErr st l1 b => RErr st l1 b
               | RFuel => RFuel
               end) l) as Hgen.
  { intros l0 H0. pose proof (parse_range_suffix l0) as H1.
    destruct (parse_range l0) as [r l1 | st l1 b |]; simpl in *; auto;
      [|etrans; eauto].
    pose proof (parse_set_loop_suffix fuel l1) as H2.
    destruct (parse_set_loop fuel l1) as [rest l2 | st l2 b |]; simpl in *;
      auto; etrans; eauto; etrans; eauto. }
  destruct (hd0 l =? ch "^")%Z.
  - apply Hgen. apply suffix_tail_self.
  - specialize (Hgen l (reflexivity _)).
    destruct (parse_range l) as [r l1 | st l1 b |]; simpl in *; auto.
    destruct (parse_set_loop fuel l1); simpl in *; auto.
Qed.

(** What the productions leave is a suffix of what they were given. *)
Lemma parse_suffix fuel :
  ∀ l, presult_suffix (parse_atom fuel l) l
       ∧ presult_suffix (parse_factor fuel l) l
       ∧ presult_suffix (parse_term fuel l) l
       ∧ presult_suffix (parse_expr fuel l) l.
Proof.
  induction fuel as [|fuel IH]; intros l; [simpl; auto|].
  assert (∀ l, presult_suffix (parse_atom fuel l) l) as IHa by apply IH.
  assert (∀ l, presult_suffix (parse_factor fuel l) l) as IHf by apply IH.
  assert (∀ l, presult_suffix (parse_term fuel l) l) as IHt by apply IH.
  assert (∀ l, presult_suffix (parse_expr fuel l) l) as IHe by apply IH.
  clear IH. repeat split.
  - cbn [parse_atom].
    destruct (hd0 l =? ch "(")%Z.
    { specialize (IHe (tail l)).
      destruct (parse_expr fuel (tail l)) as [r l1 | st l1 b |];
        simpl in *; auto.
      - destruct (negb _); simpl;
          [|apply suffix_tail]; etrans; eauto using suffix_tail_self.
      - etrans; eauto using suffix_tail_self. }
    destruct (hd0 l =? ch ".")%Z; [simpl; apply suffix_tail_self|].
    destruct (hd0 l =? ch "[")%Z.
    { pose proof (parse_set_suffix fuel (tail l)) as H.
      destruct (parse_set fuel (tail l)) as [r l1 | st l1 b |];
        simpl in *; auto.
      - apply suffix_tail. etrans; eauto using suffix_tail_self.
      - etrans; eauto using suffix_tail_self. }
    pose proof (parse_char_suffix l) as H.
    destruct (parse_char l); simpl in *; auto.
  - cbn [parse_factor]. specialize (IHa l).
    destruct (parse_atom fuel l) as [r l1 | st l1 b |]; simpl in *; auto.
    repeat (destruct (_ : bool); simpl; auto using suffix_tail).
  - cbn [parse_term]. specialize (IHf l).
    destruct (parse_factor fuel l) as [r l1 | st l1 b |]; simpl in *; auto.
    destruct (_ || _); simpl; auto.
    specialize (IHt l1).
    destruct (parse_term fuel l1) as [r2 l2 | st l2 b |]; simpl in *;
      auto; etrans; eauto.
  - cbn [parse_expr]. specialize (IHt l).
    destruct (parse_term fuel l) as [r l1 | st l1 b |]; simpl in *; auto.
    destruct (hd0 l1 =? ch "|")%Z; simpl; auto.
    specialize (IHe (tail l1)).
    destruct (parse_expr fuel (tail l1)) as [r2 l2 | st l2 b |];
      simpl in *; auto;
      (etrans; [eassumption|]); apply suffix_tail; assumption.
Qed.

(** A set is left at its closing bracket. *)
Lemma parse_set_loop_rbracket fuel :
  ∀ l rest l', parse_set_loop fuel l = ROk rest l' →
               (hd0 l' =? ch "]")%Z = true.
Proof.
  induction fuel as [|fuel IH]; intros l rest l'; cbn [parse_set_loop];
    (destruct (hd0 l =? ch "]")%Z eqn:Hg; [intros [= <- <-]; exact Hg|]);
    [discriminate|].
  destruct (parse_range l) as [r l1 | |]; try discriminate.
  destruct (parse_set_loop fuel l1) as [rest1 l2 | |] eqn:E;
    try discriminate.
  intros [= <- <-]. eapply IH; eauto.
Qed.

Lemma parse_set_rbracket fuel l r l' :
  parse_set fuel l = ROk r l' → (hd0 l' =? ch "]")%Z = true.
Proof.
  unfold parse_set. destruct (hd0 l =? ch "^")%Z.
  - destruct (parse_range (tail l)) as [first l1 | |]; try discriminate.
    destruct (parse_set_loop fuel l1) as [rest l2 | |] eqn:E;
      try discriminate.
    intros [= <- <-]. eapply parse_set_loop_rbracket; eauto.
  - destruct (parse_range l) as [first l1 | |]; try discriminate.
    destruct (parse_set_loop fuel l1) as [rest l2 | |] eqn:E;
      try discriminate.
    intros [= <- <-]. eapply parse_set_loop_rbracket; eauto.
Qed.

Section Refine.

Variable cs : bool.

Lemma read_range_parse str l arr negated :
  l `suffix_of` str →
  read_range cs (input_at str l) arr negated
  = lift (λ r arr, range_automata cs arr negated r.1 r.2) str arr
         (parse_range l).
Proof.
  intros Hs. unfold read_range, parse_range.
  rewrite read_element_parse by exact Hs.
  pose proof (parse_element_suffix l) as H1.
  destruct (parse_element l) as [min l1 | st l1 b]; simpl in H1;
    cbn [lift_char]; [|same].
  assert (l1 `suffix_of` str) as Hs1 by (etrans; eauto).
  peek_tac.
  destruct ((hd0 l1 =? ch "-")%Z && negb (hd1 l1 =? ch "]")%Z) eqn:Hg.
  - apply andb_true_iff in Hg as [Hg1 Hg2].
    eat_tac. rewrite read_element_parse by suffix_tac.
    destruct (parse_element (tail l1)) as [max l2 | st l2 b];
      cbn [lift_char]; [|same].
    destruct (max <? min)%Z; [same|]. cbn [lift fst snd].
    destruct (range_automata cs arr negated min max). reflexivity.
  - destruct (min <? min)%Z; [same|]. cbn [lift fst snd].
    destruct (range_automata cs arr negated min min). reflexivity.
Qed.

Lemma read_set_loop_parse fuel :
  ∀ str l arr negated nfa,
    l `suffix_of` str →
    read_set_loop cs fuel (input_at str l) arr negated nfa
    = lift (λ rest arr, set_automata cs arr negated nfa rest) str arr
           (parse_set_loop fuel l).
Proof.
  induction fuel as [|fuel IH]; intros str l arr negated nfa Hs;
    cbn [read_set_loop parse_set_loop]; peek_tac;
    (destruct (hd0 l =? ch "]")%Z; [reflexivity|]); [reflexivity|].
  rewrite read_range_parse by exact Hs.
  pose proof (parse_range_suffix l) as H1.
  destruct (parse_range l) as [r l1 | st l1 b |]; simpl in H1;
    cbn [lift]; [|same|reflexivity].
  destruct (range_automata cs arr negated r.1 r.2) as [range_nfa arr1]
    eqn:Er.
  destruct (alternate arr1 nfa range_nfa) as [nfa2 arr2] eqn:Ea.
  rewrite IH by (etrans; eauto).
  destruct (parse_set_loop fuel l1) as [rest l2 | st l2 b |]; cbn [lift];
    [|same|reflexivity].
  cbn [set_automata]. rewrite Er, Ea. reflexivity.
Qed.

Lemma read_set_parse fuel str l arr :
  l `suffix_of` str →
  read_set cs fuel (input_at str l) arr
  = lift (build cs) str arr (parse_set fuel l).
Proof.
  intros Hs. unfold read_set, parse_set. peek_tac.
  assert (∀ negated l0, l0 `suffix_of` str →
    match read_range cs (input_at str l0) arr negated with
    | POk nfa input states => read_set_loop cs fuel input states negated nfa
    | e => e
    end
    = lift (build cs) str arr
        match parse_range l0 with
        | ROk first l1 =>
          match parse_set_loop fuel l1 with
          | ROk rest l2 => ROk (RSet negated first rest) l2
          | RErr st l2 b => RErr st l2 b
          | RFuel => RFuel
          end
        | RErr st l1 b => RErr st l1 b
        | RFuel => RFuel
        end) as Hgen.
  { intros negated l0 H0. rewrite read_range_parse by exact H0.
    pose proof (parse_range_suffix l0) as H1.
    destruct (parse_range l0) as [r l1 | st l1 b |]; simpl in H1;
      cbn [lift]; [|same|reflexivity].
    destruct (range_automata cs arr negated r.1 r.2) as [nfa arr1] eqn:Er.
    rewrite read_set_loop_parse by (etrans; eauto).
    destruct (parse_set_loop fuel l1) as [rest l2 | st l2 b |]; cbn [lift];
      [|same|reflexivity].
    cbn [build]. rewrite Er. reflexivity. }
  destruct (hd0 l =? ch "^")%Z eqn:Hg.
  - eat_tac. cbn [snd]. apply Hgen. suffix_tac.
  - apply Hgen. exact Hs.
Qed.

Section Step.

Variable fuel : nat.

Hypothesis IHatom : ∀ str l arr, l `suffix_of` str →
  read_atom cs fuel (input_at str l) arr
  = lift (build cs) str arr (parse_atom fuel l).
Hypothesis IHfactor : ∀ str l arr, l `suffix_of` str →
  read_factor cs fuel (input_at str l) arr
  = lift (build cs) str arr (parse_factor fuel l).
Hypothesis IHterm : ∀ str l arr, l `suffix_of` str →
  read_term cs fuel (input_at str l) arr
  = lift (build cs) str arr (parse_term fuel l).
Hypothesis IHexpr : ∀ str l arr, l `suffix_of` str →
  read_expr cs fuel (input_at str l) arr
  = lift (build cs) str arr (parse_expr fuel l).

Lemma read_atom_step str l arr :
  l `suffix_of` str →
  read_atom cs (S fuel) (input_at str l) arr
  = lift (build cs) str arr (parse_atom (S fuel) l).
Proof using All.
  intros Hs. cbn [read_atom parse_atom]. peek_tac.
  destruct (hd0 l =? ch "(")%Z eqn:H1.
  { eat_tac. rewrite IHexpr by suffix_tac.
    destruct (parse_suffix fuel (tail l)) as (_ & _ & _ & H).
    destruct (parse_expr fuel (tail l)) as [r l1 | st l1 b |]; simpl in H;
      cbn [lift]; [|same|reflexivity].
    assert (l1 `suffix_of` str) as Hs1
        by (etrans; [exact H | suffix_tac]).
    destruct (build cs r arr) as [nfa arr1] eqn:Eb. peek_tac.
    destruct (negb (hd0 l1 =? ch ")")%Z) eqn:H2; [same|].
    eat_tac. cbn [lift]. rewrite Eb. reflexivity. }
  destruct (hd0 l =? ch ".")%Z eqn:H2.
  { unfold read_dot. eat_tac. reflexivity. }
  destruct (hd0 l =? ch "[")%Z eqn:H3.
  { eat_tac. rewrite read_set_parse by suffix_tac.
    pose proof (parse_set_suffix fuel (tail l)) as H.
    destruct (parse_set fuel (tail l)) as [r l1 | st l1 b |] eqn:E;
      simpl in H; cbn [lift]; [|same|reflexivity].
    assert (l1 `suffix_of` str) as Hs1
        by (etrans; [exact H | suffix_tac]).
    destruct (build cs r arr) as [nfa arr1] eqn:Eb.
    assert ((hd0 l1 =? ch "]")%Z = true) as Hrb
        by (eapply parse_set_rbracket; eauto).
    eat_tac. reflexivity. }
  rewrite read_char_parse by exact Hs.
  destruct (parse_char l) as [c l1 | st l1 b]; cbn [lift_char lift build];
    [|same].
  destruct (char_automata arr c). reflexivity.
Qed.

Lemma read_factor_step str l arr :
  l `suffix_of` str →
  read_factor cs (S fuel) (input_at str l) arr
  = lift (build cs) str arr (parse_factor (S fuel) l).
Proof using All.
  intros Hs. cbn [read_factor parse_factor]. rewrite IHatom by exact Hs.
  destruct (parse_suffix fuel l) as (H & _).
  destruct (parse_atom fuel l) as [r l1 | st l1 b |]; simpl in H;
    cbn [lift]; [|same|reflexivity].
  assert (l1 `suffix_of` str) as Hs1 by (etrans; eauto).
  destruct (build cs r arr) as [nfa arr1] eqn:Eb. peek_tac.
  destruct (hd0 l1 =? ch "*")%Z eqn:H1.
  { eat_tac. cbn [lift build]. rewrite Eb. reflexivity. }
  destruct (hd0 l1 =? ch "+")%Z eqn:H2.
  { eat_tac. cbn [lift build]. rewrite Eb. reflexivity. }
  destruct (hd0 l1 =? ch "?")%Z eqn:H3.
  { eat_tac. cbn [lift build]. rewrite Eb. reflexivity. }
  cbn [lift]. rewrite Eb. reflexivity.
Qed.

Lemma read_term_step str l arr :
  l `suffix_of` str →
  read_term cs (S fuel) (input_at str l) arr
  = lift (build cs) str arr (parse_term (S fuel) l).
Proof using All.
  intros Hs. cbn [read_term parse_term]. rewrite IHfactor by exact Hs.
  destruct (parse_suffix fuel l) as (_ & H & _).
  destruct (parse_factor fuel l) as [r l1 | st l1 b |]; simpl in H;
    cbn [lift]; [|same|reflexivity].
  assert (l1 `suffix_of` str) as Hs1 by (etrans; eauto).
  destruct (build cs r arr) as [nfa arr1] eqn:Eb. peek_tac.
  destruct ((hd0 l1 =? 0)%Z || (hd0 l1 =? ch ")")%Z
            || (hd0 l1 =? ch "|")%Z) eqn:H1.
  { cbn [lift]. rewrite Eb. reflexivity. }
  rewrite IHterm by exact Hs1.
  destruct (parse_term fuel l1) as [r2 l2 | st l2 b |]; cbn [lift];
    [|same|reflexivity].
  cbn [build]. rewrite Eb.
  destruct (build cs r2 arr1) as [nfa2 arr2].
  destruct (concatenate arr2 nfa nfa2). reflexivity.
Qed.

Lemma read_expr_step str l arr :
  l `suffix_of` str →
  read_expr cs (S fuel) (input_at str l) arr
  = lift (build cs) str arr (parse_expr (S fuel) l).
Proof using All.
  intros Hs. cbn [read_expr parse_expr]. rewrite IHterm by exact Hs.
  destruct (parse_suffix fuel l) as (_ & _ & H & _).
  destruct (parse_term fuel l) as [r l1 | st l1 b |]; simpl in H;
    cbn [lift]; [|same|reflexivity].
  assert (l1 `suffix_of` str) as Hs1 by (etrans; eauto).
  destruct (build cs r arr) as [nfa arr1] eqn:Eb. peek_tac.
  destruct (hd0 l1 =? ch "|")%Z eqn:H1.
  - eat_tac. rewrite IHexpr by suffix_tac.
    destruct (parse_expr fuel (tail l1)) as [r2 l2 | st l2 b |]; cbn [lift];
      [|same|reflexivity].
    cbn [build]. rewrite Eb.
    destruct (build cs r2 arr1) as [nfa2 arr2].
    destruct (alternate arr2 nfa nfa2). reflexivity.
  - cbn [lift]. rewrite Eb. reflexivity.
Qed.

End Step.

(** The parser of the source is the parser to trees followed by the
    builder. *)
Theorem read_parse fuel :
  ∀ str l arr, l `suffix_of` str →
    read_atom cs fuel (input_at str l) arr
    = lift (build cs) str arr (parse_atom fuel l)
    ∧ read_factor cs fuel (input_at str l) arr
      = lift (build cs) str arr (parse_factor fuel l)
    ∧ read_term cs fuel (input_at str l) arr
      = lift (build cs) str arr (parse_term fuel l)
    ∧ read_expr cs fuel (input_at str l) arr
      = lift (build cs) str arr (parse_expr fuel l).
Proof.
  induction fuel as [|fuel IH]; intros str l arr Hs.
  - repeat split; reflexivity.
  - assert (∀ str l arr, l `suffix_of` str →
              read_atom cs fuel (input_at str l) arr
              = lift (build cs) str arr (parse_atom fuel l)) as IHa
        by (intros; apply IH; assumption).
    assert (∀ str l arr, l `suffix_of` str →
              read_factor cs fuel (input_at str l) arr
              = lift (build cs) str arr (parse_factor fuel l)) as IHf
        by (intros; apply IH; assumption).
    assert (∀ str l arr, l `suffix_of` str →
              read_term cs fuel (input_at str l) arr
              = lift (build cs) str arr (parse_term fuel l)) as IHt
        by (intros; apply IH; assumption).
    assert (∀ str l arr, l `suffix_of` str →
              read_expr cs fuel (input_at str l) arr
              = lift (build cs) str arr (parse_expr fuel l)) as IHe
        by (intros; apply IH; assumption).
    split; [apply read_atom_step; auto|].
    split; [apply read_factor_step; auto|].
    split; [apply read_term_step; auto | apply read_expr_step; auto].
Qed.

End Refine.

(** *** More fuel does not change a result *)

Lemma parse_set_loop_S fuel l :
  parse_set_loop (S fuel) l
  = if (hd0 l =? ch "]")%Z then ROk [] l
    else match parse_range l with
         | ROk r l =>
           match parse_set_loop fuel l with
           | ROk rest l => ROk (r :: rest) l
           | e => e
           end
         | RErr st l b => RErr st l b
         | RFuel => RFuel
         end.
Proof. reflexivity. Qed.

Lemma parse_set_loop_mono fuel :
  ∀ l, settled (parse_set_loop fuel l) →
       parse_set_loop (S fuel) l = parse_set_loop fuel l.
Proof.
  induction fuel as [|fuel IH]; intros l.
  - cbn [parse_set_loop]. destruct (hd0 l =? ch "]")%Z; [reflexivity|].
    intros H. exfalso. apply H. reflexivity.
  - intros H. rewrite (parse_set_loop_S fuel l) in H.
    rewrite (parse_set_loop_S (S fuel) l), (parse_set_loop_S fuel l).
    destruct (hd0 l =? ch "]")%Z; [reflexivity|].
    destruct (parse_range l) as [r l1 | st l1 b |]; try reflexivity.
    destruct (parse_set_loop fuel l1) as [rest l2 | st l2 b |] eqn:E;
      [| |exfalso; apply H; reflexivity];
      rewrite (IH l1) by (rewrite E; discriminate); rewrite E;
      reflexivity.
Qed.

Lemma parse_set_mono fuel l :
  settled (parse_set fuel l) → parse_set (S fuel) l = parse_set fuel l.
Proof.
  unfold parse_set. destruct (if (hd0 l =? ch "^")%Z then _ else _)
    as [negated l0].
  destruct (parse_range l0) as [first l1 | st l1 b |]; try reflexivity.
  intros H.
  destruct (parse_set_loop fuel l1) as [rest l2 | st l2 b |] eqn:E.
  - rewrite parse_set_loop_mono by (rewrite E; discriminate).
    rewrite E. reflexivity.
  - rewrite parse_set_loop_mono by (rewrite E; discriminate).
    rewrite E. reflexivity.
  - exfalso. apply H. reflexivity.
Qed.

(** One more level of recursion does not change a result. *)
Lemma parse_mono fuel :
  ∀ l,
    (settled (parse_atom fuel l) →
     parse_atom (S fuel) l = parse_atom fuel l)
    ∧ (settled (parse_factor fuel l) →
       parse_factor (S fuel) l = parse_factor fuel l)
    ∧ (settled (parse_term fuel l) →
       parse_term (S fuel) l = parse_term fuel l)
    ∧ (settled (parse_expr fuel l) →
       parse_expr (S fuel) l = parse_expr fuel l).
Proof.
  induction fuel as [|fuel IH]; intros l.
  { repeat split; intros H; exfalso; apply H; reflexivity. }
  assert (∀ l, settled (parse_atom fuel l) →
               parse_atom (S fuel) l = parse_atom fuel l) as IHa
      by (intros; apply IH; assumption).
  assert (∀ l, settled (parse_factor fuel l) →
               parse_factor (S fuel) l = parse_factor fuel l) as IHf
      by (intros; apply IH; assumption).
  assert (∀ l, settled (parse_term fuel l) →
               parse_term (S fuel) l = parse_term fuel l) as IHt
      by (intros; apply IH; assumption).
  assert (∀ l, settled (parse_expr fuel l) →
               parse_expr (S fuel) l = parse_expr fuel l) as IHe
      by (intros; apply IH; assumption).
  clear IH. repeat split; intros H.
  - rewrite (parse_atom_S fuel l) in H. cbn zeta in H.
    rewrite (parse_atom_S (S fuel) l), (parse_atom_S fuel l). cbn zeta.
    destruct (hd0 l =? ch "(")%Z.
    { destruct (parse_expr fuel (tail l)) as [r l1 | st l1 b |] eqn:E;
        [| |exfalso; apply H; reflexivity];
        rewrite IHe by (rewrite E; discriminate); rewrite E; reflexivity. }
    destruct (hd0 l =? ch ".")%Z; [reflexivity|].
    destruct (hd0 l =? ch "[")%Z; [|reflexivity].
    destruct (parse_set fuel (tail l)) as [r l1 | st l1 b |] eqn:E;
      [| |exfalso; apply H; reflexivity];
      rewrite parse_set_mono by (rewrite E; discriminate); rewrite E;
      reflexivity.
  - rewrite (parse_factor_S fuel l) in H. cbn zeta in H.
    rewrite (parse_factor_S (S fuel) l), (parse_factor_S fuel l).
    destruct (parse_atom fuel l) as [r l1 | st l1 b |] eqn:E;
      [| |exfalso; apply H; reflexivity];
      rewrite IHa by (rewrite E; discriminate); rewrite E; reflexivity.
  - rewrite (parse_term_S fuel l) in H. cbn zeta in H.
    rewrite (parse_term_S (S fuel) l), (parse_term_S fuel l). cbn zeta.
    destruct (parse_factor fuel l) as [r l1 | st l1 b |] eqn:E;
      [| |exfalso; apply H; reflexivity];
      rewrite IHf by (rewrite E; discriminate); rewrite E;
      [|reflexivity].
    destruct (_ || _); [reflexivity|].
    destruct (parse_term fuel l1) as [r2 l2 | st l2 b |] eqn:E2;
      [| |exfalso; apply H; reflexivity];
      rewrite IHt by (rewrite E2; discriminate); rewrite E2; reflexivity.
  - rewrite (parse_expr_S fuel l) in H. cbn zeta in H.
    rewrite (parse_expr_S (S fuel) l), (parse_expr_S fuel l).
    destruct (parse_term fuel l) as [r l1 | st l1 b |] eqn:E;
      [| |exfalso; apply H; reflexivity];
      rewrite IHt by (rewrite E; discriminate); rewrite E;
      [|reflexivity].
    destruct (hd0 l1 =? ch "|")%Z; [|reflexivity].
    destruct (parse_expr fuel (tail l1)) as [r2 l2 | st l2 b |] eqn:E2;
      [| |exfalso; apply H; reflexivity];
      rewrite IHe by (rewrite E2; discriminate); rewrite E2; reflexivity.
Qed.

Lemma parse_expr_mono fuel fuel' l :
  settled (parse_expr fuel l) → fuel ≤ fuel' →
  parse_expr fuel' l = parse_expr fuel l.
Proof.
  intros H Hle. induction Hle as [|fuel' Hle IH]; [reflexivity|].
  rewrite <- IH. apply parse_mono. rewrite IH. exact H.
Qed.

Lemma parse_term_mono fuel fuel' l :
  settled (parse_term fuel l) → fuel ≤ fuel' →
  parse_term fuel' l = parse_term fuel l.
Proof.
  intros H Hle. induction Hle as [|fuel' Hle IH]; [reflexivity|].
  rewrite <- IH. apply parse_mono. rewrite IH. exact H.
Qed.

Lemma parse_factor_mono fuel fuel' l :
  settled (parse_factor fuel l) → fuel ≤ fuel' →
  parse_factor fuel' l = parse_factor fuel l.
Proof.
  intros H Hle. induction Hle as [|fuel' Hle IH]; [reflexivity|].
  rewrite <- IH. apply parse_mono. rewrite IH. exact H.
Qed.

(** *** Every success consumes input, so the fuel suffices *)

Lemma length_tail_nonzero (l : list Z) :
  hd0 l ≠ 0%Z → S (length (tail l)) = length l.
Proof.
  intros H. destruct (hd0_nonzero l H) as [l' ->]. reflexivity.
Qed.

Lemma length_tail_le (l : list Z) : length (tail l) ≤ length l.
Proof. destruct l; simpl; lia. Qed.

Lemma parse_char_shorter l c l' :
  parse_char l = CROk c l' → length l' < length l.
Proof.
  unfold parse_char, parse_escape.
  destruct (hd0 l =? 0)%Z eqn:H0; [discriminate|].
  assert (hd0 l ≠ 0%Z) as Hnz by (apply Z.eqb_neq; exact H0).
  pose proof (length_tail_nonzero l Hnz).
  pose proof (length_tail_le (tail l)).
  destruct (hd0 l =? ch "\")%Z.
  { destruct (_ || _); [|discriminate]. intros [= <- <-]. lia. }
  destruct (is_special (hd0 l)); [discriminate|].
  destruct (_ && _); [|discriminate]. intros [= <- <-]. lia.
Qed.

Lemma parse_element_shorter l c l' :
  parse_element l = CROk c l' → length l' < length l.
Proof.
  unfold parse_element.
  destruct (hd0 l =? 0)%Z eqn:H0; [discriminate|].
  assert (hd0 l ≠ 0%Z) as Hnz by (apply Z.eqb_neq; exact H0).
  pose proof (length_tail_nonzero l Hnz).
  pose proof (length_tail_le (tail l)).
  destruct (hd0 l =? ch "]")%Z; [discriminate|].
  destruct (hd0 l =? ch "\")%Z.
  { destruct (negb _); [discriminate|]. intros [= <- <-]. lia. }
  destruct (_ && _); [|discriminate]. intros [= <- <-]. lia.
Qed.

Lemma parse_range_shorter l : shorter (parse_range l) l.
Proof.
  unfold parse_range.
  destruct (parse_element l) as [min l1 | st l1 b] eqn:E1; [|exact I].
  apply parse_element_shorter in E1.
  destruct (_ && _).
  - destruct (parse_element (tail l1)) as [max l2 | st l2 b] eqn:E2;
      [|exact I].
    apply parse_element_shorter in E2.
    pose proof (length_tail_le l1).
    destruct (max <? min)%Z; simpl; [exact I | lia].
  - destruct (min <? min)%Z; simpl; [exact I | lia].
Qed.

Lemma parse_range_settled l : settled (parse_range l).
Proof.
  unfold settled, parse_range.
  destruct (parse_element l) as [min l1 | st l1 b]; [|discriminate].
  destruct (_ && _).
  - destruct (parse_element (tail l1)) as [max l2 | st l2 b];
      [|discriminate].
    destruct (max <? min)%Z; discriminate.
  - destruct (min <? min)%Z; discriminate.
Qed.

Lemma parse_set_loop_settled fuel :
  ∀ l, length l < fuel → settled (parse_set_loop fuel l).
Proof.
  unfold settled.
  induction fuel as [|fuel IH]; intros l Hlen; [lia|].
  rewrite parse_set_loop_S.
  destruct (hd0 l =? ch "]")%Z; [discriminate|].
  pose proof (parse_range_shorter l) as Hs.
  pose proof (parse_range_settled l) as Hr.
  destruct (parse_range l) as [r l1 | st l1 b |]; simpl in Hs;
    [|discriminate|done].
  specialize (IH l1 ltac:(lia)).
  destruct (parse_set_loop fuel l1); [discriminate | discriminate | done].
Qed.

Lemma parse_set_settled fuel l :
  length l < fuel → settled (parse_set fuel l).
Proof.
  intros Hlen. unfold parse_set, settled.
  pose proof (length_tail_le l).
  assert (length (if (hd0 l =? ch "^")%Z then (true, tail l)
                  else (false, l)).2 ≤ length l) as Hle
      by (destruct (hd0 l =? ch "^")%Z; simpl; lia).
  destruct (if (hd0 l =? ch "^")%Z then _ else _) as [negated l0].
  simpl in Hle.
  pose proof (parse_range_shorter l0) as Hs.
  pose proof (parse_range_settled l0) as Hr.
  destruct (parse_range l0) as [r l1 | st l1 b |]; simpl in Hs;
    [|discriminate|done].
  pose proof (parse_set_loop_settled fuel l1 ltac:(lia)) as Hl.
  destruct (parse_set_loop fuel l1); [discriminate | discriminate | done].
Qed.

Lemma parse_shorter fuel :
  ∀ l, shorter (parse_atom fuel l) l ∧ shorter (parse_factor fuel l) l
       ∧ shorter (parse_term fuel l) l ∧ shorter (parse_expr fuel l) l.
Proof.
  induction fuel as [|fuel IH]; intros l; [simpl; auto|].
  assert (∀ l, shorter (parse_atom fuel l) l) as IHa by apply IH.
  assert (∀ l, shorter (parse_factor fuel l) l) as IHf by apply IH.
  assert (∀ l, shorter (parse_term fuel l) l) as IHt by apply IH.
  assert (∀ l, shorter (parse_expr fuel l) l) as IHe by apply IH.
  clear IH. pose proof (length_tail_le l) as Htl. repeat split.
  - rewrite parse_atom_S. cbn zeta.
    destruct (hd0 l =? ch "(")%Z.
    { specialize (IHe (tail l)).
      destruct (parse_expr fuel (tail l)) as [r l1 | |]; simpl in *; auto.
      pose proof (length_tail_le l1).
      destruct (negb _); simpl; [exact I | lia]. }
    destruct (hd0 l =? ch ".")%Z eqn:Hd.
    { simpl. rewrite <- (length_tail_nonzero l); [lia|].
      intros H0. rewrite H0 in Hd. discriminate. }
    destruct (hd0 l =? ch "[")%Z eqn:Hb.
    { pose proof (parse_set_suffix fuel (tail l)) as Hs.
      destruct (parse_set fuel (tail l)) as [r l1 | |]; simpl in *; auto.
      apply suffix_length in Hs. pose proof (length_tail_le l1).
      rewrite <- (length_tail_nonzero l); [lia|].
      intros H0. rewrite H0 in Hb. discriminate. }
    destruct (parse_char l) as [c l1 | st l1 b] eqn:E; simpl; [|exact I].
    eapply parse_char_shorter; eauto.
  - rewrite parse_factor_S. specialize (IHa l).
    destruct (parse_atom fuel l) as [r l1 | |]; simpl in *; auto.
    pose proof (length_tail_le l1).
    destruct (hd0 l1 =? ch "*")%Z; [simpl; lia|].
    destruct (hd0 l1 =? ch "+")%Z; [simpl; lia|].
    destruct (hd0 l1 =? ch "?")%Z; simpl; lia.
  - rewrite parse_term_S. specialize (IHf l).
    destruct (parse_factor fuel l) as [r l1 | |]; simpl in *; auto.
    destruct (_ || _); simpl; [lia|].
    specialize (IHt l1).
    destruct (parse_term fuel l1) as [r2 l2 | |]; simpl in *; auto. lia.
  - rewrite parse_expr_S. specialize (IHt l).
    destruct (parse_term fuel l) as [r l1 | |]; simpl in *; auto.
    destruct (hd0 l1 =? ch "|")%Z; simpl; [|lia].
    specialize (IHe (tail l1)). pose proof (length_tail_le l1).
    destruct (parse_expr fuel (tail l1)) as [r2 l2 | |]; simpl in *; auto.
    lia.
Qed.

(** The recursion bound of [rerex_compile] is never met. *)
Lemma parse_settled fuel :
  ∀ l,
    (4 * length l + 1 ≤ fuel → settled (parse_atom fuel l))
    ∧ (4 * length l + 2 ≤ fuel → settled (parse_factor fuel l))
    ∧ (4 * length l + 3 ≤ fuel → settled (parse_term fuel l))
    ∧ (4 * length l + 4 ≤ fuel → settled (parse_expr fuel l)).
Proof.
  unfold settled.
  induction fuel as [|fuel IH]; intros l; [repeat split; lia|].
  assert (∀ l, 4 * length l + 1 ≤ fuel → settled (parse_atom fuel l))
    as IHa by (intros; apply IH; assumption).
  assert (∀ l, 4 * length l + 2 ≤ fuel → settled (parse_factor fuel l))
    as IHf by (intros; apply IH; assumption).
  assert (∀ l, 4 * length l + 3 ≤ fuel → settled (parse_term fuel l))
    as IHt by (intros; apply IH; assumption).
  assert (∀ l, 4 * length l + 4 ≤ fuel → settled (parse_expr fuel l))
    as IHe by (intros; apply IH; assumption).
  clear IH. unfold settled in *. repeat split; intros Hf.
  - rewrite parse_atom_S. cbn zeta.
    destruct (hd0 l =? ch "(")%Z eqn:Hp.
    { assert (hd0 l ≠ 0%Z) as Hnz
          by (intros H0; rewrite H0 in Hp; discriminate).
      pose proof (length_tail_nonzero l Hnz).
      specialize (IHe (tail l) ltac:(lia)).
      destruct (parse_expr fuel (tail l)); [|discriminate|done].
      destruct (negb _); discriminate. }
    destruct (hd0 l =? ch ".")%Z; [discriminate|].
    destruct (hd0 l =? ch "[")%Z eqn:Hb.
    { assert (hd0 l ≠ 0%Z) as Hnz
          by (intros H0; rewrite H0 in Hb; discriminate).
      pose proof (length_tail_nonzero l Hnz).
      pose proof (parse_set_settled fuel (tail l) ltac:(lia)) as Hs.
      destruct (parse_set fuel (tail l)); [discriminate|discriminate|done]. }
    destruct (parse_char l); discriminate.
  - rewrite parse_factor_S. specialize (IHa l ltac:(lia)).
    destruct (parse_atom fuel l); [|discriminate|done].
    cbn zeta.
    destruct (hd0 _ =? ch "*")%Z; [discriminate|].
    destruct (hd0 _ =? ch "+")%Z; [discriminate|].
    destruct (hd0 _ =? ch "?")%Z; discriminate.
  - rewrite parse_term_S. specialize (IHf l ltac:(lia)).
    destruct (parse_shorter fuel l) as (_ & Hs & _).
    destruct (parse_factor fuel l) as [r l1 | |]; [|discriminate|done].
    simpl in Hs. cbn zeta. destruct (_ || _); [discriminate|].
    specialize (IHt l1 ltac:(lia)).
    destruct (parse_term fuel l1); [discriminate|discriminate|done].
  - rewrite parse_expr_S. specialize (IHt l ltac:(lia)).
    destruct (parse_shorter fuel l) as (_ & _ & Hs & _).
    destruct (parse_term fuel l) as [r l1 | |]; [|discriminate|done].
    simpl in Hs. destruct (hd0 l1 =? ch "|")%Z; [|discriminate].
    pose proof (length_tail_le l1).
    specialize (IHe (tail l1) ltac:(lia)).
    destruct (parse_expr fuel (tail l1)); [discriminate|discriminate|done].
Qed.

(** *** The trees of the parser are well formed *)

Lemma is_special_normal c : is_special c = true → normal c.
Proof.
  unfold is_special, normal. rewrite !orb_true_iff, !Z.eqb_eq.
  unfold cmin, cmax.
  intros H; repeat destruct H as [H | H]; subst c; vm_compute;
    split; discriminate.
Qed.

Lemma between_normal c :
  (cmin <=? c)%Z && (c <=? cmax)%Z = true → normal c.
Proof.
  rewrite andb_true_iff, !Z.leb_le. intros [? ?]. split; assumption.
Qed.

Lemma parse_char_normal l c l' : parse_char l = CROk c l' → normal c.
Proof.
  unfold parse_char, parse_escape.
  destruct (hd0 l =? 0)%Z; [discriminate|].
  destruct (hd0 l =? ch "\")%Z.
  { destruct (_ || _) eqn:H; [|discriminate]. intros [= <- <-].
    apply orb_true_iff in H as [H | H]; [apply is_special_normal; exact H|].
    apply Z.eqb_eq in H. rewrite H. vm_compute. split; discriminate. }
  destruct (is_special (hd0 l)); [discriminate|].
  destruct (_ && _) eqn:H; [|discriminate]. intros [= <- <-].
  apply between_normal. exact H.
Qed.

Lemma parse_element_normal l c l' : parse_element l = CROk c l' → normal c.
Proof.
  unfold parse_element.
  destruct (hd0 l =? 0)%Z; [discriminate|].
  destruct (hd0 l =? ch "]")%Z; [discriminate|].
  destruct (hd0 l =? ch "\")%Z.
  { destruct (negb _) eqn:H; [discriminate|]. intros [= <- <-].
    apply negb_false_iff, Z.eqb_eq in H. rewrite H.
    vm_compute. split; discriminate. }
  destruct (_ && _) eqn:H; [|discriminate]. intros [= <- <-].
  apply between_normal. exact H.
Qed.

Lemma parse_range_wf l r l' : parse_range l = ROk r l' → range_wf r.
Proof.
  unfold parse_range.
  destruct (parse_element l) as [min l1 | st l1 b] eqn:E1; [|discriminate].
  apply parse_element_normal in E1.
  destruct (_ && _).
  - destruct (parse_element (tail l1)) as [max l2 | st l2 b] eqn:E2;
      [|discriminate].
    apply parse_element_normal in E2.
    destruct (Z.ltb_spec max min); [discriminate|].
    intros [= <- <-]. repeat split; simpl; try apply E1; try apply E2. lia.
  - destruct (Z.ltb_spec min min); [discriminate|].
    intros [= <- <-]. repeat split; simpl; try apply E1. lia.
Qed.

Lemma parse_set_loop_wf fuel :
  ∀ l rest l', parse_set_loop fuel l = ROk rest l' → Forall range_wf rest.
Proof.
  induction fuel as [|fuel IH]; intros l rest l'; cbn [parse_set_loop];
    (destruct (hd0 l =? ch "]")%Z; [intros [= <- <-]; constructor|]);
    [discriminate|].
  destruct (parse_range l) as [r l1 | |] eqn:E; try discriminate.
  destruct (parse_set_loop fuel l1) as [rest1 l2 | |] eqn:E2;
    try discriminate.
  intros [= <- <-]. constructor; [eapply parse_range_wf | eapply IH]; eauto.
Qed.

Lemma parse_set_wf fuel l r l' : parse_set fuel l = ROk r l' → regex_wf r.
Proof.
  unfold parse_set.
  destruct (if (hd0 l =? ch "^")%Z then _ else _) as [negated l0].
  destruct (parse_range l0) as [first l1 | |] eqn:E; try discriminate.
  destruct (parse_set_loop fuel l1) as [rest l2 | |] eqn:E2;
    try discriminate.
  intros [= <- <-]. simpl.
  constructor; [eapply parse_range_wf | eapply parse_set_loop_wf]; eauto.
Qed.

(** The trees of the productions are well formed. *)
Lemma parse_wf fuel :
  ∀ l, presult_wf (parse_atom fuel l) ∧ presult_wf (parse_factor fuel l)
       ∧ presult_wf (parse_term fuel l) ∧ presult_wf (parse_expr fuel l).
Proof.
  induction fuel as [|fuel IH]; intros l; [simpl; auto|].
  assert (∀ l, presult_wf (parse_atom fuel l)) as IHa by apply IH.
  assert (∀ l, presult_wf (parse_factor fuel l)) as IHf by apply IH.
  assert (∀ l, presult_wf (parse_term fuel l)) as IHt by apply IH.
  assert (∀ l, presult_wf (parse_expr fuel l)) as IHe by apply IH.
  clear IH. repeat split.
  - rewrite parse_atom_S. cbn zeta.
    destruct (hd0 l =? ch "(")%Z.
    { specialize (IHe (tail l)).
      destruct (parse_expr fuel (tail l)); simpl in *; auto.
      destruct (negb _); simpl; auto. }
    destruct (hd0 l =? ch ".")%Z; [exact I|].
    destruct (hd0 l =? ch "[")%Z.
    { destruct (parse_set fuel (tail l)) eqn:E; simpl; auto.
      eapply parse_set_wf; eauto. }
    destruct (parse_char l) eqn:E; simpl; auto.
    eapply parse_char_normal; eauto.
  - rewrite parse_factor_S. specialize (IHa l).
    destruct (parse_atom fuel l); simpl in *; auto.
    destruct (hd0 _ =? ch "*")%Z; [exact IHa|].
    destruct (hd0 _ =? ch "+")%Z; [exact IHa|].
    destruct (hd0 _ =? ch "?")%Z; exact IHa.
  - rewrite parse_term_S. specialize (IHf l).
    destruct (parse_factor fuel l) as [r l1 | |]; simpl in *; auto.
    destruct (_ || _); simpl; auto.
    specialize (IHt l1). destruct (parse_term fuel l1); simpl in *; auto.
  - rewrite parse_expr_S. specialize (IHt l).
    destruct (parse_term fuel l) as [r l1 | |]; simpl in *; auto.
    destruct (hd0 l1 =? ch "|")%Z; simpl; auto.
    specialize (IHe (tail l1)).
    destruct (parse_expr fuel (tail l1)); simpl in *; auto.
Qed.

(** ** Parsing a pattern that is followed by more text *)

Lemma hd0_app (l t : list Z) : l ≠ [] → hd0 (l ++ t) = hd0 l.
Proof. destruct l; [done | reflexivity]. Qed.

Lemma tail_app (l t : list Z) : l ≠ [] → tail (l ++ t) = tail l ++ t.
Proof. destruct l; [done | reflexivity]. Qed.

Lemma hd1_app (l t : list Z) : tail l ≠ [] → hd1 (l ++ t) = hd1 l.
Proof. destruct l as [|a [|b l]]; try done. Qed.

Lemma hd0_true_nonempty (l : list Z) (c : Z) :
  (hd0 l =? c)%Z = true → c ≠ 0%Z → l ≠ [].
Proof. intros H Hc ->. apply Hc. symmetry. apply Z.eqb_eq. exact H. Qed.

Lemma parse_escape_ext l c l' t :
  parse_escape l = CROk c l' → parse_escape (l ++ t) = CROk c (l' ++ t).
Proof.
  unfold parse_escape. destruct l as [|a [|b l]]; try discriminate.
  cbn [tail app hd0 lookup list_lookup default from_option id].
  destruct (is_special b || (b =? ch "-")%Z); [|discriminate].
  intros [= <- <-]. reflexivity.
Qed.

Lemma parse_char_ext l c l' t :
  parse_char l = CROk c l' → parse_char (l ++ t) = CROk c (l' ++ t).
Proof.
  intros H. pose proof (parse_escape_ext l c l' t) as He.
  unfold parse_char in *. destruct l as [|a l]; [discriminate|].
  rewrite <- app_comm_cons in *.
  cbn [tail hd0 lookup list_lookup default from_option id] in *.
  destruct (a =? 0)%Z; [discriminate|].
  destruct (a =? ch "\")%Z; [auto|].
  destruct (is_special a); [discriminate|].
  destruct (_ && _); [|discriminate].
  injection H as <- <-. reflexivity.
Qed.

Lemma parse_element_ext l c l' t :
  parse_element l = CROk c l' → parse_element (l ++ t) = CROk c (l' ++ t).
Proof.
  unfold parse_element. destruct l as [|a l]; [discriminate|].
  rewrite <- app_comm_cons.
  cbn [tail hd0 lookup list_lookup default from_option id].
  destruct (a =? 0)%Z; [discriminate|].
  destruct (a =? ch "]")%Z; [discriminate|].
  destruct (a =? ch "\")%Z.
  - destruct l as [|b l]; [discriminate|].
    rewrite <- app_comm_cons.
    cbn [tail hd0 lookup list_lookup default from_option id].
    destruct (negb _); [discriminate|]. intros [= <- <-]. reflexivity.
  - destruct (_ && _); [|discriminate]. intros [= <- <-]. reflexivity.
Qed.

Lemma parse_element_nonempty l c l' : parse_element l = CROk c l' → l ≠ [].
Proof. intros H ->. discriminate. Qed.

Lemma parse_range_nonempty l r l' : parse_range l = ROk r l' → l ≠ [].
Proof. intros H ->. discriminate. Qed.

(** A range followed by text is read as it is alone, as long as it is not
    the last thing in the pattern. *)
Lemma parse_range_ext l r l' t :
  parse_range l = ROk r l' → l' ≠ [] →
  parse_range (l ++ t) = ROk r (l' ++ t).
Proof.
  unfold parse_range. intros H Hl'.
  destruct (parse_element l) as [lo l1|] eqn:E1; [|discriminate].
  rewrite (parse_element_ext _ _ _ t E1).
  destruct ((hd0 l1 =? ch "-")%Z && negb (hd1 l1 =? ch "]")%Z) eqn:Eg.
  - apply andb_prop in Eg as [Eg1 Eg2].
    destruct (parse_element (tail l1)) as [hi l2|] eqn:E2; [|discriminate].
    assert (l1 ≠ []) as Hl1 by (eapply hd0_true_nonempty; eauto; done).
    pose proof (parse_element_nonempty _ _ _ E2) as Hl2.
    rewrite hd0_app, hd1_app, Eg1, Eg2, tail_app by assumption.
    cbn [andb]. rewrite (parse_element_ext _ _ _ t E2).
    destruct (hi <? lo)%Z; [discriminate|].
    injection H as <- <-. reflexivity.
  - rewrite Z.ltb_irrefl in H. injection H as <- <-.
    rewrite hd0_app by assumption.
    destruct (hd0 l1 =? ch "-")%Z eqn:Eg1.
    + cbn [andb] in Eg. apply negb_false_iff in Eg.
      assert (tail l1 ≠ []) as Hl2.
      { destruct l1 as [|a [|b l1]]; try discriminate. }
      rewrite hd1_app, Eg by assumption. cbn [andb negb].
      rewrite Z.ltb_irrefl. reflexivity.
    + cbn [andb]. rewrite Z.ltb_irrefl. reflexivity.
Qed.

Lemma suffix_nonempty (l l' : list Z) : l' `suffix_of` l → l' ≠ [] → l ≠ [].
Proof. intros [k ->] H. destruct k; [exact H | discriminate]. Qed.

Lemma parse_set_loop_ext fuel :
  ∀ l rest l' t,
    parse_set_loop fuel l = ROk rest l' →
    parse_set_loop fuel (l ++ t) = ROk rest (l' ++ t).
Proof.
  induction fuel as [|fuel IH]; intros l rest l' t H;
    rewrite ?parse_set_loop_S in *; cbn [parse_set_loop] in *;
    destruct (hd0 l =? ch "]")%Z eqn:Eb.
  - assert (l ≠ []) as Hl by (eapply hd0_true_nonempty; eauto; done).
    rewrite hd0_app, Eb by assumption. injection H as <- <-. reflexivity.
  - discriminate.
  - assert (l ≠ []) as Hl by (eapply hd0_true_nonempty; eauto; done).
    rewrite hd0_app, Eb by assumption. injection H as <- <-. reflexivity.
  - destruct (parse_range l) as [r l1| |] eqn:Er; try discriminate.
    destruct (parse_set_loop fuel l1) as [rs l2| |] eqn:El; try discriminate.
    injection H as <- <-.
    pose proof (parse_set_loop_rbracket _ _ _ _ El) as Hb.
    assert (l2 ≠ []) as Hl2 by (eapply hd0_true_nonempty; eauto; done).
    pose proof (parse_set_loop_suffix fuel l1) as Hs. rewrite El in Hs.
    assert (l1 ≠ []) as Hl1 by (eapply suffix_nonempty; eauto).
    pose proof (parse_range_nonempty _ _ _ Er) as Hl.
    rewrite hd0_app, Eb by assumption.
    rewrite (parse_range_ext _ _ _ t Er Hl1), (IH _ _ _ t El). reflexivity.
Qed.

Lemma parse_set_ext fuel l r l' t :
  parse_set fuel l = ROk r l' → parse_set fuel (l ++ t) = ROk r (l' ++ t).
Proof.
  unfold parse_set. intros H.
  assert (∀ neg l0, match parse_range l0 with
    | ROk first l =>
      match parse_set_loop fuel l with
      | ROk rest l => ROk (RSet neg first rest) l
      | RErr st l b => RErr st l b
      | RFuel => RFuel
      end
    | RErr st l b => RErr st l b
    | RFuel => RFuel
    end = ROk r l' →
    match parse_range (l0 ++ t) with
    | ROk first l =>
      match parse_set_loop fuel l with
      | ROk rest l => ROk (RSet neg first rest) l
      | RErr st l b => RErr st l b
      | RFuel => RFuel
      end
    | RErr st l b => RErr st l b
    | RFuel => RFuel
    end = ROk r (l' ++ t)) as Hbody.
  { intros neg l0 H0.
    destruct (parse_range l0) as [r0 l1| |] eqn:Er; try discriminate.
    destruct (parse_set_loop fuel l1) as [rs l2| |] eqn:El; try discriminate.
    injection H0 as <- <-.
    pose proof (parse_set_loop_rbracket _ _ _ _ El) as Hb.
    assert (l2 ≠ []) as Hl2 by (eapply hd0_true_nonempty; eauto; done).
    pose proof (parse_set_loop_suffix fuel l1) as Hs. rewrite El in Hs.
    assert (l1 ≠ []) as Hl1 by (eapply suffix_nonempty; eauto).
    rewrite (parse_range_ext _ _ _ t Er Hl1), (parse_set_loop_ext _ _ _ _ t El).
    reflexivity. }
  destruct (hd0 l =? ch "^")%Z eqn:Ec.
  - assert (l ≠ []) as Hl by (eapply hd0_true_nonempty; eauto; done).
    rewrite hd0_app, Ec, tail_app by assumption. apply Hbody, H.
  - destruct (decide (l = [])) as [-> | Hl]; [discriminate|].
    rewrite hd0_app, Ec by assumption. apply Hbody, H.
Qed.

Lemma ends_term_not_postfix c : ends_term c = true → is_postfix c = false.
Proof.
  unfold ends_term, is_postfix. intros H.
  repeat (apply orb_prop in H as [H|H]);
    apply Z.eqb_eq in H; subst c; reflexivity.
Qed.

Lemma ends_expr_ends_term c : ends_expr c = true → ends_term c = true.
Proof. unfold ends_expr, ends_term. intros ->. reflexivity. Qed.

Lemma ends_expr_not_bar c : ends_expr c = true → (c =? ch "|")%Z = false.
Proof.
  unfold ends_expr. intros H.
  apply orb_prop in H as [H|H]; apply Z.eqb_eq in H; subst c; reflexivity.
Qed.

Lemma parse_atom_nonempty fuel l r l' : parse_atom fuel l = ROk r l' → l ≠ [].
Proof.
  intros H ->. destruct fuel; [discriminate|].
  rewrite parse_atom_S in H. vm_compute in H. discriminate.
Qed.

(** A production that succeeds on [l] succeeds in the same way on [l]
    followed by [t], if the character it meets at the end of [l] stops it
    as the end of the pattern does. *)
Lemma parse_ext fuel :
  ∀ l t,
    (∀ r l', parse_atom fuel l = ROk r l' →
             parse_atom fuel (l ++ t) = ROk r (l' ++ t))
    ∧ (∀ r l', parse_factor fuel l = ROk r l' →
               (l' = [] → is_postfix (hd0 t) = false) →
               parse_factor fuel (l ++ t) = ROk r (l' ++ t))
    ∧ (∀ r l', parse_term fuel l = ROk r l' →
               (l' = [] → ends_term (hd0 t) = true) →
               parse_term fuel (l ++ t) = ROk r (l' ++ t))
    ∧ (∀ r l', parse_expr fuel l = ROk r l' →
               (l' = [] → ends_expr (hd0 t) = true) →
               parse_expr fuel (l ++ t) = ROk r (l' ++ t)).
Proof.
  induction fuel as [|fuel IH]; intros l t;
    [repeat split; intros; discriminate|].
  assert (∀ l r l', parse_atom fuel l = ROk r l' →
            parse_atom fuel (l ++ t) = ROk r (l' ++ t)) as IHa
      by (intros l0; apply IH).
  assert (∀ l r l', parse_factor fuel l = ROk r l' →
            (l' = [] → is_postfix (hd0 t) = false) →
            parse_factor fuel (l ++ t) = ROk r (l' ++ t)) as IHf
      by (intros l0; apply IH).
  assert (∀ l r l', parse_term fuel l = ROk r l' →
            (l' = [] → ends_term (hd0 t) = true) →
            parse_term fuel (l ++ t) = ROk r (l' ++ t)) as IHt
      by (intros l0; apply IH).
  assert (∀ l r l', parse_expr fuel l = ROk r l' →
            (l' = [] → ends_expr (hd0 t) = true) →
            parse_expr fuel (l ++ t) = ROk r (l' ++ t)) as IHe
      by (intros l0; apply IH).
  clear IH. repeat split.
  - (* atom *)
    intros r l' H. pose proof (parse_atom_nonempty _ _ _ _ H) as Hl.
    rewrite parse_atom_S in *. cbn zeta in *.
    rewrite hd0_app, tail_app by assumption.
    destruct (hd0 l =? ch "(")%Z.
    { destruct (parse_expr fuel (tail l)) as [r1 l1| |] eqn:E;
        try discriminate.
      destruct (hd0 l1 =? ch ")")%Z eqn:Ep; [|discriminate].
      cbn [negb] in H. injection H as <- <-.
      assert (l1 ≠ []) as Hl1 by (eapply hd0_true_nonempty; eauto; done).
      rewrite (IHe _ _ _ E) by done.
      rewrite hd0_app, Ep, tail_app by assumption. reflexivity. }
    destruct (hd0 l =? ch ".")%Z.
    { injection H as <- <-. reflexivity. }
    destruct (hd0 l =? ch "[")%Z.
    { destruct (parse_set fuel (tail l)) as [r1 l1| |] eqn:E;
        try discriminate.
      injection H as <- <-.
      pose proof (parse_set_rbracket _ _ _ _ E) as Hb.
      assert (l1 ≠ []) as Hl1 by (eapply hd0_true_nonempty; eauto; done).
      rewrite (parse_set_ext _ _ _ _ t E), tail_app by assumption.
      reflexivity. }
    destruct (parse_char l) as [c l1|] eqn:E; [|discriminate].
    injection H as <- <-. rewrite (parse_char_ext _ _ _ t E). reflexivity.
  - (* factor *)
    intros r l' H Hc. rewrite parse_factor_S in *.
    destruct (parse_atom fuel l) as [r1 l1| |] eqn:E; try discriminate.
    rewrite (IHa _ _ _ E). cbn zeta in *.
    destruct (decide (l1 = [])) as [-> | Hl1].
    + vm_compute in H. injection H as <- <-. specialize (Hc eq_refl).
      cbn [app]. unfold is_postfix in Hc.
      apply orb_false_elim in Hc as [Hc H3].
      apply orb_false_elim in Hc as [H1 H2].
      rewrite H1, H2, H3. reflexivity.
    + rewrite hd0_app, tail_app by assumption.
      destruct (hd0 l1 =? ch "*")%Z; [injection H as <- <-; reflexivity|].
      destruct (hd0 l1 =? ch "+")%Z; [injection H as <- <-; reflexivity|].
      destruct (hd0 l1 =? ch "?")%Z; injection H as <- <-; reflexivity.
  - (* term *)
    intros r l' H Hc. rewrite parse_term_S in *.
    destruct (parse_factor fuel l) as [r1 l1| |] eqn:E; try discriminate.
    cbn zeta in *.
    destruct (decide (l1 = [])) as [-> | Hl1].
    + vm_compute in H. injection H as <- <-. specialize (Hc eq_refl).
      rewrite (IHf _ _ _ E) by (intros _; apply ends_term_not_postfix, Hc).
      cbn [app]. unfold ends_term in Hc. rewrite Hc. reflexivity.
    + rewrite (IHf _ _ _ E) by done.
      rewrite hd0_app by assumption.
      destruct ((hd0 l1 =? 0)%Z || (hd0 l1 =? ch ")")%Z
                || (hd0 l1 =? ch "|")%Z).
      * injection H as <- <-. reflexivity.
      * destruct (parse_term fuel l1) as [r2 l2| |] eqn:E2; try discriminate.
        injection H as <- <-. rewrite (IHt _ _ _ E2 Hc). reflexivity.
  - (* expr *)
    intros r l' H Hc. rewrite parse_expr_S in *.
    destruct (parse_term fuel l) as [r1 l1| |] eqn:E; try discriminate.
    destruct (decide (l1 = [])) as [-> | Hl1].
    + vm_compute in H. injection H as <- <-. specialize (Hc eq_refl).
      rewrite (IHt _ _ _ E) by (intros _; apply ends_expr_ends_term, Hc).
      cbn [app]. rewrite (ends_expr_not_bar _ Hc). reflexivity.
    + rewrite (IHt _ _ _ E) by done.
      rewrite hd0_app by assumption.
      destruct (hd0 l1 =? ch "|")%Z.
      * destruct (parse_expr fuel (tail l1)) as [r2 l2| |] eqn:E2;
          try discriminate.
        injection H as <- <-. rewrite tail_app by assumption.
        rewrite (IHe _ _ _ E2 Hc). reflexivity.
      * injection H as <- <-. reflexivity.
Qed.

(** ** Patterns made of two patterns *)

Lemma parse_factor_more fuel fuel' l r l' :
  parse_factor fuel l = ROk r l' → fuel ≤ fuel' →
  parse_factor fuel' l = ROk r l'.
Proof.
  intros H Hle. rewrite <- H. apply parse_factor_mono; [|exact Hle].
  unfold settled. rewrite H. discriminate.
Qed.

Lemma parse_term_more fuel fuel' l r l' :
  parse_term fuel l = ROk r l' → fuel ≤ fuel' →
  parse_term fuel' l = ROk r l'.
Proof.
  intros H Hle. rewrite <- H. apply parse_term_mono; [|exact Hle].
  unfold settled. rewrite H. discriminate.
Qed.

Lemma parse_expr_more fuel fuel' l r l' :
  parse_expr fuel l = ROk r l' → fuel ≤ fuel' →
  parse_expr fuel' l = ROk r l'.
Proof.
  intros H Hle. rewrite <- H. apply parse_expr_mono; [|exact Hle].
  unfold settled. rewrite H. discriminate.
Qed.

(** A result with some bound on the recursion is the result with any
    bound that suffices. *)
Lemma parse_expr_agree fuel fuel' l r l' :
  parse_expr fuel l = ROk r l' → settled (parse_expr fuel' l) →
  parse_expr fuel' l = ROk r l'.
Proof.
  intros H Hs. destruct (decide (fuel ≤ fuel')) as [Hle | Hgt].
  - eapply parse_expr_more; eauto.
  - rewrite <- H. symmetry. apply parse_expr_mono; [exact Hs | lia].
Qed.

Lemma parse_term_agree fuel fuel' l r l' :
  parse_term fuel l = ROk r l' → settled (parse_term fuel' l) →
  parse_term fuel' l = ROk r l'.
Proof.
  intros H Hs. destruct (decide (fuel ≤ fuel')) as [Hle | Hgt].
  - eapply parse_term_more; eauto.
  - rewrite <- H. symmetry. apply parse_term_mono; [exact Hs | lia].
Qed.

Lemma parse_expr_ext fuel l t r l' :
  parse_expr fuel l = ROk r l' → (l' = [] → ends_expr (hd0 t) = true) →
  parse_expr fuel (l ++ t) = ROk r (l' ++ t).
Proof. apply parse_ext. Qed.

Lemma parse_term_ext fuel l t r l' :
  parse_term fuel l = ROk r l' → (l' = [] → ends_term (hd0 t) = true) →
  parse_term fuel (l ++ t) = ROk r (l' ++ t).
Proof. apply parse_ext. Qed.

Lemma parse_factor_ext fuel l t r l' :
  parse_factor fuel l = ROk r l' → (l' = [] → is_postfix (hd0 t) = false) →
  parse_factor fuel (l ++ t) = ROk r (l' ++ t).
Proof. apply parse_ext. Qed.

(** *** Alternation *)

(** [A|B] is read as the alternatives of [A] followed by [B]. *)
Lemma parse_expr_alternate fuel :
  ∀ A rA B rB l' fuel',
    parse_expr fuel A = ROk rA [] →
    parse_expr fuel' B = ROk rB l' →
    ∃ r, parse_expr (fuel + fuel') (A ++ ch "|" :: B) = ROk r l'
         ∧ ∀ w, denote r w ↔ denote rA w ∨ denote rB w.
Proof.
  induction fuel as [|fuel IH]; intros A rA B rB l' fuel' HA HB;
    [discriminate|].
  rewrite parse_expr_S in HA.
  destruct (parse_term fuel A) as [a l1| |] eqn:Et; try discriminate.
  replace (S fuel + fuel') with (S (fuel + fuel')) by lia.
  rewrite parse_expr_S.
  destruct (decide (l1 = [])) as [-> | Hl1].
  - vm_compute in HA. injection HA as <-.
    rewrite (parse_term_more fuel (fuel + fuel') _ a ([] ++ ch "|" :: B))
      by first [lia | apply parse_term_ext; [exact Et | reflexivity]].
    cbn [app]. change (hd0 (ch "|" :: B) =? ch "|")%Z with true.
    cbn [tail]. rewrite (parse_expr_more fuel' (fuel + fuel') _ _ _ HB)
      by lia.
    exists (RAlternate a rB). split; [reflexivity|]. intros w. reflexivity.
  - rewrite (parse_term_more fuel (fuel + fuel') _ a (l1 ++ ch "|" :: B))
      by first [lia | apply parse_term_ext; [exact Et | done]].
    rewrite hd0_app by assumption.
    destruct (hd0 l1 =? ch "|")%Z.
    + destruct (parse_expr fuel (tail l1)) as [b l2| |] eqn:Ee;
        try discriminate.
      injection HA as <- ->. rewrite tail_app by assumption.
      destruct (IH _ _ _ _ _ _ Ee HB) as (r' & -> & Hr').
      exists (RAlternate a r'). split; [reflexivity|].
      intros w. cbn [denote]. unfold lang_union. rewrite Hr'. tauto.
    + injection HA as <- ->. done.
Qed.

(** *** Concatenation *)

Lemma not_special_head c :
  is_special c = false →
  is_postfix c = false ∧ (c =? ch ")")%Z = false ∧ (c =? ch "|")%Z = false.
Proof.
  unfold is_special, is_postfix. intros H.
  repeat (apply orb_false_elim in H as [H ?]).
  repeat split; repeat (apply orb_false_intro); assumption.
Qed.

(** An atom does not start with a character that ends a term or follows
    an atom. *)
Lemma parse_atom_head fuel l r l' :
  parse_atom fuel l = ROk r l' →
  is_postfix (hd0 l) = false ∧ ends_term (hd0 l) = false.
Proof.
  destruct fuel as [|fuel]; [discriminate|].
  rewrite parse_atom_S. cbn zeta.
  destruct (hd0 l =? ch "(")%Z eqn:E1.
  { apply Z.eqb_eq in E1. rewrite E1. intros _. split; reflexivity. }
  destruct (hd0 l =? ch ".")%Z eqn:E2.
  { apply Z.eqb_eq in E2. rewrite E2. intros _. split; reflexivity. }
  destruct (hd0 l =? ch "[")%Z eqn:E3.
  { apply Z.eqb_eq in E3. rewrite E3. intros _. split; reflexivity. }
  destruct (parse_char l) as [c l1|] eqn:Ec; [|discriminate]. intros _.
  unfold parse_char in Ec.
  destruct (hd0 l =? 0)%Z eqn:E0; [discriminate|].
  destruct (hd0 l =? ch "\")%Z eqn:E4.
  { apply Z.eqb_eq in E4. rewrite E4. split; reflexivity. }
  destruct (is_special (hd0 l)) eqn:Es; [discriminate|].
  destruct (not_special_head _ Es) as (H1 & H2 & H3).
  split; [exact H1|]. unfold ends_term. rewrite E0, H2, H3. reflexivity.
Qed.

Lemma parse_term_head fuel l r l' :
  parse_term fuel l = ROk r l' →
  is_postfix (hd0 l) = false ∧ ends_term (hd0 l) = false.
Proof.
  destruct fuel as [|fuel]; [discriminate|]. rewrite parse_term_S.
  destruct (parse_factor fuel l) as [a l1| |] eqn:Ef; try discriminate.
  intros _. destruct fuel as [|fuel]; [discriminate|].
  rewrite parse_factor_S in Ef.
  destruct (parse_atom fuel l) as [a0 l0| |] eqn:Ea; try discriminate.
  eapply parse_atom_head; eauto.
Qed.

Lemma lang_concat_assoc (A B C : lang) w :
  lang_concat A (lang_concat B C) w ↔ lang_concat (lang_concat A B) C w.
Proof.
  split.
  - intros (w1 & w23 & -> & H1 & w2 & w3 & -> & H2 & H3).
    exists (w1 ++ w2), w3. rewrite app_assoc. split; [reflexivity|].
    split; [|exact H3]. exists w1, w2. auto.
  - intros (w12 & w3 & -> & (w1 & w2 & -> & H1 & H2) & H3).
    exists w1, (w2 ++ w3). rewrite app_assoc. split; [reflexivity|].
    split; [exact H1|]. exists w2, w3. auto.
Qed.

Lemma lang_concat_ext (A B B' : lang) w :
  (∀ w, B w ↔ B' w) → lang_concat A B w ↔ lang_concat A B' w.
Proof.
  intros H. split; intros (w1 & w2 & -> & H1 & H2); exists w1, w2;
    (split; [reflexivity|]); (split; [exact H1|]); apply H; exact H2.
Qed.

(** The term [A] followed by the term [B] is read as the factors of [A]
    followed by [B]. *)
Lemma parse_term_concatenate fuel :
  ∀ A rA B rB l' fuel',
    parse_term fuel A = ROk rA [] →
    parse_term fuel' B = ROk rB l' →
    ∃ r, parse_term (fuel + fuel') (A ++ B) = ROk r l'
         ∧ ∀ w, denote r w ↔ lang_concat (denote rA) (denote rB) w.
Proof.
  induction fuel as [|fuel IH]; intros A rA B rB l' fuel' HA HB;
    [discriminate|].
  destruct (parse_term_head _ _ _ _ HB) as [Hpost Hends].
  rewrite parse_term_S in HA.
  destruct (parse_factor fuel A) as [a l1| |] eqn:Ef; try discriminate.
  replace (S fuel + fuel') with (S (fuel + fuel')) by lia.
  rewrite parse_term_S. cbn zeta in *.
  destruct (decide (l1 = [])) as [-> | Hl1].
  - vm_compute in HA. injection HA as <-.
    rewrite (parse_factor_more fuel (fuel + fuel') _ a ([] ++ B))
      by first [lia | apply parse_factor_ext; [exact Ef | auto]].
    cbn [app]. unfold ends_term in Hends. rewrite Hends.
    rewrite (parse_term_more fuel' (fuel + fuel') _ _ _ HB) by lia.
    exists (RConcat a rB). split; [reflexivity|]. intros w. reflexivity.
  - rewrite (parse_factor_more fuel (fuel + fuel') _ a (l1 ++ B))
      by first [lia | apply parse_factor_ext; [exact Ef | done]].
    rewrite hd0_app by assumption.
    destruct ((hd0 l1 =? 0)%Z || (hd0 l1 =? ch ")")%Z
              || (hd0 l1 =? ch "|")%Z).
    + injection HA as <- ->. done.
    + destruct (parse_term fuel l1) as [b l2| |] eqn:Et; try discriminate.
      injection HA as <- ->.
      destruct (IH _ _ _ _ _ _ Et HB) as (r' & -> & Hr').
      exists (RConcat a r'). split; [reflexivity|].
      intros w. cbn [denote]. rewrite <- lang_concat_assoc.
      apply lang_concat_ext. exact Hr'.
Qed.

(** ** The position reported with an error *)

Lemma err_ok_weaken l1 l st l' b :
  length l1 ≤ length l → err_ok l1 st l' b → err_ok l st l' b.
Proof. intros Hle [(? & ? & ?) | H]; [left | right]; auto with lia. Qed.

Lemma presult_err_weaken {A : Type} (p : presult A) l1 l :
  length l1 ≤ length l → presult_err p l1 → presult_err p l.
Proof. destruct p; simpl; eauto using err_ok_weaken. Qed.

Lemma plain_err_intro st l' :
  st ≠ REREX_UNORDERED_RANGE → blamed st (hd0 l') = true →
  plain_err st l' 0.
Proof. intros ? ?. split; [|split]; auto. Qed.

Lemma parse_escape_err l st l' b :
  parse_escape l = CRErr st l' b → plain_err st l' b.
Proof.
  unfold parse_escape.
  destruct (is_special (hd0 (tail l)) || (hd0 (tail l) =? ch "-")%Z) eqn:E;
    [discriminate|].
  intros [= <- <- <-]. apply plain_err_intro; [done|].
  cbn [blamed]. rewrite E. reflexivity.
Qed.

Lemma parse_char_err l st l' b :
  parse_char l = CRErr st l' b → plain_err st l' b.
Proof.
  unfold parse_char.
  destruct (hd0 l =? 0)%Z eqn:E0.
  { intros [= <- <- <-]. apply plain_err_intro; [done | exact E0]. }
  destruct (hd0 l =? ch "\")%Z; [apply parse_escape_err|].
  destruct (is_special (hd0 l)) eqn:Es.
  { intros [= <- <- <-]. apply plain_err_intro; [done | exact Es]. }
  destruct ((cmin <=? hd0 l)%Z && (hd0 l <=? cmax)%Z) eqn:Ep; [discriminate|].
  intros [= <- <- <-]. apply plain_err_intro; [done|].
  cbn [blamed]. rewrite Ep. reflexivity.
Qed.

Lemma parse_element_err l st l' b :
  parse_element l = CRErr st l' b → plain_err st l' b.
Proof.
  unfold parse_element.
  destruct (hd0 l =? 0)%Z eqn:E0.
  { intros [= <- <- <-]. apply plain_err_intro; [done | exact E0]. }
  destruct (hd0 l =? ch "]")%Z eqn:Eb.
  { intros [= <- <- <-]. apply plain_err_intro; [done|].
    apply Z.eqb_eq in Eb. cbn [blamed]. rewrite Eb. reflexivity. }
  destruct (hd0 l =? ch "\")%Z.
  { destruct (negb (hd0 (tail l) =? ch "]")%Z) eqn:En; [|discriminate].
    intros [= <- <- <-]. apply plain_err_intro; [done | exact En]. }
  destruct ((cmin <=? hd0 l)%Z && (hd0 l <=? cmax)%Z) eqn:Ep; [discriminate|].
  intros [= <- <- <-]. apply plain_err_intro; [done|].
  cbn [blamed]. rewrite Ep. reflexivity.
Qed.

Lemma parse_range_err l : presult_err (parse_range l) l.
Proof.
  unfold parse_range.
  destruct (parse_element l) as [lo l1 | st l1 b] eqn:E1;
    [|right; eapply parse_element_err; eauto].
  apply parse_element_shorter in E1.
  destruct (_ && _).
  - destruct (parse_element (tail l1)) as [hi l2 | st l2 b] eqn:E2;
      [|right; eapply parse_element_err; eauto].
    apply parse_element_shorter in E2. pose proof (length_tail_le l1).
    destruct (hi <? lo)%Z; [|exact I]. left. auto with lia.
  - rewrite Z.ltb_irrefl. exact I.
Qed.

Lemma presult_suffix_length {A : Type} (p : presult A) l r l' :
  presult_suffix p l → p = ROk r l' → length l' ≤ length l.
Proof. intros H ->. simpl in H. apply suffix_length, H. Qed.

Lemma parse_set_loop_err fuel :
  ∀ l, presult_err (parse_set_loop fuel l) l.
Proof.
  induction fuel as [|fuel IH]; intros l; cbn [parse_set_loop];
    (destruct (hd0 l =? ch "]")%Z; [exact I|]); [exact I|].
  pose proof (parse_range_err l) as H1.
  pose proof (parse_range_suffix l) as S1.
  destruct (parse_range l) as [r l1 | st l1 b |]; [|exact H1|exact I].
  simpl in S1. apply suffix_length in S1.
  pose proof (IH l1) as H2.
  destruct (parse_set_loop fuel l1) as [rest l2 | st l2 b |];
    [exact I | | exact I].
  eapply err_ok_weaken; eauto.
Qed.

Lemma parse_set_err fuel l : presult_err (parse_set fuel l) l.
Proof.
  unfold parse_set.
  assert (∀ neg l0, length l0 ≤ length l → presult_err
    match parse_range l0 with
    | ROk first l =>
      match parse_set_loop fuel l with
      | ROk rest l => ROk (RSet neg first rest) l
      | RErr st l b => RErr st l b
      | RFuel => RFuel
      end
    | RErr st l b => RErr st l b
    | RFuel => RFuel
    end l) as Hbody.
  { intros neg l0 Hle.
    pose proof (parse_range_err l0) as H1.
    pose proof (parse_range_suffix l0) as S1.
    destruct (parse_range l0) as [r l1 | st l1 b |]; [| |exact I].
    - simpl in S1. apply suffix_length in S1.
      pose proof (parse_set_loop_err fuel l1) as H2.
      destruct (parse_set_loop fuel l1) as [rest l2 | st l2 b |];
        [exact I | | exact I].
      eapply err_ok_weaken; [|exact H2]. lia.
    - eapply err_ok_weaken; eauto. }
  destruct (hd0 l =? ch "^")%Z; apply Hbody; [apply length_tail_le | lia].
Qed.

(** The errors of the productions. *)
Lemma parse_err fuel :
  ∀ l, presult_err (parse_atom fuel l) l ∧ presult_err (parse_factor fuel l) l
       ∧ presult_err (parse_term fuel l) l ∧ presult_err (parse_expr fuel l) l.
Proof.
  induction fuel as [|fuel IH]; intros l; [simpl; auto|].
  assert (∀ l, presult_err (parse_atom fuel l) l) as IHa by apply IH.
  assert (∀ l, presult_err (parse_factor fuel l) l) as IHf by apply IH.
  assert (∀ l, presult_err (parse_term fuel l) l) as IHt by apply IH.
  assert (∀ l, presult_err (parse_expr fuel l) l) as IHe by apply IH.
  assert (∀ l, presult_suffix (parse_factor fuel l) l) as Sf
      by apply parse_suffix.
  assert (∀ l, presult_suffix (parse_term fuel l) l) as St
      by apply parse_suffix.
  clear IH. repeat split.
  - rewrite parse_atom_S. cbn zeta.
    pose proof (length_tail_le l) as Hl.
    destruct (hd0 l =? ch "(")%Z.
    { pose proof (IHe (tail l)) as H.
      destruct (parse_expr fuel (tail l)) as [r l1 | st l1 b |];
        [| eapply err_ok_weaken; eauto | exact I].
      destruct (negb (hd0 l1 =? ch ")")%Z) eqn:En; [|exact I].
      right. apply plain_err_intro; [done | exact En]. }
    destruct (hd0 l =? ch ".")%Z; [exact I|].
    destruct (hd0 l =? ch "[")%Z.
    { pose proof (parse_set_err fuel (tail l)) as H.
      destruct (parse_set fuel (tail l)) as [r l1 | st l1 b |];
        [exact I | eapply err_ok_weaken; eauto | exact I]. }
    destruct (parse_char l) as [c l1 | st l1 b] eqn:E; [exact I|].
    right. eapply parse_char_err; eauto.
  - rewrite parse_factor_S. cbn zeta.
    pose proof (IHa l) as H.
    destruct (parse_atom fuel l) as [r l1 | st l1 b |];
      [| exact H | exact I].
    destruct (hd0 l1 =? ch "*")%Z; [exact I|].
    destruct (hd0 l1 =? ch "+")%Z; [exact I|].
    destruct (hd0 l1 =? ch "?")%Z; exact I.
  - rewrite parse_term_S. cbn zeta.
    pose proof (IHf l) as H. pose proof (Sf l) as S.
    destruct (parse_factor fuel l) as [r l1 | st l1 b |];
      [| exact H | exact I].
    simpl in S. apply suffix_length in S.
    destruct (_ || _); [exact I|].
    pose proof (IHt l1) as H2.
    destruct (parse_term fuel l1) as [r2 l2 | st l2 b |];
      [exact I | eapply err_ok_weaken; eauto | exact I].
  - rewrite parse_expr_S.
    pose proof (IHt l) as H. pose proof (St l) as S.
    destruct (parse_term fuel l) as [r l1 | st l1 b |];
      [| exact H | exact I].
    simpl in S. apply suffix_length in S.
    destruct (hd0 l1 =? ch "|")%Z; [|exact I].
    pose proof (IHe (tail l1)) as H2. pose proof (length_tail_le l1).
    destruct (parse_expr fuel (tail l1)) as [r2 l2 | st l2 b |];
      [exact I | eapply err_ok_weaken; [|exact H2]; lia | exact I].
Qed.

(** ** Compilation *)

Lemma parse_pattern_parse cs p :
  parse_pattern cs p
  = lift (build cs) p null_array (parse_expr (compile_fuel p) p).
Proof.
  unfold parse_pattern, add_state. cbn [fst snd app].
  replace (mkInput p 0) with (input_at p p)
    by (unfold input_at; rewrite Nat.sub_diag; reflexivity).
  apply read_parse. reflexivity.
Qed.

Lemma parse_expr_compile_settled p :
  settled (parse_expr (compile_fuel p) p).
Proof. apply parse_settled. unfold compile_fuel. lia. Qed.

Lemma offset_input_at (str l : list Z) :
  offset (input_at str l) = length str - length l.
Proof. reflexivity. Qed.

(** [rerex_compile] always returns. *)
Theorem rerex_compile_total cs p :
  ∃ st n out, rerex_compile cs p = Some (st, n, out).
Proof.
  unfold rerex_compile. rewrite parse_pattern_parse.
  pose proof (parse_expr_compile_settled p) as H.
  destruct (parse_expr (compile_fuel p) p) as [r l | st l b |];
    cbn [lift]; [| |done].
  - destruct (build cs r null_array). eauto.
  - eauto.
Qed.

(** What a successful compilation returns: the automaton built for the
    tree of the consumed prefix. *)
Lemma rerex_compile_success cs p n pat :
  rerex_compile cs p = Some (REREX_SUCCESS, n, Some pat) →
  ∃ r l', parse_expr (compile_fuel p) p = ROk r l'
          ∧ l' `suffix_of` p ∧ n = length p - length l'
          ∧ pat = mkPattern (build cs r null_array).2
                            (start (build cs r null_array).1).
Proof.
  unfold rerex_compile. rewrite parse_pattern_parse.
  destruct (parse_suffix (compile_fuel p) p) as (_ & _ & _ & Hs).
  destruct (parse_expr (compile_fuel p) p) as [r l | st l b |];
    cbn [lift]; [| discriminate | discriminate].
  destruct (build cs r null_array) as [nfa arr] eqn:Eb.
  intros [= <- <-]. exists r, l. simpl in Hs. rewrite Eb.
  repeat split; auto.
Qed.

Lemma rerex_compile_success_intro cs p r l' :
  parse_expr (compile_fuel p) p = ROk r l' →
  rerex_compile cs p
  = Some (REREX_SUCCESS, length p - length l',
          Some (mkPattern (build cs r null_array).2
                          (start (build cs r null_array).1))).
Proof.
  intros H. unfold rerex_compile. rewrite parse_pattern_parse, H.
  cbn [lift]. destruct (build cs r null_array). reflexivity.
Qed.

(** The automaton of a compiled pattern. *)
Lemma built_pattern cs r :
  regex_wf r → built null_array 1 (build cs r null_array) (denote r).
Proof. intros Hwf. apply (build_correct cs r null_array Hwf). simpl. lia. Qed.

Lemma built_wf_arena (res : Automata * list State) L :
  built null_array 1 res L → wf_arena res.2.
Proof.
  intros (F & Hag & Hlen) q st Hst.
  pose proof (fr_hi F) as Hhi. simpl in Hlen.
  destruct (decide (q = 0)) as [-> | Hq].
  - rewrite Hag in Hst by (unfold in_region; lia).
    injection Hst as <-. simpl. unfold NO_STATE. lia.
  - assert (in_region 1 (length res.2) q) as Hin.
    { split; [lia|]. eapply lookup_lt_Some; eauto. }
    destruct (fr_region F q st Hin Hst) as (H1 & H2 & _).
    unfold in_region, NO_STATE in *. lia.
Qed.

Lemma built_matcher_ok (res : Automata * list State) L :
  built null_array 1 res L →
  matcher_ok (rerex_new_matcher (mkPattern res.2 (start res.1))).
Proof.
  intros B. pose proof B as (F & _ & _).
  split; [|split].
  - simpl. eapply built_wf_arena; eauto.
  - unfold buffers_ok, n_states. simpl. rewrite !length_replicate. auto.
  - simpl. pose proof (fr_start_in F) as [_ ?]. assumption.
Qed.

(** Reaching a match state is reaching the end of the automaton. *)
Lemma built_accepts (res : Automata * list State) L w :
  built null_array 1 res L → accepts res.2 (start res.1) w ↔ L w.
Proof.
  intros (F & _ & _). rewrite <- (fr_lang F). unfold accepts. split.
  - intros (_ & t & Hp & Hm). rewrite <- (fr_unique F w t Hp Hm). exact Hp.
  - intros Hp. split.
    + pose proof (fr_start_in F) as [? _]. unfold NO_STATE. lia.
    + exists (end_ res.1). split; [exact Hp|].
      exists match_state. split; [apply F | reflexivity].
Qed.

Lemma parse_expr_wf fuel l r l' : parse_expr fuel l = ROk r l' → regex_wf r.
Proof.
  intros H. pose proof (parse_wf fuel l) as (_ & _ & _ & Hwf).
  rewrite H in Hwf. exact Hwf.
Qed.

Lemma parse_term_wf fuel l r l' : parse_term fuel l = ROk r l' → regex_wf r.
Proof.
  intros H. pose proof (parse_wf fuel l) as (_ & _ & Hwf & _).
  rewrite H in Hwf. exact Hwf.
Qed.

(** A successful compilation, by the tree of the pattern. *)
Lemma rerex_compile_tree cs p n pat :
  rerex_compile cs p = Some (REREX_SUCCESS, n, Some pat) →
  ∃ r l', parse_expr (compile_fuel p) p = ROk r l' ∧ regex_wf r
          ∧ n = length p - length l' ∧ pat = pattern_of cs r.
Proof.
  intros H. destruct (rerex_compile_success cs p n pat H)
    as (r & l' & Hp & _ & Hn & Hpat).
  exists r, l'. eauto using parse_expr_wf.
Qed.

(** A compilation that consumes the whole pattern. *)
Lemma rerex_compile_full cs p pat :
  rerex_compile cs p = Some (REREX_SUCCESS, length p, Some pat) →
  ∃ r, parse_expr (compile_fuel p) p = ROk r [] ∧ regex_wf r
       ∧ pat = pattern_of cs r.
Proof.
  intros H. destruct (rerex_compile_success cs p _ pat H)
    as (r & l' & Hp & Hs & Hn & Hpat).
  apply suffix_length in Hs.
  destruct p as [|c p]; [vm_compute in Hp; discriminate|].
  destruct l' as [|c' l']; [|simpl in *; lia].
  exists r. eauto using parse_expr_wf.
Qed.

Lemma rerex_compile_tree_intro cs p r l' :
  parse_expr (compile_fuel p) p = ROk r l' →
  rerex_compile cs p
  = Some (REREX_SUCCESS, length p - length l', Some (pattern_of cs r)).
Proof. apply rerex_compile_success_intro. Qed.

Lemma pattern_of_matcher_ok cs r :
  regex_wf r → matcher_ok (rerex_new_matcher (pattern_of cs r)).
Proof.
  intros Hwf. exact (built_matcher_ok _ _ (built_pattern cs r Hwf)).
Qed.

(** The characters on a path through a region are normal. *)
Lemma path_normal arr lo hi q w t :
  region_ok arr lo hi → path arr q w t → in_region lo hi q →
  Forall normal w.
Proof.
  intros Hreg Hp. induction Hp as [q | q t w r st Hst Hmin Ht Hnz Hp IH
                                     | q c w r st Hst Hmin Hc Hnz Hp IH];
    intros Hq.
  - constructor.
  - apply IH. destruct (Hreg q st Hq Hst) as (H1 & H2 & _).
    destruct Ht as [-> | ->]; [destruct H1 | destruct H2]; done.
  - destruct (Hreg q st Hq Hst) as (H1 & _ & H3 & H4).
    constructor; [unfold normal; lia|].
    apply IH. destruct H1; done.
Qed.

Lemma until_nul_length s : length (until_nul s) ≤ length s.
Proof.
  induction s as [|c s IH]; simpl; [lia|].
  destruct (c =? 0)%Z; simpl; lia.
Qed.

Lemma until_nul_nonzero s : Forall (λ c, c ≠ 0%Z) (until_nul s).
Proof.
  induction s as [|c s IH]; simpl; [constructor|].
  destruct (c =? 0)%Z eqn:E; [constructor|].
  constructor; [|exact IH]. intros ->. discriminate.
Qed.

Lemma until_nul_id w : Forall (λ c, c ≠ 0%Z) w → until_nul w = w.
Proof.
  induction 1 as [|c w Hc _ IH]; simpl; [reflexivity|].
  destruct (c =? 0)%Z eqn:E; [apply Z.eqb_eq in E; done|].
  rewrite IH. reflexivity.
Qed.

Section Verdict.

Variable SIZE_MAX : N.

(** Matching with a fresh matcher decides the language of the tree. *)
Lemma verdict_tree cs r s :
  regex_wf r → (N.of_nat (length s) < SIZE_MAX)%N →
  ∃ b, verdict SIZE_MAX (pattern_of cs r) s = Some b
       ∧ (b = true ↔ denote r (until_nul s)).
Proof.
  intros Hwf Hmax. pose proof (built_pattern cs r Hwf) as B.
  destruct (rerex_match_ok SIZE_MAX _ s (built_matcher_ok _ _ B) Hmax)
    as (b & m' & Hrun & Hb & _).
  exists b. split.
  - unfold verdict, pattern_of. rewrite Hrun. reflexivity.
  - rewrite Hb. simpl. apply built_accepts. exact B.
Qed.

Lemma verdict_true cs r s :
  regex_wf r → (N.of_nat (length s) < SIZE_MAX)%N →
  verdict SIZE_MAX (pattern_of cs r) s = Some true ↔ denote r (until_nul s).
Proof.
  intros Hwf Hmax. destruct (verdict_tree cs r s Hwf Hmax) as (b & -> & Hb).
  rewrite <- Hb. split; [intros [= ->] | intros ->]; reflexivity.
Qed.

(** The words of the language of a tree are made of normal characters. *)
Lemma denote_normal r w : regex_wf r → denote r w → Forall normal w.
Proof.
  intros Hwf Hw. pose proof (built_pattern false r Hwf) as B.
  pose proof B as (F & _ & _).
  apply (fr_lang F) in Hw.
  exact (path_normal _ _ _ _ _ _ (fr_region F) Hw (fr_start_in F)).
Qed.

End Verdict.

(** ** Match states of a compiled pattern *)

(** C2, as amended: after every successful compile there is one match
    state, the accepting state of the whole pattern, that is the only
    match state on any path from the start state: every other match
    state that the array holds cannot be reached from the start state. *)
Theorem reachable_match_unique cs p n pat :
  rerex_compile cs p = Some (REREX_SUCCESS, n, Some pat) →
  ∃ e, p_states pat !! e = Some match_state
       ∧ (∀ w q, path (p_states pat) (p_start pat) w q →
                 is_match (p_states pat) q → q = e)
       ∧ (∀ q, is_match (p_states pat) q → q ≠ e →
               ∀ w, ¬ path (p_states pat) (p_start pat) w q).
Proof.
  intros H. destruct (rerex_compile_tree cs p n pat H)
    as (r & l' & _ & Hwf & _ & ->).
  pose proof (built_pattern cs r Hwf) as (F & _ & _).
  exists (end_ (build cs r null_array).1). split; [|split].
  - exact (fr_end F).
  - exact (fr_unique F).
  - intros q Hm Hne w Hp. apply Hne. exact (fr_unique F w q Hp Hm).
Qed.

Lemma reachable_match_unique_witness :
  rerex_compile false (c_str "ab") = Some (REREX_SUCCESS, 2, Some pattern_ab)
  ∧ ∃ e, p_states pattern_ab !! e = Some match_state
         ∧ (∀ w q, path (p_states pattern_ab) (p_start pattern_ab) w q →
                   is_match (p_states pattern_ab) q → q = e)
         ∧ (∀ q, is_match (p_states pattern_ab) q → q ≠ e →
                 ∀ w, ¬ path (p_states pattern_ab) (p_start pattern_ab) w q).
Proof.
  split; [reflexivity|].
  apply (reachable_match_unique false (c_str "ab") 2). reflexivity.
Defined.

(** C2, as stated, fails: the array compiled for [ab] holds two match
    states, at the indices 1 (the end of the automaton of [a], dropped by
    [concatenate]) and 3 (the accepting state); the one at the index 1
    cannot be reached from the start state. *)
Lemma second_match_state_counterexample :
  ∃ pat, rerex_compile false (c_str "ab") = Some (REREX_SUCCESS, 2, Some pat)
         ∧ p_states pat !! 1 = Some match_state
         ∧ p_states pat !! 3 = Some match_state
         ∧ (¬ ∃ e, ∀ q, is_match (p_states pat) q → q = e)
         ∧ ∀ w, ¬ path (p_states pat) (p_start pat) w 1.
Proof.
  exists pattern_ab. split; [reflexivity|]. split; [reflexivity|].
  split; [reflexivity|]. split.
  - intros (e & He).
    assert (1 = e) as H1
        by (apply He; exists match_state; split; reflexivity).
    assert (3 = e) as H3
        by (apply He; exists match_state; split; reflexivity).
    congruence.
  - intros w Hp.
    assert (regex_wf (RConcat (RChar 97) (RChar 98))) as Hwf
        by (split; split; vm_compute; congruence).
    pose proof (built_pattern false _ Hwf) as (F & _ & _).
    assert (1 = end_ (build false (RConcat (RChar 97) (RChar 98))
                        null_array).1) as H1.
    { apply (fr_unique F w 1 Hp). exists match_state. split; reflexivity. }
    vm_compute in H1. discriminate.
Qed.

(** ** Negated sets *)

Section Claims.

Variable SIZE_MAX : N.

(** What a negated set of several ranges matches: a normal character
    that is outside one of the ranges, which need not be outside all of
    them. *)
Lemma negated_set_verdict cs p pat first rest c :
  rerex_compile cs p = Some (REREX_SUCCESS, length p, Some pat) →
  parse_expr (compile_fuel p) p = ROk (RSet true first rest) [] →
  (1 < SIZE_MAX)%N → (cmin <= c <= cmax)%Z →
  ∃ b, verdict SIZE_MAX pat [c] = Some b
       ∧ (b = true ↔ ∃ r, r ∈ first :: rest ∧ ¬ (r.1 <= c <= r.2)%Z).
Proof.
  intros Hc Hp Hmax Hn.
  destruct (rerex_compile_full cs p pat Hc) as (r & Hp' & Hwf & ->).
  rewrite Hp in Hp'. injection Hp' as <-.
  destruct (verdict_tree SIZE_MAX cs _ [c] Hwf) as (b & Hv & Hb);
    [simpl; lia|].
  exists b. split; [exact Hv|]. rewrite Hb.
  assert (until_nul [c] = [c]) as ->.
  { simpl. destruct (c =? 0)%Z eqn:E; [|reflexivity].
    apply Z.eqb_eq in E. unfold cmin in Hn. lia. }
  cbn [denote]. unfold lang_class.
  split; intros (r & Hr & H); exists r; (split; [exact Hr|]).
  - destruct H as (c' & [= <-] & H). lia.
  - exists c. split; [reflexivity|]. lia.
Qed.

End Claims.

(** C1 fails on the code: the pattern [[^ab]], compiled and matched
    against the text [a], matches, although [a] is in the set.  The
    automaton is the alternation of the complements of the ranges, which
    accepts what is outside one of them. *)
Theorem negated_set_accepts_member (cs : bool) :
  ∃ pat, rerex_compile cs (c_str "[^ab]")
         = Some (REREX_SUCCESS, 5, Some pat)
         ∧ parse_expr 24 (c_str "[^ab]")
           = ROk (RSet true (ch "a", ch "a") [(ch "b", ch "b")]) []
         ∧ verdict (2 ^ 64 - 1) pat (c_str "a") = Some true
         ∧ verdict (2 ^ 64 - 1) pat (c_str "b") = Some true.
Proof.
  destruct cs; eexists; (split; [reflexivity|]); repeat split;
    vm_compute; reflexivity.
Qed.

(** ** The active lists *)

Section Lists.

Variable SIZE_MAX : N.

Lemma matcher_of_ok cs r m :
  regex_wf r → matcher_of SIZE_MAX (pattern_of cs r) m →
  matcher_ok m ∧ regexp m = pattern_of cs r.
Proof.
  intros Hwf. induction 1 as [|m s b m' _ [IH1 IH2] Hmax Hrun].
  - split; [apply pattern_of_matcher_ok, Hwf | reflexivity].
  - destruct (rerex_match_ok SIZE_MAX m s IH1 Hmax)
      as (b0 & m0 & Hrun0 & _ & Hreg & Hbuf & _).
    rewrite Hrun in Hrun0. injection Hrun0 as <- <-.
    destruct IH1 as (Hwa & _ & Hst).
    split; [|congruence]. split; [|split]; rewrite ?Hreg; assumption.
Qed.

(** C9: every call of [rerex_match], on a new matcher of a compiled
    pattern or on one used before, runs to its end without a write (or
    read) outside the buffers; when it returns, each active list holds
    no state twice and no more entries than the pattern has states, which
    is the capacity that [rerex_new_matcher] gave the list.  As the text
    is arbitrary, this holds after every step of the matching. *)
Theorem active_lists_bounded cs p n pat m s :
  rerex_compile cs p = Some (REREX_SUCCESS, n, Some pat) →
  matcher_of SIZE_MAX pat m →
  (N.of_nat (length s) < SIZE_MAX)%N →
  ∃ b m',
    rerex_match SIZE_MAX m s = MOk (b, m')
    ∧ ∀ which,
        length (indices (active (rerex_new_matcher pat) which))
        = n_states (p_states pat)
        ∧ length (indices (active m' which)) = n_states (p_states pat)
        ∧ n_indices (active m' which) ≤ n_states (p_states pat)
        ∧ NoDup (entries (active m' which)).
Proof.
  intros Hc Hm Hmax.
  destruct (rerex_compile_tree cs p n pat Hc) as (r & l' & _ & Hwf & _ & ->).
  destruct (matcher_of_ok cs r m Hwf Hm) as [Hok Hreg].
  destruct (rerex_match_ok SIZE_MAX m s Hok Hmax)
    as (b & m' & Hrun & _ & Hreg' & (Hb0 & Hb1 & _) & Hlists).
  exists b, m'. split; [exact Hrun|]. intros which.
  destruct (Hlists which) as [Hn Hnd].
  assert (length (indices (active m' which))
          = n_states (p_states (pattern_of cs r))) as Hlen.
  { rewrite <- Hreg, <- Hreg'. unfold n_states.
    destruct which; assumption. }
  split; [|split; [exact Hlen | split; [lia | exact Hnd]]].
  destruct which; simpl; apply length_replicate.
Qed.

End Lists.

Lemma active_lists_bounded_witness :
  rerex_compile false (c_str "ab") = Some (REREX_SUCCESS, 2, Some pattern_ab)
  ∧ ∃ b m',
      rerex_match (2 ^ 64 - 1) (rerex_new_matcher pattern_ab) (c_str "ab")
      = MOk (b, m')
      ∧ ∀ which,
          length (indices (active (rerex_new_matcher pattern_ab) which))
          = n_states (p_states pattern_ab)
          ∧ length (indices (active m' which)) = n_states (p_states pattern_ab)
          ∧ n_indices (active m' which) ≤ n_states (p_states pattern_ab)
          ∧ NoDup (entries (active m' which)).
Proof.
  split; [reflexivity|].
  apply (active_lists_bounded (2 ^ 64 - 1) false (c_str "ab") 2);
    [reflexivity | apply matcher_new | reflexivity].
Defined.

(** ** Labels *)

Section Labels.

Variable SIZE_MAX : N.

(** C10: the label bounds of every state of a compiled pattern that is
    neither a match nor a split state are in the interval of the
    printable characters, and no text with a character outside the
    interval is matched. *)
Theorem range_labels_printable cs p n pat :
  rerex_compile cs p = Some (REREX_SUCCESS, n, Some pat) →
  (∀ q st, p_states pat !! q = Some st →
           min st ≠ REREX_MATCH → min st ≠ REREX_SPLIT →
           (0x20 <= min st)%Z ∧ (max st <= 0x7E)%Z)
  ∧ (∀ s c, (N.of_nat (length s) < SIZE_MAX)%N →
            c ∈ until_nul s → ¬ (0x20 <= c <= 0x7E)%Z →
            verdict SIZE_MAX pat s = Some false).
Proof.
  intros Hc.
  destruct (rerex_compile_tree cs p n pat Hc) as (r & l' & _ & Hwf & _ & ->).
  pose proof (built_pattern cs r Hwf) as B. pose proof B as (F & Hag & _).
  split.
  - intros q st Hst Hm Hs. destruct (decide (q = 0)) as [-> | Hq].
    + cbn [pattern_of p_states] in Hst.
      rewrite Hag in Hst by (unfold in_region; lia).
      injection Hst as <-. done.
    + assert (in_region 1 (length (build cs r null_array).2) q) as Hin.
      { split; [lia|]. eapply lookup_lt_Some; eauto. }
      destruct (fr_region F q st Hin Hst) as (_ & _ & H1 & H2).
      unfold cmin, cmax in *. auto.
  - intros s c Hmax Hin Hc'.
    destruct (verdict_tree SIZE_MAX cs r s Hwf Hmax) as (b & -> & Hb).
    destruct b; [|reflexivity]. exfalso. apply Hc'.
    assert (denote r (until_nul s)) as Hd by (apply Hb; reflexivity).
    pose proof (denote_normal r _ Hwf Hd) as Hn.
    rewrite Forall_forall in Hn. exact (Hn c Hin).
Qed.

End Labels.

Lemma range_labels_printable_witness :
  rerex_compile false (c_str "ab") = Some (REREX_SUCCESS, 2, Some pattern_ab)
  ∧ (∀ q st, p_states pattern_ab !! q = Some st →
             min st ≠ REREX_MATCH → min st ≠ REREX_SPLIT →
             (0x20 <= min st)%Z ∧ (max st <= 0x7E)%Z)
  ∧ verdict (2 ^ 64 - 1) pattern_ab [ch "a"; 9%Z] = Some false.
Proof.
  split; [reflexivity|].
  destruct (range_labels_printable (2 ^ 64 - 1) false (c_str "ab") 2
              pattern_ab eq_refl) as [H1 H2].
  split; [exact H1|].
  apply (H2 [ch "a"; 9%Z] 9%Z); [reflexivity | | lia].
  apply list_elem_of_further, list_elem_of_here.
Defined.

(** ** Text after the expression *)

(** What a term and an expression leave starts with a character that
    ends them. *)
Lemma parse_ends fuel :
  ∀ l r l',
    (parse_term fuel l = ROk r l' → ends_term (hd0 l') = true)
    ∧ (parse_expr fuel l = ROk r l' → ends_expr (hd0 l') = true).
Proof.
  induction fuel as [|fuel IH]; intros l r l'; [split; discriminate|].
  split.
  - rewrite parse_term_S.
    destruct (parse_factor fuel l) as [a l1| |]; try discriminate.
    cbn zeta. fold (ends_term (hd0 l1)).
    destruct (ends_term (hd0 l1)) eqn:E; [intros [= <- <-]; exact E|].
    destruct (parse_term fuel l1) as [b l2| |] eqn:Et; try discriminate.
    intros [= <- <-]. eapply IH; eauto.
  - rewrite parse_expr_S.
    destruct (parse_term fuel l) as [a l1| |] eqn:Et; try discriminate.
    destruct (hd0 l1 =? ch "|")%Z eqn:Eb.
    + destruct (parse_expr fuel (tail l1)) as [b l2| |] eqn:Ee;
        try discriminate.
      intros [= <- <-]. eapply IH; eauto.
    + intros [= <- <-]. destruct (IH l a l1) as [H _].
      specialize (H Et). unfold ends_term in H. unfold ends_expr.
      rewrite Eb, orb_false_r in H. exact H.
Qed.

(** The text that a successful compilation leaves unconsumed starts with
    a closing parenthesis (or with a zero, which ends the pattern). *)
Lemma rerex_compile_rest cs p n pat :
  rerex_compile cs p = Some (REREX_SUCCESS, n, Some pat) →
  n < length p → p !! n = Some (ch ")") ∨ p !! n = Some 0%Z.
Proof.
  intros H Hn.
  destruct (rerex_compile_success cs p n pat H) as (r & l' & Hp & Hs & -> & _).
  destruct (parse_ends (compile_fuel p) p r l') as [_ He].
  specialize (He Hp). rewrite <- (suffix_drop p l' Hs) in He.
  unfold hd0 in He. rewrite lookup_drop, Nat.add_0_r in He.
  destruct (p !! (length p - length l')) as [c|] eqn:E.
  - simpl in He. unfold ends_expr in He.
    apply orb_prop in He as [He | He]; apply Z.eqb_eq in He; subst c; auto.
  - apply lookup_ge_None in E. lia.
Qed.


(** ** Alternation and concatenation of patterns *)

Lemma is_term_parse cs p :
  is_term cs p = true → ∃ r, parse_term (compile_fuel p) p = ROk r [].
Proof.
  unfold is_term.
  replace (mkInput p 0) with (input_at p p)
    by (unfold input_at; rewrite Nat.sub_diag; reflexivity).
  destruct (read_parse cs (compile_fuel p) p p null_array) as (_ & _ & -> & _);
    [reflexivity|].
  pose proof (parse_suffix (compile_fuel p) p) as (_ & _ & Hs & _).
  destruct (parse_term (compile_fuel p) p) as [r l'| |] eqn:E;
    cbn [lift]; try discriminate.
  destruct (build cs r null_array). cbn [offset input_at].
  intros H. apply Nat.eqb_eq in H. simpl in Hs. apply suffix_length in Hs.
  destruct p as [|c p]; [vm_compute in E; discriminate|].
  destruct l' as [|c' l']; [|simpl in *; lia].
  exists r. reflexivity.
Qed.

(** A term that spans the pattern is the expression of the pattern. *)
Lemma parse_term_expr fuel p r :
  parse_term fuel p = ROk r [] →
  parse_expr (compile_fuel p) p = ROk r [].
Proof.
  intros H. apply (parse_expr_agree (S fuel));
    [|apply parse_expr_compile_settled].
  rewrite parse_expr_S, H. reflexivity.
Qed.

Section Composition.

Variable SIZE_MAX : N.

(** C3: for patterns [A] and [B] that compile as a whole, the pattern
    [A|B] compiles as a whole, and it matches a text just when [A]
    matches it or [B] matches it. *)
Theorem alternation_verdict cs A B pA pB s :
  rerex_compile cs A = Some (REREX_SUCCESS, length A, Some pA) →
  rerex_compile cs B = Some (REREX_SUCCESS, length B, Some pB) →
  (N.of_nat (length s) < SIZE_MAX)%N →
  ∃ pAB bA bB,
    rerex_compile cs (A ++ ch "|" :: B)
    = Some (REREX_SUCCESS, length (A ++ ch "|" :: B), Some pAB)
    ∧ verdict SIZE_MAX pA s = Some bA
    ∧ verdict SIZE_MAX pB s = Some bB
    ∧ verdict SIZE_MAX pAB s = Some (bA || bB).
Proof.
  intros HA HB Hmax.
  destruct (rerex_compile_full cs A pA HA) as (rA & HpA & HwA & ->).
  destruct (rerex_compile_full cs B pB HB) as (rB & HpB & HwB & ->).
  destruct (parse_expr_alternate _ _ _ _ _ _ _ HpA HpB) as (r & Hp & Hr).
  apply parse_expr_agree with (fuel' := compile_fuel (A ++ ch "|" :: B))
    in Hp; [|apply parse_expr_compile_settled].
  pose proof (parse_expr_wf _ _ _ _ Hp) as Hw.
  destruct (verdict_tree SIZE_MAX cs rA s HwA Hmax) as (bA & HvA & HbA).
  destruct (verdict_tree SIZE_MAX cs rB s HwB Hmax) as (bB & HvB & HbB).
  destruct (verdict_tree SIZE_MAX cs r s Hw Hmax) as (b & Hv & Hb).
  exists (pattern_of cs r), bA, bB.
  split; [|split; [exact HvA | split; [exact HvB|]]].
  - rewrite (rerex_compile_tree_intro cs _ _ _ Hp).
    cbn [length]. rewrite Nat.sub_0_r. reflexivity.
  - rewrite Hv. f_equal. rewrite Hr, <- HbA, <- HbB in Hb.
    destruct b, bA, bB; cbn [orb]; try reflexivity; intuition discriminate.
Qed.

(** C4. For patterns [A] and [B] that are the operands of a
    concatenation, each a term of the grammar, the pattern [AB] compiles
    as a whole, and it matches a text just when the text splits in two
    parts of which [A] matches the first and [B] the second. *)
Theorem concatenation_verdict cs A B s :
  is_term cs A = true → is_term cs B = true →
  (N.of_nat (length s) < SIZE_MAX)%N →
  ∃ pA pB pAB b,
    rerex_compile cs A = Some (REREX_SUCCESS, length A, Some pA)
    ∧ rerex_compile cs B = Some (REREX_SUCCESS, length B, Some pB)
    ∧ rerex_compile cs (A ++ B)
      = Some (REREX_SUCCESS, length (A ++ B), Some pAB)
    ∧ verdict SIZE_MAX pAB s = Some b
    ∧ (b = true ↔
       ∃ s1 s2, until_nul s = s1 ++ s2
                ∧ verdict SIZE_MAX pA s1 = Some true
                ∧ verdict SIZE_MAX pB s2 = Some true).
Proof.
  intros HA HB Hmax.
  destruct (is_term_parse cs A HA) as (rA & HtA).
  destruct (is_term_parse cs B HB) as (rB & HtB).
  destruct (parse_term_concatenate _ _ _ _ _ _ _ HtA HtB) as (r & Ht & Hr).
  pose proof (parse_term_wf _ _ _ _ HtA) as HwA.
  pose proof (parse_term_wf _ _ _ _ HtB) as HwB.
  pose proof (parse_term_wf _ _ _ _ Ht) as Hw.
  apply parse_term_expr in HtA, HtB, Ht.
  destruct (verdict_tree SIZE_MAX cs r s Hw Hmax) as (b & Hv & Hb).
  exists (pattern_of cs rA), (pattern_of cs rB), (pattern_of cs r), b.
  rewrite (rerex_compile_tree_intro cs _ _ _ HtA),
    (rerex_compile_tree_intro cs _ _ _ HtB),
    (rerex_compile_tree_intro cs _ _ _ Ht).
  cbn [length]. rewrite !Nat.sub_0_r.
  do 3 (split; [reflexivity|]). split; [exact Hv|].
  rewrite Hb, Hr. pose proof (until_nul_length s) as Hlen.
  pose proof (until_nul_nonzero s) as Hnz.
  split.
  - intros (s1 & s2 & Hs & H1 & H2). exists s1, s2.
    rewrite Hs in Hnz, Hlen. apply Forall_app in Hnz as [Hz1 Hz2].
    rewrite length_app in Hlen.
    split; [exact Hs|].
    split; apply verdict_true; rewrite ?until_nul_id; auto; lia.
  - intros (s1 & s2 & Hs & H1 & H2). exists s1, s2.
    rewrite Hs in Hnz, Hlen. apply Forall_app in Hnz as [Hz1 Hz2].
    rewrite length_app in Hlen.
    split; [exact Hs|].
    apply verdict_true in H1, H2; [| auto; lia ..].
    rewrite until_nul_id in H1, H2 by assumption. auto.
Qed.

End Composition.

Lemma alternation_verdict_witness :
  rerex_compile false (c_str "ab")
  = Some (REREX_SUCCESS, 2, Some pattern_ab)
  ∧ rerex_compile false (c_str "c")
    = Some (REREX_SUCCESS, 1, Some (pattern_of false (RChar (ch "c"))))
  ∧ ∃ pAB bA bB,
      rerex_compile false (c_str "ab|c") = Some (REREX_SUCCESS, 4, Some pAB)
      ∧ verdict (2 ^ 64 - 1) pattern_ab (c_str "c") = Some bA
      ∧ verdict (2 ^ 64 - 1) (pattern_of false (RChar (ch "c"))) (c_str "c")
        = Some bB
      ∧ verdict (2 ^ 64 - 1) pAB (c_str "c") = Some (bA || bB).
Proof.
  split; [reflexivity|]. split; [reflexivity|].
  apply (alternation_verdict (2 ^ 64 - 1) false (c_str "ab") (c_str "c"));
    reflexivity.
Defined.

Lemma concatenation_verdict_witness :
  is_term false (c_str "a*") = true ∧ is_term false (c_str "(b|c)") = true
  ∧ ∃ pA pB pAB b,
      rerex_compile false (c_str "a*") = Some (REREX_SUCCESS, 2, Some pA)
      ∧ rerex_compile false (c_str "(b|c)") = Some (REREX_SUCCESS, 5, Some pB)
      ∧ rerex_compile false (c_str "a*(b|c)")
        = Some (REREX_SUCCESS, 7, Some pAB)
      ∧ verdict (2 ^ 64 - 1) pAB (c_str "aac") = Some b
      ∧ (b = true ↔
         ∃ s1 s2, c_str "aac" = s1 ++ s2
                  ∧ verdict (2 ^ 64 - 1) pA s1 = Some true
                  ∧ verdict (2 ^ 64 - 1) pB s2 = Some true).
Proof.
  split; [reflexivity|]. split; [reflexivity|].
  apply (concatenation_verdict (2 ^ 64 - 1) false (c_str "a*")
           (c_str "(b|c)") (c_str "aac")); reflexivity.
Defined.

(** A bar binds less than a concatenation: [a|bc] is read as [a|(bc)],
    so that [a|b] is not an operand of a concatenation in it, and it
    matches the text [a]. *)
Remark bar_binds_less :
  ∃ pA pB pAB,
    rerex_compile false (c_str "a|b") = Some (REREX_SUCCESS, 3, Some pA)
    ∧ rerex_compile false (c_str "c") = Some (REREX_SUCCESS, 1, Some pB)
    ∧ rerex_compile false (c_str "a|b" ++ c_str "c")
      = Some (REREX_SUCCESS, 4, Some pAB)
    ∧ verdict (2 ^ 64 - 1) pAB (c_str "a") = Some true
    ∧ ∀ s1 s2, c_str "a" = s1 ++ s2 →
               ¬ (verdict (2 ^ 64 - 1) pA s1 = Some true
                  ∧ verdict (2 ^ 64 - 1) pB s2 = Some true).
Proof.
  do 3 eexists. do 4 (split; [reflexivity|]).
  intros s1 s2 Hs [H1 H2]. change (c_str "a") with [97%Z] in Hs.
  destruct s1 as [|x [|y s1]]; [| |discriminate].
  - vm_compute in H1. discriminate.
  - injection Hs as _ <-. vm_compute in H2. discriminate.
Qed.

(** ** Ranges out of order *)


Lemma plain_element_parse c l :
  plain_element c = true → parse_element (c :: l) = CROk c l.
Proof.
  unfold plain_element, parse_element. intros H.
  repeat (apply andb_prop in H as [H ?]).
  cbn [hd0 tail lookup list_lookup default from_option id].
  repeat match goal with H : negb _ = true |- _ =>
           apply negb_true_iff in H; rewrite H end.
  assert ((c =? 0)%Z = false) as ->.
  { apply Z.eqb_neq. apply Z.leb_le in H. unfold cmin in H. lia. }
  rewrite H, H3. reflexivity.
Qed.



(** A failed compilation, by the error of the parser. *)
Lemma rerex_compile_error cs p st l' b :
  parse_expr (compile_fuel p) p = RErr st l' b →
  rerex_compile cs p = Some (st, length p - length l', None).
Proof.
  intros H. unfold rerex_compile. rewrite parse_pattern_parse, H.
  reflexivity.
Qed.


(** ** The character at the offset of an error *)

(** When compilation fails with a status other than the unordered
    range, the character at the offset returned is one for which the
    status is returned. *)
Lemma rerex_compile_blamed cs p st n :
  rerex_compile cs p = Some (st, n, None) →
  ∃ tested,
    parse_pattern cs p = PErr st (mkInput p n) tested
    ∧ n ≤ length p
    ∧ if decide (st = REREX_UNORDERED_RANGE) then n = tested + 1
      else tested = n ∧ blamed st (peek (mkInput p n)) = true.
Proof.
  unfold rerex_compile. rewrite parse_pattern_parse.
  pose proof (parse_err (compile_fuel p) p) as (_ & _ & _ & He).
  pose proof (parse_suffix (compile_fuel p) p) as (_ & _ & _ & Hs).
  destruct (parse_expr (compile_fuel p) p) as [r l' | st' l' b |];
    cbn [lift]; [destruct (build cs r null_array); discriminate | |
                 discriminate].
  intros [= -> <-]. simpl in He, Hs.
  pose proof (suffix_length _ _ Hs) as Hlen.
  exists (offset (input_at p l') - b). split; [reflexivity|].
  cbn [offset input_at]. split; [lia|].
  destruct He as [(-> & -> & Hlt) | (Hne & -> & Hb)].
  - rewrite decide_True by reflexivity. lia.
  - rewrite decide_False by exact Hne. split; [lia|].
    change (mkInput p (length p - length l')) with (input_at p l').
    rewrite peek_input_at by exact Hs. exact Hb.
Qed.

(** The offsets of the errors of three short patterns. *)
Example error_offset_examples :
  rerex_compile false (c_str "(a") = Some (REREX_EXPECTED_RPAREN, 2, None)
  ∧ rerex_compile false (c_str "(") = Some (REREX_UNEXPECTED_END, 1, None)
  ∧ rerex_compile false (c_str "?")
    = Some (REREX_UNEXPECTED_SPECIAL, 0, None).
Proof. repeat split; reflexivity. Qed.

(** ** The test suite *)

(** Cases of the tests of the repository, as a check of the model. *)
Example test_match_cases :
  matches false (c_str ".") [] = Some false
  ∧ matches false (c_str ".*") (c_str "aa") = Some true
  ∧ matches false (c_str "a+") [] = Some false
  ∧ matches false (c_str "a?") (c_str "aa") = Some false
  ∧ matches false (c_str "[\]]") (c_str "]") = Some true
  ∧ matches false (c_str "[bcd]") (c_str "c") = Some true
  ∧ matches false (c_str "[bcd]") (c_str "e") = Some false
  ∧ matches false (c_str "[^b-d]") (c_str "a") = Some true
  ∧ matches false (c_str "[^b-d]") (c_str "b") = Some false
  ∧ matches false (c_str "[^b-d]") (c_str "d") = Some false
  ∧ matches false (c_str "[^ -/]") [9%Z] = Some false
  ∧ matches false (c_str "[^ -/]") (c_str "0") = Some true
  ∧ matches false (c_str "[^{-~]") (c_str "~") = Some false
  ∧ matches false (c_str "[A-Za-z]") (c_str "M") = Some true
  ∧ matches false (c_str "[+-]") (c_str "-") = Some true
  ∧ matches false (c_str "[b-d]*") (c_str "cc") = Some true
  ∧ matches false (c_str "h(e|a)llo") (c_str "hallo") = Some true.
Proof. repeat split; vm_compute; reflexivity. Qed.

Example test_syntax_cases :
  rerex_compile false [ch "a"; 8%Z] = Some (REREX_EXPECTED_CHAR, 1, None)
  ∧ rerex_compile false (c_str "[a-" ++ [127%Z; ch "]"])
    = Some (REREX_EXPECTED_ELEMENT, 3, None)
  ∧ rerex_compile false (c_str "[\n]")
    = Some (REREX_EXPECTED_RBRACKET, 2, None)
  ∧ rerex_compile false (c_str "\n") = Some (REREX_EXPECTED_SPECIAL, 1, None)
  ∧ rerex_compile false (c_str "(a|") = Some (REREX_UNEXPECTED_END, 3, None)
  ∧ rerex_compile false (c_str "[a-z") = Some (REREX_UNEXPECTED_END, 4, None)
  ∧ rerex_compile false (c_str "[]]")
    = Some (REREX_UNEXPECTED_SPECIAL, 1, None)
  ∧ rerex_compile false (c_str "[a]]")
    = Some (REREX_UNEXPECTED_SPECIAL, 3, None)
  ∧ rerex_compile false (c_str "[A-[]]")
    = Some (REREX_UNEXPECTED_SPECIAL, 5, None).
Proof. repeat split; vm_compute; reflexivity. Qed.

(** * Further properties *)

(** ** Results of the parser at different recursion bounds *)

Lemma parse_atom_mono fuel fuel' l :
  settled (parse_atom fuel l) → fuel ≤ fuel' →
  parse_atom fuel' l = parse_atom fuel l.
Proof.
  intros H Hle. induction Hle as [|fuel' Hle IH]; [reflexivity|].
  rewrite <- IH. apply parse_mono. rewrite IH. exact H.
Qed.

Lemma parse_atom_same fuel fuel' l :
  settled (parse_atom fuel l) → settled (parse_atom fuel' l) →
  parse_atom fuel' l = parse_atom fuel l.
Proof.
  intros H H'. destruct (decide (fuel ≤ fuel')).
  - apply parse_atom_mono; assumption.
  - symmetry. apply parse_atom_mono; [assumption | lia].
Qed.

Lemma parse_term_same fuel fuel' l :
  settled (parse_term fuel l) → settled (parse_term fuel' l) →
  parse_term fuel' l = parse_term fuel l.
Proof.
  intros H H'. destruct (decide (fuel ≤ fuel')).
  - apply parse_term_mono; assumption.
  - symmetry. apply parse_term_mono; [assumption | lia].
Qed.

Lemma parse_expr_same fuel fuel' l :
  settled (parse_expr fuel l) → settled (parse_expr fuel' l) →
  parse_expr fuel' l = parse_expr fuel l.
Proof.
  intros H H'. destruct (decide (fuel ≤ fuel')).
  - apply parse_expr_mono; assumption.
  - symmetry. apply parse_expr_mono; [assumption | lia].
Qed.

Lemma settled_ok {A : Type} (p : presult A) a l : p = ROk a l → settled p.
Proof. intros ->. discriminate. Qed.

Lemma settled_err {A : Type} (p : presult A) st l b :
  p = RErr st l b → settled p.
Proof. intros ->. discriminate. Qed.

Lemma parse_atom_compile_settled p : settled (parse_atom (compile_fuel p) p).
Proof. apply parse_settled. unfold compile_fuel. lia. Qed.

Lemma parse_term_compile_settled p : settled (parse_term (compile_fuel p) p).
Proof. apply parse_settled. unfold compile_fuel. lia. Qed.

(** The result of [rerex_compile], by the result of the parser to trees
    with any recursion bound that it does not meet. *)
Lemma rerex_compile_ok cs p fuel r l' :
  parse_expr fuel p = ROk r l' →
  rerex_compile cs p
  = Some (REREX_SUCCESS, length p - length l', Some (pattern_of cs r)).
Proof.
  intros H. apply rerex_compile_tree_intro.
  rewrite (parse_expr_same fuel); eauto using settled_ok,
    parse_expr_compile_settled.
Qed.

Lemma rerex_compile_err cs p fuel st l' b :
  parse_expr fuel p = RErr st l' b →
  rerex_compile cs p = Some (st, length p - length l', None).
Proof.
  intros H. apply (rerex_compile_error cs p st l' b).
  rewrite (parse_expr_same fuel); eauto using settled_err,
    parse_expr_compile_settled.
Qed.

(** *** Atoms and terms that span the pattern *)

Lemma input_at_self (p : list Z) : mkInput p 0 = input_at p p.
Proof. unfold input_at. rewrite Nat.sub_diag. reflexivity. Qed.

Lemma is_atom_lift cs p :
  is_atom cs p
  = match parse_atom (compile_fuel p) p with
    | ROk _ l' => length p - length l' =? length p
    | _ => false
    end.
Proof.
  unfold is_atom. rewrite input_at_self.
  destruct (read_parse cs (compile_fuel p) p p null_array) as (-> & _);
    [reflexivity|].
  destruct (parse_atom (compile_fuel p) p) as [r l'| |]; cbn [lift];
    try reflexivity.
  destruct (build cs r null_array). reflexivity.
Qed.

Lemma is_term_lift cs p :
  is_term cs p
  = match parse_term (compile_fuel p) p with
    | ROk _ l' => length p - length l' =? length p
    | _ => false
    end.
Proof.
  unfold is_term. rewrite input_at_self.
  destruct (read_parse cs (compile_fuel p) p p null_array) as (_ & _ & -> & _);
    [reflexivity|].
  destruct (parse_term (compile_fuel p) p) as [r l'| |]; cbn [lift];
    try reflexivity.
  destruct (build cs r null_array). reflexivity.
Qed.

Lemma is_atom_parse cs p :
  is_atom cs p = true → ∃ r, parse_atom (compile_fuel p) p = ROk r [].
Proof.
  rewrite is_atom_lift.
  pose proof (parse_suffix (compile_fuel p) p) as (Hs & _).
  destruct (parse_atom (compile_fuel p) p) as [r l'| |] eqn:E;
    try discriminate.
  intros H. apply Nat.eqb_eq in H. simpl in Hs. apply suffix_length in Hs.
  destruct p as [|c p]; [vm_compute in E; discriminate|].
  destruct l' as [|c' l']; [|simpl in *; lia].
  exists r. reflexivity.
Qed.

Lemma is_atom_intro cs p fuel r :
  parse_atom fuel p = ROk r [] → is_atom cs p = true.
Proof.
  intros H. rewrite is_atom_lift.
  rewrite (parse_atom_same fuel); eauto using settled_ok,
    parse_atom_compile_settled.
  rewrite H. cbn [length]. rewrite Nat.sub_0_r. apply Nat.eqb_refl.
Qed.

Lemma is_term_intro cs p fuel r :
  parse_term fuel p = ROk r [] → is_term cs p = true.
Proof.
  intros H. rewrite is_term_lift.
  rewrite (parse_term_same fuel); eauto using settled_ok,
    parse_term_compile_settled.
  rewrite H. cbn [length]. rewrite Nat.sub_0_r. apply Nat.eqb_refl.
Qed.

(** What spans the pattern as an atom spans it as a factor, a term and an
    expression. *)
Lemma parse_atom_factor fuel p r :
  parse_atom fuel p = ROk r [] → parse_factor (S fuel) p = ROk r [].
Proof. intros H. rewrite parse_factor_S, H. reflexivity. Qed.

Lemma parse_factor_term fuel p r :
  parse_factor fuel p = ROk r [] → parse_term (S fuel) p = ROk r [].
Proof. intros H. rewrite parse_term_S, H. reflexivity. Qed.

Lemma parse_term_whole fuel p r :
  parse_term fuel p = ROk r [] → parse_expr (S fuel) p = ROk r [].
Proof. intros H. rewrite parse_expr_S, H. reflexivity. Qed.

Lemma parse_atom_whole fuel p r :
  parse_atom fuel p = ROk r [] → parse_expr (S (S (S fuel))) p = ROk r [].
Proof.
  intros H. apply parse_term_whole, parse_factor_term, parse_atom_factor, H.
Qed.

Lemma parse_atom_wf fuel l r l' : parse_atom fuel l = ROk r l' → regex_wf r.
Proof.
  intros H. pose proof (parse_wf fuel l) as (Hwf & _).
  rewrite H in Hwf. exact Hwf.
Qed.

Lemma rerex_compile_whole cs p fuel r :
  parse_expr fuel p = ROk r [] →
  rerex_compile cs p = Some (REREX_SUCCESS, length p, Some (pattern_of cs r)).
Proof.
  intros H. rewrite (rerex_compile_ok cs p fuel r [] H).
  cbn [length]. rewrite Nat.sub_0_r. reflexivity.
Qed.

(** ** Words of a text *)

(** The parts of a text are texts that the matcher can be given. *)
Lemma part_nonzero (s : list Z) w1 w w2 :
  until_nul s = w1 ++ w ++ w2 → until_nul w = w.
Proof.
  intros H. apply until_nul_id. pose proof (until_nul_nonzero s) as Hz.
  rewrite H in Hz. apply Forall_app in Hz as [_ Hz].
  apply Forall_app in Hz as [Hz _]. exact Hz.
Qed.

Lemma part_length (s : list Z) w1 w w2 :
  until_nul s = w1 ++ w ++ w2 → length w ≤ length s.
Proof.
  intros H. pose proof (until_nul_length s) as Hl.
  rewrite H, !length_app in Hl. lia.
Qed.

Section Parts.

Variable SIZE_MAX : N.

(** Matching a part of the text decides the language of the tree. *)
Lemma verdict_part cs r s w1 w w2 :
  regex_wf r → (N.of_nat (length s) < SIZE_MAX)%N →
  until_nul s = w1 ++ w ++ w2 →
  verdict SIZE_MAX (pattern_of cs r) w = Some true ↔ denote r w.
Proof.
  intros Hwf Hmax Hs. pose proof (part_length s w1 w w2 Hs).
  rewrite (verdict_true SIZE_MAX cs r w Hwf) by lia.
  rewrite (part_nonzero s w1 w w2 Hs). reflexivity.
Qed.

End Parts.

(** ** The postfix operators *)

Lemma lang_star_concat (L : lang) w :
  lang_star L w ↔ ∃ ws, w = List.concat ws ∧ Forall L ws.
Proof.
  split.
  - induction 1 as [|w1 w2 H1 _ (ws & -> & Hws)].
    + exists []. split; [reflexivity | constructor].
    + exists (w1 :: ws). split; [reflexivity | constructor; assumption].
  - intros (ws & -> & Hws). induction Hws as [|w ws Hw _ IH]; simpl.
    + constructor.
    + constructor; assumption.
Qed.

Lemma concat_part (ws : list (list Z)) w :
  w ∈ ws → ∃ w1 w2, List.concat ws = w1 ++ w ++ w2.
Proof.
  induction ws as [|v ws IH]; intros Hin; [inversion Hin|].
  apply elem_of_cons in Hin as [-> | Hin].
  - exists [], (List.concat ws). reflexivity.
  - destruct (IH Hin) as (w1 & w2 & Heq). exists (v ++ w1), w2.
    simpl. rewrite Heq, <- app_assoc. reflexivity.
Qed.

Lemma parse_atom_then fuel A r t :
  parse_atom fuel A = ROk r [] → parse_atom fuel (A ++ t) = ROk r t.
Proof. intros H. exact (proj1 (parse_ext fuel A t) r [] H). Qed.

Lemma parse_star fuel A r :
  parse_atom fuel A = ROk r [] →
  parse_factor (S fuel) (A ++ [ch "*"]) = ROk (RStar r) [].
Proof.
  intros H. rewrite parse_factor_S, (parse_atom_then _ _ _ [ch "*"] H).
  reflexivity.
Qed.

Lemma parse_plus fuel A r :
  parse_atom fuel A = ROk r [] →
  parse_factor (S fuel) (A ++ [ch "+"]) = ROk (RPlus r) [].
Proof.
  intros H. rewrite parse_factor_S, (parse_atom_then _ _ _ [ch "+"] H).
  reflexivity.
Qed.

Lemma parse_question fuel A r :
  parse_atom fuel A = ROk r [] →
  parse_factor (S fuel) (A ++ [ch "?"]) = ROk (RQuestion r) [].
Proof.
  intros H. rewrite parse_factor_S, (parse_atom_then _ _ _ [ch "?"] H).
  reflexivity.
Qed.

Section Postfix.

Variable SIZE_MAX : N.

(** The verdicts of the pattern of [r] on the words of a list that makes
    up the text. *)
Lemma verdict_words cs r s ws :
  regex_wf r → (N.of_nat (length s) < SIZE_MAX)%N →
  until_nul s = List.concat ws →
  Forall (λ w, verdict SIZE_MAX (pattern_of cs r) w = Some true) ws
  ↔ Forall (denote r) ws.
Proof.
  intros Hwf Hmax Hs. rewrite !Forall_forall.
  split; intros H w Hw; destruct (concat_part ws w Hw) as (w1 & w2 & Heq);
    rewrite <- Hs in Heq;
    apply (verdict_part SIZE_MAX cs r s w1 w w2 Hwf Hmax Heq); auto.
Qed.

(** What the three patterns of an atom with an operator have in common. *)
Lemma postfix_compile cs A op r r' :
  parse_atom (compile_fuel A) A = ROk r [] →
  parse_factor (S (compile_fuel A)) (A ++ [op]) = ROk r' [] →
  rerex_compile cs A = Some (REREX_SUCCESS, length A, Some (pattern_of cs r))
  ∧ rerex_compile cs (A ++ [op])
    = Some (REREX_SUCCESS, length A + 1, Some (pattern_of cs r'))
  ∧ is_term cs (A ++ [op]) = true
  ∧ regex_wf r ∧ regex_wf r'.
Proof.
  intros HA Hop.
  pose proof (parse_atom_wf _ _ _ _ HA) as Hwf.
  pose proof (parse_wf (S (compile_fuel A)) (A ++ [op])) as (_ & Hwf' & _).
  rewrite Hop in Hwf'. cbn [presult_wf] in Hwf'.
  apply parse_factor_term in Hop.
  split; [|split; [|split; [|split]]]; auto.
  - eapply rerex_compile_whole, parse_atom_whole, HA.
  - rewrite (rerex_compile_whole cs _ _ _ (parse_term_whole _ _ _ Hop)).
    rewrite length_app. reflexivity.
  - eapply is_term_intro, Hop.
Qed.

(** X1. For every atom [A], the pattern [A*] compiles, is a term, and
    matches the texts made of any number of parts that [A] matches. *)
Theorem star_verdict cs A s :
  is_atom cs A = true → (N.of_nat (length s) < SIZE_MAX)%N →
  ∃ pA pS b,
    rerex_compile cs A = Some (REREX_SUCCESS, length A, Some pA)
    ∧ rerex_compile cs (A ++ [ch "*"])
      = Some (REREX_SUCCESS, length A + 1, Some pS)
    ∧ is_term cs (A ++ [ch "*"]) = true
    ∧ verdict SIZE_MAX pS s = Some b
    ∧ (b = true ↔
       ∃ ws, until_nul s = List.concat ws
             ∧ Forall (λ w, verdict SIZE_MAX pA w = Some true) ws).
Proof.
  intros HA Hmax. destruct (is_atom_parse cs A HA) as (r & Hr).
  destruct (postfix_compile cs A _ r _ Hr (parse_star _ _ _ Hr))
    as (H1 & H2 & H3 & Hwf & Hwf').
  destruct (verdict_tree SIZE_MAX cs _ s Hwf' Hmax) as (b & Hv & Hb).
  exists (pattern_of cs r), (pattern_of cs (RStar r)), b.
  do 4 (split; [assumption|]). rewrite Hb. cbn [denote].
  rewrite lang_star_concat. split; intros (ws & Hs & Hws); exists ws;
    (split; [exact Hs|]); apply (verdict_words cs r s ws Hwf Hmax Hs);
    exact Hws.
Qed.

(** X2. For every atom [A], the pattern [A+] compiles, is a term, and
    matches the texts made of one or more parts that [A] matches. *)
Theorem plus_verdict cs A s :
  is_atom cs A = true → (N.of_nat (length s) < SIZE_MAX)%N →
  ∃ pA pP b,
    rerex_compile cs A = Some (REREX_SUCCESS, length A, Some pA)
    ∧ rerex_compile cs (A ++ [ch "+"])
      = Some (REREX_SUCCESS, length A + 1, Some pP)
    ∧ is_term cs (A ++ [ch "+"]) = true
    ∧ verdict SIZE_MAX pP s = Some b
    ∧ (b = true ↔
       ∃ ws, ws ≠ [] ∧ until_nul s = List.concat ws
             ∧ Forall (λ w, verdict SIZE_MAX pA w = Some true) ws).
Proof.
  intros HA Hmax. destruct (is_atom_parse cs A HA) as (r & Hr).
  destruct (postfix_compile cs A _ r _ Hr (parse_plus _ _ _ Hr))
    as (H1 & H2 & H3 & Hwf & Hwf').
  destruct (verdict_tree SIZE_MAX cs _ s Hwf' Hmax) as (b & Hv & Hb).
  exists (pattern_of cs r), (pattern_of cs (RPlus r)), b.
  do 4 (split; [assumption|]). rewrite Hb. cbn [denote].
  unfold lang_plus, lang_concat. split.
  - intros (w & w' & Hs & Hw & Hstar).
    apply lang_star_concat in Hstar as (ws & -> & Hws).
    exists (w :: ws). split; [discriminate|]. split; [exact Hs|].
    apply (verdict_words cs r s (w :: ws) Hwf Hmax Hs).
    constructor; assumption.
  - intros (ws & Hne & Hs & Hws).
    apply (verdict_words cs r s ws Hwf Hmax Hs) in Hws.
    destruct Hws as [|w ws Hw Hws]; [done|].
    exists w, (List.concat ws). split; [exact Hs|]. split; [exact Hw|].
    apply lang_star_concat. exists ws. auto.
Qed.

(** X3. For every atom [A], the pattern [A?] compiles, is a term, and
    matches the empty text and the texts that [A] matches. *)
Theorem question_verdict cs A s :
  is_atom cs A = true → (N.of_nat (length s) < SIZE_MAX)%N →
  ∃ pA pQ bA,
    rerex_compile cs A = Some (REREX_SUCCESS, length A, Some pA)
    ∧ rerex_compile cs (A ++ [ch "?"])
      = Some (REREX_SUCCESS, length A + 1, Some pQ)
    ∧ is_term cs (A ++ [ch "?"]) = true
    ∧ verdict SIZE_MAX pA s = Some bA
    ∧ verdict SIZE_MAX pQ s
      = Some (if decide (until_nul s = []) then true else bA).
Proof.
  intros HA Hmax. destruct (is_atom_parse cs A HA) as (r & Hr).
  destruct (postfix_compile cs A _ r _ Hr (parse_question _ _ _ Hr))
    as (H1 & H2 & H3 & Hwf & Hwf').
  destruct (verdict_tree SIZE_MAX cs _ s Hwf' Hmax) as (b & Hv & Hb).
  destruct (verdict_tree SIZE_MAX cs _ s Hwf Hmax) as (bA & HvA & HbA).
  exists (pattern_of cs r), (pattern_of cs (RQuestion r)), bA.
  do 4 (split; [assumption|]). rewrite Hv. f_equal.
  cbn [denote] in Hb. unfold lang_opt in Hb. rewrite <- HbA in Hb.
  destruct (decide (until_nul s = [])) as [He | Hne].
  - apply Hb. auto.
  - destruct b, bA; try reflexivity; intuition discriminate.
Qed.

End Postfix.

Lemma star_verdict_witness :
  is_atom false (c_str "(ab)") = true
  ∧ ∃ pA pS b,
      rerex_compile false (c_str "(ab)") = Some (REREX_SUCCESS, 4, Some pA)
      ∧ rerex_compile false (c_str "(ab)*") = Some (REREX_SUCCESS, 5, Some pS)
      ∧ is_term false (c_str "(ab)*") = true
      ∧ verdict (2 ^ 64 - 1) pS (c_str "abab") = Some b
      ∧ (b = true ↔
         ∃ ws, c_str "abab" = List.concat ws
               ∧ Forall (λ w, verdict (2 ^ 64 - 1) pA w = Some true) ws).
Proof.
  split; [reflexivity|].
  apply (star_verdict (2 ^ 64 - 1) false (c_str "(ab)") (c_str "abab"));
    reflexivity.
Defined.

Lemma plus_verdict_witness :
  is_atom false (c_str "[b-d]") = true
  ∧ ∃ pA pP b,
      rerex_compile false (c_str "[b-d]") = Some (REREX_SUCCESS, 5, Some pA)
      ∧ rerex_compile false (c_str "[b-d]+") = Some (REREX_SUCCESS, 6, Some pP)
      ∧ is_term false (c_str "[b-d]+") = true
      ∧ verdict (2 ^ 64 - 1) pP (c_str "cc") = Some b
      ∧ (b = true ↔
         ∃ ws, ws ≠ [] ∧ c_str "cc" = List.concat ws
               ∧ Forall (λ w, verdict (2 ^ 64 - 1) pA w = Some true) ws).
Proof.
  split; [reflexivity|].
  apply (plus_verdict (2 ^ 64 - 1) false (c_str "[b-d]") (c_str "cc"));
    reflexivity.
Defined.

Lemma question_verdict_witness :
  is_atom false (c_str ".") = true
  ∧ ∃ pA pQ bA,
      rerex_compile false (c_str ".") = Some (REREX_SUCCESS, 1, Some pA)
      ∧ rerex_compile false (c_str ".?") = Some (REREX_SUCCESS, 2, Some pQ)
      ∧ is_term false (c_str ".?") = true
      ∧ verdict (2 ^ 64 - 1) pA (c_str "aa") = Some bA
      ∧ verdict (2 ^ 64 - 1) pQ (c_str "aa")
        = Some (if decide (c_str "aa" = []) then true else bA).
Proof.
  split; [reflexivity|].
  apply (question_verdict (2 ^ 64 - 1) false (c_str ".") (c_str "aa"));
    reflexivity.
Defined.

(** ** Atoms *)

Lemma plain_char_facts c :
  plain_char c = true →
  normal c ∧ is_special c = false ∧ (c =? ch "\")%Z = false
  ∧ (c =? 0)%Z = false.
Proof.
  unfold plain_char, normal. intros H.
  repeat (apply andb_prop in H as [H ?]).
  apply Z.leb_le in H. apply Z.leb_le in H2.
  repeat match goal with H : negb _ = true |- _ =>
           apply negb_true_iff in H end.
  repeat split; auto. apply Z.eqb_neq. unfold cmin in H. lia.
Qed.

Lemma not_special_opener c :
  is_special c = false →
  (c =? ch "(")%Z = false ∧ (c =? ch ".")%Z = false
  ∧ (c =? ch "[")%Z = false.
Proof.
  unfold is_special. intros H.
  repeat (apply orb_false_elim in H as [H ?]). auto.
Qed.

Lemma parse_plain_char c t :
  plain_char c = true → parse_atom 1 (c :: t) = ROk (RChar c) t.
Proof.
  intros H. destruct (plain_char_facts c H) as ((H1 & H2) & Hs & Hb & H0).
  destruct (not_special_opener c Hs) as (Ho1 & Ho2 & Ho3).
  rewrite parse_atom_S. cbn zeta. unfold parse_char.
  cbn [hd0 tail lookup list_lookup default from_option id].
  rewrite Ho1, Ho2, Ho3, H0, Hb, Hs.
  apply Z.leb_le in H1. apply Z.leb_le in H2. rewrite H1, H2. reflexivity.
Qed.

Lemma special_or_dash_facts c :
  is_special c || (c =? ch "-")%Z = true →
  normal c ∧ (c =? 0)%Z = false.
Proof.
  intros H. assert (normal c) as Hn.
  { apply orb_prop in H as [H | H]; [apply is_special_normal, H|].
    apply Z.eqb_eq in H. subst c.
    unfold normal, cmin, cmax. split; apply Z.leb_le; reflexivity. }
  split; [exact Hn|]. apply Z.eqb_neq. unfold normal, cmin in Hn. lia.
Qed.

Lemma parse_escaped c t :
  is_special c || (c =? ch "-")%Z = true →
  parse_atom 1 (ch "\" :: c :: t) = ROk (RChar c) t.
Proof.
  intros H. rewrite parse_atom_S. cbn zeta. unfold parse_char, parse_escape.
  cbn [hd0 tail lookup list_lookup default from_option id].
  rewrite H. reflexivity.
Qed.

Lemma denote_char c w : denote (RChar c) w ↔ w = [c].
Proof.
  cbn [denote]. unfold lang_range. split.
  - intros (c' & -> & H). f_equal. lia.
  - intros ->. exists c. split; [reflexivity | lia].
Qed.

Section Atoms.

Variable SIZE_MAX : N.

(** What the patterns of the atoms below have in common. *)
Lemma atom_verdict cs fuel p r s :
  parse_atom fuel p = ROk r [] → (N.of_nat (length s) < SIZE_MAX)%N →
  ∃ pat b,
    rerex_compile cs p = Some (REREX_SUCCESS, length p, Some pat)
    ∧ is_atom cs p = true
    ∧ verdict SIZE_MAX pat s = Some b
    ∧ (b = true ↔ denote r (until_nul s)).
Proof.
  intros Hp Hmax. pose proof (parse_atom_wf _ _ _ _ Hp) as Hwf.
  destruct (verdict_tree SIZE_MAX cs r s Hwf Hmax) as (b & Hv & Hb).
  exists (pattern_of cs r), b. split; [|split; [|split]]; auto.
  - eapply rerex_compile_whole, parse_atom_whole, Hp.
  - eapply is_atom_intro, Hp.
Qed.

(** X4. A printable character that is not special and not a backslash
    is a pattern, an atom, that matches the text made of that character
    and no other text. *)
Theorem literal_verdict cs c s :
  plain_char c = true → (N.of_nat (length s) < SIZE_MAX)%N →
  ∃ pat b,
    rerex_compile cs [c] = Some (REREX_SUCCESS, 1, Some pat)
    ∧ is_atom cs [c] = true
    ∧ verdict SIZE_MAX pat s = Some b
    ∧ (b = true ↔ until_nul s = [c]).
Proof.
  intros Hc Hmax.
  destruct (atom_verdict cs 1 [c] _ s (parse_plain_char c [] Hc) Hmax)
    as (pat & b & H1 & H2 & H3 & H4).
  exists pat, b. rewrite <- denote_char. auto.
Qed.

(** X5. A backslash followed by a special character or a dash is a
    pattern, an atom, that matches the text made of that character and no
    other text; followed by anything else, it is refused with the status
    of an expected special character, at the offset 1. *)
Theorem escape_verdict cs c rest s :
  (N.of_nat (length s) < SIZE_MAX)%N →
  (is_special c || (c =? ch "-")%Z = true →
   ∃ pat b,
     rerex_compile cs [ch "\"; c] = Some (REREX_SUCCESS, 2, Some pat)
     ∧ is_atom cs [ch "\"; c] = true
     ∧ verdict SIZE_MAX pat s = Some b
     ∧ (b = true ↔ until_nul s = [c]))
  ∧ (is_special (hd0 rest) || (hd0 rest =? ch "-")%Z = false →
     rerex_compile cs (ch "\" :: rest)
     = Some (REREX_EXPECTED_SPECIAL, 1, None)).
Proof.
  intros Hmax. split.
  - intros Hc.
    destruct (atom_verdict cs 1 [ch "\"; c] _ s (parse_escaped c [] Hc) Hmax)
      as (pat & b & H1 & H2 & H3 & H4).
    exists pat, b. rewrite <- denote_char. auto.
  - intros Hc.
    assert (parse_expr 4 (ch "\" :: rest)
            = RErr REREX_EXPECTED_SPECIAL rest 0) as H.
    { rewrite parse_expr_S, parse_term_S, parse_factor_S, parse_atom_S.
      cbn zeta. unfold parse_char, parse_escape.
      change (tail (ch "\" :: rest)) with rest.
      change (hd0 (ch "\" :: rest)) with (ch "\").
      rewrite Hc. reflexivity. }
    rewrite (rerex_compile_err cs _ _ _ _ _ H). cbn [length].
    repeat f_equal. lia.
Qed.

(** X6. The pattern of a dot is an atom that matches the texts made of one
    printable character. *)
Theorem dot_verdict cs s :
  (N.of_nat (length s) < SIZE_MAX)%N →
  ∃ pat b,
    rerex_compile cs [ch "."] = Some (REREX_SUCCESS, 1, Some pat)
    ∧ is_atom cs [ch "."] = true
    ∧ verdict SIZE_MAX pat s = Some b
    ∧ (b = true ↔ ∃ c, until_nul s = [c] ∧ (0x20 <= c <= 0x7E)%Z).
Proof.
  intros Hmax.
  destruct (atom_verdict cs 1 [ch "."] RDot s eq_refl Hmax)
    as (pat & b & H1 & H2 & H3 & H4).
  exists pat, b. auto.
Qed.

End Atoms.

Lemma literal_verdict_witness :
  plain_char (ch "a") = true
  ∧ ∃ pat b,
      rerex_compile false [ch "a"] = Some (REREX_SUCCESS, 1, Some pat)
      ∧ is_atom false [ch "a"] = true
      ∧ verdict (2 ^ 64 - 1) pat (c_str "ab") = Some b
      ∧ (b = true ↔ c_str "ab" = [ch "a"]).
Proof.
  split; [reflexivity|].
  apply (literal_verdict (2 ^ 64 - 1) false (ch "a") (c_str "ab"));
    reflexivity.
Defined.

Lemma escape_verdict_witness :
  (∃ pat b,
      rerex_compile false (c_str "\*") = Some (REREX_SUCCESS, 2, Some pat)
      ∧ is_atom false (c_str "\*") = true
      ∧ verdict (2 ^ 64 - 1) pat (c_str "*") = Some b
      ∧ (b = true ↔ c_str "*" = [ch "*"]))
  ∧ rerex_compile false (c_str "\n") = Some (REREX_EXPECTED_SPECIAL, 1, None).
Proof.
  destruct (escape_verdict (2 ^ 64 - 1) false (ch "*") (c_str "n")
              (c_str "*") eq_refl) as [H1 H2].
  split; [apply H1; reflexivity | apply H2; reflexivity].
Defined.

Lemma dot_verdict_witness :
  ∃ pat b,
    rerex_compile false [ch "."] = Some (REREX_SUCCESS, 1, Some pat)
    ∧ is_atom false [ch "."] = true
    ∧ verdict (2 ^ 64 - 1) pat [9%Z] = Some b
    ∧ (b = true ↔ ∃ c, [9%Z] = [c] ∧ (0x20 <= c <= 0x7E)%Z).
Proof.
  apply (dot_verdict (2 ^ 64 - 1) false [9%Z]). reflexivity.
Defined.

(** ** Groups *)

Lemma parse_group fuel A r t :
  parse_expr fuel A = ROk r [] →
  parse_atom (S fuel) (ch "(" :: A ++ ch ")" :: t) = ROk r t.
Proof.
  intros H. rewrite parse_atom_S. cbn zeta.
  cbn [hd0 tail lookup list_lookup default from_option id].
  change (ch "(" =? ch "(")%Z with true. cbv iota.
  rewrite (parse_expr_ext _ _ (ch ")" :: t) _ _ H (λ _, eq_refl)).
  reflexivity.
Qed.

(** X7. A pattern that compiles as a whole, put in parentheses, is an
    atom that compiles to the very same pattern: the parentheses add no
    state. *)
Theorem group_pattern cs A pat :
  rerex_compile cs A = Some (REREX_SUCCESS, length A, Some pat) →
  rerex_compile cs (ch "(" :: A ++ [ch ")"])
  = Some (REREX_SUCCESS, length A + 2, Some pat)
  ∧ is_atom cs (ch "(" :: A ++ [ch ")"]) = true.
Proof.
  intros H. destruct (rerex_compile_full cs A pat H) as (r & Hp & _ & ->).
  pose proof (parse_group _ _ _ [] Hp) as Hg. split.
  - rewrite (rerex_compile_whole cs _ _ _ (parse_atom_whole _ _ _ Hg)).
    cbn [length]. rewrite length_app. cbn [length].
    repeat f_equal. lia.
  - eapply is_atom_intro, Hg.
Qed.

Lemma group_pattern_witness :
  rerex_compile false (c_str "a|b")
  = Some (REREX_SUCCESS, 3,
          Some (pattern_of false (RAlternate (RChar 97) (RChar 98))))
  ∧ rerex_compile false (c_str "(a|b)")
    = Some (REREX_SUCCESS, 5,
            Some (pattern_of false (RAlternate (RChar 97) (RChar 98))))
  ∧ is_atom false (c_str "(a|b)") = true.
Proof.
  split; [reflexivity|].
  apply (group_pattern false (c_str "a|b")). reflexivity.
Defined.

(** ** Sets *)

Lemma item_text_head i rest :
  item_text i ++ rest = item_head i :: tail (item_text i ++ rest).
Proof. destruct i; reflexivity. Qed.

Lemma plain_element_facts c :
  plain_element c = true →
  normal c ∧ (c =? ch "]")%Z = false ∧ (c =? ch "^")%Z = false.
Proof.
  unfold plain_element, normal. intros H.
  repeat (apply andb_prop in H as [H ?]).
  apply Z.leb_le in H. apply Z.leb_le in H3.
  repeat match goal with H : negb _ = true |- _ =>
           apply negb_true_iff in H end.
  auto.
Qed.

Lemma item_ok_head i :
  item_ok i = true →
  (item_head i =? ch "]")%Z = false ∧ (item_head i =? ch "^")%Z = false
  ∧ (item_head i =? ch "-")%Z = false.
Proof.
  destruct i as [c | lo hi |]; cbn [item_ok item_head]; intros H.
  - apply andb_prop in H as [H H'].
    apply negb_true_iff in H'.
    destruct (plain_element_facts c H) as (_ & ? & ?). auto.
  - apply andb_prop in H as [H _]. apply andb_prop in H as [H _].
    apply andb_prop in H as [H H']. apply negb_true_iff in H'.
    destruct (plain_element_facts lo H) as (_ & ? & ?). auto.
  - repeat split; reflexivity.
Qed.

Lemma item_ok_range i :
  item_ok i = true → range_wf (item_range i).
Proof.
  destruct i as [c | lo hi |]; cbn [item_ok item_range]; intros H.
  - apply andb_prop in H as [H _].
    destruct (plain_element_facts c H) as (Hn & _). split; [|split]; auto.
    simpl. lia.
  - apply andb_prop in H as [H Hle]. apply andb_prop in H as [H Hhi].
    apply andb_prop in H as [H _].
    destruct (plain_element_facts lo H) as (Hn & _).
    destruct (plain_element_facts hi Hhi) as (Hn' & _).
    split; [|split]; auto. simpl. apply Z.leb_le. assumption.
  - unfold range_wf, normal, cmin, cmax. simpl.
    repeat split; apply Z.leb_le; reflexivity.
Qed.

(** The text of an item is read as the item, if a dash does not follow a
    single character. *)
Lemma parse_range_item i rest :
  item_ok i = true → (hd0 rest =? ch "-")%Z = false →
  parse_range (item_text i ++ rest) = ROk (item_range i) rest.
Proof.
  destruct i as [c | lo hi |]; cbn [item_ok item_text item_range app];
    intros H Hrest; unfold parse_range.
  - apply andb_prop in H as [H _].
    rewrite (plain_element_parse c _ H), Hrest. cbn [andb].
    rewrite Z.ltb_irrefl. reflexivity.
  - apply andb_prop in H as [H H0]. apply andb_prop in H as [H H1].
    apply andb_prop in H as [H _].
    rewrite (plain_element_parse lo _ H).
    destruct (plain_element_facts hi H1) as (_ & Hb & _).
    change (hd0 (ch "-" :: hi :: rest)) with (ch "-").
    change (hd1 (ch "-" :: hi :: rest)) with hi.
    change (tail (ch "-" :: hi :: rest)) with (hi :: rest).
    rewrite Hb. change ((ch "-" =? ch "-")%Z && negb false) with true.
    cbv iota. rewrite (plain_element_parse hi _ H1).
    apply Z.leb_le in H0.
    destruct (Z.ltb_spec hi lo); [lia | reflexivity].
  - change (parse_element (ch "\" :: ch "]" :: rest))
      with (CROk (ch "]") rest).
    cbv iota beta. rewrite Hrest. reflexivity.
Qed.

Lemma hd0_items_text items rest :
  forallb item_ok items = true → (hd0 rest =? ch "-")%Z = false →
  (hd0 (items_text items ++ rest) =? ch "-")%Z = false.
Proof.
  destruct items as [|i items]; [auto|]. cbn [forallb items_text].
  intros H _. apply andb_prop in H as [H _].
  rewrite <- app_assoc, item_text_head.
  apply (item_ok_head i H).
Qed.

(** The loop of the set reads the items and goes on with what follows
    them. *)
Lemma parse_set_loop_items items :
  ∀ rest fuel,
    forallb item_ok items = true → (hd0 rest =? ch "-")%Z = false →
    parse_set_loop (length items + fuel) (items_text items ++ rest)
    = match parse_set_loop fuel rest with
      | ROk rs l => ROk (map item_range items ++ rs) l
      | e => e
      end.
Proof.
  induction items as [|i items IH]; intros rest fuel Hok Hrest.
  - cbn [length items_text app map Nat.add].
    destruct (parse_set_loop fuel rest); reflexivity.
  - cbn [forallb] in Hok. apply andb_prop in Hok as [Hi Hok].
    cbn [length items_text map Nat.add]. rewrite <- !app_assoc.
    rewrite parse_set_loop_S.
    destruct (item_ok_head i Hi) as (Hb & _ & _).
    rewrite (item_text_head i) at 1.
    change (hd0 (item_head i :: ?l)) with (item_head i). rewrite Hb.
    rewrite (parse_range_item i _ Hi (hd0_items_text items rest Hok Hrest)).
    rewrite (IH rest fuel Hok Hrest).
    destruct (parse_set_loop fuel rest); reflexivity.
Qed.

Lemma parse_set_items (negated : bool) i items rest fuel :
  forallb item_ok (i :: items) = true → (hd0 rest =? ch "-")%Z = false →
  parse_set (length items + fuel)
    ((if negated then [ch "^"] else []) ++ items_text (i :: items) ++ rest)
  = match parse_set_loop fuel rest with
    | ROk rs l =>
      ROk (RSet negated (item_range i) (map item_range items ++ rs)) l
    | RErr st l b => RErr st l b
    | RFuel => RFuel
    end.
Proof.
  cbn [forallb]. intros Hok Hrest. apply andb_prop in Hok as [Hi Hok].
  destruct (item_ok_head i Hi) as (_ & Hc & _).
  cbn [items_text]. rewrite <- !app_assoc.
  pose proof (parse_range_item i _ Hi (hd0_items_text items rest Hok Hrest))
    as Hr.
  pose proof (parse_set_loop_items items rest fuel Hok Hrest) as Hl.
  unfold parse_set. destruct negated; cbn [app].
  - change (hd0 (ch "^" :: ?l)) with (ch "^").
    change (ch "^" =? ch "^")%Z with true. cbv iota. cbn [tail].
    rewrite Hr, Hl. destruct (parse_set_loop fuel rest); reflexivity.
  - rewrite (item_text_head i) at 1.
    change (hd0 (item_head i :: ?l)) with (item_head i). rewrite Hc.
    rewrite Hr, Hl.
    destruct (parse_set_loop fuel rest); reflexivity.
Qed.

Lemma set_text_app negated items :
  set_text negated items
  = ch "[" :: (if negated then [ch "^"] else [])
    ++ items_text items ++ [ch "]"].
Proof. reflexivity. Qed.

Lemma parse_atom_set (negated : bool) i items :
  forallb item_ok (i :: items) = true →
  parse_atom (S (length items)) (set_text negated (i :: items))
  = ROk (RSet negated (item_range i) (map item_range items)) [].
Proof.
  intros Hok. rewrite parse_atom_S. cbn zeta. unfold set_text.
  change (hd0 (ch "[" :: ?l)) with (ch "[").
  change (ch "[" =? ch "(")%Z with false.
  change (ch "[" =? ch ".")%Z with false.
  change (ch "[" =? ch "[")%Z with true. cbv iota. cbn [tail].
  pose proof (parse_set_items negated i items [ch "]"] 0 Hok eq_refl) as H.
  rewrite Nat.add_0_r in H. rewrite H. cbn [parse_set_loop].
  change (hd0 [ch "]"] =? ch "]")%Z with true. cbv iota.
  rewrite app_nil_r. reflexivity.
Qed.

Lemma length_set_text negated items :
  length (set_text negated items)
  = 2 + (if negated then 1 else 0) + length (items_text items).
Proof.
  unfold set_text. cbn [length]. rewrite !length_app.
  destruct negated; cbn [length]; lia.
Qed.

Section Sets.

Variable SIZE_MAX : N.

(** X8. A set of one or more items, single characters, spans in order and
    closing brackets after a backslash, is an atom that matches the texts
    made of one character that is in one of the items. *)
Theorem set_verdict cs i items s :
  forallb item_ok (i :: items) = true →
  (N.of_nat (length s) < SIZE_MAX)%N →
  ∃ pat b,
    rerex_compile cs (set_text false (i :: items))
    = Some (REREX_SUCCESS, length (set_text false (i :: items)), Some pat)
    ∧ is_atom cs (set_text false (i :: items)) = true
    ∧ verdict SIZE_MAX pat s = Some b
    ∧ (b = true ↔
       ∃ c it, until_nul s = [c] ∧ it ∈ i :: items
               ∧ ((item_range it).1 <= c <= (item_range it).2)%Z).
Proof.
  intros Hok Hmax.
  destruct (atom_verdict SIZE_MAX cs _ _ _ s (parse_atom_set false i items Hok)
              Hmax) as (pat & b & H1 & H2 & H3 & H4).
  exists pat, b. do 3 (split; [assumption|]). rewrite H4.
  cbn [denote lang_class]. unfold lang_range.
  change (item_range i :: map item_range items)
    with (map item_range (i :: items)).
  split.
  - intros (r & Hr & c & Hs & Hc).
    apply list_elem_of_fmap in Hr as (it & -> & Hit). eauto 10.
  - intros (c & it & Hs & Hit & Hc). exists (item_range it). split.
    + apply list_elem_of_fmap. eauto.
    + eauto.
Qed.

(** X9. A negated set of one item is an atom that matches the texts made
    of one printable character that is not in the item. *)
Theorem negated_item_verdict cs i s :
  item_ok i = true → (N.of_nat (length s) < SIZE_MAX)%N →
  ∃ pat b,
    rerex_compile cs (set_text true [i])
    = Some (REREX_SUCCESS, length (set_text true [i]), Some pat)
    ∧ is_atom cs (set_text true [i]) = true
    ∧ verdict SIZE_MAX pat s = Some b
    ∧ (b = true ↔
       ∃ c, until_nul s = [c] ∧ (0x20 <= c <= 0x7E)%Z
            ∧ ¬ ((item_range i).1 <= c <= (item_range i).2)%Z).
Proof.
  intros Hi Hmax.
  assert (forallb item_ok [i] = true) as Hok
      by (cbn [forallb]; rewrite Hi; reflexivity).
  destruct (atom_verdict SIZE_MAX cs _ _ _ s (parse_atom_set true i [] Hok)
              Hmax) as (pat & b & H1 & H2 & H3 & H4).
  exists pat, b. do 3 (split; [assumption|]). rewrite H4.
  destruct (item_ok_range i Hi) as ((Hl1 & Hl2) & (Hh1 & Hh2) & Hle).
  unfold cmin, cmax in *.
  cbn [denote lang_class map]. split.
  - intros (r & Hr & c & Hs & Hc). apply list_elem_of_singleton in Hr as ->.
    exists c. unfold cmin, cmax in Hc. split; [exact Hs|]. lia.
  - intros (c & Hs & Hc & Hn). exists (item_range i).
    split; [apply list_elem_of_singleton; reflexivity|].
    exists c. unfold cmin, cmax. split; [exact Hs|]. lia.
Qed.

End Sets.

Lemma set_verdict_witness :
  forallb item_ok [Span (ch "A") (ch "Z"); Single (ch "_")] = true
  ∧ ∃ pat b,
      rerex_compile false (c_str "[A-Z_]") = Some (REREX_SUCCESS, 6, Some pat)
      ∧ is_atom false (c_str "[A-Z_]") = true
      ∧ verdict (2 ^ 64 - 1) pat (c_str "M") = Some b
      ∧ (b = true ↔
         ∃ c it, c_str "M" = [c]
                 ∧ it ∈ [Span (ch "A") (ch "Z"); Single (ch "_")]
                 ∧ ((item_range it).1 <= c <= (item_range it).2)%Z).
Proof.
  split; [reflexivity|].
  apply (set_verdict (2 ^ 64 - 1) false (Span (ch "A") (ch "Z"))
           [Single (ch "_")] (c_str "M")); reflexivity.
Defined.

Lemma negated_item_verdict_witness :
  item_ok (Span (ch "b") (ch "d")) = true
  ∧ ∃ pat b,
      rerex_compile false (c_str "[^b-d]") = Some (REREX_SUCCESS, 6, Some pat)
      ∧ is_atom false (c_str "[^b-d]") = true
      ∧ verdict (2 ^ 64 - 1) pat (c_str "c") = Some b
      ∧ (b = true ↔
         ∃ c, c_str "c" = [c] ∧ (0x20 <= c <= 0x7E)%Z
              ∧ ¬ (ch "b" <= c <= ch "d")%Z).
Proof.
  split; [reflexivity|].
  apply (negated_item_verdict (2 ^ 64 - 1) false (Span (ch "b") (ch "d"))
           (c_str "c")); reflexivity.
Defined.

(** ** Patterns that are refused *)

(** A failed compilation, by the error of the parser to trees. *)
Lemma rerex_compile_failure cs p st n :
  rerex_compile cs p = Some (st, n, None) →
  ∃ l' b, parse_expr (compile_fuel p) p = RErr st l' b
          ∧ length l' ≤ length p ∧ n = length p - length l'.
Proof.
  unfold rerex_compile. rewrite parse_pattern_parse.
  pose proof (parse_suffix (compile_fuel p) p) as (_ & _ & _ & Hs).
  destruct (parse_expr (compile_fuel p) p) as [r l' | st' l' b |];
    cbn [lift]; [destruct (build cs r null_array); discriminate | |
                 discriminate].
  intros [= -> <-]. simpl in Hs. apply suffix_length in Hs.
  exists l', b. auto.
Qed.

(** An error of the atom at the start is the error of the expression. *)
Lemma parse_atom_err_expr fuel p st l' b :
  parse_atom fuel p = RErr st l' b →
  parse_expr (S (S (S fuel))) p = RErr st l' b.
Proof.
  intros H. rewrite parse_expr_S, parse_term_S, parse_factor_S, H.
  reflexivity.
Qed.

(** *** The first character *)

Lemma special_not_backslash c :
  is_special c = true → (c =? ch "\")%Z = false.
Proof.
  intros H. apply Z.eqb_neq. intros ->. discriminate.
Qed.

Lemma not_normal_facts c :
  ¬ (0x20 <= c <= 0x7E)%Z →
  is_special c = false ∧ (c =? ch "\")%Z = false
  ∧ (cmin <=? c)%Z && (c <=? cmax)%Z = false.
Proof.
  intros H. split; [|split].
  - destruct (is_special c) eqn:E; [|reflexivity].
    apply is_special_normal in E. unfold normal, cmin, cmax in E. lia.
  - apply Z.eqb_neq. intros ->. apply H. split; apply Z.leb_le; reflexivity.
  - apply andb_false_iff. unfold cmin, cmax.
    rewrite !Z.leb_gt. lia.
Qed.

Lemma parse_atom_bad_start c rest st :
  (c =? ch "(")%Z = false → (c =? ch ".")%Z = false →
  (c =? ch "[")%Z = false →
  parse_char (c :: rest) = CRErr st (c :: rest) 0 →
  parse_atom 1 (c :: rest) = RErr st (c :: rest) 0.
Proof.
  intros H1 H2 H3 H. rewrite parse_atom_S. cbn zeta.
  change (hd0 (c :: rest)) with c. rewrite H1, H2, H3, H. reflexivity.
Qed.

Lemma parse_char_special c rest :
  is_special c = true →
  parse_char (c :: rest) = CRErr REREX_UNEXPECTED_SPECIAL (c :: rest) 0.
Proof.
  intros H. unfold parse_char. change (hd0 (c :: rest)) with c.
  assert (is_special c || (c =? ch "-")%Z = true) as H'
      by (rewrite H; reflexivity).
  destruct (special_or_dash_facts c H') as [_ H0].
  rewrite H0, (special_not_backslash c H), H. reflexivity.
Qed.

Lemma compile_bad_start cs c rest st :
  parse_atom 1 (c :: rest) = RErr st (c :: rest) 0 →
  rerex_compile cs (c :: rest) = Some (st, 0, None).
Proof.
  intros H. rewrite (rerex_compile_err cs _ _ _ _ _ (parse_atom_err_expr _ _ _ _ _ H)).
  rewrite Nat.sub_diag. reflexivity.
Qed.

(** X10. The empty pattern, and a pattern that starts with the
    terminator, are refused with the status of an unexpected end; a
    pattern that starts with a special character other than an opening
    parenthesis, a dot or an opening bracket, with that of an unexpected
    special character; one that starts with a character that is not
    printable, with that of an expected character; the offset is 0. *)
Theorem first_character_errors cs c rest :
  rerex_compile cs [] = Some (REREX_UNEXPECTED_END, 0, None)
  ∧ (c = 0%Z →
     rerex_compile cs (c :: rest) = Some (REREX_UNEXPECTED_END, 0, None))
  ∧ (is_special c = true →
     c ≠ ch "(" → c ≠ ch "." → c ≠ ch "[" →
     rerex_compile cs (c :: rest) = Some (REREX_UNEXPECTED_SPECIAL, 0, None))
  ∧ (c ≠ 0%Z → ¬ (0x20 <= c <= 0x7E)%Z →
     rerex_compile cs (c :: rest) = Some (REREX_EXPECTED_CHAR, 0, None)).
Proof.
  split; [reflexivity|]. split; [|split].
  - intros ->. apply compile_bad_start. reflexivity.
  - intros Hs H1 H2 H3. apply compile_bad_start.
    apply parse_atom_bad_start; try (apply Z.eqb_neq; assumption).
    apply parse_char_special, Hs.
  - intros H0 Hn. destruct (not_normal_facts c Hn) as (Hs & Hb & Hr).
    destruct (not_special_opener c Hs) as (H1 & H2 & H3).
    apply compile_bad_start. apply parse_atom_bad_start; try assumption.
    unfold parse_char. change (hd0 (c :: rest)) with c.
    apply Z.eqb_neq in H0. rewrite H0, Hb, Hs, Hr. reflexivity.
Qed.

Lemma first_character_errors_witness :
  rerex_compile false [] = Some (REREX_UNEXPECTED_END, 0, None)
  ∧ rerex_compile false (c_str "*a") = Some (REREX_UNEXPECTED_SPECIAL, 0, None)
  ∧ rerex_compile false [127%Z; ch "a"] = Some (REREX_EXPECTED_CHAR, 0, None).
Proof.
  destruct (first_character_errors false (ch "*") (c_str "a"))
    as (H1 & _ & H2 & _).
  destruct (first_character_errors false 127%Z (c_str "a"))
    as (_ & _ & _ & H3).
  split; [exact H1|]. split.
  - apply H2; [reflexivity | discriminate ..].
  - apply H3; [discriminate | lia].
Defined.

(** *** Two operators *)

Lemma postfix_special c :
  is_postfix c = true →
  is_special c = true ∧ ends_term c = false
  ∧ (c =? ch "(")%Z = false ∧ (c =? ch ".")%Z = false
  ∧ (c =? ch "[")%Z = false.
Proof.
  unfold is_postfix. intros H.
  repeat (apply orb_prop in H as [H|H]); apply Z.eqb_eq in H; subst c;
    repeat split; reflexivity.
Qed.

Lemma parse_factor_postfix fuel A r op t :
  parse_atom fuel A = ROk r [] → is_postfix op = true →
  ∃ r', parse_factor (S fuel) (A ++ op :: t) = ROk r' t.
Proof.
  intros H Hop. rewrite parse_factor_S, (parse_atom_then _ _ _ (op :: t) H).
  cbn zeta. change (hd0 (op :: t)) with op. cbn [tail].
  unfold is_postfix in Hop.
  destruct (op =? ch "*")%Z; [eauto|].
  destruct (op =? ch "+")%Z; [eauto|].
  destruct (op =? ch "?")%Z; [eauto | discriminate].
Qed.

(** X11. An atom takes one operator: a second operator after the first is
    refused with the status of an unexpected special character, at its
    offset. *)
Theorem second_operator_error cs A op c rest :
  is_atom cs A = true → is_postfix op = true → is_postfix c = true →
  rerex_compile cs (A ++ op :: c :: rest)
  = Some (REREX_UNEXPECTED_SPECIAL, length A + 1, None).
Proof.
  intros HA Hop Hc. destruct (is_atom_parse cs A HA) as (r & Hr).
  set (F := compile_fuel A) in *.
  destruct (postfix_special c Hc) as (Hs & He & H1 & H2 & H3).
  assert (parse_atom (F + 2) A = ROk r []) as Hr'.
  { rewrite (parse_atom_mono F); eauto using settled_ok with lia. }
  destruct (parse_factor_postfix _ _ _ op (c :: rest) Hr' Hop) as (r' & Hf).
  assert (parse_term (S (F + 2)) (c :: rest)
          = RErr REREX_UNEXPECTED_SPECIAL (c :: rest) 0) as Ht.
  { replace (S (F + 2)) with (S (S (S F))) by lia.
    rewrite parse_term_S, parse_factor_S.
    assert (parse_atom (S F) (c :: rest)
            = RErr REREX_UNEXPECTED_SPECIAL (c :: rest) 0) as ->; [|done].
    rewrite (parse_atom_mono 1);
      [| eapply settled_err | lia];
      apply parse_atom_bad_start; auto using parse_char_special. }
  assert (parse_expr (S (S (S (F + 2)))) (A ++ op :: c :: rest)
          = RErr REREX_UNEXPECTED_SPECIAL (c :: rest) 0) as H.
  { rewrite parse_expr_S, parse_term_S, Hf. cbn zeta.
    change (hd0 (c :: rest)) with c. fold (ends_term c). rewrite He, Ht.
    reflexivity. }
  rewrite (rerex_compile_err cs _ _ _ _ _ H).
  rewrite length_app. cbn [length]. repeat f_equal. lia.
Qed.

Lemma second_operator_error_witness :
  is_atom false (c_str "a") = true
  ∧ rerex_compile false (c_str "a*+b")
    = Some (REREX_UNEXPECTED_SPECIAL, 2, None).
Proof.
  split; [reflexivity|].
  apply (second_operator_error false (c_str "a") (ch "*") (ch "+")
           (c_str "b")); reflexivity.
Defined.

(** *** Groups that are not closed *)

Lemma parse_atom_open_err fuel B st l' b :
  parse_expr fuel B = RErr st l' b →
  parse_atom (S fuel) (ch "(" :: B) = RErr st l' b.
Proof.
  intros H. rewrite parse_atom_S. cbn zeta.
  change (hd0 (ch "(" :: B)) with (ch "("). cbn [tail].
  change (ch "(" =? ch "(")%Z with true. cbv iota. rewrite H. reflexivity.
Qed.

Lemma parse_atom_open_end fuel B r :
  parse_expr fuel B = ROk r [] →
  parse_atom (S fuel) (ch "(" :: B) = RErr REREX_EXPECTED_RPAREN [] 0.
Proof.
  intros H. rewrite parse_atom_S. cbn zeta.
  change (hd0 (ch "(" :: B)) with (ch "("). cbn [tail].
  change (ch "(" =? ch "(")%Z with true. cbv iota. rewrite H. reflexivity.
Qed.

(** X12. After an opening parenthesis, a pattern that is refused is
    refused with the same status, at the offset in the whole; one that
    compiles as a whole lacks the closing parenthesis, which is expected
    at the end. *)
Theorem open_group_errors cs B :
  (∀ st n, rerex_compile cs B = Some (st, n, None) →
           rerex_compile cs (ch "(" :: B) = Some (st, S n, None))
  ∧ (∀ pat, rerex_compile cs B = Some (REREX_SUCCESS, length B, Some pat) →
            rerex_compile cs (ch "(" :: B)
            = Some (REREX_EXPECTED_RPAREN, S (length B), None)).
Proof.
  split.
  - intros st n H.
    destruct (rerex_compile_failure cs B st n H) as (l' & b & Hp & Hle & ->).
    rewrite (rerex_compile_err cs _ _ _ _ _
               (parse_atom_err_expr _ _ _ _ _ (parse_atom_open_err _ _ _ _ _ Hp))).
    cbn [length]. repeat f_equal. lia.
  - intros pat H. destruct (rerex_compile_full cs B pat H) as (r & Hp & _).
    rewrite (rerex_compile_err cs _ _ _ _ _
               (parse_atom_err_expr _ _ _ _ _ (parse_atom_open_end _ _ _ Hp))).
    reflexivity.
Qed.

Lemma open_group_errors_witness :
  rerex_compile false (c_str "(a|?") = Some (REREX_UNEXPECTED_SPECIAL, 3, None)
  ∧ rerex_compile false (c_str "(a|b")
    = Some (REREX_EXPECTED_RPAREN, 4, None).
Proof.
  destruct (open_group_errors false (c_str "a|?")) as [H1 _].
  destruct (open_group_errors false (c_str "a|b")) as [_ H2].
  split.
  - apply (H1 REREX_UNEXPECTED_SPECIAL 2). reflexivity.
  - apply (H2 (pattern_of false (RAlternate (RChar 97) (RChar 98)))).
    reflexivity.
Defined.

(** *** The right side of an alternation *)

Lemma parse_expr_alternate_err fuel :
  ∀ A rA B st l' b fuel',
    parse_expr fuel A = ROk rA [] →
    parse_expr fuel' B = RErr st l' b →
    parse_expr (fuel + fuel') (A ++ ch "|" :: B) = RErr st l' b.
Proof.
  induction fuel as [|fuel IH]; intros A rA B st l' b fuel' HA HB;
    [discriminate|].
  rewrite parse_expr_S in HA.
  destruct (parse_term fuel A) as [a l1| |] eqn:Et; try discriminate.
  replace (S fuel + fuel') with (S (fuel + fuel')) by lia.
  rewrite parse_expr_S.
  destruct (decide (l1 = [])) as [-> | Hl1].
  - rewrite (parse_term_more fuel (fuel + fuel') _ a ([] ++ ch "|" :: B))
      by first [lia | apply parse_term_ext; [exact Et | reflexivity]].
    cbn [app]. change (hd0 (ch "|" :: B) =? ch "|")%Z with true.
    cbn [tail]. rewrite (parse_expr_mono fuel' (fuel + fuel'));
      [rewrite HB; reflexivity | eapply settled_err; eauto | lia].
  - rewrite (parse_term_more fuel (fuel + fuel') _ a (l1 ++ ch "|" :: B))
      by first [lia | apply parse_term_ext; [exact Et | done]].
    rewrite hd0_app by assumption.
    destruct (hd0 l1 =? ch "|")%Z.
    + destruct (parse_expr fuel (tail l1)) as [b' l2| |] eqn:Ee;
        try discriminate.
      injection HA as <- ->. rewrite tail_app by assumption.
      rewrite (IH _ _ _ _ _ _ _ Ee HB). reflexivity.
    + injection HA as <- ->. done.
Qed.

(** X13. After a pattern that compiles as a whole and a bar, a pattern
    that is refused is refused with the same status, at the offset in the
    whole; so a bar at the end is refused with the status of an unexpected
    end. *)
Theorem alternation_right_error cs A B pA st n :
  rerex_compile cs A = Some (REREX_SUCCESS, length A, Some pA) →
  rerex_compile cs B = Some (st, n, None) →
  rerex_compile cs (A ++ ch "|" :: B) = Some (st, length A + 1 + n, None).
Proof.
  intros HA HB. destruct (rerex_compile_full cs A pA HA) as (r & Hp & _).
  destruct (rerex_compile_failure cs B st n HB) as (l' & b & Hq & Hle & ->).
  rewrite (rerex_compile_err cs _ _ _ _ _
             (parse_expr_alternate_err _ _ _ _ _ _ _ _ Hp Hq)).
  rewrite length_app. cbn [length]. repeat f_equal. lia.
Qed.

Lemma alternation_right_error_witness :
  rerex_compile false (c_str "a")
  = Some (REREX_SUCCESS, 1, Some (pattern_of false (RChar (ch "a"))))
  ∧ rerex_compile false [] = Some (REREX_UNEXPECTED_END, 0, None)
  ∧ rerex_compile false (c_str "a|") = Some (REREX_UNEXPECTED_END, 2, None).
Proof.
  split; [reflexivity|]. split; [reflexivity|].
  apply (alternation_right_error false (c_str "a") []
           (pattern_of false (RChar (ch "a")))); reflexivity.
Defined.

(** *** Sets that are empty or not closed *)

(** X14. A set with no item is refused with the status of an unexpected
    special character, at the offset of the closing bracket; a set that
    starts with a backslash that no closing bracket follows, with that of
    an expected closing bracket, at the offset after the backslash; a set
    of items without the closing bracket, with that of an unexpected end,
    at the end of the pattern. *)
Theorem set_errors cs (negated : bool) i items rest :
  rerex_compile cs
    (ch "[" :: (if negated then [ch "^"] else []) ++ ch "]" :: rest)
  = Some (REREX_UNEXPECTED_SPECIAL, if negated then 2 else 1, None)
  ∧ ((hd0 rest =? ch "]")%Z = false →
     rerex_compile cs
       (ch "[" :: (if negated then [ch "^"] else []) ++ ch "\" :: rest)
     = Some (REREX_EXPECTED_RBRACKET, if negated then 3 else 2, None))
  ∧ (forallb item_ok (i :: items) = true →
     rerex_compile cs
       (ch "[" :: (if negated then [ch "^"] else [])
        ++ items_text (i :: items))
     = Some (REREX_UNEXPECTED_END,
             length (ch "[" :: (if negated then [ch "^"] else [])
                     ++ items_text (i :: items)), None)).
Proof.
  split; [|split].
  - assert (parse_atom 1
              (ch "[" :: (if negated then [ch "^"] else []) ++ ch "]" :: rest)
            = RErr REREX_UNEXPECTED_SPECIAL (ch "]" :: rest) 0) as H
        by (destruct negated; reflexivity).
    rewrite (rerex_compile_err cs _ _ _ _ _ (parse_atom_err_expr _ _ _ _ _ H)).
    destruct negated; cbn [app length]; repeat f_equal; lia.
  - intros Hr.
    assert (parse_element (ch "\" :: rest)
            = CRErr REREX_EXPECTED_RBRACKET rest 0) as He.
    { unfold parse_element. change (hd0 (ch "\" :: rest)) with (ch "\").
      change (tail (ch "\" :: rest)) with rest. rewrite Hr. reflexivity. }
    assert (parse_atom 1
              (ch "[" :: (if negated then [ch "^"] else [])
               ++ ch "\" :: rest)
            = RErr REREX_EXPECTED_RBRACKET rest 0) as H.
    { rewrite parse_atom_S. cbn zeta. unfold parse_set, parse_range.
      destruct negated; cbn [app tail];
        change (hd0 (ch "[" :: ?l)) with (ch "[");
        change (ch "[" =? ch "(")%Z with false;
        change (ch "[" =? ch ".")%Z with false;
        change (ch "[" =? ch "[")%Z with true; cbv iota.
      - change (hd0 (ch "^" :: ?l)) with (ch "^").
        change (ch "^" =? ch "^")%Z with true. cbv iota. cbn [tail].
        rewrite He. reflexivity.
      - change (hd0 (ch "\" :: ?l)) with (ch "\").
        change (ch "\" =? ch "^")%Z with false. cbv iota.
        rewrite He. reflexivity. }
    rewrite (rerex_compile_err cs _ _ _ _ _ (parse_atom_err_expr _ _ _ _ _ H)).
    destruct negated; cbn [app length]; repeat f_equal; lia.
  - intros Hok.
    pose proof (parse_set_items negated i items [] 1 Hok eq_refl) as Hs.
    rewrite app_nil_r in Hs.
    assert (parse_atom (S (length items + 1))
              (ch "[" :: (if negated then [ch "^"] else [])
               ++ items_text (i :: items))
            = RErr REREX_UNEXPECTED_END [] 0) as H.
    { rewrite parse_atom_S. cbn zeta.
      change (hd0 (ch "[" :: ?l)) with (ch "[").
      change (ch "[" =? ch "(")%Z with false.
      change (ch "[" =? ch ".")%Z with false.
      change (ch "[" =? ch "[")%Z with true. cbv iota. cbn [tail].
      rewrite Hs. reflexivity. }
    rewrite (rerex_compile_err cs _ _ _ _ _ (parse_atom_err_expr _ _ _ _ _ H)).
    cbn [length]. rewrite Nat.sub_0_r. reflexivity.
Qed.

Lemma set_errors_witness :
  rerex_compile false (c_str "[^]a") = Some (REREX_UNEXPECTED_SPECIAL, 2, None)
  ∧ rerex_compile false (c_str "[^\n]")
    = Some (REREX_EXPECTED_RBRACKET, 3, None)
  ∧ rerex_compile false (c_str "[^a-z_")
    = Some (REREX_UNEXPECTED_END, 6, None).
Proof.
  destruct (set_errors false true (Span (ch "a") (ch "z")) [Single (ch "_")]
              (c_str "a")) as (H1 & _ & H3).
  destruct (set_errors false true (Span (ch "a") (ch "z")) []
              (c_str "n]")) as (_ & H2 & _).
  split; [exact H1|]. split; [apply H2; reflexivity | apply H3; reflexivity].
Defined.

(** ** What [rerex_compile] returns *)

Lemma blamed_status st c :
  blamed st c = true → st ≠ REREX_SUCCESS ∧ st ≠ REREX_NO_MEMORY.
Proof. destruct st; simpl; intros H; split; discriminate. Qed.

Lemma err_ok_status l st l' b :
  err_ok l st l' b → st ≠ REREX_SUCCESS ∧ st ≠ REREX_NO_MEMORY.
Proof.
  intros [(-> & _) | (_ & _ & H)]; [split; discriminate|].
  eapply blamed_status, H.
Qed.

(** X15. [rerex_compile] returns for every pattern, with an offset that
    is not past the end of the pattern; it returns a pattern when the
    status is the success and only then; the status is never the one of a
    failed allocation (allocations are assumed to succeed). *)
Theorem rerex_compile_returns cs p :
  ∃ st n out,
    rerex_compile cs p = Some (st, n, out)
    ∧ n ≤ length p
    ∧ (st = REREX_SUCCESS ↔ out ≠ None)
    ∧ st ≠ REREX_NO_MEMORY.
Proof.
  unfold rerex_compile. rewrite parse_pattern_parse.
  pose proof (parse_expr_compile_settled p) as Hset.
  pose proof (parse_err (compile_fuel p) p) as (_ & _ & _ & He).
  destruct (parse_expr (compile_fuel p) p) as [r l | st l b |];
    cbn [lift]; [| |done].
  - destruct (build cs r null_array) as [nfa arr].
    eexists _, _, _. split; [reflexivity|]. cbn [offset input_at].
    split; [lia|]. split; [|discriminate]. split; [discriminate | reflexivity].
  - eexists _, _, _. split; [reflexivity|]. cbn [offset input_at].
    split; [lia|]. simpl in He.
    destruct (err_ok_status _ _ _ _ He) as [Hs Hm].
    split; [|exact Hm]. split; [done | intros Hn; done].
Qed.

(** ** The conversions to [char] *)

Lemma range_automata_cs cs cs' arr negated lo hi :
  normal lo → normal hi →
  range_automata cs arr negated lo hi = range_automata cs' arr negated lo hi.
Proof.
  unfold normal, cmin, cmax. intros Hlo Hhi. unfold range_automata.
  rewrite !(char_cast_normal cs), !(char_cast_normal cs') by lia.
  reflexivity.
Qed.

Lemma set_automata_cs cs cs' negated rest :
  Forall range_wf rest →
  ∀ arr nfa,
    set_automata cs arr negated nfa rest
    = set_automata cs' arr negated nfa rest.
Proof.
  induction 1 as [|r rest (Hlo & Hhi & _) _ IH]; intros arr nfa;
    [reflexivity|].
  cbn [set_automata]. rewrite (range_automata_cs cs cs') by assumption.
  destruct (range_automata cs' arr negated r.1 r.2) as [f arr1].
  destruct (alternate arr1 nfa f) as [g arr2]. apply IH.
Qed.

Lemma build_cs cs cs' r :
  regex_wf r → ∀ arr, build cs r arr = build cs' r arr.
Proof.
  induction r as [c| |neg first rest|r IH|r IH|r IH|a IHa b IHb|a IHa b IHb];
    cbn [regex_wf build]; intros Hwf arr; try reflexivity.
  - apply Forall_cons in Hwf as [(Hlo & Hhi & _) Hrest].
    rewrite (range_automata_cs cs cs') by assumption.
    destruct (range_automata cs' arr neg first.1 first.2) as [f arr1].
    apply set_automata_cs, Hrest.
  - rewrite (IH Hwf). reflexivity.
  - rewrite (IH Hwf). reflexivity.
  - rewrite (IH Hwf). reflexivity.
  - destruct Hwf as [Ha Hb]. rewrite (IHa Ha).
    destruct (build cs' a arr) as [fa arr1]. rewrite (IHb Hb). reflexivity.
  - destruct Hwf as [Ha Hb]. rewrite (IHa Ha).
    destruct (build cs' a arr) as [fa arr1]. rewrite (IHb Hb). reflexivity.
Qed.

(** ** The state array of a compiled pattern *)

(** X17. In the state array of a compiled pattern, the state 0 is the
    null state, the start state is another state of the array, and the
    arcs of every state lead to states of the array (or are unset). *)
Theorem compiled_arena cs p n pat :
  rerex_compile cs p = Some (REREX_SUCCESS, n, Some pat) →
  p_states pat !! 0 = Some (split_state NO_STATE NO_STATE)
  ∧ 0 < p_start pat < n_states (p_states pat)
  ∧ ∀ q st, p_states pat !! q = Some st →
            next1 st < n_states (p_states pat)
            ∧ next2 st < n_states (p_states pat).
Proof.
  intros H. destruct (rerex_compile_tree cs p n pat H)
    as (r & l' & _ & Hwf & _ & ->).
  pose proof (built_pattern cs r Hwf) as B. pose proof B as (F & Hag & _).
  split; [|split].
  - cbn [pattern_of p_states]. rewrite Hag by (unfold in_region; lia).
    reflexivity.
  - pose proof (fr_start_in F) as [H1 H2]. cbn [pattern_of p_start p_states].
    unfold n_states. lia.
  - exact (built_wf_arena _ _ B).
Qed.

Lemma compiled_arena_witness :
  rerex_compile false (c_str "ab") = Some (REREX_SUCCESS, 2, Some pattern_ab)
  ∧ p_states pattern_ab !! 0 = Some (split_state NO_STATE NO_STATE)
  ∧ 0 < p_start pattern_ab < n_states (p_states pattern_ab)
  ∧ ∀ q st, p_states pattern_ab !! q = Some st →
            next1 st < n_states (p_states pattern_ab)
            ∧ next2 st < n_states (p_states pattern_ab).
Proof.
  split; [reflexivity|].
  apply (compiled_arena false (c_str "ab") 2). reflexivity.
Defined.

(** ** The matcher and the automaton *)

Section Simulation.

Variable SIZE_MAX : N.

(** X18. [rerex_match], on a new matcher of a compiled pattern or on one
    used before, returns whether a path of the state array leads from the
    start state to a match state along the text; the verdict is the one of
    a new matcher, and the matcher is left with the same pattern. *)
Theorem rerex_match_accepts cs p n pat m s :
  rerex_compile cs p = Some (REREX_SUCCESS, n, Some pat) →
  matcher_of SIZE_MAX pat m →
  (N.of_nat (length s) < SIZE_MAX)%N →
  ∃ b m',
    rerex_match SIZE_MAX m s = MOk (b, m')
    ∧ regexp m' = pat
    ∧ matcher_of SIZE_MAX pat m'
    ∧ verdict SIZE_MAX pat s = Some b
    ∧ (b = true ↔ accepts (p_states pat) (p_start pat) (until_nul s)).
Proof.
  intros Hc Hm Hmax.
  destruct (rerex_compile_tree cs p n pat Hc) as (r & l' & _ & Hwf & _ & ->).
  destruct (matcher_of_ok SIZE_MAX cs r m Hwf Hm) as [Hok Hreg].
  destruct (rerex_match_ok SIZE_MAX m s Hok Hmax)
    as (b & m' & Hrun & Hb & Hreg' & _).
  destruct (rerex_match_ok SIZE_MAX _ s (pattern_of_matcher_ok cs r Hwf) Hmax)
    as (b0 & m0 & Hrun0 & Hb0 & _).
  exists b, m'. split; [exact Hrun|]. split; [congruence|].
  split; [eapply matcher_used; eauto|].
  rewrite Hreg in Hb. cbn [regexp rerex_new_matcher] in Hb0.
  split; [|exact Hb].
  unfold verdict. rewrite Hrun0. f_equal.
  rewrite <- Hb0 in Hb. destruct b, b0; try reflexivity; intuition discriminate.
Qed.

End Simulation.

Lemma rerex_match_accepts_witness :
  rerex_compile false (c_str "ab") = Some (REREX_SUCCESS, 2, Some pattern_ab)
  ∧ ∃ b m',
      rerex_match (2 ^ 64 - 1) (rerex_new_matcher pattern_ab) (c_str "ab")
      = MOk (b, m')
      ∧ regexp m' = pattern_ab
      ∧ matcher_of (2 ^ 64 - 1) pattern_ab m'
      ∧ verdict (2 ^ 64 - 1) pattern_ab (c_str "ab") = Some b
      ∧ (b = true ↔
         accepts (p_states pattern_ab) (p_start pattern_ab) (c_str "ab")).
Proof.
  split; [reflexivity|].
  apply (rerex_match_accepts (2 ^ 64 - 1) false (c_str "ab") 2);
    [reflexivity | apply matcher_new | reflexivity].
Defined.

(** ** The texts of the statuses *)

(** X19. [rerex_strerror] gives different statuses different texts. *)
Theorem rerex_strerror_distinct (s1 s2 : RerexStatus) :
  s1 ≠ s2 →
  rerex_strerror (status_code s1) ≠ rerex_strerror (status_code s2).
Proof.
  intros Hne H. apply Hne.
  destruct s1, s2; try reflexivity; vm_compute in H; discriminate.
Qed.

Lemma rerex_strerror_distinct_witness :
  REREX_EXPECTED_CHAR ≠ REREX_EXPECTED_ELEMENT
  ∧ rerex_strerror (status_code REREX_EXPECTED_CHAR)
    ≠ rerex_strerror (status_code REREX_EXPECTED_ELEMENT).
Proof.
  split; [discriminate|].
  apply (rerex_strerror_distinct REREX_EXPECTED_CHAR REREX_EXPECTED_ELEMENT).
  discriminate.
Defined.

(** ** The size of the state array *)

Lemma length_set_state (arr : StateArray) i st :
  length (set_state arr i st) = length arr.
Proof. apply length_insert. Qed.

Lemma length_set_next1 (arr : StateArray) i n :
  length (set_next1 arr i n) = length arr.
Proof. apply length_insert. Qed.

Lemma length_star arr f : length (star arr f).2 = length arr + 2.
Proof.
  unfold star, add_state. cbn [snd]. rewrite length_set_state, !length_app.
  simpl. lia.
Qed.

Lemma length_plus arr f : length (plus arr f).2 = length arr + 1.
Proof.
  unfold plus, add_state. cbn [snd]. rewrite length_set_state, !length_app.
  simpl. lia.
Qed.

Lemma length_question arr f : length (question arr f).2 = length arr + 1.
Proof. unfold question, add_state. cbn [snd]. rewrite length_app. simpl. lia. Qed.

Lemma length_concatenate arr a b :
  length (concatenate arr a b).2 = length arr.
Proof.
  unfold concatenate. cbn [snd].
  destruct (is_trivial arr a);
    [apply length_set_next1 | apply length_set_state].
Qed.

Lemma length_alternate arr a b :
  length arr + 1 ≤ length (alternate arr a b).2 ≤ length arr + 2.
Proof.
  unfold alternate, add_state.
  destruct (is_trivial _ a); [|destruct (is_trivial _ b)]; cbn [snd];
    rewrite ?length_set_next1, ?length_set_state, ?length_app; simpl; lia.
Qed.

Lemma length_range_automata cs arr (negated : bool) lo hi :
  length (range_automata cs arr negated lo hi).2
  = length arr + (if negated then 4 else 2).
Proof.
  unfold range_automata, add_state. destruct negated; cbn [snd];
    rewrite !length_app; simpl; lia.
Qed.

Lemma length_char_automata arr c :
  length (char_automata arr c).2 = length arr + 2.
Proof.
  unfold char_automata, add_state. cbn [snd]. rewrite !length_app.
  simpl. lia.
Qed.

Lemma length_set_automata cs (negated : bool) rest :
  ∀ arr nfa,
    length (set_automata cs arr negated nfa rest).2
    ≤ length arr + ((if negated then 4 else 2) + 2) * length rest.
Proof.
  induction rest as [|r rest IH]; intros arr nfa; cbn [set_automata];
    [simpl; lia|].
  pose proof (length_range_automata cs arr negated r.1 r.2) as H1.
  destruct (range_automata cs arr negated r.1 r.2) as [f arr1].
  pose proof (length_alternate arr1 nfa f) as H2.
  destruct (alternate arr1 nfa f) as [g arr2].
  specialize (IH arr2 g). cbn [snd length] in *.
  destruct negated; lia.
Qed.

(** The builder adds no more states than counted. *)
Lemma length_build cs r :
  ∀ arr, length (build cs r arr).2 ≤ length arr + count_states r.
Proof.
  induction r as [c| |neg first rest|r IH|r IH|r IH|a IHa b IHb|a IHa b IHb];
    intros arr; cbn [build count_states].
  - rewrite length_char_automata. lia.
  - unfold add_state. cbn [snd]. rewrite !length_app. simpl. lia.
  - pose proof (length_range_automata cs arr neg first.1 first.2) as H1.
    destruct (range_automata cs arr neg first.1 first.2) as [f arr1].
    pose proof (length_set_automata cs neg rest arr1 f) as H2.
    cbn [snd] in *. destruct neg; lia.
  - specialize (IH arr). destruct (build cs r arr) as [f arr1].
    rewrite length_star. cbn [snd] in IH. lia.
  - specialize (IH arr). destruct (build cs r arr) as [f arr1].
    rewrite length_plus. cbn [snd] in IH. lia.
  - specialize (IH arr). destruct (build cs r arr) as [f arr1].
    rewrite length_question. cbn [snd] in IH. lia.
  - specialize (IHa arr). destruct (build cs a arr) as [fa arr1].
    specialize (IHb arr1). destruct (build cs b arr1) as [fb arr2].
    rewrite length_concatenate. cbn [snd] in *. lia.
  - specialize (IHa arr). destruct (build cs a arr) as [fa arr1].
    specialize (IHb arr1). destruct (build cs b arr1) as [fb arr2].
    pose proof (length_alternate arr2 fa fb). cbn [snd] in *. lia.
Qed.

Lemma parse_set_loop_count fuel :
  ∀ l rs l', parse_set_loop fuel l = ROk rs l' →
             length rs + length l' ≤ length l.
Proof.
  induction fuel as [|fuel IH]; intros l rs l';
    rewrite ?parse_set_loop_S; cbn [parse_set_loop];
    (destruct (hd0 l =? ch "]")%Z; [intros [= <- <-]; simpl; lia|]);
    [discriminate|].
  pose proof (parse_range_shorter l) as H1.
  destruct (parse_range l) as [r l1| |]; try discriminate.
  destruct (parse_set_loop fuel l1) as [rs1 l2| |] eqn:E; try discriminate.
  intros [= <- <-]. apply IH in E. simpl in *. lia.
Qed.

Lemma parse_set_counted fuel l : counted (parse_set fuel l) l.
Proof.
  unfold parse_set.
  assert (∀ neg l0, length l0 ≤ length l → counted
    match parse_range l0 with
    | ROk first l =>
      match parse_set_loop fuel l with
      | ROk rest l => ROk (RSet neg first rest) l
      | RErr st l b => RErr st l b
      | RFuel => RFuel
      end
    | RErr st l b => RErr st l b
    | RFuel => RFuel
    end l) as Hbody.
  { intros neg l0 Hle. pose proof (parse_range_shorter l0) as H1.
    destruct (parse_range l0) as [r l1| |]; try exact I.
    destruct (parse_set_loop fuel l1) as [rs l2| |] eqn:E; try exact I.
    apply parse_set_loop_count in E. simpl in *. destruct neg; lia. }
  destruct (hd0 l =? ch "^")%Z; apply Hbody; [apply length_tail_le | lia].
Qed.

Lemma hd0_eq_tail (l : list Z) c :
  (hd0 l =? c)%Z = true → c ≠ 0%Z → S (length (tail l)) = length l.
Proof.
  intros H Hc. apply length_tail_nonzero. apply Z.eqb_eq in H. congruence.
Qed.

Lemma parse_counted fuel :
  ∀ l, counted (parse_atom fuel l) l ∧ counted (parse_factor fuel l) l
       ∧ counted (parse_term fuel l) l ∧ counted (parse_expr fuel l) l.
Proof.
  induction fuel as [|fuel IH]; intros l; [simpl; auto|].
  assert (∀ l, counted (parse_atom fuel l) l) as IHa by apply IH.
  assert (∀ l, counted (parse_factor fuel l) l) as IHf by apply IH.
  assert (∀ l, counted (parse_term fuel l) l) as IHt by apply IH.
  assert (∀ l, counted (parse_expr fuel l) l) as IHe by apply IH.
  clear IH. repeat split.
  - rewrite parse_atom_S. cbn zeta. pose proof (length_tail_le l) as Hl.
    destruct (hd0 l =? ch "(")%Z.
    { pose proof (IHe (tail l)) as H.
      destruct (parse_expr fuel (tail l)) as [r l1| |]; try exact I.
      destruct (negb (hd0 l1 =? ch ")")%Z); [exact I|].
      pose proof (length_tail_le l1). simpl in *. lia. }
    destruct (hd0 l =? ch ".")%Z eqn:Ed.
    { pose proof (hd0_eq_tail l _ Ed). simpl.
      assert (ch "." ≠ 0%Z) by discriminate. lia. }
    destruct (hd0 l =? ch "[")%Z.
    { pose proof (parse_set_counted fuel (tail l)) as H.
      destruct (parse_set fuel (tail l)) as [r l1| |]; try exact I.
      pose proof (length_tail_le l1). simpl in *. lia. }
    destruct (parse_char l) as [c l1|] eqn:E; [|exact I].
    apply parse_char_shorter in E. simpl. lia.
  - rewrite parse_factor_S. cbn zeta. pose proof (IHa l) as H.
    destruct (parse_atom fuel l) as [r l1| |]; try exact I.
    destruct (hd0 l1 =? ch "*")%Z eqn:E1.
    { pose proof (hd0_eq_tail l1 _ E1).
      assert (ch "*" ≠ 0%Z) by discriminate. simpl in *. lia. }
    destruct (hd0 l1 =? ch "+")%Z eqn:E2.
    { pose proof (hd0_eq_tail l1 _ E2).
      assert (ch "+" ≠ 0%Z) by discriminate. simpl in *. lia. }
    destruct (hd0 l1 =? ch "?")%Z eqn:E3.
    { pose proof (hd0_eq_tail l1 _ E3).
      assert (ch "?" ≠ 0%Z) by discriminate. simpl in *. lia. }
    exact H.
  - rewrite parse_term_S. cbn zeta. pose proof (IHf l) as H.
    destruct (parse_factor fuel l) as [r l1| |]; try exact I.
    destruct (_ || _); [exact H|].
    pose proof (IHt l1) as H2.
    destruct (parse_term fuel l1) as [r2 l2| |]; try exact I.
    simpl in *. lia.
  - rewrite parse_expr_S. pose proof (IHt l) as H.
    destruct (parse_term fuel l) as [r l1| |]; try exact I.
    destruct (hd0 l1 =? ch "|")%Z eqn:Eb; [|exact H].
    pose proof (hd0_eq_tail l1 _ Eb).
    assert (ch "|" ≠ 0%Z) by discriminate.
    pose proof (IHe (tail l1)) as H2.
    destruct (parse_expr fuel (tail l1)) as [r2 l2| |]; try exact I.
    simpl in *. lia.
Qed.

(** X20. The state array of a compiled pattern has at most six states for
    each character of the pattern that was consumed, and the null
    state. *)
Theorem compiled_arena_size cs p n pat :
  rerex_compile cs p = Some (REREX_SUCCESS, n, Some pat) →
  n_states (p_states pat) ≤ 1 + 6 * n.
Proof.
  intros H.
  destruct (rerex_compile_success cs p n pat H) as (r & l' & Hp & Hs & -> & ->).
  pose proof (parse_counted (compile_fuel p) p) as (_ & _ & _ & Hc).
  rewrite Hp in Hc. simpl in Hc. apply suffix_length in Hs.
  pose proof (length_build cs r null_array) as Hb.
  unfold n_states. cbn [p_states]. simpl in Hb. lia.
Qed.

Lemma compiled_arena_size_witness :
  rerex_compile false (c_str "ab") = Some (REREX_SUCCESS, 2, Some pattern_ab)
  ∧ n_states (p_states pattern_ab) ≤ 1 + 6 * 2.
Proof.
  split; [reflexivity|].
  apply (compiled_arena_size false (c_str "ab")). reflexivity.
Defined.

(** ** Terms one after the other *)

Lemma parse_term_concatenate_err fuel :
  ∀ A rA B st l' b fuel',
    parse_term fuel A = ROk rA [] →
    is_postfix (hd0 B) = false → ends_term (hd0 B) = false →
    parse_term fuel' B = RErr st l' b →
    parse_term (fuel + fuel') (A ++ B) = RErr st l' b.
Proof.
  induction fuel as [|fuel IH]; intros A rA B st l' b fuel' HA Hpost Hends HB;
    [discriminate|].
  rewrite parse_term_S in HA.
  destruct (parse_factor fuel A) as [a l1| |] eqn:Ef; try discriminate.
  replace (S fuel + fuel') with (S (fuel + fuel')) by lia.
  rewrite parse_term_S. cbn zeta in *.
  destruct (decide (l1 = [])) as [-> | Hl1].
  - rewrite (parse_factor_more fuel (fuel + fuel') _ a ([] ++ B))
      by first [lia | apply parse_factor_ext; [exact Ef | auto]].
    cbn [app]. unfold ends_term in Hends. rewrite Hends.
    rewrite (parse_term_mono fuel' (fuel + fuel'));
      [rewrite HB; reflexivity | eapply settled_err; eauto | lia].
  - rewrite (parse_factor_more fuel (fuel + fuel') _ a (l1 ++ B))
      by first [lia | apply parse_factor_ext; [exact Ef | done]].
    rewrite hd0_app by assumption.
    destruct ((hd0 l1 =? 0)%Z || (hd0 l1 =? ch ")")%Z
              || (hd0 l1 =? ch "|")%Z).
    + injection HA as <- ->. done.
    + destruct (parse_term fuel l1) as [b' l2| |] eqn:Et; try discriminate.
      injection HA as <- ->.
      rewrite (IH _ _ _ _ _ _ _ Et Hpost Hends HB). reflexivity.
Qed.

(** X21. After a term [A], a pattern that is refused, and that does not
    start with an operator, a bar, a closing parenthesis or the
    terminator, is refused with the same status, at the offset in the
    whole. *)
Theorem concatenation_right_error cs A c B st n :
  is_term cs A = true →
  is_postfix c = false → ends_term c = false →
  rerex_compile cs (c :: B) = Some (st, n, None) →
  rerex_compile cs (A ++ c :: B) = Some (st, length A + n, None).
Proof.
  intros HA Hpost Hends HB. destruct (is_term_parse cs A HA) as (rA & Hr).
  destruct (rerex_compile_failure cs _ st n HB) as (l' & b & Hq & Hle & ->).
  set (F := compile_fuel A) in *.
  remember (compile_fuel (c :: B)) as G eqn:HG.
  destruct G as [|G]; [discriminate|]. rewrite parse_expr_S in Hq.
  assert (parse_expr (S (F + G)) (A ++ c :: B) = RErr st l' b) as H.
  { rewrite parse_expr_S.
    destruct (parse_term G (c :: B)) as [rB l1 | st1 l1 b1 |] eqn:Et;
      [| |discriminate].
    - destruct (parse_term_concatenate _ _ _ _ _ _ _ Hr Et) as (r & -> & _).
      destruct (hd0 l1 =? ch "|")%Z; [|discriminate].
      destruct (parse_expr G (tail l1)) as [r2 l2| st2 l2 b2 |] eqn:Ee;
        try discriminate.
      rewrite (parse_expr_mono G (F + G));
        [rewrite Ee; exact Hq | eapply settled_err; eauto | lia].
    - rewrite (parse_term_concatenate_err _ _ _ (c :: B) _ _ _ _ Hr Hpost
                 Hends Et).
      exact Hq. }
  rewrite (rerex_compile_err cs _ _ _ _ _ H).
  rewrite length_app. repeat f_equal. lia.
Qed.

Lemma concatenation_right_error_witness :
  is_term false (c_str "[a]") = true
  ∧ rerex_compile false (c_str "]") = Some (REREX_UNEXPECTED_SPECIAL, 0, None)
  ∧ rerex_compile false (c_str "[a]]")
    = Some (REREX_UNEXPECTED_SPECIAL, 3, None).
Proof.
  split; [reflexivity|]. split; [reflexivity|].
  apply (concatenation_right_error false (c_str "[a]") (ch "]") []);
    reflexivity.
Defined.

(** X22. An atom that spans the pattern is a term that spans it; a term
    that spans the pattern compiles as a whole; and a term followed by a
    term is a term. *)
Theorem term_closure cs A B :
  (is_atom cs A = true → is_term cs A = true)
  ∧ (is_term cs A = true →
     ∃ pat, rerex_compile cs A = Some (REREX_SUCCESS, length A, Some pat))
  ∧ (is_term cs A = true → is_term cs B = true →
     is_term cs (A ++ B) = true).
Proof.
  split; [|split].
  - intros H. destruct (is_atom_parse cs A H) as (r & Hr).
    eapply is_term_intro, parse_factor_term, parse_atom_factor, Hr.
  - intros H. destruct (is_term_parse cs A H) as (r & Hr).
    exists (pattern_of cs r).
    eapply rerex_compile_whole, parse_term_whole, Hr.
  - intros HA HB. destruct (is_term_parse cs A HA) as (rA & HrA).
    destruct (is_term_parse cs B HB) as (rB & HrB).
    destruct (parse_term_concatenate _ _ _ _ _ _ _ HrA HrB) as (r & Hr & _).
    eapply is_term_intro, Hr.
Qed.

Lemma term_closure_witness :
  is_term false (c_str "[ab]") = true
  ∧ (∃ pat, rerex_compile false (c_str "[ab]")
            = Some (REREX_SUCCESS, 4, Some pat))
  ∧ is_term false (c_str "[ab]c*") = true.
Proof.
  destruct (term_closure false (c_str "[ab]") (c_str "c*")) as (H1 & H2 & H3).
  split; [apply H1; reflexivity|].
  split; [apply H2; reflexivity | apply H3; reflexivity].
Defined.

(** ** The part of the pattern that is consumed *)

(** What is left by a call inside a call that leaves [q ++ t]. *)
Lemma split_rest (pre t q l1 : list Z) :
  l1 `suffix_of` pre ++ t → (q ++ t) `suffix_of` l1 →
  ∃ q1, l1 = q1 ++ t ∧ q1 `suffix_of` pre ∧ q `suffix_of` q1.
Proof.
  intros H1 [k ->]. exists (k ++ q). rewrite <- app_assoc.
  split; [reflexivity|]. split.
  - rewrite app_assoc in H1. eapply suffix_app_inv, H1.
  - apply suffix_app_r. reflexivity.
Qed.

Lemma tail_longer (t q : list Z) : hd0 t ≠ 0%Z → tail t ≠ q ++ t.
Proof.
  intros H Heq. apply length_tail_nonzero in H.
  apply (f_equal length) in Heq. rewrite length_app in Heq. lia.
Qed.

Lemma hd0_eq_nonzero (l : list Z) c :
  (hd0 l =? c)%Z = true → c ≠ 0%Z → hd0 l ≠ 0%Z.
Proof. intros H Hc. apply Z.eqb_eq in H. congruence. Qed.

Lemma trunc_char pre t c q :
  parse_char (pre ++ t) = CROk c (q ++ t) → parse_char pre = CROk c q.
Proof.
  intros H. pose proof (parse_char_shorter _ _ _ H) as Hlen.
  rewrite !length_app in Hlen.
  destruct pre as [|a pre]; [simpl in Hlen; lia|]. clear Hlen.
  revert H. unfold parse_char, parse_escape. rewrite <- app_comm_cons.
  change (hd0 (a :: pre ++ t)) with a. change (hd0 (a :: pre)) with a.
  cbn [tail].
  destruct (a =? 0)%Z; [discriminate|].
  destruct (a =? ch "\")%Z.
  { destruct pre as [|b pre].
    - cbn [app]. destruct (is_special (hd0 t) || (hd0 t =? ch "-")%Z) eqn:E;
        [|discriminate].
      intros [= _ Hq]. exfalso.
      destruct (special_or_dash_facts _ E) as [_ H0].
      apply Z.eqb_neq in H0. exact (tail_longer t q H0 Hq).
    - rewrite <- app_comm_cons.
      change (hd0 (b :: pre ++ t)) with b. change (hd0 (b :: pre)) with b.
      cbn [tail]. destruct (is_special b || (b =? ch "-")%Z); [|discriminate].
      intros [= <- Hq]. apply app_inv_tail in Hq. subst. reflexivity. }
  destruct (is_special a); [discriminate|].
  destruct ((cmin <=? a)%Z && (a <=? cmax)%Z); [|discriminate].
  intros [= <- Hq]. apply app_inv_tail in Hq. subst. reflexivity.
Qed.

Lemma trunc_element pre t c q :
  parse_element (pre ++ t) = CROk c (q ++ t) → parse_element pre = CROk c q.
Proof.
  intros H. pose proof (parse_element_shorter _ _ _ H) as Hlen.
  rewrite !length_app in Hlen.
  destruct pre as [|a pre]; [simpl in Hlen; lia|]. clear Hlen.
  revert H. unfold parse_element. rewrite <- app_comm_cons.
  change (hd0 (a :: pre ++ t)) with a. change (hd0 (a :: pre)) with a.
  cbn [tail].
  destruct (a =? 0)%Z; [discriminate|].
  destruct (a =? ch "]")%Z; [discriminate|].
  destruct (a =? ch "\")%Z.
  { destruct pre as [|b pre].
    - cbn [app]. destruct (hd0 t =? ch "]")%Z eqn:E; [|discriminate].
      cbn [negb]. intros [= _ Hq]. exfalso.
      refine (tail_longer t q _ Hq). eapply hd0_eq_nonzero; eauto.
    - rewrite <- app_comm_cons.
      change (hd0 (b :: pre ++ t)) with b. change (hd0 (b :: pre)) with b.
      cbn [tail]. destruct (negb (b =? ch "]")%Z); [discriminate|].
      intros [= <- Hq]. apply app_inv_tail in Hq. subst. reflexivity. }
  destruct ((cmin <=? a)%Z && (a <=? cmax)%Z); [|discriminate].
  intros [= <- Hq]. apply app_inv_tail in Hq. subst. reflexivity.
Qed.

Lemma parse_element_suffix_ok l c l' :
  parse_element l = CROk c l' → l' `suffix_of` l.
Proof.
  intros H. pose proof (parse_element_suffix l) as Hs. rewrite H in Hs.
  exact Hs.
Qed.

(** A list that holds a closing bracket is not empty, and has something
    after a dash at its head. *)
Lemma bracket_in_nonempty (q : list Z) : ch "]" ∈ q → q ≠ [].
Proof. intros H ->. inversion H. Qed.

Lemma bracket_in_hd1 (q t : list Z) :
  ch "]" ∈ q → (hd0 q =? ch "-")%Z = true → hd1 (q ++ t) = hd1 q.
Proof.
  intros Hin Hd. destruct q as [|a [|b q]]; [inversion Hin | | reflexivity].
  apply list_elem_of_singleton in Hin. subst a. discriminate.
Qed.

Lemma elem_of_suffix (q q1 : list Z) x : x ∈ q → q `suffix_of` q1 → x ∈ q1.
Proof. intros H [k ->]. apply elem_of_app. auto. Qed.

Lemma trunc_range pre t r q :
  ch "]" ∈ q →
  parse_range (pre ++ t) = ROk r (q ++ t) → parse_range pre = ROk r q.
Proof.
  intros Hin. unfold parse_range.
  destruct (parse_element (pre ++ t)) as [lo l1|] eqn:E1; [|discriminate].
  pose proof (parse_element_suffix_ok _ _ _ E1) as S1.
  destruct ((hd0 l1 =? ch "-")%Z && negb (hd1 l1 =? ch "]")%Z) eqn:Eg.
  - destruct (parse_element (tail l1)) as [hi l2|] eqn:E2; [|discriminate].
    destruct (hi <? lo)%Z eqn:El; [discriminate|].
    intros [= <- ->].
    pose proof (parse_element_suffix_ok _ _ _ E2) as S2.
    assert ((q ++ t) `suffix_of` l1) as S3
        by (etrans; [exact S2 | apply suffix_tail_self]).
    destruct (split_rest pre t q l1 S1 S3) as (q1 & -> & Hq1 & Hqq).
    pose proof (elem_of_suffix _ _ _ Hin Hqq) as Hin1.
    pose proof (bracket_in_nonempty q1 Hin1) as Hne.
    rewrite (trunc_element _ _ _ _ E1).
    apply andb_prop in Eg as [Eg1 Eg2].
    rewrite hd0_app in Eg1 by assumption.
    rewrite (bracket_in_hd1 q1 t Hin1 Eg1) in Eg2.
    rewrite Eg1, Eg2. cbn [andb].
    rewrite tail_app in E2 by assumption.
    rewrite (trunc_element _ _ _ _ E2), El. reflexivity.
  - rewrite Z.ltb_irrefl. intros [= <- ->].
    rewrite (trunc_element _ _ _ _ E1).
    pose proof (bracket_in_nonempty q Hin) as Hne.
    rewrite hd0_app in Eg by assumption.
    destruct (hd0 q =? ch "-")%Z eqn:Eg1.
    + rewrite (bracket_in_hd1 q t Hin Eg1) in Eg. rewrite Eg.
      rewrite Z.ltb_irrefl. reflexivity.
    + cbn [andb]. rewrite Z.ltb_irrefl. reflexivity.
Qed.

Lemma bracket_head_in (q : list Z) : (hd0 q =? ch "]")%Z = true → ch "]" ∈ q.
Proof.
  destruct q as [|a q]; [discriminate|]. intros H.
  apply Z.eqb_eq in H. change (hd0 (a :: q)) with a in H. subst a. left.
Qed.

Lemma parse_range_suffix_ok l r l' :
  parse_range l = ROk r l' → l' `suffix_of` l.
Proof.
  intros H. pose proof (parse_range_suffix l) as Hs. rewrite H in Hs.
  exact Hs.
Qed.

Lemma parse_set_loop_suffix_ok fuel l rs l' :
  parse_set_loop fuel l = ROk rs l' → l' `suffix_of` l.
Proof.
  intros H. pose proof (parse_set_loop_suffix fuel l) as Hs. rewrite H in Hs.
  exact Hs.
Qed.

Lemma trunc_set_loop fuel :
  ∀ pre t rs q,
    (hd0 q =? ch "]")%Z = true →
    parse_set_loop fuel (pre ++ t) = ROk rs (q ++ t) →
    parse_set_loop fuel pre = ROk rs q.
Proof.
  induction fuel as [|fuel IH]; intros pre t rs q Hq;
    pose proof (bracket_head_in q Hq) as Hin;
    pose proof (bracket_in_nonempty q Hin) as Hne;
    rewrite ?parse_set_loop_S; cbn [parse_set_loop].
  - destruct (hd0 (pre ++ t) =? ch "]")%Z; [|discriminate].
    intros [= <- Heq]. apply app_inv_tail in Heq. subst pre.
    rewrite Hq. reflexivity.
  - destruct (hd0 (pre ++ t) =? ch "]")%Z eqn:Eb.
    { intros [= <- Heq]. apply app_inv_tail in Heq. subst pre.
      rewrite Hq. reflexivity. }
    destruct (parse_range (pre ++ t)) as [r l1| |] eqn:Er; try discriminate.
    destruct (parse_set_loop fuel l1) as [rs1 l2| |] eqn:El; try discriminate.
    intros [= <- ->].
    pose proof (parse_range_suffix_ok _ _ _ Er) as S1.
    pose proof (parse_set_loop_suffix_ok _ _ _ _ El) as S2.
    destruct (split_rest pre t q l1 S1 S2) as (q1 & -> & Hq1 & Hqq).
    pose proof (elem_of_suffix _ _ _ Hin Hqq) as Hin1.
    assert (pre ≠ []) as Hpre.
    { eapply suffix_nonempty; [exact Hq1|].
      apply bracket_in_nonempty, Hin1. }
    rewrite hd0_app in Eb by assumption. rewrite Eb.
    rewrite (trunc_range _ _ _ _ Hin1 Er), (IH _ _ _ _ Hq El). reflexivity.
Qed.

Lemma trunc_set fuel pre t r q :
  (hd0 q =? ch "]")%Z = true →
  parse_set fuel (pre ++ t) = ROk r (q ++ t) → parse_set fuel pre = ROk r q.
Proof.
  intros Hq. pose proof (bracket_head_in q Hq) as Hin. unfold parse_set.
  assert (∀ neg pre0,
    match parse_range (pre0 ++ t) with
    | ROk first l =>
      match parse_set_loop fuel l with
      | ROk rest l => ROk (RSet neg first rest) l
      | RErr st l b => RErr st l b
      | RFuel => RFuel
      end
    | RErr st l b => RErr st l b
    | RFuel => RFuel
    end = ROk r (q ++ t) →
    match parse_range pre0 with
    | ROk first l =>
      match parse_set_loop fuel l with
      | ROk rest l => ROk (RSet neg first rest) l
      | RErr st l b => RErr st l b
      | RFuel => RFuel
      end
    | RErr st l b => RErr st l b
    | RFuel => RFuel
    end = ROk r q) as Hbody.
  { intros neg pre0.
    destruct (parse_range (pre0 ++ t)) as [r0 l1| |] eqn:Er; try discriminate.
    destruct (parse_set_loop fuel l1) as [rs l2| |] eqn:El; try discriminate.
    intros [= <- ->].
    pose proof (parse_range_suffix_ok _ _ _ Er) as S1.
    pose proof (parse_set_loop_suffix_ok _ _ _ _ El) as S2.
    destruct (split_rest pre0 t q l1 S1 S2) as (q1 & -> & Hq1 & Hqq).
    pose proof (elem_of_suffix _ _ _ Hin Hqq) as Hin1.
    rewrite (trunc_range _ _ _ _ Hin1 Er), (trunc_set_loop _ _ _ _ _ Hq El).
    reflexivity. }
  destruct (decide (pre = [])) as [-> | Hpre].
  { cbn [app]. intros H. exfalso.
    pose proof (parse_set_suffix fuel t) as Hs. unfold parse_set in Hs.
    rewrite H in Hs. simpl in Hs. apply suffix_length in Hs.
    rewrite length_app in Hs.
    pose proof (bracket_in_nonempty q Hin). destruct q; [done|].
    simpl in Hs. lia. }
  rewrite hd0_app by assumption.
  destruct (hd0 pre =? ch "^")%Z.
  - rewrite tail_app by assumption. apply Hbody.
  - apply Hbody.
Qed.

Lemma hd0_app_or (q t : list Z) : q = [] ∨ hd0 (q ++ t) = hd0 q.
Proof. destruct q; [left | right]; reflexivity. Qed.

Lemma shorter_nonempty (pre t q : list Z) :
  length (q ++ t) < length (pre ++ t) → pre ≠ [].
Proof. intros H ->. rewrite length_app in H. simpl in H. lia. Qed.

Lemma cons_rest (l q t : list Z) c :
  (hd0 l =? c)%Z = true → c ≠ 0%Z → tail l = q ++ t → l = (c :: q) ++ t.
Proof.
  intros H Hc Ht. pose proof (hd0_eq_nonzero _ _ H Hc) as Hn.
  destruct (hd0_nonzero l Hn) as [l' Hl]. apply Z.eqb_eq in H.
  rewrite Hl in Ht. cbn [tail] in Ht. rewrite Hl, H, Ht. reflexivity.
Qed.

(** A parse that leaves what follows [pre] untouched is a parse of [pre]
    alone. *)
Lemma parse_trunc fuel :
  ∀ pre t q r,
    (parse_atom fuel (pre ++ t) = ROk r (q ++ t) →
     parse_atom fuel pre = ROk r q)
    ∧ (parse_factor fuel (pre ++ t) = ROk r (q ++ t) →
       parse_factor fuel pre = ROk r q)
    ∧ (parse_term fuel (pre ++ t) = ROk r (q ++ t) →
       parse_term fuel pre = ROk r q)
    ∧ (parse_expr fuel (pre ++ t) = ROk r (q ++ t) →
       parse_expr fuel pre = ROk r q).
Proof.
  induction fuel as [|fuel IH]; intros pre t q r;
    [repeat split; discriminate|].
  assert (∀ pre t q r, parse_atom fuel (pre ++ t) = ROk r (q ++ t) →
                       parse_atom fuel pre = ROk r q) as IHa
      by (intros; eapply IH; eauto).
  assert (∀ pre t q r, parse_factor fuel (pre ++ t) = ROk r (q ++ t) →
                       parse_factor fuel pre = ROk r q) as IHf
      by (intros; eapply IH; eauto).
  assert (∀ pre t q r, parse_term fuel (pre ++ t) = ROk r (q ++ t) →
                       parse_term fuel pre = ROk r q) as IHt
      by (intros; eapply IH; eauto).
  assert (∀ pre t q r, parse_expr fuel (pre ++ t) = ROk r (q ++ t) →
                       parse_expr fuel pre = ROk r q) as IHe
      by (intros; eapply IH; eauto).
  clear IH.
  assert (∀ l r l', parse_term fuel l = ROk r l' → length l' < length l)
    as Sht.
  { intros l r0 l' H. destruct (parse_shorter fuel l) as (_ & _ & Hs & _).
    rewrite H in Hs. exact Hs. }
  assert (∀ l r l', parse_expr fuel l = ROk r l' → length l' < length l)
    as She.
  { intros l r0 l' H. destruct (parse_shorter fuel l) as (_ & _ & _ & Hs).
    rewrite H in Hs. exact Hs. }
  repeat split.
  - (* atom *)
    intros H.
    destruct (parse_shorter (S fuel) (pre ++ t)) as (Hs & _).
    rewrite H in Hs. apply shorter_nonempty in Hs.
    revert H. rewrite !parse_atom_S. cbn zeta.
    rewrite (hd0_app pre t Hs), (tail_app pre t Hs).
    destruct (hd0 pre =? ch "(")%Z.
    { destruct (parse_expr fuel (tail pre ++ t)) as [r1 l1| |] eqn:E;
        try discriminate.
      destruct (hd0 l1 =? ch ")")%Z eqn:Ec; cbn [negb]; [|discriminate].
      intros [= <- Ht].
      pose proof (cons_rest l1 q t _ Ec ltac:(done) Ht) as ->.
      rewrite (IHe _ _ _ _ E). reflexivity. }
    destruct (hd0 pre =? ch ".")%Z.
    { intros [= <- Ht]. apply app_inv_tail in Ht. rewrite Ht. reflexivity. }
    destruct (hd0 pre =? ch "[")%Z.
    { destruct (parse_set fuel (tail pre ++ t)) as [r1 l1| |] eqn:E;
        try discriminate.
      intros [= <- Ht].
      pose proof (parse_set_rbracket _ _ _ _ E) as Ec.
      pose proof (cons_rest l1 q t _ Ec ltac:(done) Ht) as ->.
      rewrite (trunc_set fuel (tail pre) t r1 (ch "]" :: q) eq_refl E).
      reflexivity. }
    destruct (parse_char (pre ++ t)) as [c l1|] eqn:E; [|discriminate].
    intros [= <- ->]. rewrite (trunc_char _ _ _ _ E). reflexivity.
  - (* factor *)
    rewrite !parse_factor_S.
    destruct (parse_atom fuel (pre ++ t)) as [r1 l1| |] eqn:E;
      try discriminate.
    cbn zeta.
    destruct (hd0 l1 =? ch "*")%Z eqn:E1.
    { intros [= <- Ht].
      pose proof (cons_rest l1 q t _ E1 ltac:(done) Ht) as ->.
      rewrite (IHa _ _ _ _ E). reflexivity. }
    destruct (hd0 l1 =? ch "+")%Z eqn:E2.
    { intros [= <- Ht].
      pose proof (cons_rest l1 q t _ E2 ltac:(done) Ht) as ->.
      rewrite (IHa _ _ _ _ E). reflexivity. }
    destruct (hd0 l1 =? ch "?")%Z eqn:E3.
    { intros [= <- Ht].
      pose proof (cons_rest l1 q t _ E3 ltac:(done) Ht) as ->.
      rewrite (IHa _ _ _ _ E). reflexivity. }
    intros [= <- ->]. rewrite (IHa _ _ _ _ E).
    destruct (hd0_app_or q t) as [-> | Hq]; [reflexivity|].
    rewrite Hq in E1, E2, E3. rewrite E1, E2, E3. reflexivity.
  - (* term *)
    rewrite !parse_term_S.
    destruct (parse_factor fuel (pre ++ t)) as [a l1| |] eqn:E;
      try discriminate.
    cbn zeta.
    destruct ((hd0 l1 =? 0)%Z || (hd0 l1 =? ch ")")%Z
              || (hd0 l1 =? ch "|")%Z) eqn:Es.
    { intros [= <- ->]. rewrite (IHf _ _ _ _ E).
      destruct (hd0_app_or q t) as [-> | Hq]; [reflexivity|].
      rewrite Hq in Es. rewrite Es. reflexivity. }
    destruct (parse_term fuel l1) as [b l2| |] eqn:Eb; try discriminate.
    intros [= <- ->].
    destruct (parse_suffix fuel (pre ++ t)) as (_ & S1 & _).
    rewrite E in S1. simpl in S1.
    destruct (parse_suffix fuel l1) as (_ & _ & S2 & _).
    rewrite Eb in S2. simpl in S2.
    destruct (split_rest pre t q l1 S1 S2) as (q1 & -> & Hq1 & Hqq).
    rewrite (IHf _ _ _ _ E).
    destruct (hd0_app_or q1 t) as [-> | Hq].
    { exfalso. apply Sht in Eb. cbn [app] in Eb. rewrite length_app in Eb.
      lia. }
    rewrite Hq in Es. rewrite Es, (IHt _ _ _ _ Eb). reflexivity.
  - (* expr *)
    rewrite !parse_expr_S.
    destruct (parse_term fuel (pre ++ t)) as [a l1| |] eqn:E;
      try discriminate.
    destruct (hd0 l1 =? ch "|")%Z eqn:Es.
    + destruct (parse_expr fuel (tail l1)) as [b l2| |] eqn:Eb;
        try discriminate.
      intros [= <- ->].
      destruct (parse_suffix fuel (pre ++ t)) as (_ & _ & S1 & _).
      rewrite E in S1. simpl in S1.
      destruct (parse_suffix fuel (tail l1)) as (_ & _ & _ & S2).
      rewrite Eb in S2. simpl in S2.
      assert ((q ++ t) `suffix_of` l1) as S3
          by (etrans; [exact S2 | apply suffix_tail_self]).
      destruct (split_rest pre t q l1 S1 S3) as (q1 & -> & Hq1 & Hqq).
      rewrite (IHt _ _ _ _ E).
      destruct (decide (q1 = [])) as [-> | Hne].
      { exfalso. apply She in Eb. cbn [app] in Eb.
        pose proof (length_tail_le t). rewrite length_app in Eb. lia. }
      rewrite (hd0_app q1 t Hne) in Es. rewrite (tail_app q1 t Hne) in Eb.
      rewrite Es, (IHe _ _ _ _ Eb). reflexivity.
    + intros [= <- ->]. rewrite (IHt _ _ _ _ E).
      destruct (hd0_app_or q t) as [-> | Hq]; [reflexivity|].
      rewrite Hq in Es. rewrite Es. reflexivity.
Qed.

(** X23. When compilation succeeds at an offset [n], the first [n]
    characters of the text compile on their own, as a whole, to the same
    pattern; and if [n] is before the end of the text, the character at
    [n] is a closing parenthesis or the terminator. *)
Theorem compiled_prefix cs p n pat :
  rerex_compile cs p = Some (REREX_SUCCESS, n, Some pat) →
  n ≤ length p
  ∧ rerex_compile cs (take n p) = Some (REREX_SUCCESS, n, Some pat)
  ∧ (n < length p → p !! n = Some (ch ")") ∨ p !! n = Some 0%Z).
Proof.
  intros H.
  destruct (rerex_compile_success cs p n pat H)
    as (r & l' & Hp & [k Hk] & Hn & Hpat).
  assert (n = length k) as Hnk
      by (rewrite Hn, Hk, length_app; lia).
  split; [rewrite Hk, length_app; lia|].
  split; [|intros Hlt; exact (rerex_compile_rest cs p n pat H Hlt)].
  assert (take n p = k) as ->
      by (rewrite Hk, Hnk, take_app_length; reflexivity).
  rewrite Hk in Hp.
  destruct (parse_trunc (compile_fuel (k ++ l')) k l' [] r)
    as (_ & _ & _ & Ht).
  specialize (Ht Hp).
  rewrite (rerex_compile_whole cs k _ r Ht), Hnk, Hpat. reflexivity.
Qed.

Lemma compiled_prefix_witness :
  rerex_compile false (c_str "a)b")
  = Some (REREX_SUCCESS, 1, Some (pattern_of false (RChar 97)))
  ∧ rerex_compile false (take 1 (c_str "a)b"))
    = Some (REREX_SUCCESS, 1, Some (pattern_of false (RChar 97)))
  ∧ c_str "a)b" !! 1 = Some (ch ")").
Proof.
  assert (rerex_compile false (c_str "a)b")
          = Some (REREX_SUCCESS, 1, Some (pattern_of false (RChar 97))))
    as H by (vm_compute; reflexivity).
  split; [exact H|].
  split; [exact (proj1 (proj2 (compiled_prefix _ _ _ _ H))) | reflexivity].
Defined.

(** ** Patterns of the grammar *)




(** ** The characters that an error depends on *)

(** *** A production that succeeds does so whatever follows what it read *)

Lemma suffix_split (pre l' l1 : list Z) :
  l1 `suffix_of` pre ++ l' → l' `suffix_of` l1 →
  ∃ p1 q1, pre = p1 ++ q1 ∧ l1 = q1 ++ l'.
Proof.
  intros H1 H2.
  destruct (split_rest pre l' [] l1 H1 H2) as (q1 & -> & [p1 ->] & _).
  eauto.
Qed.

Lemma app_self_nil (q l : list Z) : q ++ l = l → q = [].
Proof.
  intros H. apply (f_equal length) in H. rewrite length_app in H.
  destruct q; [reflexivity | simpl in H; lia].
Qed.

Lemma hd0_agree (q l' t : list Z) :
  (q = [] → hd0 t = hd0 l') → hd0 (q ++ t) = hd0 (q ++ l').
Proof. destruct q; [intros H; apply H; reflexivity | reflexivity]. Qed.

Lemma hd1_agree (q l' t : list Z) :
  q ≠ [] → hd0 t = hd0 l' → hd1 (q ++ t) = hd1 (q ++ l').
Proof.
  destruct q as [|a [|b q]]; [done | | reflexivity].
  intros _ H. unfold hd1, hd0 in *. simpl. exact H.
Qed.

Lemma retail_char pre l' t c q :
  parse_char (pre ++ l') = CROk c (q ++ l') →
  parse_char (pre ++ t) = CROk c (q ++ t).
Proof. intros H. apply parse_char_ext, (trunc_char _ _ _ _ H). Qed.

Lemma retail_element pre l' t c q :
  parse_element (pre ++ l') = CROk c (q ++ l') →
  parse_element (pre ++ t) = CROk c (q ++ t).
Proof. intros H. apply parse_element_ext, (trunc_element _ _ _ _ H). Qed.

Lemma retail_range pre l' t r q :
  parse_range (pre ++ l') = ROk r (q ++ l') →
  hd0 (q ++ t) = hd0 (q ++ l') →
  ((hd0 (q ++ l') =? ch "-")%Z = true → hd1 (q ++ t) = hd1 (q ++ l')) →
  parse_range (pre ++ t) = ROk r (q ++ t).
Proof.
  unfold parse_range. intros H H0 H1.
  destruct (parse_element (pre ++ l')) as [lo l1|] eqn:E1; [|discriminate].
  pose proof (parse_element_suffix_ok _ _ _ E1) as S1.
  destruct ((hd0 l1 =? ch "-")%Z && negb (hd1 l1 =? ch "]")%Z) eqn:Eg.
  - destruct (parse_element (tail l1)) as [hi l2|] eqn:E2; [|discriminate].
    destruct (hi <? lo)%Z eqn:El; [discriminate|].
    injection H as <- ->.
    pose proof (parse_element_suffix_ok _ _ _ E2) as S2.
    pose proof (parse_element_shorter _ _ _ E2) as L2.
    assert ((q ++ l') `suffix_of` l1) as S3
        by (etrans; [exact S2 | apply suffix_tail_self]).
    destruct (split_rest pre l' q l1 S1 S3) as (q1 & -> & Hq1 & [k ->]).
    assert (k ≠ []) as Hk.
    { intros ->. cbn [app] in L2. pose proof (length_tail_le (q ++ l')).
      lia. }
    assert (tail (k ++ q) ≠ []) as Hk2.
    { destruct k as [|a k]; [done|]. cbn [app tail]. intros Hn.
      apply app_eq_nil in Hn as [-> ->]. cbn [app tail] in L2. lia. }
    assert (k ++ q ≠ []) as Hkq by (destruct k; done).
    rewrite (retail_element _ _ t _ _ E1).
    rewrite hd0_app, hd1_app in Eg by assumption.
    rewrite hd0_app, hd1_app, Eg by assumption.
    rewrite tail_app in E2 by assumption. rewrite tail_app by assumption.
    rewrite (retail_element _ _ t _ _ E2), El. reflexivity.
  - rewrite Z.ltb_irrefl in H. injection H as <- ->.
    rewrite (retail_element _ _ t _ _ E1), H0.
    destruct (hd0 (q ++ l') =? ch "-")%Z eqn:Ed.
    + rewrite (H1 eq_refl). cbn [andb] in *. rewrite Eg.
      rewrite Z.ltb_irrefl. reflexivity.
    + cbn [andb]. rewrite Z.ltb_irrefl. reflexivity.
Qed.

Lemma retail_atom fuel pre l' t r q :
  parse_atom fuel (pre ++ l') = ROk r (q ++ l') →
  parse_atom fuel (pre ++ t) = ROk r (q ++ t).
Proof.
  intros H. destruct (parse_trunc fuel pre l' q r) as (Ht & _).
  destruct (parse_ext fuel pre t) as (He & _). apply He, Ht, H.
Qed.

Lemma retail_factor fuel pre l' t r q :
  parse_factor fuel (pre ++ l') = ROk r (q ++ l') →
  hd0 (q ++ t) = hd0 (q ++ l') →
  parse_factor fuel (pre ++ t) = ROk r (q ++ t).
Proof.
  destruct fuel as [|fuel]; [discriminate|]. rewrite !parse_factor_S.
  intros H H0.
  destruct (parse_atom fuel (pre ++ l')) as [r1 l1| |] eqn:E;
    try discriminate.
  destruct (parse_suffix fuel (pre ++ l')) as (S1 & _).
  rewrite E in S1. simpl in S1. cbn zeta in H.
  assert (∀ c, (hd0 l1 =? c)%Z = true → c ≠ 0%Z → tail l1 = q ++ l' →
               parse_atom fuel (pre ++ t) = ROk r1 ((c :: q) ++ t)
               ∧ l1 = (c :: q) ++ l') as Hop.
  { intros c Hc Hn Ht. pose proof (cons_rest l1 q l' c Hc Hn Ht) as ->.
    split; [|reflexivity]. eapply retail_atom, E. }
  destruct (hd0 l1 =? ch "*")%Z eqn:E1.
  { injection H as <- Ht. destruct (Hop _ E1 ltac:(done) Ht) as [-> _].
    reflexivity. }
  destruct (hd0 l1 =? ch "+")%Z eqn:E2.
  { injection H as <- Ht. destruct (Hop _ E2 ltac:(done) Ht) as [-> _].
    reflexivity. }
  destruct (hd0 l1 =? ch "?")%Z eqn:E3.
  { injection H as <- Ht. destruct (Hop _ E3 ltac:(done) Ht) as [-> _].
    reflexivity. }
  injection H as <- ->. rewrite (retail_atom _ _ _ t _ _ E). cbn zeta.
  rewrite H0, E1, E2, E3. reflexivity.
Qed.

Lemma retail_term fuel pre l' t r q :
  parse_term fuel (pre ++ l') = ROk r (q ++ l') →
  hd0 (q ++ t) = hd0 (q ++ l') →
  parse_term fuel (pre ++ t) = ROk r (q ++ t).
Proof.
  intros H H0. destruct (parse_trunc fuel pre l' q r) as (_ & _ & Ht & _).
  destruct (parse_ext fuel pre t) as (_ & _ & He & _).
  apply He; [apply Ht, H|]. intros ->. cbn [app] in H0. rewrite H0.
  destruct (parse_ends fuel (pre ++ l') r l') as [Hends _]. apply Hends, H.
Qed.

Lemma retail_expr fuel pre l' t r q :
  parse_expr fuel (pre ++ l') = ROk r (q ++ l') →
  hd0 (q ++ t) = hd0 (q ++ l') →
  parse_expr fuel (pre ++ t) = ROk r (q ++ t).
Proof.
  intros H H0. destruct (parse_trunc fuel pre l' q r) as (_ & _ & _ & Ht).
  destruct (parse_ext fuel pre t) as (_ & _ & _ & He).
  apply He; [apply Ht, H|]. intros ->. cbn [app] in H0. rewrite H0.
  destruct (parse_ends fuel (pre ++ l') r l') as [_ Hends]. apply Hends, H.
Qed.

(** *** The range behind the unordered-range status *)

Lemma unordered_at_suffix (l1 l l' : list Z) :
  l1 `suffix_of` l → unordered_at l1 l' → unordered_at l l'.
Proof.
  intros [k ->] (pre & lo & mid & hi & -> & Hm & Hlt).
  exists (k ++ pre), lo, mid, hi. rewrite <- app_assoc. auto.
Qed.

Lemma presult_unordered_suffix {A : Type} (p : presult A) l1 l :
  l1 `suffix_of` l → presult_unordered p l1 → presult_unordered p l.
Proof.
  destruct p; simpl; auto. intros Hs H Hst.
  eapply unordered_at_suffix; eauto.
Qed.

(** An element that is read is the character before what is left, after
    a backslash if it is the closing bracket. *)
Lemma parse_element_last l c l' :
  parse_element l = CROk c l' →
  ∃ pre, l = pre ++ c :: l' ∧ (pre = [] ∨ pre = [ch "\"]).
Proof.
  unfold parse_element. destruct l as [|a l]; [discriminate|].
  change (hd0 (a :: l)) with a. cbn [tail].
  destruct (a =? 0)%Z; [discriminate|].
  destruct (a =? ch "]")%Z; [discriminate|].
  destruct (a =? ch "\")%Z eqn:Eb.
  - destruct l as [|b l]; [discriminate|].
    change (hd0 (b :: l)) with b. cbn [tail].
    destruct (negb (b =? ch "]")%Z); [discriminate|].
    intros [= <- <-]. apply Z.eqb_eq in Eb. subst a.
    exists [ch "\"]. auto.
  - destruct (_ && _); [|discriminate]. intros [= <- <-].
    exists []. auto.
Qed.

Lemma parse_range_unordered_at l : presult_unordered (parse_range l) l.
Proof.
  unfold parse_range.
  destruct (parse_element l) as [lo l1 | st l1 b] eqn:E1.
  - destruct (parse_element_last _ _ _ E1) as (pre & Hl & Hpre).
    destruct ((hd0 l1 =? ch "-")%Z && negb (hd1 l1 =? ch "]")%Z) eqn:Eg.
    + apply andb_prop in Eg as [Eg _].
      destruct (parse_element (tail l1)) as [hi l2 | st l2 b] eqn:E2.
      * destruct (hi <? lo)%Z eqn:El; [|exact I]. intros _.
        destruct (parse_element_last _ _ _ E2) as (mid & Hl2 & Hmid).
        pose proof (hd0_eq_nonzero _ _ Eg ltac:(done)) as Hn.
        destruct (hd0_nonzero l1 Hn) as [l3 Hl3].
        apply Z.eqb_eq in Eg. rewrite Eg in Hl3.
        rewrite Hl3 in Hl2. cbn [tail] in Hl2.
        exists pre, lo, mid, hi. apply Z.ltb_lt in El.
        split; [|auto]. rewrite Hl, Hl3, Hl2. reflexivity.
      * intros ->. destruct (parse_element_err _ _ _ _ E2) as [Hne _].
        done.
    + rewrite Z.ltb_irrefl. exact I.
  - intros ->. destruct (parse_element_err _ _ _ _ E1) as [Hne _]. done.
Qed.

Lemma parse_set_loop_unordered_at fuel :
  ∀ l, presult_unordered (parse_set_loop fuel l) l.
Proof.
  induction fuel as [|fuel IH]; intros l; cbn [parse_set_loop];
    (destruct (hd0 l =? ch "]")%Z; [exact I|]); [exact I|].
  pose proof (parse_range_unordered_at l) as H1.
  pose proof (parse_range_suffix l) as S1.
  destruct (parse_range l) as [r l1 | st l1 b |]; [|exact H1|exact I].
  simpl in S1. pose proof (IH l1) as H2.
  destruct (parse_set_loop fuel l1) as [rest l2 | st l2 b |];
    [exact I | | exact I].
  eapply presult_unordered_suffix in H2; eauto.
Qed.

Lemma parse_set_unordered_at fuel l : presult_unordered (parse_set fuel l) l.
Proof.
  unfold parse_set.
  assert (∀ neg l0, l0 `suffix_of` l → presult_unordered
    match parse_range l0 with
    | ROk first l =>
      match parse_set_loop fuel l with
      | ROk rest l => ROk (RSet neg first rest) l
      | RErr st l b => RErr st l b
      | RFuel => RFuel
      end
    | RErr st l b => RErr st l b
    | RFuel => RFuel
    end l) as Hbody.
  { intros neg l0 Hle.
    pose proof (parse_range_unordered_at l0) as H1.
    pose proof (parse_range_suffix l0) as S1.
    destruct (parse_range l0) as [r l1 | st l1 b |]; [| |exact I].
    - simpl in S1.
      pose proof (parse_set_loop_unordered_at fuel l1) as H2.
      destruct (parse_set_loop fuel l1) as [rest l2 | st l2 b |];
        [exact I | | exact I].
      eapply presult_unordered_suffix in H2; [exact H2|]. etrans; eauto.
    - eapply presult_unordered_suffix in H1; eauto. }
  destruct (hd0 l =? ch "^")%Z; apply Hbody;
    [apply suffix_tail_self | reflexivity].
Qed.

Lemma parse_unordered_at fuel :
  ∀ l, presult_unordered (parse_atom fuel l) l
       ∧ presult_unordered (parse_factor fuel l) l
       ∧ presult_unordered (parse_term fuel l) l
       ∧ presult_unordered (parse_expr fuel l) l.
Proof.
  induction fuel as [|fuel IH]; intros l; [simpl; auto|].
  assert (∀ l, presult_unordered (parse_atom fuel l) l) as IHa by apply IH.
  assert (∀ l, presult_unordered (parse_factor fuel l) l) as IHf
      by apply IH.
  assert (∀ l, presult_unordered (parse_term fuel l) l) as IHt by apply IH.
  assert (∀ l, presult_unordered (parse_expr fuel l) l) as IHe by apply IH.
  assert (∀ l, presult_suffix (parse_factor fuel l) l) as Sf
      by apply parse_suffix.
  assert (∀ l, presult_suffix (parse_term fuel l) l) as St
      by apply parse_suffix.
  clear IH. repeat split.
  - rewrite parse_atom_S. cbn zeta.
    pose proof (suffix_tail_self l) as Hl.
    destruct (hd0 l =? ch "(")%Z.
    { pose proof (IHe (tail l)) as H.
      destruct (parse_expr fuel (tail l)) as [r l1 | st l1 b |];
        [| eapply presult_unordered_suffix in H; eauto | exact I].
      destruct (negb (hd0 l1 =? ch ")")%Z) eqn:En; [|exact I].
      intros [=]. }
    destruct (hd0 l =? ch ".")%Z; [exact I|].
    destruct (hd0 l =? ch "[")%Z.
    { pose proof (parse_set_unordered_at fuel (tail l)) as H.
      destruct (parse_set fuel (tail l)) as [r l1 | st l1 b |];
        [exact I | eapply presult_unordered_suffix in H; eauto | exact I]. }
    destruct (parse_char l) as [c l1 | st l1 b] eqn:E; [exact I|].
    intros ->. destruct (parse_char_err _ _ _ _ E) as [Hne _]. done.
  - rewrite parse_factor_S. cbn zeta.
    pose proof (IHa l) as H.
    destruct (parse_atom fuel l) as [r l1 | st l1 b |];
      [| exact H | exact I].
    destruct (hd0 l1 =? ch "*")%Z; [exact I|].
    destruct (hd0 l1 =? ch "+")%Z; [exact I|].
    destruct (hd0 l1 =? ch "?")%Z; exact I.
  - rewrite parse_term_S. cbn zeta.
    pose proof (IHf l) as H. pose proof (Sf l) as S.
    destruct (parse_factor fuel l) as [r l1 | st l1 b |];
      [| exact H | exact I].
    simpl in S.
    destruct (_ || _); [exact I|].
    pose proof (IHt l1) as H2.
    destruct (parse_term fuel l1) as [r2 l2 | st l2 b |];
      [exact I | eapply presult_unordered_suffix in H2; eauto | exact I].
  - rewrite parse_expr_S.
    pose proof (IHt l) as H. pose proof (St l) as S.
    destruct (parse_term fuel l) as [r l1 | st l1 b |];
      [| exact H | exact I].
    simpl in S.
    destruct (hd0 l1 =? ch "|")%Z; [|exact I].
    pose proof (IHe (tail l1)) as H2. pose proof (suffix_tail_self l1).
    destruct (parse_expr fuel (tail l1)) as [r2 l2 | st l2 b |];
      [exact I | | exact I].
    eapply presult_unordered_suffix in H2; [exact H2|]. etrans; eauto.
Qed.

(** *** An error depends on the characters up to the one it stops at *)

Lemma err_agree pre l' t st b :
  err_ok (pre ++ l') st l' b → (b = 0 → hd0 t = hd0 l') →
  hd0 (pre ++ t) = hd0 (pre ++ l').
Proof.
  intros He Ht. apply hd0_agree. intros ->.
  destruct He as [(_ & _ & Hlt) | (_ & -> & _)]; [simpl in Hlt; lia|].
  apply Ht. reflexivity.
Qed.

Lemma unordered_at_length l l' : unordered_at l l' → length l' + 3 ≤ length l.
Proof.
  intros (pre & lo & mid & hi & -> & _ & _).
  rewrite length_app. cbn [length]. rewrite length_app. cbn [length]. lia.
Qed.

Lemma cons_app_self (a : Z) pre l : a :: pre ++ l ≠ l.
Proof.
  intros H. apply (app_self_nil (a :: pre) l) in H. discriminate.
Qed.

Lemma local_char pre l' t st b :
  parse_char (pre ++ l') = CRErr st l' b → hd0 t = hd0 l' →
  parse_char (pre ++ t) = CRErr st t b.
Proof.
  intros H Ht. destruct pre as [|a pre].
  - cbn [app] in *. revert H. unfold parse_char. rewrite Ht.
    destruct (hd0 l' =? 0)%Z; [intros [= <- <-]; reflexivity|].
    destruct (hd0 l' =? ch "\")%Z eqn:Eb.
    { unfold parse_escape. cbv zeta.
      destruct (is_special (hd0 (tail l')) || _); [discriminate|].
      intros [= _ Hl _]. exfalso.
      apply (tail_longer l' []); [|exact Hl].
      eapply hd0_eq_nonzero; eauto. }
    destruct (is_special (hd0 l')); [intros [= <- <-]; reflexivity|].
    destruct (_ && _); [discriminate|]. intros [= <- <-]. reflexivity.
  - revert H. rewrite <- !app_comm_cons. unfold parse_char, parse_escape.
    change (hd0 (a :: pre ++ l')) with a. change (hd0 (a :: pre ++ t)) with a.
    cbn [tail]. cbv zeta.
    destruct (a =? 0)%Z;
      [intros [= _ Hl _]; destruct (cons_app_self _ _ _ Hl)|].
    destruct (a =? ch "\")%Z.
    { destruct (is_special (hd0 (pre ++ l')) || _) eqn:E; [discriminate|].
      intros [= <- Hl <-]. apply app_self_nil in Hl. subst pre.
      cbn [app] in *. rewrite Ht, E. reflexivity. }
    destruct (is_special a);
      [intros [= _ Hl _]; destruct (cons_app_self _ _ _ Hl)|].
    destruct (_ && _); [discriminate|].
    intros [= _ Hl _]. destruct (cons_app_self _ _ _ Hl).
Qed.

Lemma local_element pre l' t st b :
  parse_element (pre ++ l') = CRErr st l' b → hd0 t = hd0 l' →
  parse_element (pre ++ t) = CRErr st t b.
Proof.
  intros H Ht. destruct pre as [|a pre].
  - cbn [app] in *. revert H. unfold parse_element. rewrite Ht.
    destruct (hd0 l' =? 0)%Z; [intros [= <- <-]; reflexivity|].
    destruct (hd0 l' =? ch "]")%Z; [intros [= <- <-]; reflexivity|].
    destruct (hd0 l' =? ch "\")%Z eqn:Eb.
    { cbv zeta. destruct (negb (hd0 (tail l') =? ch "]")%Z); [|discriminate].
      intros [= _ Hl _]. exfalso.
      apply (tail_longer l' []); [|exact Hl].
      eapply hd0_eq_nonzero; eauto. }
    destruct (_ && _); [discriminate|]. intros [= <- <-]. reflexivity.
  - revert H. rewrite <- !app_comm_cons. unfold parse_element.
    change (hd0 (a :: pre ++ l')) with a. change (hd0 (a :: pre ++ t)) with a.
    cbn [tail]. cbv zeta.
    destruct (a =? 0)%Z;
      [intros [= _ Hl _]; destruct (cons_app_self _ _ _ Hl)|].
    destruct (a =? ch "]")%Z;
      [intros [= _ Hl _]; destruct (cons_app_self _ _ _ Hl)|].
    destruct (a =? ch "\")%Z.
    { destruct (negb (hd0 (pre ++ l') =? ch "]")%Z) eqn:E; [|discriminate].
      intros [= <- Hl <-]. apply app_self_nil in Hl. subst pre.
      cbn [app] in *. rewrite Ht, E. reflexivity. }
    destruct (_ && _); [discriminate|].
    intros [= _ Hl _]. destruct (cons_app_self _ _ _ Hl).
Qed.

Lemma parse_element_suffix_err l st l' b :
  parse_element l = CRErr st l' b → l' `suffix_of` l.
Proof.
  intros H. pose proof (parse_element_suffix l) as Hs. rewrite H in Hs.
  exact Hs.
Qed.

Lemma local_range pre l' t st b :
  parse_range (pre ++ l') = RErr st l' b → (b = 0 → hd0 t = hd0 l') →
  parse_range (pre ++ t) = RErr st t b.
Proof.
  unfold parse_range. intros H Ht.
  destruct (parse_element (pre ++ l')) as [lo l1 | st1 l1 b1] eqn:E1.
  - pose proof (parse_element_suffix_ok _ _ _ E1) as S1.
    destruct ((hd0 l1 =? ch "-")%Z && negb (hd1 l1 =? ch "]")%Z) eqn:Eg.
    + pose proof Eg as Eg'. apply andb_prop in Eg' as [Ed _].
      pose proof (hd0_eq_nonzero _ _ Ed ltac:(done)) as Hn.
      apply length_tail_nonzero in Hn.
      destruct (parse_element (tail l1)) as [hi l2 | st2 l2 b2] eqn:E2.
      * destruct (hi <? lo)%Z eqn:El; [|discriminate].
        injection H as <- -> <-.
        pose proof (parse_element_suffix_ok _ _ _ E2) as S2.
        pose proof (parse_element_shorter _ _ _ E2) as L2.
        assert (l' `suffix_of` l1) as S3
            by (etrans; [exact S2 | apply suffix_tail_self]).
        destruct (split_rest pre l' [] l1 S1 S3) as (q1 & -> & Hq1 & _).
        rewrite length_app in Hn.
        assert (q1 ≠ []) as Hq by (intros ->; simpl in *; lia).
        rewrite tail_app in E2, L2 by assumption.
        assert (tail q1 ≠ []) as Hq2.
        { intros Hnil. rewrite Hnil in L2. simpl in L2. lia. }
        rewrite (retail_element _ _ t _ _ E1).
        rewrite hd0_app, hd1_app in Eg by assumption.
        rewrite hd0_app, hd1_app, Eg, tail_app by assumption.
        rewrite (retail_element _ _ t _ [] E2), El. reflexivity.
      * injection H as <- -> <-.
        destruct (parse_element_err _ _ _ _ E2) as (Hne & -> & Hb).
        specialize (Ht eq_refl).
        pose proof (parse_element_suffix_err _ _ _ _ E2) as S2.
        assert (l' `suffix_of` l1) as S3
            by (etrans; [exact S2 | apply suffix_tail_self]).
        pose proof (suffix_length _ _ S2) as L2.
        destruct (split_rest pre l' [] l1 S1 S3) as (q1 & -> & Hq1 & _).
        rewrite length_app in Hn.
        assert (q1 ≠ []) as Hq by (intros ->; simpl in *; lia).
        rewrite tail_app in E2 by assumption.
        rewrite (retail_element _ _ t _ _ E1).
        rewrite hd0_app in Eg by assumption.
        rewrite hd0_app, (hd1_agree q1 l' t Hq Ht), Eg, tail_app
          by assumption.
        rewrite (local_element _ _ t _ _ E2 Ht). reflexivity.
    + rewrite Z.ltb_irrefl in H. discriminate.
  - injection H as <- -> <-.
    destruct (parse_element_err _ _ _ _ E1) as (Hne & -> & Hb).
    rewrite (local_element _ _ t _ _ E1 (Ht eq_refl)). reflexivity.
Qed.

(** A dash under the cursor, where a range is to start, is consumed. *)
Lemma dash_range l :
  (hd0 l =? ch "-")%Z = true →
  match parse_range l with
  | ROk _ l1 | RErr _ l1 _ => length l1 < length l
  | RFuel => True
  end.
Proof.
  intros Hd. destruct l as [|a l]; [discriminate|].
  change (hd0 (a :: l)) with a in Hd. apply Z.eqb_eq in Hd. subst a.
  unfold parse_range.
  change (parse_element (ch "-" :: l)) with (CROk (ch "-") l). cbv iota beta.
  pose proof (length_tail_le l) as Hl.
  destruct ((hd0 l =? ch "-")%Z && negb (hd1 l =? ch "]")%Z).
  - pose proof (parse_element_suffix (tail l)) as S.
    destruct (parse_element (tail l)) as [hi l2 | st l2 b]; simpl in S;
      apply suffix_length in S; [|simpl; lia].
    destruct (hi <? ch "-")%Z; simpl; lia.
  - rewrite Z.ltb_irrefl. simpl. lia.
Qed.

Lemma dash_loop fuel l st l' b :
  (hd0 l =? ch "-")%Z = true →
  parse_set_loop fuel l = RErr st l' b → length l' < length l.
Proof.
  intros Hd H. destruct fuel as [|fuel];
    [cbn [parse_set_loop] in H; destruct (hd0 l =? ch "]")%Z; discriminate|].
  rewrite parse_set_loop_S in H.
  destruct (hd0 l =? ch "]")%Z; [discriminate|].
  pose proof (dash_range l Hd) as Hr.
  destruct (parse_range l) as [r l1 | st1 l1 b1 |]; [| |discriminate].
  - pose proof (parse_set_loop_suffix fuel l1) as S.
    destruct (parse_set_loop fuel l1) as [rs l2 | st2 l2 b2 |];
      try discriminate.
    injection H as <- <- <-. simpl in S. apply suffix_length in S. lia.
  - injection H as <- <- <-. exact Hr.
Qed.

(** What a range leaves, when an error follows in the set. *)
Lemma loop_error_agree fuel q1 l' t st b :
  parse_set_loop fuel (q1 ++ l') = RErr st l' b →
  (b = 0 → hd0 t = hd0 l') →
  hd0 (q1 ++ t) = hd0 (q1 ++ l')
  ∧ ((hd0 (q1 ++ l') =? ch "-")%Z = true →
     hd1 (q1 ++ t) = hd1 (q1 ++ l')).
Proof.
  intros El Ht.
  pose proof (parse_set_loop_err fuel (q1 ++ l')) as He.
  rewrite El in He. simpl in He.
  split; [exact (err_agree _ _ t _ _ He Ht)|].
  intros Hd. destruct q1 as [|x q1].
  - exfalso. cbn [app] in *. pose proof (dash_loop _ _ _ _ _ Hd El). lia.
  - destruct He as [(-> & -> & _) | (_ & -> & _)].
    + pose proof (parse_set_loop_unordered_at fuel ((x :: q1) ++ l')) as Hu.
      rewrite El in Hu. cbn [presult_unordered] in Hu.
      specialize (Hu eq_refl). apply unordered_at_length in Hu.
      destruct q1 as [|y q1]; [simpl in Hu; lia | reflexivity].
    + apply hd1_agree; [done | exact (Ht eq_refl)].
Qed.

Lemma parse_set_loop_suffix_err fuel l st l' b :
  parse_set_loop fuel l = RErr st l' b → l' `suffix_of` l.
Proof.
  intros H. pose proof (parse_set_loop_suffix fuel l) as Hs.
  rewrite H in Hs. exact Hs.
Qed.

Lemma local_set_loop fuel :
  ∀ pre l' t st b,
    parse_set_loop fuel (pre ++ l') = RErr st l' b →
    (b = 0 → hd0 t = hd0 l') →
    parse_set_loop fuel (pre ++ t) = RErr st t b.
Proof.
  induction fuel as [|fuel IH]; intros pre l' t st b H Ht.
  - cbn [parse_set_loop] in H. destruct (_ =? _)%Z; discriminate.
  - pose proof (parse_set_loop_err (S fuel) (pre ++ l')) as He.
    rewrite H in He. simpl in He.
    pose proof (err_agree _ _ t _ _ He Ht) as H0.
    rewrite parse_set_loop_S in *. rewrite H0.
    destruct (hd0 (pre ++ l') =? ch "]")%Z; [discriminate|].
    destruct (parse_range (pre ++ l')) as [r l1 | st1 l1 b1 |] eqn:Er;
      [| |discriminate].
    + destruct (parse_set_loop fuel l1) as [rs l2 | st2 l2 b2 |] eqn:El;
        try discriminate.
      injection H as <- -> <-.
      pose proof (parse_range_suffix_ok _ _ _ Er) as S1.
      pose proof (parse_set_loop_suffix_err _ _ _ _ _ El) as S2.
      destruct (suffix_split _ _ _ S1 S2) as (p1 & q1 & -> & ->).
      destruct (loop_error_agree _ _ _ t _ _ El Ht) as [Ha Hd].
      rewrite (retail_range _ _ t _ _ Er Ha Hd), (IH q1 l' t _ _ El Ht).
      reflexivity.
    + injection H as <- -> <-. rewrite (local_range _ _ t _ _ Er Ht).
      reflexivity.
Qed.

Lemma local_set fuel pre l' t st b :
  parse_set fuel (pre ++ l') = RErr st l' b →
  (b = 0 → hd0 t = hd0 l') →
  parse_set fuel (pre ++ t) = RErr st t b.
Proof.
  intros H Ht.
  pose proof (parse_set_err fuel (pre ++ l')) as He.
  rewrite H in He. simpl in He.
  pose proof (err_agree _ _ t _ _ He Ht) as H0.
  assert (∀ neg pre0,
    match parse_range (pre0 ++ l') with
    | ROk first l =>
      match parse_set_loop fuel l with
      | ROk rest l => ROk (RSet neg first rest) l
      | RErr st l b => RErr st l b
      | RFuel => RFuel
      end
    | RErr st l b => RErr st l b
    | RFuel => RFuel
    end = RErr st l' b →
    match parse_range (pre0 ++ t) with
    | ROk first l =>
      match parse_set_loop fuel l with
      | ROk rest l => ROk (RSet neg first rest) l
      | RErr st l b => RErr st l b
      | RFuel => RFuel
      end
    | RErr st l b => RErr st l b
    | RFuel => RFuel
    end = RErr st t b) as Hbody.
  { intros neg pre0 Hb.
    destruct (parse_range (pre0 ++ l')) as [r l1 | st1 l1 b1 |] eqn:Er;
      [| |discriminate].
    + destruct (parse_set_loop fuel l1) as [rs l2 | st2 l2 b2 |] eqn:El;
        try discriminate.
      injection Hb as <- -> <-.
      pose proof (parse_range_suffix_ok _ _ _ Er) as S1.
      pose proof (parse_set_loop_suffix_err _ _ _ _ _ El) as S2.
      destruct (suffix_split _ _ _ S1 S2) as (p1 & q1 & -> & ->).
      destruct (loop_error_agree _ _ _ t _ _ El Ht) as [Ha Hd].
      rewrite (retail_range _ _ t _ _ Er Ha Hd),
        (local_set_loop fuel q1 l' t _ _ El Ht).
      reflexivity.
    + injection Hb as <- -> <-. rewrite (local_range _ _ t _ _ Er Ht).
      reflexivity. }
  revert H. unfold parse_set. rewrite H0.
  destruct (hd0 (pre ++ l') =? ch "^")%Z eqn:Ec; [|apply Hbody].
  destruct (decide (pre = [])) as [-> | Hpre].
  - cbn [app] in *. intros H. exfalso.
    pose proof (hd0_eq_nonzero _ _ Ec ltac:(done)) as Hn.
    apply length_tail_nonzero in Hn.
    pose proof (parse_range_suffix (tail l')) as S1.
    destruct (parse_range (tail l')) as [r l1 | st1 l1 b1 |];
      [| |discriminate]; simpl in S1; apply suffix_length in S1.
    + pose proof (parse_set_loop_suffix fuel l1) as S2.
      destruct (parse_set_loop fuel l1) as [rs l2 | st2 l2 b2 |];
        try discriminate.
      injection H as _ Hl _. subst l2. simpl in S2.
      apply suffix_length in S2. lia.
    + injection H as _ Hl _. subst l1. lia.
  - rewrite !tail_app by assumption. apply Hbody.
Qed.

Lemma not_whole (l l2 : list Z) :
  hd0 l ≠ 0%Z → l2 `suffix_of` tail l → l2 ≠ l.
Proof.
  intros Hn Hs ->. apply suffix_length in Hs.
  apply length_tail_nonzero in Hn. lia.
Qed.

Lemma presult_suffix_err {A : Type} (p : presult A) l st l' b :
  presult_suffix p l → p = RErr st l' b → l' `suffix_of` l.
Proof. intros H ->. exact H. Qed.

Lemma presult_suffix_ok {A : Type} (p : presult A) l r l' :
  presult_suffix p l → p = ROk r l' → l' `suffix_of` l.
Proof. intros H ->. exact H. Qed.

Lemma presult_err_ok {A : Type} (p : presult A) l st l' b :
  presult_err p l → p = RErr st l' b → err_ok l st l' b.
Proof. intros H ->. exact H. Qed.

(** An error of a production depends on the text up to the character at
    which it stops, and on no more than the text before it when the
    status is that of an unordered range. *)
Lemma parse_local fuel :
  ∀ pre l' t st b,
    (b = 0 → hd0 t = hd0 l') →
    (parse_atom fuel (pre ++ l') = RErr st l' b →
     parse_atom fuel (pre ++ t) = RErr st t b)
    ∧ (parse_factor fuel (pre ++ l') = RErr st l' b →
       parse_factor fuel (pre ++ t) = RErr st t b)
    ∧ (parse_term fuel (pre ++ l') = RErr st l' b →
       parse_term fuel (pre ++ t) = RErr st t b)
    ∧ (parse_expr fuel (pre ++ l') = RErr st l' b →
       parse_expr fuel (pre ++ t) = RErr st t b).
Proof.
  induction fuel as [|fuel IH]; intros pre l' t st b Ht;
    [repeat split; discriminate|].
  assert (∀ pre l' t st b, (b = 0 → hd0 t = hd0 l') →
            parse_atom fuel (pre ++ l') = RErr st l' b →
            parse_atom fuel (pre ++ t) = RErr st t b) as IHa
      by (intros; eapply IH; eauto).
  assert (∀ pre l' t st b, (b = 0 → hd0 t = hd0 l') →
            parse_factor fuel (pre ++ l') = RErr st l' b →
            parse_factor fuel (pre ++ t) = RErr st t b) as IHf
      by (intros; eapply IH; eauto).
  assert (∀ pre l' t st b, (b = 0 → hd0 t = hd0 l') →
            parse_term fuel (pre ++ l') = RErr st l' b →
            parse_term fuel (pre ++ t) = RErr st t b) as IHt
      by (intros; eapply IH; eauto).
  assert (∀ pre l' t st b, (b = 0 → hd0 t = hd0 l') →
            parse_expr fuel (pre ++ l') = RErr st l' b →
            parse_expr fuel (pre ++ t) = RErr st t b) as IHe
      by (intros; eapply IH; eauto).
  clear IH.
  repeat split.
  - (* atom *)
    intros H.
    destruct (parse_err (S fuel) (pre ++ l')) as (He & _).
    apply (presult_err_ok _ _ _ _ _ He) in H as He'.
    pose proof (err_agree _ _ t _ _ He' Ht) as H0.
    revert H. rewrite !parse_atom_S. cbn zeta. rewrite H0.
    destruct (hd0 (pre ++ l') =? ch "(")%Z eqn:Ep.
    { destruct (decide (pre = [])) as [-> | Hpre].
      - cbn [app] in *. intros H. exfalso.
        pose proof (hd0_eq_nonzero _ _ Ep ltac:(done)) as Hn.
        destruct (parse_suffix fuel (tail l')) as (_ & _ & _ & S).
        destruct (parse_expr fuel (tail l')) as [r1 l1 | st1 l1 b1 |];
          [| |discriminate]; simpl in S.
        + destruct (negb (hd0 l1 =? ch ")")%Z); [|discriminate].
          injection H as _ Hl _. exact (not_whole _ _ Hn S Hl).
        + injection H as _ Hl _. exact (not_whole _ _ Hn S Hl).
      - rewrite !tail_app by assumption.
        destruct (parse_expr fuel (tail pre ++ l')) as [r1 l1 | st1 l1 b1 |]
          eqn:E; [| |discriminate].
        + destruct (negb (hd0 l1 =? ch ")")%Z) eqn:En; [|discriminate].
          intros [= <- -> <-]. specialize (Ht eq_refl).
          rewrite (retail_expr fuel (tail pre) l' t r1 [] E Ht).
          cbn [app]. rewrite Ht, En. reflexivity.
        + intros [= <- -> <-]. rewrite (IHe _ _ t _ _ Ht E). reflexivity. }
    destruct (hd0 (pre ++ l') =? ch ".")%Z; [discriminate|].
    destruct (hd0 (pre ++ l') =? ch "[")%Z eqn:Eb.
    { destruct (decide (pre = [])) as [-> | Hpre].
      - cbn [app] in *. intros H. exfalso.
        pose proof (hd0_eq_nonzero _ _ Eb ltac:(done)) as Hn.
        pose proof (parse_set_suffix fuel (tail l')) as S.
        destruct (parse_set fuel (tail l')) as [r1 l1 | st1 l1 b1 |];
          [discriminate| |discriminate]; simpl in S.
        injection H as _ Hl _. exact (not_whole _ _ Hn S Hl).
      - rewrite !tail_app by assumption.
        destruct (parse_set fuel (tail pre ++ l')) as [r1 l1 | st1 l1 b1 |]
          eqn:E; [discriminate| |discriminate].
        intros [= <- -> <-]. rewrite (local_set _ _ _ t _ _ E Ht).
        reflexivity. }
    destruct (parse_char (pre ++ l')) as [c l1 | st1 l1 b1] eqn:E;
      [discriminate|].
    intros [= <- -> <-].
    destruct (parse_char_err _ _ _ _ E) as (_ & -> & _).
    rewrite (local_char _ _ t _ _ E (Ht eq_refl)). reflexivity.
  - (* factor *)
    rewrite !parse_factor_S.
    destruct (parse_atom fuel (pre ++ l')) as [r1 l1 | st1 l1 b1 |] eqn:E;
      [| |discriminate].
    + cbn zeta. destruct (hd0 l1 =? ch "*")%Z; [discriminate|].
      destruct (hd0 l1 =? ch "+")%Z; [discriminate|].
      destruct (hd0 l1 =? ch "?")%Z; discriminate.
    + intros [= <- -> <-]. rewrite (IHa _ _ t _ _ Ht E). reflexivity.
  - (* term *)
    rewrite !parse_term_S.
    destruct (parse_factor fuel (pre ++ l')) as [a l1 | st1 l1 b1 |] eqn:E;
      [| |discriminate].
    + cbn zeta.
      destruct ((hd0 l1 =? 0)%Z || (hd0 l1 =? ch ")")%Z
                || (hd0 l1 =? ch "|")%Z) eqn:Es; [discriminate|].
      destruct (parse_term fuel l1) as [r2 l2 | st2 l2 b2 |] eqn:Et;
        try discriminate.
      intros [= <- -> <-].
      destruct (parse_suffix fuel (pre ++ l')) as (_ & Sf & _).
      apply (presult_suffix_ok _ _ _ _ Sf) in E as S1.
      destruct (parse_suffix fuel l1) as (_ & _ & St & _).
      apply (presult_suffix_err _ _ _ _ _ St) in Et as S2.
      destruct (suffix_split _ _ _ S1 S2) as (p1 & q1 & -> & ->).
      destruct (parse_err fuel (q1 ++ l')) as (_ & _ & Het & _).
      apply (presult_err_ok _ _ _ _ _ Het) in Et as He1.
      pose proof (err_agree _ _ t _ _ He1 Ht) as Ha.
      rewrite (retail_factor fuel _ l' t a q1 E Ha). cbn zeta.
      rewrite Ha, Es, (IHt _ _ t _ _ Ht Et). reflexivity.
    + intros [= <- -> <-]. rewrite (IHf _ _ t _ _ Ht E). reflexivity.
  - (* expr *)
    rewrite !parse_expr_S.
    destruct (parse_term fuel (pre ++ l')) as [a l1 | st1 l1 b1 |] eqn:E;
      [| |discriminate].
    + destruct (hd0 l1 =? ch "|")%Z eqn:Eb; [|discriminate].
      destruct (parse_expr fuel (tail l1)) as [r2 l2 | st2 l2 b2 |] eqn:Ee;
        try discriminate.
      intros [= <- -> <-].
      destruct (parse_suffix fuel (pre ++ l')) as (_ & _ & St & _).
      apply (presult_suffix_ok _ _ _ _ St) in E as S1.
      destruct (parse_suffix fuel (tail l1)) as (_ & _ & _ & Se).
      apply (presult_suffix_err _ _ _ _ _ Se) in Ee as S2.
      assert (l' `suffix_of` l1) as S3
          by (etrans; [exact S2 | apply suffix_tail_self]).
      destruct (suffix_split _ _ _ S1 S3) as (p1 & q1 & -> & ->).
      assert (q1 ≠ []) as Hq.
      { intros ->. cbn [app] in *.
        pose proof (hd0_eq_nonzero _ _ Eb ltac:(done)) as Hn.
        exact (not_whole _ _ Hn S2 eq_refl). }
      rewrite (retail_term fuel _ l' t a q1 E)
        by (apply hd0_agree; intros ->; done).
      rewrite hd0_app in Eb by assumption.
      rewrite tail_app in Ee by assumption.
      rewrite hd0_app, Eb, tail_app by assumption.
      rewrite (IHe _ _ t _ _ Ht Ee). reflexivity.
    + intros [= <- -> <-]. rewrite (IHt _ _ t _ _ Ht E). reflexivity.
Qed.

(** ** The offset of an error *)

Lemma peek_after (k : list Z) c rest :
  peek (mkInput (k ++ c :: rest) (length k)) = c.
Proof.
  unfold peek. cbn [str offset].
  rewrite lookup_app_r, Nat.sub_diag by lia. reflexivity.
Qed.

Lemma length_app_sub (k l' : list Z) : length (k ++ l') - length l' = length k.
Proof. rewrite length_app. lia. Qed.

(** The end of a text that ends with a range, after a change of the upper
    end of the range. *)
Lemma range_end_eq (pre pre' mid mid' : list Z) lo lo' hi :
  pre ++ lo :: ch "-" :: mid ++ [hi] = pre' ++ lo' :: ch "-" :: mid' ++ [hi] →
  (mid = [] ∨ mid = [ch "\"]) → (mid' = [] ∨ mid' = [ch "\"]) →
  lo' = lo.
Proof.
  intros H Hm Hm'.
  assert (∀ (a b : list Z) x y, a ++ [x] = b ++ [y] → a = b ∧ x = y) as Hl.
  { intros a b x y Heq. apply app_inj_tail in Heq. exact Heq. }
  assert (∀ (a b : list Z) x y z w,
             a ++ [x; y] = b ++ [z; w] → a = b ∧ x = z ∧ y = w) as Hl2.
  { intros a b x y z w Heq.
    change (a ++ [x; y]) with (a ++ [x] ++ [y]) in Heq.
    change (b ++ [z; w]) with (b ++ [z] ++ [w]) in Heq.
    rewrite !app_assoc in Heq. apply Hl in Heq as [Heq ->].
    apply Hl in Heq as [-> ->]. auto. }
  destruct Hm as [-> | ->], Hm' as [-> | ->]; cbn [app] in H.
  - change (pre ++ [lo; ch "-"; hi]) with (pre ++ [lo] ++ [ch "-"; hi]) in H.
    change (pre' ++ [lo'; ch "-"; hi])
      with (pre' ++ [lo'] ++ [ch "-"; hi]) in H.
    rewrite !app_assoc in H. apply Hl2 in H as (H & _ & _).
    apply Hl in H as [_ ->]. reflexivity.
  - exfalso.
    change (pre ++ [lo; ch "-"; hi]) with (pre ++ [lo] ++ [ch "-"; hi]) in H.
    change (pre' ++ [lo'; ch "-"; ch "\"; hi])
      with (pre' ++ [lo'; ch "-"] ++ [ch "\"; hi]) in H.
    rewrite !app_assoc in H. apply Hl2 in H as (_ & H & _). discriminate.
  - exfalso.
    change (pre ++ [lo; ch "-"; ch "\"; hi])
      with (pre ++ [lo; ch "-"] ++ [ch "\"; hi]) in H.
    change (pre' ++ [lo'; ch "-"; hi])
      with (pre' ++ [lo'] ++ [ch "-"; hi]) in H.
    rewrite !app_assoc in H. apply Hl2 in H as (_ & H & _). discriminate.
  - change (pre ++ [lo; ch "-"; ch "\"; hi])
      with (pre ++ [lo] ++ [ch "-"; ch "\"] ++ [hi]) in H.
    change (pre' ++ [lo'; ch "-"; ch "\"; hi])
      with (pre' ++ [lo'] ++ [ch "-"; ch "\"] ++ [hi]) in H.
    rewrite !app_assoc in H. apply Hl in H as [H _].
    apply Hl2 in H as (H & _ & _). apply Hl in H as [_ ->]. reflexivity.
Qed.

(** The text before the offset of an unordered-range error. *)
Lemma rerex_compile_unordered cs p n :
  rerex_compile cs p = Some (REREX_UNORDERED_RANGE, n, None) →
  ∃ pre lo mid hi,
    take n p = pre ++ lo :: ch "-" :: mid ++ [hi]
    ∧ (mid = [] ∨ mid = [ch "\"]) ∧ (hi < lo)%Z.
Proof.
  intros H.
  destruct (rerex_compile_failure cs p _ n H) as (l' & b & Hp & Hle & ->).
  destruct (parse_suffix (compile_fuel p) p) as (_ & _ & _ & Hs).
  apply (presult_suffix_err _ _ _ _ _ Hs) in Hp as Hk.
  destruct Hk as [k ->].
  destruct (parse_unordered_at (compile_fuel (k ++ l')) (k ++ l'))
    as (_ & _ & _ & Hu).
  rewrite Hp in Hu. destruct (Hu eq_refl) as (pre & lo & mid & hi & Heq & Hm).
  exists pre, lo, mid, hi. split; [|exact Hm].
  rewrite length_app_sub, take_app_length.
  apply (app_inv_tail l').
  rewrite Heq, <- !app_assoc. cbn [app]. rewrite <- !app_assoc. reflexivity.
Qed.

(** A failed compilation fails in the same way on the text before the
    rest that the parser stopped at, followed by any text that starts as
    that rest does; by any text at all, if the parser looks back. *)
Lemma rerex_compile_local cs fuel k l' t st b :
  parse_expr fuel (k ++ l') = RErr st l' b →
  (b = 0 → hd0 t = hd0 l') →
  rerex_compile cs (k ++ t) = Some (st, length k, None).
Proof.
  intros Hp Ht.
  destruct (parse_local fuel k l' t st b Ht) as (_ & _ & _ & Hl).
  rewrite (rerex_compile_err cs _ _ _ _ _ (Hl Hp)), length_app_sub.
  reflexivity.
Qed.

(** C6, as amended.  When compilation fails with a status other than the
    unordered range, the offset returned is the position of the character
    that caused the error: the status is one that is returned for that
    character, the result is the same whatever follows that character,
    and it is another one if the character is replaced by one for which
    the status is not returned.  When it fails with the unordered-range
    status, the offset returned is the position after the upper end of
    the range: the text before the offset ends with the range, whose
    upper end is less than its lower end, the result is the same
    whatever stands from the offset on, and it is another one if the
    upper end is replaced by a character that is not less than the lower
    end.  The patterns [(a], [(] and [?] fail at the offsets 2, 1 and 0,
    and [[z-a]] at the offset 4. *)
Theorem error_offset cs :
  (∀ p st n,
      rerex_compile cs p = Some (st, n, None) →
      n ≤ length p
      ∧ if decide (st = REREX_UNORDERED_RANGE) then
          ∃ pre lo mid hi,
            take n p = pre ++ lo :: ch "-" :: mid ++ [hi]
            ∧ (mid = [] ∨ mid = [ch "\"]) ∧ (hi < lo)%Z
            ∧ (∀ rest,
                  rerex_compile cs (take n p ++ rest) = Some (st, n, None))
            ∧ (∀ hi' rest,
                  (lo <= hi')%Z →
                  rerex_compile cs
                    (pre ++ lo :: ch "-" :: mid ++ hi' :: rest)
                  ≠ Some (st, n, None))
        else
          blamed st (peek (mkInput p n)) = true
          ∧ (∀ rest,
                rerex_compile cs (take n p ++ peek (mkInput p n) :: rest)
                = Some (st, n, None))
          ∧ (∀ c rest,
                blamed st c = false →
                rerex_compile cs (take n p ++ c :: rest)
                ≠ Some (st, n, None)))
  ∧ rerex_compile cs (c_str "(a") = Some (REREX_EXPECTED_RPAREN, 2, None)
  ∧ rerex_compile cs (c_str "(") = Some (REREX_UNEXPECTED_END, 1, None)
  ∧ rerex_compile cs (c_str "?") = Some (REREX_UNEXPECTED_SPECIAL, 0, None)
  ∧ rerex_compile cs (c_str "[z-a]")
    = Some (REREX_UNORDERED_RANGE, 4, None).
Proof.
  split; [|repeat split; destruct cs; reflexivity].
  intros p st n H.
  destruct (rerex_compile_failure cs p st n H) as (l' & b & Hp & Hle & ->).
  destruct (parse_suffix (compile_fuel p) p) as (_ & _ & _ & Hs).
  apply (presult_suffix_err _ _ _ _ _ Hs) in Hp as Hk.
  destruct Hk as [k ->].
  destruct (parse_err (compile_fuel (k ++ l')) (k ++ l')) as (_ & _ & _ & He).
  apply (presult_err_ok _ _ _ _ _ He) in Hp as Hok.
  pose proof (λ t, rerex_compile_local cs _ k l' t st b Hp) as Hloc.
  rewrite length_app_sub in *. rewrite take_app_length.
  split; [rewrite length_app; lia|].
  destruct (decide (st = REREX_UNORDERED_RANGE)) as [-> | Hne].
  - destruct Hok as [(_ & -> & _) | (Hne & _)]; [|done].
    destruct (rerex_compile_unordered cs _ _ H)
      as (pre & lo & mid & hi & Heq & Hm & Hlt).
    rewrite take_app_length in Heq.
    exists pre, lo, mid, hi. do 3 (split; [assumption|]). split.
    + intros rest. apply Hloc. discriminate.
    + intros hi' rest Hle' H'.
      destruct (rerex_compile_unordered cs _ _ H')
        as (pre' & lo' & mid' & hi'' & Heq' & Hm' & Hlt').
      assert (pre ++ lo :: ch "-" :: mid ++ hi' :: rest
              = (pre ++ lo :: ch "-" :: mid ++ [hi']) ++ rest) as Hr.
      { rewrite <- !app_assoc. cbn [app]. rewrite <- !app_assoc.
        reflexivity. }
      assert (length k = length (pre ++ lo :: ch "-" :: mid ++ [hi'])) as Hlen.
      { rewrite Heq, !length_app. cbn [length]. rewrite !length_app.
        reflexivity. }
      rewrite Hr, Hlen, take_app_length in Heq'.
      assert (hi'' = hi') as ->.
      { change (pre ++ lo :: ch "-" :: mid ++ [hi'])
          with (pre ++ (lo :: ch "-" :: mid) ++ [hi']) in Heq'.
        change (pre' ++ lo' :: ch "-" :: mid' ++ [hi''])
          with (pre' ++ (lo' :: ch "-" :: mid') ++ [hi'']) in Heq'.
        rewrite !app_assoc in Heq'. apply app_inj_tail in Heq' as [_ Hh].
        auto. }
      pose proof (range_end_eq _ _ _ _ _ _ _ Heq' Hm Hm') as ->. lia.
  - destruct Hok as [(-> & _) | (_ & -> & Hb)]; [done|].
    assert (peek (mkInput (k ++ l') (length k)) = hd0 l') as ->.
    { rewrite <- (length_app_sub k l'). apply (peek_input_at (k ++ l') l').
      apply suffix_app_r. reflexivity. }
    split; [exact Hb|]. split.
    + intros rest. apply Hloc. intros _. reflexivity.
    + intros c rest Hc H'.
      destruct (rerex_compile_blamed cs _ _ _ H') as (tested & _ & _ & Hd).
      rewrite decide_False in Hd by exact Hne.
      destruct Hd as [_ Hd]. rewrite peek_after in Hd. congruence.
Qed.

Lemma error_offset_witness :
  rerex_compile false (c_str "(a") = Some (REREX_EXPECTED_RPAREN, 2, None)
  ∧ peek (mkInput (c_str "(a") 2) = 0%Z
  ∧ blamed REREX_EXPECTED_RPAREN (peek (mkInput (c_str "(a") 2)) = true
  ∧ (∀ rest,
        rerex_compile false
          (take 2 (c_str "(a") ++ peek (mkInput (c_str "(a") 2) :: rest)
        = Some (REREX_EXPECTED_RPAREN, 2, None))
  ∧ (∀ c rest,
        blamed REREX_EXPECTED_RPAREN c = false →
        rerex_compile false (take 2 (c_str "(a") ++ c :: rest)
        ≠ Some (REREX_EXPECTED_RPAREN, 2, None)).
Proof.
  assert (rerex_compile false (c_str "(a")
          = Some (REREX_EXPECTED_RPAREN, 2, None)) as Hc by reflexivity.
  split; [exact Hc|]. split; [reflexivity|].
  destruct (error_offset false) as [H _].
  destruct (H (c_str "(a") REREX_EXPECTED_RPAREN 2 Hc) as [_ H2].
  exact H2.
Defined.

(** C6, as stated, fails: compiling [[z-a]] fails with the
    unordered-range status and the offset 4, the position of the closing
    bracket.  That character has no part in the error: the result is the
    same whatever stands from the offset 4 on.  The character whose
    reading makes the range unordered is the upper end, at the offset 3:
    with [z] in its place the pattern compiles. *)
Lemma error_offset_counterexample :
  rerex_compile false (c_str "[z-a]") = Some (REREX_UNORDERED_RANGE, 4, None)
  ∧ c_str "[z-a]" !! 3 = Some (ch "a")
  ∧ c_str "[z-a]" !! 4 = Some (ch "]")
  ∧ (∀ rest, rerex_compile false (take 4 (c_str "[z-a]") ++ rest)
             = Some (REREX_UNORDERED_RANGE, 4, None))
  ∧ ∃ pat, rerex_compile false (c_str "[z-z]")
           = Some (REREX_SUCCESS, 5, Some pat).
Proof.
  split; [reflexivity|]. split; [reflexivity|]. split; [reflexivity|].
  split; [|eexists; reflexivity].
  intros rest.
  apply (rerex_compile_local false 4 (c_str "[z-a") [ch "]"] rest
           REREX_UNORDERED_RANGE 1); [reflexivity | discriminate].
Qed.

(** ** Unordered ranges in any set of a pattern *)




(** *** The ends of a range *)







(** ** The signedness of [char] *)

(** *** Characters that are read alike *)

Lemma canon_eqb c k :
  canon k = k → k ≠ (-1)%Z → (canon c =? k)%Z = (c =? k)%Z.
Proof.
  unfold canon. intros Hk Hn.
  destruct ((c =? 0)%Z || ((cmin <=? c)%Z && (c <=? cmax)%Z)) eqn:E;
    [reflexivity|].
  destruct ((k =? 0)%Z || ((cmin <=? k)%Z && (k <=? cmax)%Z)) eqn:Ek;
    [|congruence].
  destruct (Z.eqb_spec c k) as [-> | Hne]; [congruence|].
  apply Z.eqb_neq. congruence.
Qed.

Lemma canon_normal c :
  ((cmin <=? canon c)%Z && (canon c <=? cmax)%Z)
  = ((cmin <=? c)%Z && (c <=? cmax)%Z).
Proof.
  unfold canon.
  destruct ((cmin <=? c)%Z && (c <=? cmax)%Z) eqn:E;
    [rewrite orb_true_r, E; reflexivity|].
  rewrite orb_false_r. destruct (c =? 0)%Z eqn:E0; [exact E | reflexivity].
Qed.

Lemma canon_id_normal c :
  ((cmin <=? c)%Z && (c <=? cmax)%Z) = true → canon c = c.
Proof. unfold canon. intros ->. rewrite orb_true_r. reflexivity. Qed.

Lemma canon_special c : is_special (canon c) = is_special c.
Proof. unfold is_special. rewrite !canon_eqb by done. reflexivity. Qed.

Lemma canon_id_special c : is_special c = true → canon c = c.
Proof.
  unfold is_special. intros H.
  repeat (apply orb_prop in H as [H | H]);
    apply Z.eqb_eq in H; subst c; reflexivity.
Qed.

Lemma canon_id_eqb c k : (c =? k)%Z = true → canon k = k → canon c = c.
Proof. intros H Hk. apply Z.eqb_eq in H. subst c. exact Hk. Qed.

Lemma hd0_canon l : hd0 (map canon l) = canon (hd0 l).
Proof. destruct l; reflexivity. Qed.

Lemma hd1_canon l : hd1 (map canon l) = canon (hd1 l).
Proof. destruct l as [|a [|b l]]; reflexivity. Qed.

Lemma tail_canon l : tail (map canon l) = map canon (tail l).
Proof. destruct l; reflexivity. Qed.

Ltac canon_tests :=
  rewrite ?hd0_canon, ?hd1_canon, ?tail_canon, ?hd0_canon, ?hd1_canon,
    ?canon_special, ?canon_normal, ?canon_eqb by done.

Lemma parse_char_canon l :
  parse_char (map canon l) = pchar_canon (parse_char l).
Proof.
  unfold parse_char, parse_escape. cbv zeta. canon_tests.
  destruct (hd0 l =? 0)%Z; [reflexivity|].
  destruct (hd0 l =? ch "\")%Z.
  { destruct (is_special (hd0 (tail l)) || (hd0 (tail l) =? ch "-")%Z)
      eqn:E; [|reflexivity].
    cbn [pchar_canon]. f_equal.
    apply orb_prop in E as [E | E];
      [apply canon_id_special, E | eapply canon_id_eqb; eauto]. }
  destruct (is_special (hd0 l)); [reflexivity|].
  destruct ((cmin <=? hd0 l)%Z && (hd0 l <=? cmax)%Z) eqn:E; [|reflexivity].
  cbn [pchar_canon]. f_equal. apply canon_id_normal, E.
Qed.

Lemma parse_element_canon l :
  parse_element (map canon l) = pchar_canon (parse_element l).
Proof.
  unfold parse_element. cbv zeta. canon_tests.
  destruct (hd0 l =? 0)%Z; [reflexivity|].
  destruct (hd0 l =? ch "]")%Z; [reflexivity|].
  destruct (hd0 l =? ch "\")%Z.
  { destruct (negb (hd0 (tail l) =? ch "]")%Z) eqn:E; [reflexivity|].
    cbn [pchar_canon]. f_equal. apply negb_false_iff in E.
    eapply canon_id_eqb; eauto. }
  destruct ((cmin <=? hd0 l)%Z && (hd0 l <=? cmax)%Z) eqn:E; [|reflexivity].
  cbn [pchar_canon]. f_equal. apply canon_id_normal, E.
Qed.

Lemma parse_range_canon l :
  parse_range (map canon l) = presult_canon (parse_range l).
Proof.
  unfold parse_range. rewrite parse_element_canon.
  destruct (parse_element l) as [lo l1 | st l1 b]; [|reflexivity].
  cbn [pchar_canon]. canon_tests.
  destruct ((hd0 l1 =? ch "-")%Z && negb (hd1 l1 =? ch "]")%Z).
  - rewrite parse_element_canon.
    destruct (parse_element (tail l1)) as [hi l2 | st l2 b]; [|reflexivity].
    cbn [pchar_canon]. destruct (hi <? lo)%Z; reflexivity.
  - destruct (lo <? lo)%Z; reflexivity.
Qed.

Lemma parse_set_loop_canon fuel :
  ∀ l, parse_set_loop fuel (map canon l)
       = presult_canon (parse_set_loop fuel l).
Proof.
  induction fuel as [|fuel IH]; intros l; cbn [parse_set_loop]; canon_tests;
    (destruct (hd0 l =? ch "]")%Z; [reflexivity|]); [reflexivity|].
  rewrite parse_range_canon.
  destruct (parse_range l) as [r l1 | st l1 b |]; try reflexivity.
  cbn [presult_canon]. rewrite IH.
  destruct (parse_set_loop fuel l1); reflexivity.
Qed.

Lemma parse_set_canon fuel l :
  parse_set fuel (map canon l) = presult_canon (parse_set fuel l).
Proof.
  unfold parse_set. canon_tests.
  destruct (hd0 l =? ch "^")%Z; rewrite parse_range_canon.
  - destruct (parse_range (tail l)) as [r l1 | st l1 b |]; try reflexivity.
    cbn [presult_canon]. rewrite parse_set_loop_canon.
    destruct (parse_set_loop fuel l1); reflexivity.
  - destruct (parse_range l) as [r l1 | st l1 b |]; try reflexivity.
    cbn [presult_canon]. rewrite parse_set_loop_canon.
    destruct (parse_set_loop fuel l1); reflexivity.
Qed.

(** The parser reads a text as it reads the text of the characters that
    are read alike. *)
Lemma parse_canon fuel :
  ∀ l,
    parse_atom fuel (map canon l) = presult_canon (parse_atom fuel l)
    ∧ parse_factor fuel (map canon l) = presult_canon (parse_factor fuel l)
    ∧ parse_term fuel (map canon l) = presult_canon (parse_term fuel l)
    ∧ parse_expr fuel (map canon l) = presult_canon (parse_expr fuel l).
Proof.
  induction fuel as [|fuel IH]; intros l; [repeat split; reflexivity|].
  assert (∀ l, parse_atom fuel (map canon l)
               = presult_canon (parse_atom fuel l)) as IHa by apply IH.
  assert (∀ l, parse_factor fuel (map canon l)
               = presult_canon (parse_factor fuel l)) as IHf by apply IH.
  assert (∀ l, parse_term fuel (map canon l)
               = presult_canon (parse_term fuel l)) as IHt by apply IH.
  assert (∀ l, parse_expr fuel (map canon l)
               = presult_canon (parse_expr fuel l)) as IHe by apply IH.
  clear IH. repeat split.
  - rewrite !parse_atom_S. cbv zeta. canon_tests.
    destruct (hd0 l =? ch "(")%Z.
    { rewrite IHe.
      destruct (parse_expr fuel (tail l)) as [r l1 | st l1 b |];
        try reflexivity.
      cbn [presult_canon]. canon_tests.
      destruct (negb (hd0 l1 =? ch ")")%Z); reflexivity. }
    destruct (hd0 l =? ch ".")%Z; [reflexivity|].
    destruct (hd0 l =? ch "[")%Z.
    { rewrite parse_set_canon.
      destruct (parse_set fuel (tail l)) as [r l1 | st l1 b |];
        try reflexivity.
      cbn [presult_canon]. canon_tests. reflexivity. }
    rewrite parse_char_canon.
    destruct (parse_char l) as [c l1 | st l1 b]; reflexivity.
  - rewrite !parse_factor_S, IHa.
    destruct (parse_atom fuel l) as [r l1 | st l1 b |]; try reflexivity.
    cbn [presult_canon]. cbv zeta. canon_tests.
    destruct (hd0 l1 =? ch "*")%Z; [reflexivity|].
    destruct (hd0 l1 =? ch "+")%Z; [reflexivity|].
    destruct (hd0 l1 =? ch "?")%Z; reflexivity.
  - rewrite !parse_term_S, IHf.
    destruct (parse_factor fuel l) as [r l1 | st l1 b |]; try reflexivity.
    cbn [presult_canon]. cbv zeta. canon_tests.
    destruct ((hd0 l1 =? 0)%Z || (hd0 l1 =? ch ")")%Z
              || (hd0 l1 =? ch "|")%Z); [reflexivity|].
    rewrite IHt. destruct (parse_term fuel l1); reflexivity.
  - rewrite !parse_expr_S, IHt.
    destruct (parse_term fuel l) as [r l1 | st l1 b |]; try reflexivity.
    cbn [presult_canon]. canon_tests.
    destruct (hd0 l1 =? ch "|")%Z; [|reflexivity].
    rewrite IHe. destruct (parse_expr fuel (tail l1)); reflexivity.
Qed.

Lemma rerex_compile_canon cs p :
  rerex_compile cs (map canon p) = rerex_compile cs p.
Proof.
  destruct (parse_canon (compile_fuel p) p) as (_ & _ & _ & Hc).
  assert (compile_fuel (map canon p) = compile_fuel p) as Hf
      by (unfold compile_fuel; rewrite length_map; reflexivity).
  pose proof (parse_expr_compile_settled p) as Hs.
  destruct (parse_expr (compile_fuel p) p) as [r l' | st l' b |] eqn:E;
    [| |done]; cbn [presult_canon] in Hc; rewrite <- Hf in Hc.
  - rewrite (rerex_compile_tree_intro cs _ _ _ Hc),
      (rerex_compile_tree_intro cs _ _ _ E), !length_map.
    reflexivity.
  - rewrite (rerex_compile_error cs _ _ _ _ Hc),
      (rerex_compile_error cs _ _ _ _ E), !length_map.
    reflexivity.
Qed.

(** The result of [rerex_compile] on a text of characters does not
    depend on the conversions of the ends of a negated range, which stay
    within the values that both kinds of [char] have. *)
Lemma rerex_compile_cs p : rerex_compile true p = rerex_compile false p.
Proof.
  unfold rerex_compile. rewrite !parse_pattern_parse.
  pose proof (parse_wf (compile_fuel p) p) as (_ & _ & _ & Hwf).
  destruct (parse_expr (compile_fuel p) p) as [r l | st l b |];
    cbn [lift]; try reflexivity.
  rewrite (build_cs true false r Hwf). reflexivity.
Qed.

(** *** Texts *)

Lemma until_nul_canon s : until_nul (map canon s) = map canon (until_nul s).
Proof.
  induction s as [|c s IH]; [reflexivity|]. cbn [map until_nul].
  rewrite canon_eqb by done. destruct (c =? 0)%Z; [reflexivity|].
  cbn [map]. rewrite IH. reflexivity.
Qed.

Lemma canon_normal_id c : normal (canon c) → canon c = c.
Proof.
  unfold normal, canon, cmin, cmax.
  destruct ((c =? 0)%Z || ((32 <=? c)%Z && (c <=? 126)%Z)); [reflexivity|].
  lia.
Qed.

Lemma normal_canon_id c : normal c → canon c = c.
Proof.
  unfold normal. intros [H1 H2]. apply canon_id_normal.
  apply andb_true_intro. split; apply Z.leb_le; assumption.
Qed.

Lemma map_canon_normal w : Forall normal (map canon w) → map canon w = w.
Proof.
  induction w as [|c w IH]; [reflexivity|]. cbn [map]. intros H.
  apply Forall_cons in H as [Hc Hw]. rewrite (canon_normal_id c Hc), IH;
    auto.
Qed.

Lemma map_canon_id w : Forall normal w → map canon w = w.
Proof.
  induction 1 as [|c w Hc _ IH]; [reflexivity|]. cbn [map].
  rewrite (normal_canon_id c Hc), IH. reflexivity.
Qed.

Lemma verdict_canon SIZE_MAX cs r s :
  regex_wf r → (N.of_nat (length s) < SIZE_MAX)%N →
  verdict SIZE_MAX (pattern_of cs r) (map canon s)
  = verdict SIZE_MAX (pattern_of cs r) s.
Proof.
  intros Hwf Hmax.
  destruct (verdict_tree SIZE_MAX cs r s Hwf Hmax) as (b & -> & Hb).
  destruct (verdict_tree SIZE_MAX cs r (map canon s) Hwf) as (b' & -> & Hb');
    [rewrite length_map; exact Hmax|].
  f_equal. rewrite until_nul_canon in Hb'.
  assert (denote r (map canon (until_nul s)) ↔ denote r (until_nul s)) as Hd.
  { split; intros H.
    - pose proof (denote_normal r _ Hwf H) as Hn.
      rewrite (map_canon_normal _ Hn) in H. exact H.
    - pose proof (denote_normal r _ Hwf H) as Hn.
      rewrite (map_canon_id _ Hn). exact H. }
  destruct b, b'; try reflexivity; intuition discriminate.
Qed.

(** *** Bytes *)

(** The value of a [char] that holds the byte [b]. *)
Lemma canon_char_cast b :
  (0 <= b <= 255)%Z → canon (char_cast true b) = canon (char_cast false b).
Proof.
  intros Hb. unfold char_cast.
  rewrite (Z.mod_small b 256) by lia.
  destruct (Z_lt_le_dec b 128) as [Hlt | Hge].
  - rewrite (Z.mod_small (b + 128) 256) by lia. f_equal. lia.
  - replace ((b + 128) mod 256)%Z with (b - 128)%Z.
    + unfold canon, cmin, cmax.
      destruct (Z.eqb_spec (b - 128 - 128) 0); [lia|].
      destruct (Z.eqb_spec b 0); [lia|].
      destruct (Z.leb_spec 32 (b - 128 - 128)); [lia|].
      destruct (Z.leb_spec b 126); [lia|].
      cbn [orb andb]. rewrite andb_false_r. reflexivity.
    + rewrite <- (Z.mod_small (b - 128) 256) at 1 by lia.
      replace (b + 128)%Z with (b - 128 + 1 * 256)%Z by lia.
      rewrite Z.mod_add by lia. reflexivity.
Qed.

Lemma map_canon_char_cast bs :
  Forall (λ b, (0 <= b <= 255)%Z) bs →
  map canon (map (char_cast true) bs) = map canon (map (char_cast false) bs).
Proof.
  induction 1 as [|b bs Hb _ IH]; [reflexivity|]. cbn [map].
  rewrite (canon_char_cast b Hb), IH. reflexivity.
Qed.

(** X16. The results of [rerex_compile] and of [rerex_match] do not
    depend on whether plain [char] is signed: a pattern of bytes compiles
    to the same status, offset and pattern if its bytes are read as
    signed characters and if they are read as unsigned characters, and
    the pattern gives the same verdict on a text of bytes read in the one
    way and in the other. *)
Theorem char_signedness_irrelevant SIZE_MAX (bytes text : list Z) :
  Forall (λ b, (0 <= b <= 255)%Z) bytes →
  Forall (λ b, (0 <= b <= 255)%Z) text →
  (N.of_nat (length text) < SIZE_MAX)%N →
  rerex_compile true (map (char_cast true) bytes)
  = rerex_compile false (map (char_cast false) bytes)
  ∧ ∀ n pat,
      rerex_compile false (map (char_cast false) bytes)
      = Some (REREX_SUCCESS, n, Some pat) →
      verdict SIZE_MAX pat (map (char_cast true) text)
      = verdict SIZE_MAX pat (map (char_cast false) text).
Proof.
  intros Hb Ht Hmax. split.
  - rewrite rerex_compile_cs.
    rewrite <- (rerex_compile_canon false (map (char_cast true) bytes)),
      <- (rerex_compile_canon false (map (char_cast false) bytes)).
    rewrite (map_canon_char_cast bytes Hb). reflexivity.
  - intros n pat H.
    destruct (rerex_compile_tree false _ n pat H) as (r & l' & _ & Hwf & _ & ->).
    rewrite <- (verdict_canon SIZE_MAX false r (map (char_cast true) text)),
      <- (verdict_canon SIZE_MAX false r (map (char_cast false) text))
      by (try assumption; rewrite length_map; exact Hmax).
    rewrite (map_canon_char_cast text Ht). reflexivity.
Qed.

Lemma char_signedness_irrelevant_witness :
  map (char_cast true) [97; 233]%Z = [97; -23]%Z
  ∧ map (char_cast false) [97; 233]%Z = [97; 233]%Z
  ∧ rerex_compile true (map (char_cast true) [91; 233; 93]%Z)
    = Some (REREX_EXPECTED_ELEMENT, 1, None)
  ∧ rerex_compile false (map (char_cast false) [91; 233; 93]%Z)
    = Some (REREX_EXPECTED_ELEMENT, 1, None)
  ∧ rerex_compile true (map (char_cast true) [97; 46]%Z)
    = rerex_compile false (map (char_cast false) [97; 46]%Z)
  ∧ ∀ n pat,
      rerex_compile false (map (char_cast false) [97; 46]%Z)
      = Some (REREX_SUCCESS, n, Some pat) →
      verdict (2 ^ 64 - 1) pat (map (char_cast true) [97; 233]%Z)
      = verdict (2 ^ 64 - 1) pat (map (char_cast false) [97; 233]%Z).
Proof.
  do 4 (split; [reflexivity|]).
  apply (char_signedness_irrelevant (2 ^ 64 - 1) [97; 46]%Z [97; 233]%Z).
  - repeat constructor; lia.
  - repeat constructor; lia.
  - reflexivity.
Defined.
